(** * The transposed chunk encoder of riegeli

    A shallow embedding of [riegeli/chunk_encoding/transpose_encoder.cc]:
    the canonical-protobuf validator, record ingestion, transition
    statistics, state-machine construction, the bucket packer and the
    transition encoder, with the properties the specification states
    about them. *)

From Stdlib Require Import ZArith Lia.
From Stdlib.Strings Require Import Byte.
From stdpp Require Import gmap list.

Local Open Scope Z_scope.

(** ** Bytes and fixed-width integers *)

Definition byte_val (b : byte) : Z := Z.of_N (Byte.to_N b).

Definition Z_to_byte (z : Z) : byte :=
  default x00 (Byte.of_N (Z.to_N (z mod 256))).

Definition wrap32 (z : Z) : Z := z mod 2 ^ 32.
Definition wrap64 (z : Z) : Z := z mod 2 ^ 64.
Definition wrap8 (z : Z) : Z := z mod 2 ^ 8.

(** [std::numeric_limits<uint32_t>::max()] *)
Definition kInvalidPos : Z := 2 ^ 32 - 1.
Definition kMaxVarintInline : Z := 3.
Definition kMaxRecursionDepth : Z := 100.

Definition uint64_max : Z := 2 ^ 64 - 1.

(** ** Reader primitives

    A [Reader] positioned inside a record is modelled by the bytes that
    remain between its cursor and its size limit. [Pull] succeeds when at
    least one byte remains; [Skip n] needs [n] remaining bytes. *)

Definition Pull (src : list byte) : bool :=
  match src with [] => false | _ :: _ => true end.

Definition Skip (n : Z) (src : list byte) : option (list byte) :=
  if n <=? Z.of_nat (length src) then Some (drop (Z.to_nat n) src) else None.

(** Modelled from the spec: the variable-length integer readers of
    [riegeli/bytes/reader_utils.h] are not part of the sources at hand. A
    varint is a little-endian sequence of 7-bit groups, every byte but the
    last carrying the continuation bit [0x80]. [canonical] rejects a
    redundant continuation, that is, an encoding of more than one byte
    whose last byte is zero. *)
Fixpoint read_varint (canonical : bool) (max_len : nat) (src : list byte)
  : option (Z * list byte) :=
  match max_len, src with
  | S n, b :: src' =>
      if byte_val b <? 128 then Some (byte_val b, src')
      else
        match src' with
        | b' :: _ =>
            if canonical && (byte_val b' =? 0) then None
            else
              match read_varint canonical n src' with
              | Some (v, rest) => Some (byte_val b - 128 + 128 * v, rest)
              | None => None
              end
        | [] => None
        end
  | _, _ => None
  end.

Definition kMaxLengthVarint32 : nat := 5.
Definition kMaxLengthVarint64 : nat := 10.

Definition ReadVarint32 (src : list byte) : option (Z * list byte) :=
  match read_varint false kMaxLengthVarint32 src with
  | Some (v, rest) => if v <? 2 ^ 32 then Some (v, rest) else None
  | None => None
  end.

Definition ReadCanonicalVarint32 (src : list byte) : option (Z * list byte) :=
  match read_varint true kMaxLengthVarint32 src with
  | Some (v, rest) => if v <? 2 ^ 32 then Some (v, rest) else None
  | None => None
  end.

Definition ReadCanonicalVarint64 (src : list byte) : option (Z * list byte) :=
  match read_varint true kMaxLengthVarint64 src with
  | Some (v, rest) => if v <? 2 ^ 64 then Some (v, rest) else None
  | None => None
  end.

(** ** The canonical-protobuf validator *)

(** One iteration of the [while (record->Pull())] loop of
    [IsProtoMessage]: [None] is [return false]. The vector
    [started_groups] is kept with its back at the head of the list. *)
Definition IsProtoMessage_step (record : list byte) (started_groups : list Z)
  : option (list byte * list Z) :=
  match ReadCanonicalVarint32 record with
  | None => None
  | Some (tag, record) =>
      let field := Z.shiftr tag 3 in
      if field =? 0 then None
      else
        match Z.land tag 7 with
        | 0 => (* kVarint *)
            match ReadCanonicalVarint64 record with
            | Some (_, record) => Some (record, started_groups)
            | None => None
            end
        | 5 => (* kFixed32 *)
            match Skip 4 record with
            | Some record => Some (record, started_groups)
            | None => None
            end
        | 1 => (* kFixed64 *)
            match Skip 8 record with
            | Some record => Some (record, started_groups)
            | None => None
            end
        | 2 => (* kLengthDelimited *)
            match ReadCanonicalVarint32 record with
            | Some (length, record) =>
                match Skip length record with
                | Some record => Some (record, started_groups)
                | None => None
                end
            | None => None
            end
        | 3 => (* kStartGroup *)
            Some (record, field :: started_groups)
        | 4 => (* kEndGroup *)
            match started_groups with
            | back :: groups =>
                if back =? field then Some (record, groups) else None
            | [] => None
            end
        | _ => None
        end
  end.

(** The loop itself; every iteration consumes a byte, so the number of
    remaining bytes bounds the number of iterations. [None] only when the
    iteration bound is too small. *)
Fixpoint IsProtoMessage_loop (fuel : nat) (record : list byte)
    (started_groups : list Z) : option bool :=
  if Pull record then
    match fuel with
    | O => None
    | S fuel =>
        match IsProtoMessage_step record started_groups with
        | None => Some false
        | Some (record, started_groups) =>
            IsProtoMessage_loop fuel record started_groups
        end
    end
  else Some (bool_decide (started_groups = [])).

Definition IsProtoMessage (record : list byte) : bool :=
  match IsProtoMessage_loop (length record) record [] with
  | Some b => b
  | None => false
  end.

(** ** What a canonical message is, in the words of the specification

    A message is a sequence of wire entries. Each entry is written as its
    tag [(field << 3) | wire_type] in the minimal varint encoding,
    followed by the payload of its wire type. *)

Inductive WireEntry :=
  | EVarint (field value : Z)
  | EFixed32 (field : Z) (payload : list byte)
  | EFixed64 (field : Z) (payload : list byte)
  | ELengthDelimited (field : Z) (payload : list byte)
  | EStartGroup (field : Z)
  | EEndGroup (field : Z).

(** The minimal encoding of [v]: seven bits per byte, least significant
    group first, no byte after the last non-zero group. *)
Fixpoint minimal_varint (fuel : nat) (v : Z) : list byte :=
  match fuel with
  | O => []
  | S fuel =>
      if v <? 128 then [Z_to_byte v]
      else Z_to_byte (128 + v mod 128) :: minimal_varint fuel (v / 128)
  end.

Definition canonical_varint (v : Z) : list byte := minimal_varint 10 v.

Definition entry_field (e : WireEntry) : Z :=
  match e with
  | EVarint f _ | EFixed32 f _ | EFixed64 f _ | ELengthDelimited f _
  | EStartGroup f | EEndGroup f => f
  end.

Definition entry_wire_type (e : WireEntry) : Z :=
  match e with
  | EVarint _ _ => 0
  | EFixed64 _ _ => 1
  | ELengthDelimited _ _ => 2
  | EStartGroup _ => 3
  | EEndGroup _ => 4
  | EFixed32 _ _ => 5
  end.

Definition entry_tag (e : WireEntry) : Z :=
  Z.lor (Z.shiftl (entry_field e) 3) (entry_wire_type e).

Definition entry_payload (e : WireEntry) : list byte :=
  match e with
  | EVarint _ v => canonical_varint v
  | EFixed32 _ p | EFixed64 _ p => p
  | ELengthDelimited _ p => canonical_varint (Z.of_nat (length p)) ++ p
  | EStartGroup _ | EEndGroup _ => []
  end.

Definition serialize_entry (e : WireEntry) : list byte :=
  canonical_varint (entry_tag e) ++ entry_payload e.

Definition serialize (es : list WireEntry) : list byte :=
  concat (map serialize_entry es).

(** Field numbers start at 1 and the tag is a 32-bit value; varint values
    are 64-bit, lengths 32-bit, fixed payloads 4 and 8 bytes. *)
Definition entry_wf (e : WireEntry) : Prop :=
  1 <= entry_field e /\ entry_tag e < 2 ^ 32 /\
  match e with
  | EVarint _ v => 0 <= v < 2 ^ 64
  | EFixed32 _ p => length p = 4%nat
  | EFixed64 _ p => length p = 8%nat
  | ELengthDelimited _ p => Z.of_nat (length p) < 2 ^ 32
  | EStartGroup _ | EEndGroup _ => True
  end.

(** Start-group and end-group entries nest with matching field numbers;
    [open] lists the groups open so far, innermost first. An end-group
    entry closes the innermost open group and must carry its field. *)
Definition group_step (e : WireEntry) (open : list Z) : option (list Z) :=
  match e with
  | EStartGroup f => Some (f :: open)
  | EEndGroup f =>
      match open with
      | g :: open => if g =? f then Some open else None
      | [] => None
      end
  | _ => Some open
  end.

Fixpoint groups_nest (es : list WireEntry) (open : list Z) : Prop :=
  match es with
  | [] => open = []
  | e :: es =>
      match group_step e open with
      | Some open => groups_nest es open
      | None => False
      end
  end.

Definition canonical_message (record : list byte) : Prop :=
  exists es : list WireEntry,
    Forall entry_wf es /\ groups_nest es [] /\ record = serialize es.

(** ** The encoder's data

    Modelled from the spec: the reserved message ids, the subtypes and the
    buffer kinds are declared in [transpose_internal.h] and
    [transpose_encoder.h], which are not part of the sources at hand. The
    reserved ids come first and user message ids follow [kRoot]; the
    subtypes of one wire type are numbered from 0. *)

Definition kNoOp : Z := 0.
Definition kNonProto : Z := 1.
Definition kStartOfMessage : Z := 2.
Definition kStartOfSubmessage : Z := 3.
Definition kRoot : Z := 4.

Definition kTrivial : Z := 0.
Definition kVarint1 : Z := 0.
Definition kVarintInline0 : Z := 10.
Definition kLengthDelimitedString : Z := 0.
Definition kLengthDelimitedStartOfSubmessage : Z := 1.
Definition kLengthDelimitedEndOfSubmessage : Z := 2.

Inductive BufferType := kVarint | kFixed32 | kFixed64 | kString | kNonProtoBuf.

Definition buffer_type_index (t : BufferType) : nat :=
  match t with
  | kVarint => 0 | kFixed32 => 1 | kFixed64 => 2 | kString => 3
  | kNonProtoBuf => 4
  end%nat.

Definition kNumBufferTypes : nat := 5.

(** [NodeId] is the pair [(parent_message_id, tag)]. *)
Definition NodeId : Type := Z * Z.

(** [MessageNode]: the [writer] of a node, once created, refers to one
    buffer of [data_], named here by its kind and its position. *)
Record MessageNode := mkMessageNode {
  writer : option (nat * nat);
  message_id : Z;
  encoded_tag_pos : list Z
}.

Record DestInfo := mkDestInfo {
  pos : Z;
  num_transitions : Z
}.

(** [DestInfo::DestInfo()] *)
Definition DestInfo_default : DestInfo :=
  {| pos := kInvalidPos; num_transitions := 0 |}.

Record EncodedTagInfo := mkEncodedTagInfo {
  node_id : NodeId;
  subtype : Z;
  dest_info : gmap Z DestInfo;
  num_incoming_transitions : Z;
  state_machine_pos : Z;
  public_list_noop_pos : Z;
  base : Z
}.

(** [EncodedTagInfo::EncodedTagInfo(node_id, subtype)] *)
Definition EncodedTagInfo_new (n : NodeId) (s : Z) : EncodedTagInfo :=
  {| node_id := n; subtype := s; dest_info := ∅;
     num_incoming_transitions := 0; state_machine_pos := kInvalidPos;
     public_list_noop_pos := kInvalidPos; base := kInvalidPos |}.

Record BufferWithMetadata := mkBuffer {
  buffer : list byte;
  buffer_node_id : NodeId
}.

Record StateInfo := mkStateInfo {
  etag_index : Z;
  state_base : Z;
  canonical_source : Z
}.

(** [StateInfo::StateInfo()] and [StateInfo::StateInfo(etag_index, base)] *)
Definition StateInfo_default : StateInfo :=
  {| etag_index := kInvalidPos; state_base := kInvalidPos;
     canonical_source := kInvalidPos |}.
Definition StateInfo_new (etag base : Z) : StateInfo :=
  {| etag_index := etag; state_base := base; canonical_source := kInvalidPos |}.

(** Modelled from the spec: the health of the encoder is kept by its base
    class [Object] ([base/object.h], not part of the sources at hand). An
    object is healthy until it fails or is closed; [Fail] records the
    error and returns false. *)
Inductive StatusCode := kResourceExhausted | kUnknown.
Inductive ObjectState := kOpen | kFailed (code : StatusCode) | kClosed.

Record Encoder := mkEncoder {
  state_ : ObjectState;
  num_records_ : Z;
  decoded_data_size_ : Z;
  tags_list_ : list EncodedTagInfo;
  encoded_tags_ : list Z;
  data_ : list (list BufferWithMetadata);
  group_stack_ : list Z;
  message_nodes_ : gmap NodeId MessageNode;
  nonproto_lengths_writer_ : list byte;
  next_message_id_ : Z
}.

(** The encoder after construction or [Reset]. *)
Definition Encoder_new : Encoder :=
  {| state_ := kOpen; num_records_ := 0; decoded_data_size_ := 0;
     tags_list_ := []; encoded_tags_ := [];
     data_ := replicate kNumBufferTypes [];
     group_stack_ := []; message_nodes_ := ∅;
     nonproto_lengths_writer_ := []; next_message_id_ := kRoot + 1 |}.

Definition healthy (e : Encoder) : bool :=
  match state_ e with kOpen => true | _ => false end.

Definition set_state (s : ObjectState) (e : Encoder) : Encoder :=
  mkEncoder s (num_records_ e) (decoded_data_size_ e) (tags_list_ e)
    (encoded_tags_ e) (data_ e) (group_stack_ e) (message_nodes_ e)
    (nonproto_lengths_writer_ e) (next_message_id_ e).
Definition set_counters (n d : Z) (e : Encoder) : Encoder :=
  mkEncoder (state_ e) n d (tags_list_ e)
    (encoded_tags_ e) (data_ e) (group_stack_ e) (message_nodes_ e)
    (nonproto_lengths_writer_ e) (next_message_id_ e).
Definition set_tags_list (t : list EncodedTagInfo) (e : Encoder) : Encoder :=
  mkEncoder (state_ e) (num_records_ e) (decoded_data_size_ e) t
    (encoded_tags_ e) (data_ e) (group_stack_ e) (message_nodes_ e)
    (nonproto_lengths_writer_ e) (next_message_id_ e).
Definition set_encoded_tags (t : list Z) (e : Encoder) : Encoder :=
  mkEncoder (state_ e) (num_records_ e) (decoded_data_size_ e) (tags_list_ e)
    t (data_ e) (group_stack_ e) (message_nodes_ e)
    (nonproto_lengths_writer_ e) (next_message_id_ e).
Definition set_data (d : list (list BufferWithMetadata)) (e : Encoder)
  : Encoder :=
  mkEncoder (state_ e) (num_records_ e) (decoded_data_size_ e) (tags_list_ e)
    (encoded_tags_ e) d (group_stack_ e) (message_nodes_ e)
    (nonproto_lengths_writer_ e) (next_message_id_ e).
Definition set_group_stack (g : list Z) (e : Encoder) : Encoder :=
  mkEncoder (state_ e) (num_records_ e) (decoded_data_size_ e) (tags_list_ e)
    (encoded_tags_ e) (data_ e) g (message_nodes_ e)
    (nonproto_lengths_writer_ e) (next_message_id_ e).
Definition set_message_nodes (m : gmap NodeId MessageNode) (next : Z)
    (e : Encoder) : Encoder :=
  mkEncoder (state_ e) (num_records_ e) (decoded_data_size_ e) (tags_list_ e)
    (encoded_tags_ e) (data_ e) (group_stack_ e) m
    (nonproto_lengths_writer_ e) next.
Definition set_nonproto_lengths (w : list byte) (e : Encoder) : Encoder :=
  mkEncoder (state_ e) (num_records_ e) (decoded_data_size_ e) (tags_list_ e)
    (encoded_tags_ e) (data_ e) (group_stack_ e) (message_nodes_ e)
    w (next_message_id_ e).

(** [Fail(status)]: the encoder becomes unhealthy; the call returns false. *)
Definition Fail (code : StatusCode) (e : Encoder) : Encoder :=
  set_state (kFailed code) e.

(** ** Nodes, encoded tags and buffers *)

(** [GetNode]: the node of [node_id], created with the next free message
    id when it is met for the first time. *)
Definition GetNode (id : NodeId) (e : Encoder) : Encoder :=
  match message_nodes_ e !! id with
  | Some _ => e
  | None =>
      set_message_nodes
        (<[id := mkMessageNode None (next_message_id_ e) []]>
           (message_nodes_ e))
        (wrap32 (next_message_id_ e + 1)) e
  end.

Definition node_of (id : NodeId) (e : Encoder) : MessageNode :=
  default (mkMessageNode None 0 []) (message_nodes_ e !! id).

Definition update_node (id : NodeId) (n : MessageNode) (e : Encoder)
  : Encoder :=
  set_message_nodes (<[id := n]> (message_nodes_ e)) (next_message_id_ e) e.

(** [std::vector::resize(n, v)] when the vector is shorter than [n]. *)
Definition resize_up {A} (n : nat) (v : A) (l : list A) : list A :=
  l ++ replicate (n - length l) v.

(** [GetPosInTagsList(node, subtype)]: the index of the encoded tag
    [(node, subtype)] in [tags_list_], interned on first use. *)
Definition GetPosInTagsList (id : NodeId) (sub : Z) (e : Encoder)
  : Z * Encoder :=
  let node := node_of id e in
  let p := Z.to_nat sub in
  let etp :=
    if (length (encoded_tag_pos node) <=? p)%nat
    then resize_up (p + 1) kInvalidPos (encoded_tag_pos node)
    else encoded_tag_pos node in
  let ret := default kInvalidPos (etp !! p) in
  if ret =? kInvalidPos then
    let ret := wrap32 (Z.of_nat (length (tags_list_ e))) in
    let node := mkMessageNode (writer node) (message_id node)
                  (<[p := ret]> etp) in
    (ret, set_tags_list (tags_list_ e ++ [EncodedTagInfo_new id sub])
            (update_node id node e))
  else
    (ret, update_node id
            (mkMessageNode (writer node) (message_id node) etp) e).

(** [encoded_tags_.push_back(...)] *)
Definition push_encoded_tag (t : Z) (e : Encoder) : Encoder :=
  set_encoded_tags (encoded_tags_ e ++ [t]) e.

(** [GetBuffer(node, type)]: the node's writer, created over a new buffer
    at the back of [data_[type]] when the node has none. *)
Definition GetBuffer (id : NodeId) (t : BufferType) (e : Encoder)
  : (nat * nat) * Encoder :=
  let node := node_of id e in
  match writer node with
  | Some w => (w, e)
  | None =>
      let i := buffer_type_index t in
      let buffers := default [] (data_ e !! i) in
      let w := (i, length buffers) in
      (w, update_node id
            (mkMessageNode (Some w) (message_id node) (encoded_tag_pos node))
            (set_data (<[i := buffers ++ [mkBuffer [] id]]> (data_ e)) e))
  end.

(** Writing through a [BackwardWriter] prepends the bytes to its buffer. *)
Definition prepend_to (src : list byte) (b : BufferWithMetadata)
  : BufferWithMetadata :=
  mkBuffer (src ++ buffer b) (buffer_node_id b).

Definition buffer_write (w : nat * nat) (src : list byte) (e : Encoder)
  : Encoder :=
  set_data (alter (alter (prepend_to src) (snd w)) (fst w) (data_ e)) e.

(** ** Record ingestion *)

(** Modelled from the spec: [CopyVarint64] ([bytes/reader_utils.h], not
    part of the sources at hand) copies the bytes of one varint, at most
    ten, as they are. *)
Fixpoint copy_varint (max_len : nat) (src : list byte)
  : option (list byte * list byte) :=
  match max_len, src with
  | S n, b :: src' =>
      if byte_val b <? 128 then Some ([b], src')
      else
        match copy_varint n src' with
        | Some (bs, rest) => Some (b :: bs, rest)
        | None => None
        end
  | _, _ => None
  end.

Definition CopyVarint64 (src : list byte) : option (list byte * list byte) :=
  copy_varint kMaxLengthVarint64 src.

(** [word &= ~0x8080808080808080], byte by byte. *)
Definition clear_high_bit (b : byte) : byte :=
  Z_to_byte (Z.land (byte_val b) 127).

(** One iteration of the [while (record->Pull())] loop of [AddMessage]:
    the entry at the front of [record] is ingested. The result is the
    record that remains, the parent message id and the depth after the
    entry, and the encoder. [AddMessage_rec] is [AddMessage] itself, for
    the submessage found in a length-delimited entry. [None] stands for
    the branches the source marks unreachable under the precondition of
    [AddMessage] (a read that fails, [back()] of an empty group stack).
    The back of [group_stack_] is the head of the list. *)
Definition AddMessage_iteration
    (AddMessage_rec : list byte -> Z -> Z -> Encoder -> option Encoder)
    (record : list byte) (parent_message_id depth : Z) (e : Encoder)
  : option (list byte * Z * Z * Encoder) :=
  match ReadVarint32 record with
  | None => None
  | Some (tag, record) =>
      let id : NodeId := (parent_message_id, tag) in
      let e := GetNode id e in
      match Z.land tag 7 with
      | 0 => (* kVarint *)
          match CopyVarint64 record with
          | None => None
          | Some (value, record) =>
              let value_length := Z.of_nat (length value) in
              let first := byte_val (hd x00 value) in
              if first <=? kMaxVarintInline then
                let '(t, e) :=
                  GetPosInTagsList id (kVarintInline0 + first) e in
                Some (record, parent_message_id, depth,
                      push_encoded_tag t e)
              else
                let '(t, e) :=
                  GetPosInTagsList id
                    (kVarint1 + wrap8 (value_length - 1)) e in
                let e := push_encoded_tag t e in
                let '(w, e) := GetBuffer id kVarint e in
                Some (record, parent_message_id, depth,
                      buffer_write w (map clear_high_bit value) e)
          end
      | 5 => (* kFixed32 *)
          let '(t, e) := GetPosInTagsList id kTrivial e in
          let e := push_encoded_tag t e in
          let '(w, e) := GetBuffer id kFixed32 e in
          if (length record <? 4)%nat then None
          else Some (drop 4 record, parent_message_id, depth,
                     buffer_write w (take 4 record) e)
      | 1 => (* kFixed64 *)
          let '(t, e) := GetPosInTagsList id kTrivial e in
          let e := push_encoded_tag t e in
          let '(w, e) := GetBuffer id kFixed64 e in
          if (length record <? 8)%nat then None
          else Some (drop 8 record, parent_message_id, depth,
                     buffer_write w (take 8 record) e)
      | 2 => (* kLengthDelimited *)
          match ReadVarint32 record with
          | None => None
          | Some (len, value) =>
              if Z.of_nat (length value) <? len then None
              else
                let payload := take (Z.to_nat len) value in
                let rest := drop (Z.to_nat len) value in
                if (depth <? kMaxRecursionDepth) && negb (len =? 0)
                   && IsProtoMessage payload
                then
                  let '(t, e) :=
                    GetPosInTagsList id
                      kLengthDelimitedStartOfSubmessage e in
                  let e := push_encoded_tag t e in
                  let '(end_of_submessage_pos, e) :=
                    GetPosInTagsList id
                      kLengthDelimitedEndOfSubmessage e in
                  match AddMessage_rec payload
                          (message_id (node_of id e)) (depth + 1) e
                  with
                  | None => None
                  | Some e =>
                      Some (rest, parent_message_id, depth,
                            push_encoded_tag end_of_submessage_pos e)
                  end
                else
                  let '(t, e) :=
                    GetPosInTagsList id kLengthDelimitedString e in
                  let e := push_encoded_tag t e in
                  let '(w, e) := GetBuffer id kString e in
                  let prefix := (length record - length value)%nat in
                  Some (rest, parent_message_id, depth,
                        buffer_write w
                          (take (prefix + Z.to_nat len) record) e)
          end
      | 3 => (* kStartGroup *)
          let '(t, e) := GetPosInTagsList id kTrivial e in
          let e := push_encoded_tag t e in
          let e := set_group_stack
                     (parent_message_id :: group_stack_ e) e in
          Some (record, message_id (node_of id e), depth + 1, e)
      | 4 => (* kEndGroup *)
          match group_stack_ e with
          | [] => None
          | back :: stack =>
              let e := set_group_stack stack e in
              let '(t, e) := GetPosInTagsList id kTrivial e in
              Some (record, back, depth - 1, push_encoded_tag t e)
          end
      | _ => None
      end
  end.

(** [AddMessage(record, parent_message_id, depth)]. Its precondition is
    that [IsProtoMessage] accepts the record. Every iteration consumes a
    byte and a submessage is shorter than the message around it, so the
    length of the record bounds both the loop and the recursion; [None]
    also stands for a bound that is too small. The writers are backed by
    memory and do not fail, so the function returns true whenever it
    returns. *)
Fixpoint AddMessage (fuel : nat) (record : list byte)
    (parent_message_id depth : Z) (e : Encoder) : option Encoder :=
  if Pull record then
    match fuel with
    | O => None
    | S fuel =>
        match AddMessage_iteration (AddMessage fuel) record
                parent_message_id depth e with
        | None => None
        | Some (record, parent_message_id, depth, e) =>
            AddMessage fuel record parent_message_id depth e
        end
    end
  else Some e.

Section TransposeEncoder.

(** [ChunkEncoder::kMaxNumRecords], declared outside the sources at hand. *)
Variable kMaxNumRecords : Z.

(** Modelled from the spec: [WriteVarint64] writes the minimal encoding;
    on a backward writer the bytes are prepended. *)
Definition WriteVarint64_backward (v : Z) (dest : list byte) : list byte :=
  canonical_varint v ++ dest.

(** [AddRecordInternal(record)]: the result is the returned flag and the
    encoder afterwards. *)
Definition AddRecordInternal (record : list byte) (e : Encoder)
  : option (bool * Encoder) :=
  if negb (healthy e) then Some (false, e)
  else
    let size := Z.of_nat (length record) in
    if num_records_ e =? kMaxNumRecords then
      Some (false, Fail kResourceExhausted e)
    else if size >? uint64_max - decoded_data_size_ e then
      Some (false, Fail kResourceExhausted e)
    else
      let e := set_counters (wrap64 (num_records_ e + 1))
                 (wrap64 (decoded_data_size_ e + size)) e in
      let is_proto := IsProtoMessage record in
      if is_proto then
        let id : NodeId := (kStartOfMessage, 0) in
        let e := GetNode id e in
        let '(t, e) := GetPosInTagsList id kTrivial e in
        let e := push_encoded_tag t e in
        match AddMessage (length record) record kRoot 0 e with
        | Some e => Some (true, e)
        | None => None
        end
      else
        let id : NodeId := (kNonProto, 0) in
        let e := GetNode id e in
        let '(t, e) := GetPosInTagsList id kTrivial e in
        let e := push_encoded_tag t e in
        let '(w, e) := GetBuffer id kNonProtoBuf e in
        let e := buffer_write w record e in
        Some (true,
              set_nonproto_lengths
                (WriteVarint64_backward size (nonproto_lengths_writer_ e)) e).

(** [AddRecord] for each record in turn, as the driver calls it; the
    flags returned are collected. *)
Fixpoint AddRecord_each (records : list (list byte)) (e : Encoder)
  : option (list bool * Encoder) :=
  match records with
  | [] => Some ([], e)
  | r :: records =>
      match AddRecordInternal r e with
      | None => None
      | Some (ok, e) =>
          match AddRecord_each records e with
          | None => None
          | Some (oks, e) => Some (ok :: oks, e)
          end
      end
  end.

(** ** Transition statistics *)

Definition set_dest_info (d : gmap Z DestInfo) (t : EncodedTagInfo)
  : EncodedTagInfo :=
  mkEncodedTagInfo (node_id t) (subtype t) d (num_incoming_transitions t)
    (state_machine_pos t) (public_list_noop_pos t) (base t).
Definition set_num_incoming_transitions (n : Z) (t : EncodedTagInfo)
  : EncodedTagInfo :=
  mkEncodedTagInfo (node_id t) (subtype t) (dest_info t) n
    (state_machine_pos t) (public_list_noop_pos t) (base t).
Definition set_state_machine_pos (p : Z) (t : EncodedTagInfo)
  : EncodedTagInfo :=
  mkEncodedTagInfo (node_id t) (subtype t) (dest_info t)
    (num_incoming_transitions t) p (public_list_noop_pos t) (base t).
Definition set_public_list_noop_pos (p : Z) (t : EncodedTagInfo)
  : EncodedTagInfo :=
  mkEncodedTagInfo (node_id t) (subtype t) (dest_info t)
    (num_incoming_transitions t) (state_machine_pos t) p (base t).
Definition set_base (b : Z) (t : EncodedTagInfo) : EncodedTagInfo :=
  mkEncodedTagInfo (node_id t) (subtype t) (dest_info t)
    (num_incoming_transitions t) (state_machine_pos t)
    (public_list_noop_pos t) b.

(** [tags_list_[i]]; the indices the encoder uses are in range. *)
Definition tag_at (tags : list EncodedTagInfo) (i : Z) : EncodedTagInfo :=
  default (EncodedTagInfo_new (0, 0) 0) (tags !! Z.to_nat i).

Definition update_tag (i : Z) (f : EncodedTagInfo -> EncodedTagInfo)
    (tags : list EncodedTagInfo) : list EncodedTagInfo :=
  alter f (Z.to_nat i) tags.

(** [dest_info[key]]: the entry of [key], default-constructed when
    absent. *)
Definition dest_at (d : gmap Z DestInfo) (key : Z) : DestInfo :=
  default DestInfo_default (d !! key).

(** [++t.dest_info[dest].num_transitions]; the counters are [size_t]. *)
Definition incr_num_transitions (dest : Z) (t : EncodedTagInfo)
  : EncodedTagInfo :=
  let d := dest_at (dest_info t) dest in
  set_dest_info
    (<[dest := mkDestInfo (pos d) (wrap64 (num_transitions d + 1))]>
       (dest_info t)) t.

(** [++t.num_incoming_transitions] *)
Definition incr_num_incoming (t : EncodedTagInfo) : EncodedTagInfo :=
  set_num_incoming_transitions (wrap64 (num_incoming_transitions t + 1)) t.

(** The loop of [CollectTransitionStatistics]: [rest] lists
    [encoded_tags_[i - 1]] for [i] going down from [size - 1] to 1. *)
Fixpoint CollectTransitionStatistics_loop (prev_pos : Z) (rest : list Z)
    (tags : list EncodedTagInfo) : list EncodedTagInfo :=
  match rest with
  | [] => tags
  | pos :: rest =>
      let tags := update_tag prev_pos (incr_num_transitions pos) tags in
      let tags := update_tag pos incr_num_incoming tags in
      CollectTransitionStatistics_loop pos rest tags
  end.

(** [CollectTransitionStatistics()], called with a non-empty
    [encoded_tags_]. *)
Definition CollectTransitionStatistics (e : Encoder) : Encoder :=
  match reverse (encoded_tags_ e) with
  | [] => e
  | back :: rest =>
      let tags := CollectTransitionStatistics_loop back rest (tags_list_ e) in
      let tags :=
        if num_incoming_transitions (tag_at tags back) =? 0
        then update_tag back (set_num_incoming_transitions 1) tags
        else tags in
      set_tags_list tags e
  end.

(** ** The priority queue of destinations *)

Record PriorityQueueEntry := mkPriorityQueueEntry {
  dest_index : Z;
  entry_num_transitions : Z
}.

(** [operator<(PriorityQueueEntry a, PriorityQueueEntry b)] *)
Definition entry_lt (a b : PriorityQueueEntry) : bool :=
  if negb (entry_num_transitions a =? entry_num_transitions b)
  then entry_num_transitions a >? entry_num_transitions b
  else dest_index a <? dest_index b.

(** [std::priority_queue<PriorityQueueEntry>]: [top()] is a greatest
    element for [operator<]. The queue is kept as a list in which no
    element is less than a later one, so that [top()] is the head and
    [pop()] leaves the tail. *)
Fixpoint pq_push (x : PriorityQueueEntry) (q : list PriorityQueueEntry)
  : list PriorityQueueEntry :=
  match q with
  | [] => [x]
  | y :: q' => if entry_lt y x then x :: q else y :: pq_push x q'
  end.

(** ** Laying out a list of states in blocks *)

(** The state of the layout loops of [CreateStateMachine]. *)
Record Layout := mkLayout {
  l_state_machine : list StateInfo;
  l_tags_list : list EncodedTagInfo;
  l_public_list_noops : list (Z * Z);
  l_tag_priority : list PriorityQueueEntry;
  l_noop_base : list Z;
  l_prev_state : Z;
  l_total_block_nodes_weight : Z
}.

(** [dest_info[key].pos = p] *)
Definition set_dest_pos (key p : Z) (t : EncodedTagInfo) : EncodedTagInfo :=
  let d := dest_at (dest_info t) key in
  set_dest_info (<[key := mkDestInfo p (num_transitions d)]> (dest_info t)) t.

(** [state_machine[j + base].canonical_source = prev_state] for [j] from
    0 to [max_transition], with a [break] at the end of the state
    machine. *)
Fixpoint set_canonical_sources_loop (js : list nat) (base prev_state : Z)
    (sm : list StateInfo) : list StateInfo :=
  match js with
  | [] => sm
  | j :: js =>
      let i := wrap32 (Z.of_nat j + base) in
      if i >=? Z.of_nat (length sm) then sm
      else
        set_canonical_sources_loop js base prev_state
          (alter (fun s => mkStateInfo (etag_index s) (state_base s)
                             prev_state) (Z.to_nat i) sm)
  end.

Definition set_canonical_sources (max_transition base prev_state : Z)
    (sm : list StateInfo) : list StateInfo :=
  set_canonical_sources_loop (seq 0 (Z.to_nat max_transition + 1))
    base prev_state sm.

(** One iteration of the inner loop [for (i = 0; i < block_size; ++i)]:
    the top of the queue is placed at [--prev_state]. [owner] is the tag
    whose private list is laid out, or [None] for the public list. [None]
    as a result is a failed assertion or an index out of range. *)
Definition place_top (max_transition : Z) (owner : option Z) (l : Layout)
  : option Layout :=
  match l_tag_priority l with
  | [] => None
  | top :: queue =>
      let total :=
        wrap32 (l_total_block_nodes_weight l + entry_num_transitions top) in
      let node_index := dest_index top in
      let prev_state := wrap32 (l_prev_state l - 1) in
      let tags_size := Z.of_nat (length (l_tags_list l)) in
      if prev_state >=? Z.of_nat (length (l_state_machine l)) then None
      else
        let put s := <[Z.to_nat prev_state := s]> (l_state_machine l) in
        match owner with
        | Some tag_id =>
            if node_index =? kInvalidPos then
              (* NoOp that goes to the public list. *)
              Some (mkLayout (put (StateInfo_new kInvalidPos kInvalidPos))
                      (update_tag tag_id (set_public_list_noop_pos prev_state)
                         (l_tags_list l))
                      (l_public_list_noops l ++ [(tag_id, prev_state)])
                      queue (l_noop_base l) prev_state total)
            else if node_index >=? tags_size then
              (* NoOp that goes to private list. *)
              match l_noop_base l !! Z.to_nat (node_index - tags_size) with
              | None => None
              | Some base =>
                  Some (mkLayout
                          (set_canonical_sources max_transition base
                             prev_state (put (StateInfo_new kInvalidPos base)))
                          (l_tags_list l) (l_public_list_noops l)
                          queue (l_noop_base l) prev_state total)
              end
            else
              (* Regular state. *)
              Some (mkLayout (put (StateInfo_new node_index kInvalidPos))
                      (update_tag tag_id (set_dest_pos node_index prev_state)
                         (l_tags_list l))
                      (l_public_list_noops l)
                      queue (l_noop_base l) prev_state total)
        | None =>
            if node_index >=? tags_size then
              (* NoOp state. *)
              match l_noop_base l !! Z.to_nat (node_index - tags_size) with
              | None => None
              | Some base =>
                  Some (mkLayout
                          (set_canonical_sources max_transition base
                             prev_state (put (StateInfo_new kInvalidPos base)))
                          (l_tags_list l) (l_public_list_noops l)
                          queue (l_noop_base l) prev_state total)
              end
            else
              (* Regular state. *)
              Some (mkLayout (put (StateInfo_new node_index kInvalidPos))
                      (update_tag node_index (set_state_machine_pos prev_state)
                         (l_tags_list l))
                      (l_public_list_noops l)
                      queue (l_noop_base l) prev_state total)
        end
  end.

(** The inner loop: [block_size] states are placed. *)
Fixpoint place_block (max_transition : Z) (owner : option Z)
    (block_size : nat) (l : Layout) : option Layout :=
  match block_size with
  | O => Some l
  | S n =>
      match place_top max_transition owner l with
      | None => None
      | Some l => place_block max_transition owner n l
      end
  end.

(** The outer loop [for (;;)]: a block is placed; unless the queue is
    empty, a NoOp serving the block joins the queue and the next block
    has [max_transition + 1] states. [fuel] bounds the number of blocks. *)
Fixpoint place_blocks (fuel : nat) (max_transition : Z) (owner : option Z)
    (block_size : Z) (l : Layout) : option Layout :=
  match fuel with
  | O => None
  | S fuel =>
      let l := mkLayout (l_state_machine l) (l_tags_list l)
                 (l_public_list_noops l) (l_tag_priority l) (l_noop_base l)
                 (l_prev_state l) 0 in
      match place_block max_transition owner (Z.to_nat block_size) l with
      | None => None
      | Some l =>
          match l_tag_priority l with
          | [] => Some l
          | _ :: _ =>
              let noop :=
                mkPriorityQueueEntry
                  (wrap32 (Z.of_nat (length (l_tags_list l))
                           + Z.of_nat (length (l_noop_base l))))
                  (l_total_block_nodes_weight l) in
              place_blocks fuel max_transition owner
                (wrap32 (max_transition + 1))
                (mkLayout (l_state_machine l) (l_tags_list l)
                   (l_public_list_noops l)
                   (pq_push noop (l_tag_priority l))
                   (l_noop_base l ++ [l_prev_state l])
                   (l_prev_state l) (l_total_block_nodes_weight l))
          end
      end
  end.

(** The common part of the two layouts of [CreateStateMachine], from the
    computation of [noop_nodes] to the end of the loop over the blocks:
    [num_states] entries wait in [tag_priority]. *)
Definition layout_states (max_transition : Z) (owner : option Z)
    (num_states : Z) (sm : list StateInfo) (tags : list EncodedTagInfo)
    (noops : list (Z * Z)) (tag_priority : list PriorityQueueEntry)
  : option Layout :=
  let noop_nodes :=
    if num_states <=? wrap32 (max_transition + 1) then 0
    else wrap32 (num_states - 2) / max_transition in
  let num_states := wrap32 (num_states + noop_nodes) in
  let prev_state := wrap32 (wrap32 (Z.of_nat (length sm)) + num_states) in
  let sm := sm ++ replicate (Z.to_nat prev_state - length sm) StateInfo_default in
  let block_size :=
    wrap32 (wrap32 (num_states - 1) mod wrap32 (max_transition + 1) + 1) in
  place_blocks (S (Z.to_nat num_states)) max_transition owner block_size
    (mkLayout sm tags noops tag_priority [] prev_state 0).

(** ** The state machine *)

(** The order in which a loop over a [flat_hash_map] meets its entries is
    not specified, and two maps with the same entries need not give the
    same one; [dest_order tag_id d] is the order in which one run meets
    the entries of [tags_list_[tag_id].dest_info] when they are [d]. *)
Variable dest_order : Z -> gmap Z DestInfo -> list (Z * DestInfo).
Hypothesis dest_order_perm : forall i d, dest_order i d ≡ₚ map_to_list d.

Definition kInListPos : Z := 0.

(** [tags_list_[i].num_incoming_transitions -= n] *)
Definition sub_num_incoming (n : Z) (t : EncodedTagInfo) : EncodedTagInfo :=
  set_num_incoming_transitions (wrap64 (num_incoming_transitions t - n)) t.

(** The first loop of [CreateStateMachine], for one [tag_info]: the
    destinations with at least [min_count_for_state] transitions are
    marked for the private list. *)
Definition mark_in_list (min_count_for_state : Z)
    (tags : list EncodedTagInfo) (tag_id : Z) : list EncodedTagInfo :=
  foldl
    (fun tags (dest_and_count : Z * DestInfo) =>
       let (dest, count) := dest_and_count in
       if num_transitions count >=? min_count_for_state then
         update_tag tag_id (set_dest_pos dest kInListPos)
           (update_tag dest (sub_num_incoming (num_transitions count)) tags)
       else tags)
    tags (dest_order tag_id (dest_info (tag_at tags tag_id))).

(** The indices [0 .. n-1] of a vector of [n] elements. *)
Definition indices (n : nat) : list Z := map Z.of_nat (seq 0 n).

(** The loop over [tag_info.dest_info] that fills the priority queue of
    one tag: the result is the tag list, the queue, [excluded_state] and
    [num_excluded_transitions]. *)
Definition select_private (tags : list EncodedTagInfo) (tag_id : Z)
  : list EncodedTagInfo * list PriorityQueueEntry * PriorityQueueEntry * Z :=
  foldl
    (fun (acc : list EncodedTagInfo * list PriorityQueueEntry
                * PriorityQueueEntry * Z)
         (dest_info : Z * DestInfo) =>
       let '(tags, queue, excluded_state, num_excluded_transitions) := acc in
       let (dest, info) := dest_info in
       if (pos info =? kInListPos)
          || (num_transitions info =?
              num_incoming_transitions (tag_at tags dest))
       then
         let tags :=
           if negb (pos info =? kInListPos)
           then update_tag dest (sub_num_incoming (num_transitions info)) tags
           else tags in
         (tags,
          pq_push (mkPriorityQueueEntry dest (num_transitions info)) queue,
          excluded_state, num_excluded_transitions)
       else
         (tags, queue,
          mkPriorityQueueEntry dest (num_transitions info),
          wrap32 (num_excluded_transitions + num_transitions info)))
    (tags, [], mkPriorityQueueEntry 0 0, 0)
    (dest_order tag_id (dest_info (tag_at tags tag_id))).

(** The body of the loop [for (tag_id = 0; tag_id < tags_list_.size();
    ++tag_id)] that creates the private lists. The queue is empty when the
    body starts, as the loop over the blocks ends on an empty queue. *)
Definition create_private_list (max_transition : Z)
    (acc : option (list StateInfo * list EncodedTagInfo * list (Z * Z)))
    (tag_id : Z)
  : option (list StateInfo * list EncodedTagInfo * list (Z * Z)) :=
  match acc with
  | None => None
  | Some (state_machine, tags, public_list_noops) =>
      let sz := wrap32 (Z.of_nat (size (dest_info (tag_at tags tag_id)))) in
      let '(tags, queue, excluded_state, num_excluded_transitions) :=
        select_private tags tag_id in
      let num_states := wrap32 (Z.of_nat (length queue)) in
      if num_states =? 0 then Some (state_machine, tags, public_list_noops)
      else
        let '(num_states, queue, tags) :=
          if wrap32 (num_states + 1) =? sz then
            (wrap32 (num_states + 1), pq_push excluded_state queue,
             update_tag (dest_index excluded_state)
               (sub_num_incoming (entry_num_transitions excluded_state)) tags)
          else (num_states, queue, tags) in
        let '(num_states, queue) :=
          if negb (num_states =? sz) then
            (wrap32 (num_states + 1),
             pq_push (mkPriorityQueueEntry kInvalidPos
                        num_excluded_transitions) queue)
          else (num_states, queue) in
        let tags :=
          update_tag tag_id
            (set_base (wrap32 (Z.of_nat (length state_machine)))) tags in
        match layout_states max_transition (Some tag_id) num_states
                state_machine tags public_list_noops queue with
        | None => None
        | Some l =>
            Some (l_state_machine l, l_tags_list l, l_public_list_noops l)
        end
  end.

(** The queue of the public list: every tag with incoming transitions
    left. *)
Definition public_queue (tags : list EncodedTagInfo)
  : list PriorityQueueEntry :=
  foldl
    (fun queue i =>
       if negb (num_incoming_transitions (tag_at tags i) =? 0)
       then pq_push (mkPriorityQueueEntry i
                       (num_incoming_transitions (tag_at tags i))) queue
       else queue)
    [] (indices (length tags)).

Definition create_public_list (max_transition : Z)
    (state_machine : list StateInfo) (tags : list EncodedTagInfo)
  : option (list StateInfo * list EncodedTagInfo) :=
  let queue := public_queue tags in
  let num_states := wrap32 (Z.of_nat (length queue)) in
  if num_states >? 0 then
    match layout_states max_transition None num_states state_machine tags
            [] queue with
    | None => None
    | Some l => Some (l_state_machine l, l_tags_list l)
    end
  else Some (state_machine, tags).

(** ** Base indices *)

(** [UnsignedMin] *)
Definition UnsignedMin (a b : Z) : Z := Z.min a b.

(** The loop [while (base > pos || pos - base > max_transition)] of
    [ComputeBaseIndices], on [(base, min_pos, pos)]. [None] is a failed
    assertion, an index out of range, or a [fuel] that is too small. *)
Fixpoint find_base (fuel : nat) (max_transition public_list_base : Z)
    (state_machine : list StateInfo) (base min_pos pos : Z)
  : option (Z * Z * Z) :=
  match fuel with
  | O => None
  | S fuel =>
      if (base >? pos) || (pos - base >? max_transition) then
        if base >? pos then
          let cs_min : option (Z * Z) :=
            if base =? kInvalidPos then
              match state_machine !! Z.to_nat pos with
              | Some s => Some (canonical_source s, min_pos)
              | None => None
              end
            else
              match state_machine !! Z.to_nat base with
              | Some s =>
                  let cs := canonical_source s in
                  if cs =? kInvalidPos then None
                  else
                    match state_machine !! Z.to_nat cs with
                    | Some s' =>
                        Some (canonical_source s', UnsignedMin min_pos cs)
                    | None => None
                    end
              | None => None
              end in
          match cs_min with
          | None => None
          | Some (cs, min_pos) =>
              if cs =? kInvalidPos then
                find_base fuel max_transition public_list_base state_machine
                  public_list_base min_pos pos
              else
                match state_machine !! Z.to_nat cs with
                | Some s =>
                    find_base fuel max_transition public_list_base
                      state_machine (state_base s) min_pos pos
                | None => None
                end
          end
        else
          match state_machine !! Z.to_nat pos with
          | None => None
          | Some s =>
              let cs := canonical_source s in
              match state_machine !! Z.to_nat cs with
              | None => None
              | Some s' =>
                  if (state_base s' <=? pos)
                     && (pos - state_base s' <=? max_transition)
                  then
                    find_base fuel max_transition public_list_base
                      state_machine base min_pos cs
                  else None
              end
          end
      else Some (base, min_pos, pos)
  end.

(** The loop over the destinations of one origin: [(base, min_pos)] after
    the destinations that are reached through the public list. *)
Definition scan_destinations (max_transition public_list_base : Z)
    (state_machine : list StateInfo) (tags : list EncodedTagInfo)
    (origin : Z) : option (Z * Z) :=
  foldl
    (fun (acc : option (Z * Z)) (dest_info : Z * DestInfo) =>
       match acc with
       | None => None
       | Some (base, min_pos) =>
           let (dest, info) := dest_info in
           if negb (pos info =? kInvalidPos) then Some (base, min_pos)
           else
             let p := state_machine_pos (tag_at tags dest) in
             if p =? kInvalidPos then None
             else
               match find_base (2 * length state_machine + 2)
                       max_transition public_list_base state_machine
                       base min_pos p with
               | None => None
               | Some (base, min_pos, p) =>
                   Some (base, UnsignedMin min_pos p)
               end
       end)
    (Some (kInvalidPos, kInvalidPos))
    (dest_order origin (dest_info (tag_at tags origin))).

Definition set_state_base (b : Z) (s : StateInfo) : StateInfo :=
  mkStateInfo (etag_index s) b (canonical_source s).

(** [ComputeBaseIndices] *)
Definition ComputeBaseIndices (max_transition public_list_base : Z)
    (public_list_noops : list (Z * Z)) (state_machine : list StateInfo)
    (tags : list EncodedTagInfo)
  : option (list StateInfo * list EncodedTagInfo) :=
  let state_machine :=
    foldl
      (fun (acc : option (list StateInfo))
           (tag_index_and_state_index : Z * Z) =>
         match acc with
         | None => None
         | Some state_machine =>
             match scan_destinations max_transition public_list_base
                     state_machine tags tag_index_and_state_index.1 with
             | None => None
             | Some (_, min_pos) =>
                 if min_pos =? kInvalidPos then None
                 else
                   Some (alter (set_state_base min_pos)
                           (Z.to_nat tag_index_and_state_index.2)
                           state_machine)
             end
         end)
      (Some state_machine) public_list_noops in
  match state_machine with
  | None => None
  | Some state_machine =>
      let tags :=
        foldl
          (fun (acc : option (list EncodedTagInfo)) (i : Z) =>
             match acc with
             | None => None
             | Some tags =>
                 if negb (base (tag_at tags i) =? kInvalidPos) then Some tags
                 else
                   match scan_destinations max_transition public_list_base
                           state_machine tags i with
                   | None => None
                   | Some (_, min_pos) =>
                       if negb (min_pos =? kInvalidPos)
                       then Some (update_tag i (set_base min_pos) tags)
                       else Some tags
                   end
             end)
          (Some tags) (indices (length tags)) in
      match tags with
      | None => None
      | Some tags => Some (state_machine, tags)
      end
  end.

(** [CreateStateMachine(max_transition, min_count_for_state)]: the state
    machine, and the encoder with the tag list it leaves. *)
Definition CreateStateMachine (max_transition min_count_for_state : Z)
    (e : Encoder) : option (list StateInfo * Encoder) :=
  match encoded_tags_ e with
  | [] => Some ([StateInfo_new kInvalidPos 0], e)
  | _ :: _ =>
      let e := CollectTransitionStatistics e in
      let tags := tags_list_ e in
      let tags :=
        foldl (mark_in_list min_count_for_state) tags
          (indices (length tags)) in
      match foldl (create_private_list max_transition)
              (Some ([], tags, [])) (indices (length tags)) with
      | None => None
      | Some (state_machine, tags, public_list_noops) =>
          let public_list_base := wrap32 (Z.of_nat (length state_machine)) in
          match create_public_list max_transition state_machine tags with
          | None => None
          | Some (state_machine, tags) =>
              match ComputeBaseIndices max_transition public_list_base
                      public_list_noops state_machine tags with
              | None => None
              | Some (state_machine, tags) =>
                  Some (state_machine, set_tags_list tags e)
              end
          end
      end
  end.

(** ** The bucket packer *)

(** The configuration of the encoder: the compression type, the bucket
    size given to the constructor, and the compressor, which turns the
    bytes written to it since its last [Reset] into their compressed
    form. *)
Variable compression_type_ : Z.
Variable bucket_size : Z.
Variable compress : list byte -> list byte.

(** [CompressionType::kNone], declared outside the sources at hand. *)
Definition kNone : Z := 0.

(** [bucket_size_], as the constructor sets it. *)
Definition bucket_size_ : Z :=
  if compression_type_ =? kNone then uint64_max else bucket_size.

(** What [AddBuffer] works on: the bytes written to [compressor_] since
    its last [Reset], the data writer, and the two tables of lengths. *)
Record BucketWriter := mkBucketWriter {
  bw_compressor : list byte;
  bw_data_writer : list byte;
  bw_bucket_lengths : list Z;
  bw_buffer_lengths : list Z
}.

(** [compressor_.EncodeAndClose(data_writer)], the push of the compressed
    length, and [compressor_.Reset()]. *)
Definition close_bucket (w : BucketWriter) : BucketWriter :=
  let compressed := compress (bw_compressor w) in
  mkBucketWriter [] (bw_data_writer w ++ compressed)
    (bw_bucket_lengths w ++ [Z.of_nat (length compressed)])
    (bw_buffer_lengths w).

(** [AddBuffer(force_new_bucket, next_chunk, ...)] *)
Definition AddBuffer (force_new_bucket : bool) (next_chunk : list byte)
    (w : BucketWriter) : BucketWriter :=
  let w := mkBucketWriter (bw_compressor w) (bw_data_writer w)
             (bw_bucket_lengths w)
             (bw_buffer_lengths w ++ [Z.of_nat (length next_chunk)]) in
  let pos := Z.of_nat (length (bw_compressor w)) in
  let w :=
    if (force_new_bucket
        || (wrap64 (pos + Z.of_nat (length next_chunk)) >? bucket_size_))
       && (pos >? 0)
    then close_bucket w else w in
  mkBucketWriter (bw_compressor w ++ next_chunk) (bw_data_writer w)
    (bw_bucket_lengths w) (bw_buffer_lengths w).

(** The comparison of [std::sort] in [WriteBuffers]: longer buffers
    first, then by parent message id and tag. *)
Definition buffer_before (a b : BufferWithMetadata) : bool :=
  if negb (length (buffer a) =? length (buffer b))%nat
  then (length (buffer b) <? length (buffer a))%nat
  else if negb ((buffer_node_id a).1 =? (buffer_node_id b).1)
  then (buffer_node_id a).1 <? (buffer_node_id b).1
  else (buffer_node_id a).2 <? (buffer_node_id b).2.

(** [std::sort] with [buffer_before]: no two buffers of one kind have the
    same node, so the sorted order is unique and an insertion sort gives
    it. *)
Fixpoint insert_buffer (x : BufferWithMetadata) (l : list BufferWithMetadata)
  : list BufferWithMetadata :=
  match l with
  | [] => [x]
  | y :: l' => if buffer_before x y then x :: l else y :: insert_buffer x l'
  end.

Definition sort_buffers (l : list BufferWithMetadata)
  : list BufferWithMetadata :=
  foldr insert_buffer [] l.

(** The calls of [AddBuffer] for the buffers of one kind, the first with
    [force_new_bucket], each followed by the entry of the buffer in
    [buffer_pos]. [None] is the failed assertion that a node has two
    buffers. *)
Fixpoint add_buffers (first : bool) (buffers : list BufferWithMetadata)
    (acc : BucketWriter * gmap NodeId Z)
  : option (BucketWriter * gmap NodeId Z) :=
  match buffers with
  | [] => Some acc
  | b :: buffers =>
      let (w, buffer_pos) := acc in
      let w := AddBuffer first (buffer b) w in
      match buffer_pos !! buffer_node_id b with
      | Some _ => None
      | None =>
          add_buffers false buffers
            (w, <[buffer_node_id b := wrap32 (Z.of_nat (size buffer_pos))]>
                  buffer_pos)
      end
  end.

(** Modelled from the spec: [WriteVarint32] and [WriteVarint64] write the
    minimal encoding. *)
Definition WriteVarint32 (v : Z) (dest : list byte) : list byte :=
  dest ++ canonical_varint v.
Definition WriteVarint64 (v : Z) (dest : list byte) : list byte :=
  dest ++ canonical_varint v.

(** [WriteBuffers(header_writer, data_writer, buffer_pos)]; [compressor]
    is what [compressor_] holds when the function starts. The result is
    the header writer, the packer's state and [buffer_pos]. The function
    sorts the buffers of [data_] in place; it returns no encoder here,
    and [WriteStatesAndData], which calls it, leaves the sorted buffers
    in the encoder it returns. *)
Definition WriteBuffers (e : Encoder) (compressor header_writer
    data_writer : list byte)
  : option (list byte * BucketWriter * gmap NodeId Z) :=
  let data := map sort_buffers (data_ e) in
  let nonproto_lengths := nonproto_lengths_writer_ e in
  match
    foldl (fun acc buffers =>
             match acc with
             | None => None
             | Some acc => add_buffers true buffers acc
             end)
      (Some (mkBucketWriter compressor data_writer [] [], ∅)) data
  with
  | None => None
  | Some (w, buffer_pos) =>
      let w :=
        match nonproto_lengths with
        | [] => w
        | _ :: _ => AddBuffer true nonproto_lengths w
        end in
      let w :=
        if Z.of_nat (length (bw_compressor w)) >? 0 then
          (* Last bucket. *)
          let compressed := compress (bw_compressor w) in
          mkBucketWriter (bw_compressor w) (bw_data_writer w ++ compressed)
            (bw_bucket_lengths w ++ [Z.of_nat (length compressed)])
            (bw_buffer_lengths w)
        else w in
      let header_writer :=
        WriteVarint32 (wrap32 (Z.of_nat (length (bw_buffer_lengths w))))
          (WriteVarint32 (wrap32 (Z.of_nat (length (bw_bucket_lengths w))))
             header_writer) in
      let header_writer :=
        foldl (fun h n => WriteVarint64 n h) header_writer
          (bw_bucket_lengths w) in
      let header_writer :=
        foldl (fun h n => WriteVarint64 n h) header_writer
          (bw_buffer_lengths w) in
      Some (header_writer, w, buffer_pos)
  end.

(** ** The transition encoder *)

Definition kWriteBufSize : nat := 32.

(** The loop [while (current_base > pos || pos - current_base >
    max_transition)] of [WriteTransitions] and the write after it: the
    bytes [write[write_start .. kWriteBufSize)] that lead from
    [current_base] to [pos]. [room] is what is left of [write]; [None] is
    a failed assertion (the buffer overflows, a canonical source is out
    of range or does not reach the position). *)
Fixpoint encode_hops (room : nat) (max_transition : Z)
    (state_machine : list StateInfo) (current_base pos : Z)
    (write : list Z) : option (list Z) :=
  match room with
  | O => None
  | S room =>
      if (current_base >? pos) || (pos - current_base >? max_transition) then
        match state_machine !! Z.to_nat pos with
        | None => None
        | Some s =>
            let cs := canonical_source s in
            match state_machine !! Z.to_nat cs with
            | None => None
            | Some s' =>
                if (state_base s' <=? pos)
                   && (pos - state_base s' <=? max_transition)
                then
                  encode_hops room max_transition state_machine
                    current_base cs ((pos - state_base s') :: write)
                else None
            end
        end
      else Some ((pos - current_base) :: write)
  end.

(** One step of the loop [for (j = write_start; j < kWriteBufSize; ++j)]
    on [(last_transition, bytes written to the compressor)]. [IntCast]
    asserts that [write[j] << 2] fits a byte, which holds as the offsets
    are at most [max_transition], itself at most 63. *)
Definition emit_offset (st : option Z * list byte) (offset : Z)
  : option Z * list byte :=
  let (last_transition, out) := st in
  match last_transition with
  | Some last =>
      if (offset =? 0) && (Z.land last 3 <? 3)
      then (Some (wrap8 (last + 1)), out)
      else (Some (wrap8 (Z.shiftl offset 2)), out ++ [Z_to_byte last])
  | None => (Some (wrap8 (Z.shiftl offset 2)), out)
  end.

Definition emit_offsets (write : list Z) (st : option Z * list byte)
  : option Z * list byte :=
  foldl emit_offset st write.

(** The write of the pending byte after the loop over the transitions. *)
Definition flush_last (st : option Z * list byte) : list byte :=
  match st.1 with
  | Some last => st.2 ++ [Z_to_byte last]
  | None => st.2
  end.

(** [tags_list_[prev].dest_info[tag]]: [operator[]] creates the entry
    when it is absent. *)
Definition touch_dest (tag : Z) (t : EncodedTagInfo) : EncodedTagInfo :=
  match dest_info t !! tag with
  | Some _ => t
  | None => set_dest_info (<[tag := DestInfo_default]> (dest_info t)) t
  end.

Record TransitionWriter := mkTransitionWriter {
  tw_tags_list : list EncodedTagInfo;
  tw_prev_etag : Z;
  tw_current_base : Z;
  tw_pending : option Z * list byte
}.

(** The body of the loop over the transitions of [WriteTransitions], for
    the successor [tag]. *)
Definition write_transition (max_transition : Z)
    (state_machine : list StateInfo) (acc : option TransitionWriter)
    (tag : Z) : option TransitionWriter :=
  match acc with
  | None => None
  | Some w =>
      let tags := tw_tags_list w in
      let prev_etag := tw_prev_etag w in
      let next tags pending :=
        Some (mkTransitionWriter tags tag (base (tag_at tags tag)) pending) in
      if negb (size (dest_info (tag_at tags prev_etag)) =? 1)%nat then
        let tags := update_tag prev_etag (touch_dest tag) tags in
        let p := pos (dest_at (dest_info (tag_at tags prev_etag)) tag) in
        let through_public : option (Z * Z * (option Z * list byte)) :=
          if p =? kInvalidPos then
            let p := public_list_noop_pos (tag_at tags prev_etag) in
            let step : option (Z * (option Z * list byte)) :=
              if negb (p =? kInvalidPos) then
                match encode_hops kWriteBufSize max_transition state_machine
                        (tw_current_base w) p [] with
                | None => None
                | Some write =>
                    match state_machine !! Z.to_nat p with
                    | None => None
                    | Some s =>
                        Some (state_base s,
                              emit_offsets write (tw_pending w))
                    end
                end
              else Some (tw_current_base w, tw_pending w) in
            match step with
            | None => None
            | Some (current_base, pending) =>
                Some (state_machine_pos (tag_at tags tag), current_base,
                      pending)
            end
          else Some (p, tw_current_base w, tw_pending w) in
        match through_public with
        | None => None
        | Some (p, current_base, pending) =>
            if (current_base =? kInvalidPos)
               || (p >=? Z.of_nat (length state_machine))
            then None
            else
              match encode_hops kWriteBufSize max_transition state_machine
                      current_base p [] with
              | None => None
              | Some write => next tags (emit_offsets write pending)
              end
        end
      else
        match state_machine
              !! Z.to_nat (base (tag_at tags prev_etag)) with
        | Some s =>
            if etag_index s =? tag then next tags (tw_pending w) else None
        | None => None
        end
  end.

(** [WriteTransitions(max_transition, state_machine)]: the tag list
    afterwards and the bytes written to the compressor. *)
Definition WriteTransitions (max_transition : Z)
    (state_machine : list StateInfo) (encoded_tags : list Z)
    (tags : list EncodedTagInfo) (compressor : list byte)
  : option (list EncodedTagInfo * list byte) :=
  match reverse encoded_tags with
  | [] => Some (tags, compressor)
  | back :: rest =>
      match foldl (write_transition max_transition state_machine)
              (Some (mkTransitionWriter tags back (base (tag_at tags back))
                       (None, compressor))) rest with
      | None => None
      | Some w => Some (tw_tags_list w, flush_last (tw_pending w))
      end
  end.

(** The offsets that one pass of the loop over the transitions hands to
    the loop over [write[j]], for the successor [tag] of [prev_etag]: the
    body of the loop as it is in [write_transition], with the offsets
    collected where they are emitted there. An implicit transition has
    none. A destination of the private list has the hops from
    [current_base] to its position. A destination of the public list has
    the hops to the NoOp state of [prev_etag] that leads to the public
    list, when there is one, and then the hops from the base of that
    state to the state of [tag]. [None] is a failed assertion. *)
Definition transition_offsets (max_transition : Z)
    (state_machine : list StateInfo) (tags : list EncodedTagInfo)
    (prev_etag current_base tag : Z) : option (list Z) :=
  if negb (size (dest_info (tag_at tags prev_etag)) =? 1)%nat then
    let tags := update_tag prev_etag (touch_dest tag) tags in
    let p := pos (dest_at (dest_info (tag_at tags prev_etag)) tag) in
    let through_public : option (Z * Z * list Z) :=
      if p =? kInvalidPos then
        let p := public_list_noop_pos (tag_at tags prev_etag) in
        let step : option (Z * list Z) :=
          if negb (p =? kInvalidPos) then
            match encode_hops kWriteBufSize max_transition state_machine
                    current_base p [] with
            | None => None
            | Some write =>
                match state_machine !! Z.to_nat p with
                | None => None
                | Some s => Some (state_base s, write)
                end
            end
          else Some (current_base, []) in
        match step with
        | None => None
        | Some (current_base, offsets) =>
            Some (state_machine_pos (tag_at tags tag), current_base, offsets)
        end
      else Some (p, current_base, []) in
    match through_public with
    | None => None
    | Some (p, current_base, offsets) =>
        if (current_base =? kInvalidPos)
           || (p >=? Z.of_nat (length state_machine))
        then None
        else
          match encode_hops kWriteBufSize max_transition state_machine
                  current_base p [] with
          | None => None
          | Some write => Some (offsets ++ write)
          end
    end
  else
    match state_machine !! Z.to_nat (base (tag_at tags prev_etag)) with
    | Some s => if etag_index s =? tag then Some [] else None
    | None => None
    end.

(** The offsets of the transitions to the tags [rest] in turn, from
    [prev_etag]: after each transition the successor is the previous tag,
    [current_base] is its base, and [dest_info[tag]] has been looked up
    in the tag list unless the transition was implicit. *)
Fixpoint transitions_offsets (max_transition : Z)
    (state_machine : list StateInfo) (tags : list EncodedTagInfo)
    (prev_etag current_base : Z) (rest : list Z) : option (list Z) :=
  match rest with
  | [] => Some []
  | tag :: rest =>
      match transition_offsets max_transition state_machine tags prev_etag
              current_base tag with
      | None => None
      | Some offsets =>
          let tags :=
            if negb (size (dest_info (tag_at tags prev_etag)) =? 1)%nat
            then update_tag prev_etag (touch_dest tag) tags
            else tags in
          match transitions_offsets max_transition state_machine tags tag
                  (base (tag_at tags tag)) rest with
          | None => None
          | Some more => Some (offsets ++ more)
          end
      end
  end.

(** The offsets of all transitions of [WriteTransitions], from the last
    encoded tag to the first. *)
Definition stream_offsets (max_transition : Z)
    (state_machine : list StateInfo) (encoded_tags : list Z)
    (tags : list EncodedTagInfo) : option (list Z) :=
  match reverse encoded_tags with
  | [] => Some []
  | back :: rest =>
      transitions_offsets max_transition state_machine tags back
        (base (tag_at tags back)) rest
  end.

(** ** The header and the chunk *)

(** The guard at the start of [WriteStatesAndData]: when the first
    encoded tag has exactly one destination, the key after it is added to
    its [dest_info]. *)
Definition guard_last_state (e : Encoder) : Encoder :=
  match encoded_tags_ e with
  | [] => e
  | first :: _ =>
      let d := dest_info (tag_at (tags_list_ e) first) in
      if (size d =? 1)%nat then
        match dest_order first d with
        | (first_key, _) :: _ =>
            set_tags_list
              (update_tag first (touch_dest (wrap32 (first_key + 1)))
                 (tags_list_ e)) e
        | [] => e
        end
      else e
  end.

(** Modelled from the spec: [HasSubtype] and [HasDataBuffer] are declared
    in [transpose_internal.h], which is not part of the sources at hand.
    Varint tags carry a subtype; a value buffer belongs to the varints
    that are not inline, to the fixed-width values and to the strings. *)
Definition HasSubtype (tag : Z) : bool := Z.land tag 7 =? 0.

Definition HasDataBuffer (tag sub : Z) : bool :=
  match Z.land tag 7 with
  | 0 => sub <? kVarintInline0
  | 5 | 1 => true
  | 2 => sub =? kLengthDelimitedString
  | _ => false
  end.

Definition kSubmessageWireType : Z := 6.
Definition kLengthDelimitedWireType : Z := 2.

Record StateWriter := mkStateWriter {
  sw_header_writer : list byte;
  sw_subtype_to_write : list byte;
  sw_buffer_index_to_write : list Z;
  sw_base_to_write : list Z
}.

(** The body of the loop [for (const StateInfo state_info :
    state_machine)] of [WriteStatesAndData]. [None] is a failed
    assertion. *)
Definition write_state (tags : list EncodedTagInfo)
    (buffer_pos : gmap NodeId Z) (num_states : Z)
    (acc : option StateWriter) (state_info : StateInfo)
  : option StateWriter :=
  match acc with
  | None => None
  | Some w =>
      if etag_index state_info =? kInvalidPos then
        (* NoOp state. *)
        Some (mkStateWriter (WriteVarint32 kNoOp (sw_header_writer w))
                (sw_subtype_to_write w) (sw_buffer_index_to_write w)
                (sw_base_to_write w ++ [state_base state_info]))
      else
        let etag_info := tag_at tags (etag_index state_info) in
        let id := node_id etag_info in
        let sub := subtype etag_info in
        let described : option StateWriter :=
          if negb (id.2 =? 0) then
            let is_string := Z.land id.2 7 =? kLengthDelimitedWireType in
            if is_string && (sub =? kLengthDelimitedStartOfSubmessage) then
              Some (mkStateWriter
                      (WriteVarint32 kStartOfSubmessage (sw_header_writer w))
                      (sw_subtype_to_write w) (sw_buffer_index_to_write w)
                      (sw_base_to_write w))
            else if is_string && (sub =? kLengthDelimitedEndOfSubmessage) then
              Some (mkStateWriter
                      (WriteVarint32
                         (wrap32 (id.2 + (kSubmessageWireType
                                          - kLengthDelimitedWireType)))
                         (sw_header_writer w))
                      (sw_subtype_to_write w) (sw_buffer_index_to_write w)
                      (sw_base_to_write w))
            else
              let header := WriteVarint32 id.2 (sw_header_writer w) in
              let subtypes :=
                if HasSubtype id.2
                then sw_subtype_to_write w ++ [Z_to_byte sub]
                else sw_subtype_to_write w in
              if HasDataBuffer id.2 sub then
                match buffer_pos !! id with
                | None => None
                | Some i =>
                    Some (mkStateWriter header subtypes
                            (sw_buffer_index_to_write w ++ [i])
                            (sw_base_to_write w))
                end
              else
                Some (mkStateWriter header subtypes
                        (sw_buffer_index_to_write w) (sw_base_to_write w))
          else
            (* NonProto and StartOfMessage special IDs. *)
            let header := WriteVarint32 id.1 (sw_header_writer w) in
            if id.1 =? kNonProto then
              match buffer_pos !! ((kNonProto, 0) : NodeId) with
              | None => None
              | Some i =>
                  Some (mkStateWriter header (sw_subtype_to_write w)
                          (sw_buffer_index_to_write w ++ [i])
                          (sw_base_to_write w))
              end
            else if id.1 =? kStartOfMessage then
              Some (mkStateWriter header (sw_subtype_to_write w)
                      (sw_buffer_index_to_write w) (sw_base_to_write w))
            else None in
        match described with
        | None => None
        | Some w =>
            let b :=
              if negb (base etag_info =? kInvalidPos) then
                wrap32 (base etag_info
                        + (if (size (dest_info etag_info) =? 1)%nat
                           then num_states else 0))
              else 0 in
            Some (mkStateWriter (sw_header_writer w) (sw_subtype_to_write w)
                    (sw_buffer_index_to_write w) (sw_base_to_write w ++ [b]))
        end
  end.

(** The search [while (state_machine[first_tag_pos].etag_index !=
    encoded_tags_.back()) ++first_tag_pos]. *)
Fixpoint find_first_tag_pos (state_machine : list StateInfo) (back : Z)
    (first_tag_pos : Z) : option Z :=
  match state_machine with
  | [] => None
  | s :: state_machine =>
      if etag_index s =? back then Some first_tag_pos
      else find_first_tag_pos state_machine back (wrap32 (first_tag_pos + 1))
  end.

(** [WriteStatesAndData(max_transition, state_machine, header_writer,
    data_writer)], on empty writers: the header, the data and the encoder
    as the function leaves it, with the tag list of [WriteTransitions]
    and with the buffers of [data_] in the order in which [WriteBuffers]
    has sorted them in place. *)
Definition WriteStatesAndData (max_transition : Z)
    (state_machine : list StateInfo) (e : Encoder)
  : option (list byte * list byte * Encoder) :=
  let e := guard_last_state e in
  match WriteBuffers e [] [] [] with
  | None => None
  | Some (header_writer, bw, buffer_pos) =>
      let num_states := wrap32 (Z.of_nat (length state_machine)) in
      let header_writer := WriteVarint32 num_states header_writer in
      match foldl (write_state (tags_list_ e) buffer_pos num_states)
              (Some (mkStateWriter header_writer [] [] [])) state_machine with
      | None => None
      | Some sw =>
          let header_writer :=
            foldl (fun h v => WriteVarint32 v h) (sw_header_writer sw)
              (sw_base_to_write sw) in
          let header_writer := header_writer ++ sw_subtype_to_write sw in
          let header_writer :=
            foldl (fun h v => WriteVarint32 v h) header_writer
              (sw_buffer_index_to_write sw) in
          let first_tag_pos :=
            match reverse (encoded_tags_ e) with
            | [] => Some 0
            | back :: _ => find_first_tag_pos state_machine back 0
            end in
          match first_tag_pos with
          | None => None
          | Some first_tag_pos =>
              let header_writer := WriteVarint32 first_tag_pos header_writer in
              match WriteTransitions max_transition state_machine
                      (encoded_tags_ e) (tags_list_ e) [] with
              | None => None
              | Some (tags, transitions) =>
                  Some (header_writer,
                        bw_data_writer bw ++ compress transitions,
                        set_tags_list tags
                          (set_data (map sort_buffers (data_ e)) e))
              end
          end
      end
  end.

Definition kMaxTransition : Z := 63.
Definition kMinCountForState : Z := 10.

(** [EncodeAndCloseInternal(max_transition, min_count_for_state, dest,
    ...)]: the returned flag, the destination and the encoder afterwards.
    [None] is a failed assertion. The node writers and the writers of the
    header and of the data are backed by memory; closing them does not
    fail. *)
Definition EncodeAndCloseInternal (max_transition min_count_for_state : Z)
    (dest : list byte) (e : Encoder) : option (bool * list byte * Encoder) :=
  if negb (max_transition <=? 63) then None
  else if negb (healthy e) then Some (false, dest, e)
  else
    let dest := dest ++ [Z_to_byte compression_type_] in
    match CreateStateMachine max_transition min_count_for_state e with
    | None => None
    | Some (state_machine, e) =>
        match WriteStatesAndData max_transition state_machine e with
        | None => None
        | Some (header, data, e) =>
            let compressed_header := compress header in
            let dest :=
              WriteVarint64 (Z.of_nat (length compressed_header)) dest in
            let dest := dest ++ compressed_header in
            let dest := dest ++ data in
            Some (true, dest, set_state kClosed e)
        end
    end.

(** [EncodeAndClose(dest, ...)] *)
Definition EncodeAndClose (dest : list byte) (e : Encoder)
  : option (bool * list byte * Encoder) :=
  EncodeAndCloseInternal kMaxTransition kMinCountForState dest e.

(** ** Zero-run compaction, as it is read off the transition bytes *)

(** A wire byte carries an offset and the number of zero offsets that
    follow it: [(offset << 2) | run_length]. *)
Definition wire_byte (run : Z * Z) : Z := Z.lor (Z.shiftl run.1 2) run.2.

(** The offsets a wire byte stands for. *)
Definition run_offsets (run : Z * Z) : list Z :=
  run.1 :: replicate (Z.to_nat run.2) 0.

(** The rule of the specification, in its words: a pending byte with
    [run_length < 3] and a non-zero offset absorbs a following zero
    offset; any other offset flushes the pending byte first. *)
Definition emit_offset_as_specified (st : option Z * list byte) (offset : Z)
  : option Z * list byte :=
  let (last_transition, out) := st in
  match last_transition with
  | Some last =>
      if (offset =? 0) && (Z.land last 3 <? 3)
         && negb (Z.shiftr last 2 =? 0)
      then (Some (wrap8 (last + 1)), out)
      else (Some (wrap8 (Z.shiftl offset 2)), out ++ [Z_to_byte last])
  | None => (Some (wrap8 (Z.shiftl offset 2)), out)
  end.

(** The rule of the specification without its condition on the offset
    of the pending byte, in its words and on pairs [(offset, run_length)]
    in place of bytes: [st.1] is the pending byte, [st.2] the bytes
    written. A zero offset is absorbed by a pending byte with
    [run_length < 3], whose [run_length] counts it; any other offset has
    the pending byte written first and becomes the pending byte, with
    [run_length] 0. *)
Definition absorb_or_flush (st : option (Z * Z) * list (Z * Z)) (offset : Z)
  : option (Z * Z) * list (Z * Z) :=
  match st.1 with
  | Some (o, r) =>
      if (offset =? 0) && (r <? 3)
      then (Some (o, r + 1), st.2)
      else (Some (offset, 0), st.2 ++ [(o, r)])
  | None => (Some (offset, 0), st.2)
  end.

(** At the end of the stream the pending byte is written. *)
Definition runs_written (st : option (Z * Z) * list (Z * Z))
  : list (Z * Z) :=
  match st.1 with
  | Some run => st.2 ++ [run]
  | None => st.2
  end.

(** The pairs written for a stream of offsets. *)
Definition runs_of (offsets : list Z) : list (Z * Z) :=
  runs_written (foldl absorb_or_flush (None, []) offsets).

(** ** Predicates of the properties *)

(** The order of the keys, for the destinations of every tag. *)
Definition key_order (tag_id : Z) (d : gmap Z DestInfo)
  : list (Z * DestInfo) :=
  map_to_list d.

(** The part of the encoder that only [AddRecordInternal] itself and the
    group handling of [AddMessage] change. *)
Definition same_frame (e e' : Encoder) : Prop :=
  state_ e' = state_ e /\ group_stack_ e' = group_stack_ e /\
  num_records_ e' = num_records_ e /\
  decoded_data_size_ e' = decoded_data_size_ e.

(** The record-count limit or the decoded-size limit is hit. *)
Definition limit_exceeded (record : list byte) (e : Encoder) : Prop :=
  num_records_ e = kMaxNumRecords \/
  Z.of_nat (length record) > uint64_max - decoded_data_size_ e.

(** The number of times [x] occurs in [l]. *)
Definition occurrences (x : Z) (l : list Z) : Z :=
  Z.of_nat (count_occ Z.eq_dec l x).

(** The state of the emitter after some offsets: the bytes written are
    the wire bytes of [done], the pending byte is the wire byte of
    [(o, r)]. *)
Definition emitter_at (done : list (Z * Z)) (o r : Z)
    (st : option Z * list byte) : Prop :=
  st.1 = Some (wire_byte (o, r)) /\ map byte_val st.2 = map wire_byte done.

(** A run is an offset of at most 63 and a run length of at most 3. *)
Definition run_ok (run : Z * Z) : Prop :=
  0 <= run.1 <= 63 /\ 0 <= run.2 <= 3.

(** The emitter [st] of the code holds what the rule on pairs holds in
    [ps], after the bytes [c] that the compressor held at the start: the
    pending byte is the wire byte of the pending pair, the bytes written
    are the wire bytes of the pairs written, and every pair is a run. *)
Definition pending_as (c : list byte) (ps : option (Z * Z) * list (Z * Z))
    (st : option Z * list byte) : Prop :=
  st.1 = option_map wire_byte ps.1 /\
  st.2 = c ++ map (fun run => Z_to_byte (wire_byte run)) ps.2 /\
  Forall run_ok (runs_written ps).

(** No wire byte with room left is followed by one for a zero offset. *)
Definition zero_runs_maximal (runs : list (Z * Z)) : Prop :=
  forall (i : nat) (r1 r2 : Z * Z),
    runs !! i = Some r1 -> runs !! S i = Some r2 -> r1.2 < 3 -> r2.1 <> 0.

(** An entry of the queue is a tag, the NoOp to the public list (in a
    private list only), or the NoOp of a block laid out before. *)
Definition entry_ok (owner : option Z) (tags_size blocks : Z)
    (x : PriorityQueueEntry) : Prop :=
  0 <= dest_index x /\
  (dest_index x < tags_size + blocks \/
   (is_Some owner /\ dest_index x = kInvalidPos)).

(** The tag and the base of a state. *)
Definition state_kind (s : StateInfo) : Z * Z := (etag_index s, state_base s).

(** The tag and the base of the state that an entry of the queue is laid
    out as. An entry that stands for a block laid out before, the one
    recorded at its place in [noop_base], gives a NoOp state whose base
    is the start of that block. Any other entry gives a state of its
    destination without a base; this is a NoOp state for the entry
    [kInvalidPos] of a private list, which leads to the public list. *)
Definition entry_state (owner : option Z) (tags_size : Z)
    (noop_base : list Z) (x : PriorityQueueEntry) : Z * Z :=
  if match owner with
     | Some _ => negb (dest_index x =? kInvalidPos)
     | None => true
     end && (dest_index x >=? tags_size)
  then (kInvalidPos,
        default kInvalidPos (noop_base !! Z.to_nat (dest_index x - tags_size)))
  else (dest_index x, kInvalidPos).

(** A state as the layout leaves it: the state of a tag, which has no
    base yet, or a NoOp state, which has no tag. *)
Definition tag_or_noop (kind : Z * Z) : Prop :=
  kind.2 = kInvalidPos \/ kind.1 = kInvalidPos.

(** What one placement keeps and what it changes. *)
Definition placed (n : Z) (l l' : Layout) : Prop :=
  l_tag_priority l' = drop (Z.to_nat n) (l_tag_priority l) /\
  l_prev_state l' = l_prev_state l - n /\
  l_noop_base l' = l_noop_base l /\
  length (l_state_machine l') = length (l_state_machine l) /\
  length (l_tags_list l') = length (l_tags_list l).

(** The starts of the blocks that a NoOp serves, in the order in which
    they are laid out: the [m] blocks above the first [m] whole blocks of
    a list that starts at [start]. *)
Fixpoint block_starts (start max_transition : Z) (m : nat) : list Z :=
  match m with
  | O => []
  | S m' =>
      (start + Z.of_nat m * (max_transition + 1))
        :: block_starts start max_transition m'
  end.

(** The number of NoOp states that [CreateStateMachine] adds to a list
    of [n] states. *)
Definition noop_count (max_transition n : Z) : Z :=
  if n <=? max_transition + 1 then 0 else (n - 2) / max_transition.

(** A bucket is the list of the buffers written to the compressor
    between two resets. *)
Definition bucket_size_of (bucket : list (list byte)) : Z :=
  Z.of_nat (length (concat bucket)).

(** The size bound of the specification: a bucket is within
    [bucket_size_] or is one buffer that exceeds it. *)
Definition bucket_ok (bucket : list (list byte)) : Prop :=
  bucket <> [] /\
  (bucket_size_of bucket <= bucket_size_ \/
   exists b, bucket = [b] /\ bucket_size_ < Z.of_nat (length b)).

(** Inside one kind a bucket ends only where the next buffer would cross
    [bucket_size_]. *)
Definition buckets_greedy (buckets : list (list (list byte))) : Prop :=
  forall (i : nat) (b1 : list (list byte)) (b : list byte)
         (b2 : list (list byte)),
    buckets !! i = Some b1 -> buckets !! S i = Some (b :: b2) ->
    bucket_size_ < bucket_size_of b1 + Z.of_nat (length b).

(** The two conditions for a limit given outright, to be read with the
    bucket size that the constructor was given. *)
Definition bucket_within (limit : Z) (bucket : list (list byte)) : Prop :=
  bucket <> [] /\
  (bucket_size_of bucket <= limit \/
   exists b, bucket = [b] /\ limit < Z.of_nat (length b)).

Definition cut_at_crossing (limit : Z) (buckets : list (list (list byte)))
  : Prop :=
  forall (i : nat) (b1 : list (list byte)) (b : list byte)
         (b2 : list (list byte)),
    buckets !! i = Some b1 -> buckets !! S i = Some (b :: b2) ->
    limit < bucket_size_of b1 + Z.of_nat (length b).

(** The buffers of a kind in one bucket, when there are any. *)
Definition one_bucket (kind : list (list byte)) : list (list (list byte)) :=
  match kind with
  | [] => []
  | _ :: _ => [kind]
  end.

(** The buckets of the buffers of one kind, [cur] being the bucket that
    is open. *)
Fixpoint pack (cur : list (list byte)) (buffers : list (list byte))
  : list (list (list byte)) :=
  match buffers with
  | [] => [cur]
  | b :: buffers =>
      if bucket_size_of cur + Z.of_nat (length b) >? bucket_size_
      then cur :: pack [b] buffers
      else pack (cur ++ [b]) buffers
  end.

(** The buckets of the buffers of one kind: the first buffer opens a
    bucket. *)
Definition pack_kind (buffers : list (list byte)) : list (list (list byte)) :=
  match buffers with
  | [] => []
  | b :: buffers => pack [b] buffers
  end.

(** The state of the packer: [done] are the buckets written to the data
    writer, [cur] is the bucket that is open in the compressor. *)
Definition packer_at (done : list (list (list byte)))
    (cur : list (list byte)) (w : BucketWriter) : Prop :=
  bw_compressor w = concat cur /\
  bw_data_writer w = concat (map (fun b => compress (concat b)) done) /\
  bw_bucket_lengths w =
    map (fun b => Z.of_nat (length (compress (concat b)))) done.

(** No buffer of [l] is empty. *)
Definition nonempty_buffers (l : list (list byte)) : Prop :=
  Forall (fun b => b <> []) l.

(** The buckets so far, the open one included when it holds a buffer. *)
Definition closed_buckets (done : list (list (list byte)))
    (cur : list (list byte)) : list (list (list byte)) :=
  done ++ match cur with [] => [] | _ => [cur] end.

(** The buffers [WriteBuffers] packs, kind by kind in the order of the
    calls of [AddBuffer]: the sorted buffers of each kind, then the
    buffer of the non-proto lengths when it is not empty. *)
Definition buffer_kinds (e : Encoder) : list (list (list byte)) :=
  map (fun k => map buffer (sort_buffers k)) (data_ e)
  ++ [match nonproto_lengths_writer_ e with
      | [] => []
      | _ :: _ => [nonproto_lengths_writer_ e]
      end].

(** ** What ingestion keeps *)

(** A position kept in a node for an encoded tag: none yet, or an index
    of [tags]. *)
Definition tag_pos_ok (tags : list EncodedTagInfo) (p : Z) : Prop :=
  p = kInvalidPos \/ 0 <= p < Z.of_nat (length tags).

(** The state that [AddRecordInternal] keeps from a new encoder on: the
    encoded tags and the positions kept in the nodes are indices of
    [tags_list_], the entries of [tags_list_] are as their constructor
    leaves them, and no value buffer is empty. *)
Definition ingested (e : Encoder) : Prop :=
  Forall (fun t => 0 <= t < Z.of_nat (length (tags_list_ e)))
    (encoded_tags_ e) /\
  Forall (fun t => t = EncodedTagInfo_new (node_id t) (subtype t))
    (tags_list_ e) /\
  (forall id node, message_nodes_ e !! id = Some node ->
     Forall (tag_pos_ok (tags_list_ e)) (encoded_tag_pos node)) /\
  Forall (Forall (fun b => buffer b <> [])) (data_ e).

(** One step of ingestion: the invariant holds afterwards and
    [tags_list_] has not become shorter. *)
Definition ingests (e e' : Encoder) : Prop :=
  ingested e' /\ (length (tags_list_ e) <= length (tags_list_ e'))%nat.

(** ** The tree of blocks of the public list *)

(** The start of the block of [max_transition + 1] states that holds
    position [p] of a list that starts at [public_list_base]. *)
Definition block_of (max_transition public_list_base p : Z) : Z :=
  public_list_base
  + (p - public_list_base) / (max_transition + 1) * (max_transition + 1).

(** [state_machine[p].canonical_source], [kInvalidPos] out of range. *)
Definition source_at (state_machine : list StateInfo) (p : Z) : Z :=
  match state_machine !! Z.to_nat p with
  | Some s => canonical_source s
  | None => kInvalidPos
  end.

(** What the layout of the public list leaves: the states of the first
    block have no canonical source; the states of every other block have
    the same one, a NoOp state before the block, in the public list, whose
    base is the start of the block. *)
Definition public_tree (max_transition public_list_base : Z)
    (state_machine : list StateInfo) : Prop :=
  forall p,
    public_list_base <= p < Z.of_nat (length state_machine) ->
    let b := block_of max_transition public_list_base p in
    (b = public_list_base -> source_at state_machine p = kInvalidPos) /\
    (b <> public_list_base ->
     source_at state_machine p = source_at state_machine b /\
     public_list_base <= source_at state_machine p < b /\
     exists s, state_machine !! Z.to_nat (source_at state_machine p) = Some s /\
               state_base s = b).

(** [reaches sm mt plb b q p]: on the way from the first block to
    position [p], the state entered in the block that starts at [b] is
    [q]. *)
Inductive reaches (max_transition public_list_base : Z)
    (state_machine : list StateInfo) : Z -> Z -> Z -> Prop :=
| reaches_here (p : Z) :
    public_list_base <= p < Z.of_nat (length state_machine) ->
    reaches max_transition public_list_base state_machine
      (block_of max_transition public_list_base p) p p
| reaches_up (b q p : Z) :
    public_list_base <= p < Z.of_nat (length state_machine) ->
    block_of max_transition public_list_base p <> public_list_base ->
    reaches max_transition public_list_base state_machine b q
      (source_at state_machine p) ->
    reaches max_transition public_list_base state_machine b q p.

(** The state of the loop of [find_base] that started from the block
    start [b0] with [m0] for the position [p0]. *)
Definition climbing (mt plb : Z) (sm : list StateInfo)
    (b0 m0 p0 b m x : Z) : Prop :=
  (plb <= b < Z.of_nat (length sm) /\ block_of mt plb b = b) /\
  (plb <= x < Z.of_nat (length sm) /\
   reaches mt plb sm (block_of mt plb x) x p0) /\
  (exists e, reaches mt plb sm b e b0 /\ (b = b0 -> m = m0) /\
             (b <> b0 -> m = Z.min m0 e)) /\
  (forall B,
      (exists q, reaches mt plb sm B q b0) ->
      (exists q, reaches mt plb sm B q p0) ->
      (exists q, reaches mt plb sm B q b) /\
      (exists q, reaches mt plb sm B q x)).

(** After the destinations at the positions [S], [b] is the start of
    the lowest block above all of them and [m] the least of the states
    entered in that block on the way to them. *)
Definition covers (mt plb : Z) (sm : list StateInfo)
    (S : list Z) (b m : Z) : Prop :=
  (plb <= b < Z.of_nat (length sm) /\ block_of mt plb b = b) /\
  (forall p, p ∈ S -> exists q, reaches mt plb sm b q p /\ m <= q) /\
  (exists p, p ∈ S /\ reaches mt plb sm b m p) /\
  (forall B, (forall p, p ∈ S -> exists q, reaches mt plb sm B q p) ->
             exists q, reaches mt plb sm B q b).

(** The body of the loop of [scan_destinations]. *)
Definition scan_step (mt plb : Z) (sm : list StateInfo)
    (tags : list EncodedTagInfo)
    (acc : option (Z * Z)) (dest_info : Z * DestInfo)
  : option (Z * Z) :=
  match acc with
  | None => None
  | Some (base, min_pos) =>
      let (dest, info) := dest_info in
      if negb (pos info =? kInvalidPos) then Some (base, min_pos)
      else
        let p := state_machine_pos (tag_at tags dest) in
        if p =? kInvalidPos then None
        else
          match find_base (2 * length sm + 2) mt plb sm base min_pos p with
          | None => None
          | Some (base, min_pos, p) => Some (base, UnsignedMin min_pos p)
          end
  end.

(** The positions in the public list that a loop over [l] looks for. *)
Definition public_dests (tags : list EncodedTagInfo)
    (l : list (Z * DestInfo)) : list Z :=
  map (fun d => state_machine_pos (tag_at tags d.1))
    (filter (fun d => pos d.2 = kInvalidPos) l).

(** The layout of the public list, between two calls of [place_top]:
    the states from [l_prev_state] on are placed, in a list of [nt]
    states that starts at [plb], over [T] tags; the block that is being
    filled ends at [ce]. Every block before it starts at a multiple of
    [max_transition + 1] from [plb] and is recorded in [l_noop_base]; its
    states have one canonical source, which is none as long as the NoOp
    state of the block waits in the queue and then is that NoOp state. *)
Definition laid (mt plb nt T ce : Z) (l : Layout) : Prop :=
  let sm := l_state_machine l in
  let prev := l_prev_state l in
  let nb := l_noop_base l in
  let q := l_tag_priority l in
  (Z.of_nat (length sm) = nt /\ Z.of_nat (length (l_tags_list l)) = T /\
   plb <= prev <= ce /\ ce <= nt) /\
  (forall (i : nat) (b : Z),
      nb !! i = Some b ->
      block_of mt plb b = b /\ ce <= b < nt /\
      (forall p, b <= p <= b + mt -> p < nt ->
                 source_at sm p = source_at sm b) /\
      (source_at sm b = kInvalidPos ->
       (T + Z.of_nat i) ∈ map dest_index q) /\
      (source_at sm b <> kInvalidPos ->
       prev <= source_at sm b < b /\
       (exists s, sm !! Z.to_nat (source_at sm b) = Some s /\
                  state_base s = b) /\
       (T + Z.of_nat i) ∉ map dest_index q)) /\
  (forall p, prev <= p < ce -> source_at sm p = kInvalidPos) /\
  (forall p, ce <= p < nt ->
             exists (i : nat) (b : Z), nb !! i = Some b /\ b <= p <= b + mt) /\
  NoDup nb /\ NoDup (map dest_index q) /\
  (forall x, x ∈ q -> 0 <= dest_index x < T + Z.of_nat (length nb)) /\
  (forall i,
      state_machine_pos (tag_at (l_tags_list l) i) = kInvalidPos \/
      prev <= state_machine_pos (tag_at (l_tags_list l) i) < nt).

(** ** The choice of the private list, destination by destination *)

(** The test of [select_private] on a destination, on the tag list the
    loop starts from. *)
Definition chosen (tags : list EncodedTagInfo) (x : Z * DestInfo) : bool :=
  (pos x.2 =? kInListPos)
  || (num_transitions x.2 =? num_incoming_transitions (tag_at tags x.1)).

Definition queue_entry (x : Z * DestInfo) : PriorityQueueEntry :=
  mkPriorityQueueEntry x.1 (num_transitions x.2).

(** What [select_private] does to its four variables. *)
Definition select_tags (tags0 tags : list EncodedTagInfo) (x : Z * DestInfo)
  : list EncodedTagInfo :=
  if chosen tags0 x && negb (pos x.2 =? kInListPos)
  then update_tag x.1 (sub_num_incoming (num_transitions x.2)) tags
  else tags.

Definition select_queue (tags0 : list EncodedTagInfo)
    (q : list PriorityQueueEntry) (x : Z * DestInfo)
  : list PriorityQueueEntry :=
  if chosen tags0 x then pq_push (queue_entry x) q else q.

Definition select_excluded (tags0 : list EncodedTagInfo)
    (e : PriorityQueueEntry) (x : Z * DestInfo) : PriorityQueueEntry :=
  if chosen tags0 x then e else queue_entry x.

Definition select_count (tags0 : list EncodedTagInfo) (n : Z)
    (x : Z * DestInfo) : Z :=
  if chosen tags0 x then n else wrap32 (n + num_transitions x.2).

(** The body of the loop of [select_private]. *)
Definition select_step
    (acc : list EncodedTagInfo * list PriorityQueueEntry
           * PriorityQueueEntry * Z) (dest_info : Z * DestInfo) :=
  let '(tags, queue, excluded_state, num_excluded_transitions) := acc in
  let (dest, info) := dest_info in
  if (pos info =? kInListPos)
     || (num_transitions info =?
         num_incoming_transitions (tag_at tags dest))
  then
    let tags :=
      if negb (pos info =? kInListPos)
      then update_tag dest (sub_num_incoming (num_transitions info)) tags
      else tags in
    (tags,
     pq_push (mkPriorityQueueEntry dest (num_transitions info)) queue,
     excluded_state, num_excluded_transitions)
  else
    (tags, queue,
     mkPriorityQueueEntry dest (num_transitions info),
     wrap32 (num_excluded_transitions + num_transitions info)).

(** ** What the private lists keep *)

(** The number of destinations of all tags. *)
Definition dest_count (tags : list EncodedTagInfo) : nat :=
  sum_list ((fun t => size (dest_info t)) <$> tags).

(** No destination has a negative index. *)
Definition keys_nonneg (tags : list EncodedTagInfo) : Prop :=
  Forall (fun t => forall k v, dest_info t !! k = Some v -> 0 <= k) tags.

(** From tag [i] on, the destinations are those of [tags0]. *)
Definition dests_kept (i : nat) (tags0 tags : list EncodedTagInfo) : Prop :=
  forall j, (i <= j)%nat -> dest_info <$> tags !! j = dest_info <$> tags0 !! j.

(** The state after the private lists of the tags before [i]: no tag has
    a state in the public list yet, and the NoOp states to the public
    list are states of the machine. *)
Definition private_ok (tags0 : list EncodedTagInfo) (i : nat)
    (sm : list StateInfo) (tags : list EncodedTagInfo)
    (noops : list (Z * Z)) : Prop :=
  length tags = length tags0 /\
  dests_kept i tags0 tags /\
  Forall (fun t => state_machine_pos t = kInvalidPos) tags /\
  Forall (fun x => 0 <= x.2 < Z.of_nat (length sm)) noops.

(** Two tags with the same destinations and the same state in the public
    list. *)
Definition same_dests (t0 t : EncodedTagInfo) : Prop :=
  dom (dest_info t) = dom (dest_info t0) /\
  state_machine_pos t = state_machine_pos t0.

(** Every buffer is the one its node writes to: the writer of the node
    of the buffer at place [j] of [data_[i]] is at [(i, j)]. *)
Definition owned (e : Encoder) : Prop :=
  forall i j bs b,
    data_ e !! i = Some bs -> bs !! j = Some b ->
    exists node,
      message_nodes_ e !! buffer_node_id b = Some node /\
      writer node = Some (i, j).

(** What [std::sort] with [buffer_before] leaves: no buffer is before an
    earlier one. *)
Fixpoint in_order (l : list BufferWithMetadata) : Prop :=
  match l with
  | [] => True
  | a :: l => Forall (fun b => buffer_before b a = false) l /\ in_order l
  end.

(** ** Predicates of the further properties *)

(** What [std::priority_queue] keeps: [top()] is less than no other
    entry, and so on after every [pop()]. *)
Fixpoint queue_ordered (q : list PriorityQueueEntry) : Prop :=
  match q with
  | [] => True
  | x :: q => Forall (fun y => entry_lt x y = false) q /\ queue_ordered q
  end.

(** The records that were accepted, given the flags that [AddRecord]
    returned. *)
Fixpoint accepted (records : list (list byte)) (oks : list bool)
  : list (list byte) :=
  match records, oks with
  | r :: records, ok :: oks =>
      if ok then r :: accepted records oks else accepted records oks
  | _, _ => []
  end.

(** The number of places of [encoded_tags] at which [b] is followed by
    [a]: the transitions from [a] to [b], as the tags are met from the
    back of [encoded_tags] to its front. *)
Fixpoint transitions_between (a b : Z) (encoded_tags : list Z) : Z :=
  match encoded_tags with
  | [] => 0
  | x :: rest =>
      match rest with
      | y :: _ => if (y =? a) && (x =? b) then 1 else 0
      | [] => 0
      end + transitions_between a b rest
  end.

(** The number of transitions from [a] to [b] on the way from [prev]
    through [rest]. *)
Fixpoint transitions_along (a b prev : Z) (rest : list Z) : Z :=
  match rest with
  | [] => 0
  | p :: rest =>
      (if (prev =? a) && (p =? b) then 1 else 0)
      + transitions_along a b p rest
  end.

(** Where the offsets [write] lead from [base]: each offset but the last
    leads to a state whose base the next offset is added to. *)
Fixpoint follow_hops (state_machine : list StateInfo) (base : Z)
    (write : list Z) : option Z :=
  match write with
  | [] => None
  | offset :: write =>
      match write with
      | [] => Some (base + offset)
      | _ :: _ =>
          match state_machine !! Z.to_nat (base + offset) with
          | Some s => follow_hops state_machine (state_base s) write
          | None => None
          end
      end
  end.

(** [buffer_pos] holds the places of the nodes [seen], in their order. *)
Definition indexes (buffer_pos : gmap NodeId Z) (seen : list NodeId) : Prop :=
  size buffer_pos = length seen /\
  forall id i,
    buffer_pos !! id = Some i <->
    exists n : nat, seen !! n = Some id /\ i = Z.of_nat n.

(** What [WriteStatesAndData] pushes to [base_to_write] for a state: the
    base of a NoOp state; for the state of a tag the base of the tag,
    moved by [num_states] when the tag has one destination, or 0 when
    the tag has no base. *)
Definition base_written (tags : list EncodedTagInfo) (num_states : Z)
    (state_info : StateInfo) : Z :=
  if etag_index state_info =? kInvalidPos then state_base state_info
  else
    let etag_info := tag_at tags (etag_index state_info) in
    if base etag_info =? kInvalidPos then 0
    else wrap32 (base etag_info
                 + (if (size (dest_info etag_info) =? 1)%nat
                    then num_states else 0)).

(** [grows e e']: the encoder [e'] holds what [e] holds and more. The
    encoded tags and the tag list of [e] are at the front of those of
    [e'], the lengths of the records that are no messages at the back;
    every buffer of [e] is in [e'] at its place, of the same node, with
    its bytes at the back; every node of [e] is in [e'] with its message
    id, its writer if it has one, and the positions of its encoded
    tags. *)
Definition grows (e e' : Encoder) : Prop :=
  encoded_tags_ e `prefix_of` encoded_tags_ e' /\
  tags_list_ e `prefix_of` tags_list_ e' /\
  nonproto_lengths_writer_ e `suffix_of` nonproto_lengths_writer_ e' /\
  (forall i j bs b,
      data_ e !! i = Some bs -> bs !! j = Some b ->
      exists bs' b',
        data_ e' !! i = Some bs' /\ bs' !! j = Some b' /\
        buffer_node_id b' = buffer_node_id b /\
        buffer b `suffix_of` buffer b') /\
  (forall id n,
      message_nodes_ e !! id = Some n ->
      exists n',
        message_nodes_ e' !! id = Some n' /\
        message_id n' = message_id n /\
        (forall w, writer n = Some w -> writer n' = Some w) /\
        (forall p t, encoded_tag_pos n !! p = Some t -> t <> kInvalidPos ->
                     encoded_tag_pos n' !! p = Some t)).

(** The encoded tags are interned: the position that a node keeps for a
    subtype is the index of the entry of that node and subtype in
    [tags_list_], and every entry of [tags_list_] is at the position
    that its node keeps for its subtype. *)
Definition interned (e : Encoder) : Prop :=
  (forall id n (p : nat) t,
      message_nodes_ e !! id = Some n ->
      encoded_tag_pos n !! p = Some t -> t <> kInvalidPos ->
      0 <= t /\
      tags_list_ e !! Z.to_nat t = Some (EncodedTagInfo_new id (Z.of_nat p))) /\
  (forall (t : nat) x,
      tags_list_ e !! t = Some x ->
      0 <= subtype x /\
      exists n,
        message_nodes_ e !! node_id x = Some n /\
        encoded_tag_pos n !! Z.to_nat (subtype x) = Some (Z.of_nat t)).

(** The message ids are given out in turn: [next_message_id_] counts the
    nodes from [kRoot + 1] on, the message id of every node is above
    [kRoot] and below [next_message_id_], and no two nodes have the same
    message id. *)
Definition ids_in_turn (e : Encoder) : Prop :=
  next_message_id_ e = kRoot + 1 + Z.of_nat (size (message_nodes_ e)) /\
  (forall id n,
      message_nodes_ e !! id = Some n ->
      kRoot < message_id n < next_message_id_ e) /\
  (forall id1 id2 n1 n2,
      message_nodes_ e !! id1 = Some n1 ->
      message_nodes_ e !! id2 = Some n2 ->
      message_id n1 = message_id n2 -> id1 = id2).

(** The number of bytes in the buffers of [data_]. *)
Definition bytes_of (data : list (list BufferWithMetadata)) : Z :=
  Z.of_nat (length (concat (map buffer (concat data)))).

Definition stored (e : Encoder) : Z := bytes_of (data_ e).

(** What the records [np] that are no messages, in the order in which
    they were added, leave in the encoder: their bytes in one buffer of
    the node [(kNonProto, 0)], the last record first, which is the only
    buffer of its kind; their lengths in [nonproto_lengths_writer_], the
    last record first; and no other node writes to a buffer of that
    kind. *)
Definition nonproto_kept (np : list (list byte)) (e : Encoder) : Prop :=
  data_ e !! buffer_type_index kNonProtoBuf
  = Some (match np with
          | [] => []
          | _ :: _ => [mkBuffer (concat (reverse np)) (kNonProto, 0)]
          end) /\
  nonproto_lengths_writer_ e
  = concat (map (fun r => canonical_varint (Z.of_nat (length r)))
              (reverse np)) /\
  writer (node_of (kNonProto, 0) e)
  = match np with
    | [] => None
    | _ :: _ => Some (buffer_type_index kNonProtoBuf, 0%nat)
    end /\
  (forall id n j,
      message_nodes_ e !! id = Some n ->
      writer n = Some (buffer_type_index kNonProtoBuf, j) ->
      id = (kNonProto, 0)).

(** The records among [records] that [IsProtoMessage] refuses. *)
Definition no_messages (records : list (list byte)) : list (list byte) :=
  List.filter (fun r => negb (IsProtoMessage r)) records.

(** * Properties *)

(** ** Bytes *)

Lemma byte_val_bound (b : byte) : 0 <= byte_val b < 256.
Proof.
  unfold byte_val. pose proof (Byte.to_N_bounded b). lia.
Qed.

Lemma Z_to_byte_byte_val (b : byte) : Z_to_byte (byte_val b) = b.
Proof.
  unfold Z_to_byte. pose proof (byte_val_bound b) as Hb.
  rewrite Z.mod_small by lia. unfold byte_val.
  rewrite N2Z.id, Byte.of_to_N. reflexivity.
Qed.

Lemma byte_val_Z_to_byte (z : Z) : 0 <= z < 256 -> byte_val (Z_to_byte z) = z.
Proof.
  intros Hz. unfold Z_to_byte, byte_val. rewrite Z.mod_small by lia.
  destruct (Byte.of_N (Z.to_N z)) as [b|] eqn:E.
  - apply Byte.to_of_N in E. simpl. rewrite E. lia.
  - apply Byte.of_N_None_iff in E. lia.
Qed.

(** ** Varints: reading inverts the minimal encoding *)

Lemma minimal_varint_head_nonzero (n : nat) (v : Z) (rest : list byte) :
  1 <= v -> (0 < n)%nat ->
  exists b tl, minimal_varint n v ++ rest = b :: tl /\ byte_val b <> 0.
Proof.
  intros Hv Hn. destruct n as [|n]; [lia|]. simpl.
  destruct (v <? 128) eqn:E.
  - apply Z.ltb_lt in E. eexists _, _. split; [reflexivity|].
    rewrite byte_val_Z_to_byte; lia.
  - apply Z.ltb_ge in E. eexists _, _. split; [reflexivity|].
    pose proof (Z.mod_pos_bound v 128 ltac:(lia)).
    rewrite byte_val_Z_to_byte; lia.
Qed.

Lemma read_varint_minimal (n : nat) (v : Z) (rest : list byte) :
  (0 < n)%nat -> 0 <= v < 128 ^ Z.of_nat n ->
  read_varint true n (minimal_varint n v ++ rest) = Some (v, rest).
Proof.
  revert v. induction n as [|n IH]; intros v Hpos Hv.
  - lia.
  - cbn [minimal_varint read_varint].
    destruct (v <? 128) eqn:E.
    + apply Z.ltb_lt in E. simpl.
      rewrite byte_val_Z_to_byte by lia.
      apply Z.ltb_lt in E. rewrite E. reflexivity.
    + apply Z.ltb_ge in E. simpl.
      pose proof (Z.mod_pos_bound v 128 ltac:(lia)) as Hm.
      rewrite byte_val_Z_to_byte by lia.
      destruct (128 + v mod 128 <? 128) eqn:E2; [apply Z.ltb_lt in E2; lia|].
      assert (Hq : 1 <= v / 128) by (apply Z.div_le_lower_bound; lia).
      assert (Hn : (0 < n)%nat).
      { destruct n; [|lia]. simpl in Hv. lia. }
      assert (Hq2 : 0 <= v / 128 < 128 ^ Z.of_nat n).
      { split; [lia|]. apply Z.div_lt_upper_bound; [lia|].
        rewrite Nat2Z.inj_succ, Z.pow_succ_r in Hv by lia. lia. }
      destruct (minimal_varint_head_nonzero n (v / 128) rest Hq Hn)
        as (b' & tl & Heq & Hb').
      rewrite Heq. apply Z.eqb_neq in Hb'. rewrite Hb'. simpl.
      rewrite <- Heq, IH by assumption.
      f_equal. f_equal. rewrite (Z.div_mod v 128) at 3 by lia. lia.
Qed.

Lemma read_varint_sound (n : nat) (src rest : list byte) (v : Z) :
  read_varint true n src = Some (v, rest) ->
  0 <= v < 128 ^ Z.of_nat n /\ src = minimal_varint n v ++ rest /\
  (v = 0 -> exists b tl, src = b :: tl /\ byte_val b = 0).
Proof.
  revert src rest v. induction n as [|n IH]; intros src rest v H.
  - destruct src; discriminate.
  - destruct src as [|b src']; [discriminate|].
    cbn [read_varint] in H. pose proof (byte_val_bound b) as Hb.
    assert (Hp : 128 ^ Z.of_nat (S n) = 128 * 128 ^ Z.of_nat n).
    { rewrite Nat2Z.inj_succ, Z.pow_succ_r by lia. reflexivity. }
    assert (Hp0 : 0 < 128 ^ Z.of_nat n) by (apply Z.pow_pos_nonneg; lia).
    destruct (byte_val b <? 128) eqn:E.
    + apply Z.ltb_lt in E. injection H as <- <-.
      split; [lia|]. split.
      * cbn [minimal_varint]. apply Z.ltb_lt in E. rewrite E.
        rewrite Z_to_byte_byte_val. reflexivity.
      * intros H0. eauto.
    + apply Z.ltb_ge in E.
      destruct src' as [|b' tl]; [discriminate|].
      destruct (true && (byte_val b' =? 0)) eqn:E0; [discriminate|].
      simpl in E0. apply Z.eqb_neq in E0.
      destruct (read_varint true n (b' :: tl)) as [[v' rest']|] eqn:R;
        [|discriminate].
      injection H as <- <-.
      destruct (IH _ _ _ R) as (Hv' & Hsrc & Hz).
      assert (Hv1 : 1 <= v').
      { destruct (Z.eq_dec v' 0) as [->|]; [|lia].
        destruct (Hz eq_refl) as (b0 & tl0 & Heq & Hb0).
        injection Heq as <- <-. contradiction. }
      split; [lia|]. split; [|intros; lia].
      cbn [minimal_varint].
      destruct (byte_val b - 128 + 128 * v' <? 128) eqn:E3;
        [apply Z.ltb_lt in E3; lia|].
      replace ((byte_val b - 128 + 128 * v') mod 128) with (byte_val b - 128).
      2:{ apply (Z.mod_unique _ _ v'); lia. }
      replace ((byte_val b - 128 + 128 * v') / 128) with v'.
      2:{ apply (Z.div_unique _ _ _ (byte_val b - 128)); lia. }
      replace (128 + (byte_val b - 128)) with (byte_val b) by lia.
      rewrite Z_to_byte_byte_val, Hsrc. reflexivity.
Qed.

Lemma minimal_varint_fuel (n m : nat) (v : Z) :
  (0 < n)%nat -> 0 <= v < 128 ^ Z.of_nat n -> (n <= m)%nat ->
  minimal_varint m v = minimal_varint n v.
Proof.
  revert m v. induction n as [|n IH]; intros m v Hpos Hv Hnm.
  - lia.
  - destruct m as [|m]; [lia|]. cbn [minimal_varint].
    destruct (v <? 128) eqn:E; [reflexivity|]. apply Z.ltb_ge in E.
    f_equal. apply IH; [destruct n; [simpl in Hv|]; lia| |lia].
    rewrite Nat2Z.inj_succ, Z.pow_succ_r in Hv by lia.
    split; [apply Z.div_pos; lia|]. apply Z.div_lt_upper_bound; lia.
Qed.

Lemma ReadCanonicalVarint32_spec (src rest : list byte) (v : Z) :
  ReadCanonicalVarint32 src = Some (v, rest) <->
  0 <= v < 2 ^ 32 /\ src = canonical_varint v ++ rest.
Proof.
  unfold ReadCanonicalVarint32, canonical_varint, kMaxLengthVarint32. split.
  - destruct (read_varint true 5 src) as [[v' rest']|] eqn:R; [|discriminate].
    destruct (v' <? 2 ^ 32) eqn:E; [|discriminate].
    intros H. injection H as <- <-. apply Z.ltb_lt in E.
    destruct (read_varint_sound _ _ _ _ R) as (Hv & Hsrc & _).
    split; [lia|].
    rewrite (minimal_varint_fuel 5 10) by (simpl; lia). exact Hsrc.
  - intros [Hv ->].
    rewrite (minimal_varint_fuel 5 10) by (simpl; lia).
    rewrite read_varint_minimal by (simpl; lia).
    destruct (v <? 2 ^ 32) eqn:E; [reflexivity|]. apply Z.ltb_ge in E. lia.
Qed.

Lemma ReadCanonicalVarint64_spec (src rest : list byte) (v : Z) :
  ReadCanonicalVarint64 src = Some (v, rest) <->
  0 <= v < 2 ^ 64 /\ src = canonical_varint v ++ rest.
Proof.
  unfold ReadCanonicalVarint64, canonical_varint, kMaxLengthVarint64. split.
  - destruct (read_varint true 10 src) as [[v' rest']|] eqn:R; [|discriminate].
    destruct (v' <? 2 ^ 64) eqn:E; [|discriminate].
    intros H. injection H as <- <-. apply Z.ltb_lt in E.
    destruct (read_varint_sound _ _ _ _ R) as (Hv & Hsrc & _).
    split; [lia|]. exact Hsrc.
  - intros [Hv ->].
    rewrite read_varint_minimal by (simpl; lia).
    destruct (v <? 2 ^ 64) eqn:E; [reflexivity|]. apply Z.ltb_ge in E. lia.
Qed.

Lemma canonical_varint_nonempty (v : Z) : (0 < length (canonical_varint v))%nat.
Proof.
  unfold canonical_varint. cbn [minimal_varint].
  destruct (v <? 128); simpl; lia.
Qed.

Lemma ReadCanonicalVarint32_canonical (v : Z) (rest : list byte) :
  0 <= v < 2 ^ 32 ->
  ReadCanonicalVarint32 (canonical_varint v ++ rest) = Some (v, rest).
Proof. intros Hv. apply ReadCanonicalVarint32_spec. auto. Qed.

Lemma ReadCanonicalVarint64_canonical (v : Z) (rest : list byte) :
  0 <= v < 2 ^ 64 ->
  ReadCanonicalVarint64 (canonical_varint v ++ rest) = Some (v, rest).
Proof. intros Hv. apply ReadCanonicalVarint64_spec. auto. Qed.

(** ** Tags: field number and wire type *)

Lemma tag_lor (f w : Z) :
  0 <= f -> 0 <= w < 8 -> Z.lor (Z.shiftl f 3) w = 8 * f + w.
Proof.
  intros Hf Hw.
  assert (Hl : Z.land (Z.shiftl f 3) w = 0).
  { apply Z.bits_inj'. intros n Hn. rewrite Z.land_spec, Z.bits_0.
    destruct (Z.lt_ge_cases n 3) as [Hlt|Hge].
    - rewrite Z.shiftl_spec_low by assumption. reflexivity.
    - rewrite (Z.bits_above_log2 w n), andb_false_r; [reflexivity|lia|].
      destruct (Z.eq_dec w 0) as [->|Hw0]; [simpl; lia|].
      apply Z.log2_lt_pow2; [lia|].
      apply Z.lt_le_trans with (2 ^ 3); [lia|].
      apply Z.pow_le_mono_r; lia. }
  rewrite <- Z.lxor_lor, <- Z.add_nocarry_lxor by assumption.
  rewrite Z.shiftl_mul_pow2 by lia. lia.
Qed.

Lemma tag_field (f w : Z) : 0 <= w < 8 -> Z.shiftr (8 * f + w) 3 = f.
Proof.
  intros Hw. rewrite Z.shiftr_div_pow2 by lia.
  symmetry. apply (Z.div_unique _ _ _ w); lia.
Qed.

Lemma tag_wire_type (f w : Z) : 0 <= w < 8 -> Z.land (8 * f + w) 7 = w.
Proof.
  intros Hw. change 7 with (Z.ones 3). rewrite Z.land_ones by lia.
  symmetry. apply (Z.mod_unique _ _ f); lia.
Qed.

Lemma tag_decompose (tag : Z) :
  tag = 8 * Z.shiftr tag 3 + Z.land tag 7 /\ 0 <= Z.land tag 7 < 8.
Proof.
  change 7 with (Z.ones 3). rewrite Z.land_ones, Z.shiftr_div_pow2 by lia.
  change (2 ^ 3) with 8. pose proof (Z.mod_pos_bound tag 8 ltac:(lia)).
  split; [apply Z.div_mod; lia|lia].
Qed.

Lemma entry_wire_type_bound (e : WireEntry) : 0 <= entry_wire_type e < 8.
Proof. destruct e; simpl; lia. Qed.

Lemma entry_tag_eq (e : WireEntry) :
  0 <= entry_field e -> entry_tag e = 8 * entry_field e + entry_wire_type e.
Proof.
  intros Hf. unfold entry_tag. apply tag_lor; [assumption|].
  apply entry_wire_type_bound.
Qed.

Lemma Skip_spec (n : Z) (src rest : list byte) :
  0 <= n ->
  Skip n src = Some rest <->
  exists payload, length payload = Z.to_nat n /\ src = payload ++ rest.
Proof.
  intros Hn. unfold Skip. split.
  - destruct (n <=? Z.of_nat (length src)) eqn:E; [|discriminate].
    apply Z.leb_le in E. intros H. injection H as <-.
    exists (take (Z.to_nat n) src). split.
    + rewrite length_take. lia.
    + symmetry. apply take_drop.
  - intros (payload & Hlen & ->).
    rewrite length_app.
    destruct (n <=? Z.of_nat (length payload + length rest)) eqn:E.
    + rewrite <- Hlen, drop_app_length. reflexivity.
    + apply Z.leb_gt in E. lia.
Qed.

(** ** The validator accepts exactly the canonical messages *)

Lemma IsProtoMessage_step_complete (e : WireEntry) (rest : list byte)
    (open open' : list Z) :
  entry_wf e -> group_step e open = Some open' ->
  IsProtoMessage_step (serialize_entry e ++ rest) open = Some (rest, open').
Proof.
  intros (Hf & Ht & Hp) Hg.
  unfold IsProtoMessage_step, serialize_entry.
  pose proof (entry_wire_type_bound e) as Hw.
  assert (Htag : entry_tag e = 8 * entry_field e + entry_wire_type e)
    by (apply entry_tag_eq; lia).
  rewrite <- app_assoc, ReadCanonicalVarint32_canonical by lia.
  rewrite Htag, tag_field, tag_wire_type by assumption.
  destruct (entry_field e =? 0) eqn:E0; [apply Z.eqb_eq in E0; lia|].
  destruct e as [f v|f p|f p|f p|f|f]; simpl in *.
  - rewrite ReadCanonicalVarint64_canonical by assumption. congruence.
  - replace (Skip 4 (p ++ rest)) with (Some rest); [congruence|].
    symmetry. apply Skip_spec; [lia|]. exists p. split; [lia|reflexivity].
  - replace (Skip 8 (p ++ rest)) with (Some rest); [congruence|].
    symmetry. apply Skip_spec; [lia|]. exists p. split; [lia|reflexivity].
  - rewrite <- app_assoc, ReadCanonicalVarint32_canonical by lia.
    replace (Skip (Z.of_nat (length p)) (p ++ rest)) with (Some rest);
      [congruence|].
    symmetry. apply Skip_spec; [lia|]. exists p. split; [lia|reflexivity].
  - congruence.
  - destruct open as [|g open]; [discriminate|].
    destruct (g =? f); congruence.
Qed.

Lemma IsProtoMessage_step_sound (record rest : list byte)
    (open open' : list Z) :
  IsProtoMessage_step record open = Some (rest, open') ->
  exists e, entry_wf e /\ group_step e open = Some open' /\
            record = serialize_entry e ++ rest.
Proof.
  unfold IsProtoMessage_step.
  destruct (ReadCanonicalVarint32 record) as [[tag r1]|] eqn:R; [|discriminate].
  apply ReadCanonicalVarint32_spec in R as [Htag ->].
  destruct (tag_decompose tag) as [Hdec Hw].
  destruct (Z.shiftr tag 3 =? 0) eqn:E0; [discriminate|].
  apply Z.eqb_neq in E0.
  set (f := Z.shiftr tag 3) in *. set (w := Z.land tag 7) in *.
  assert (Hf : 1 <= f) by lia.
  assert (Hcases : w = 0 \/ w = 1 \/ w = 2 \/ w = 3 \/ w = 4 \/ w = 5 \/
                   w = 6 \/ w = 7) by lia.
  assert (Hmk : forall e, entry_field e = f -> entry_wire_type e = w ->
                          entry_tag e = tag).
  { intros e Hef Hew. rewrite entry_tag_eq by lia. lia. }
  intros H.
  destruct Hcases as [E|[E|[E|[E|[E|[E|[E|E]]]]]]]; rewrite E in H;
    try discriminate.
  - destruct (ReadCanonicalVarint64 r1) as [[v r2]|] eqn:R2; [|discriminate].
    apply ReadCanonicalVarint64_spec in R2 as [Hv ->].
    injection H as <- <-. exists (EVarint f v).
    unfold serialize_entry, entry_wf.
    rewrite (Hmk (EVarint f v)) by (simpl; lia). simpl. rewrite <- ?app_assoc, ?app_nil_r; repeat split; (lia || reflexivity).
  - destruct (Skip 8 r1) as [r2|] eqn:S2; [|discriminate].
    apply Skip_spec in S2 as (p & Hlen & ->); [|lia].
    injection H as <- <-. exists (EFixed64 f p).
    unfold serialize_entry, entry_wf.
    rewrite (Hmk (EFixed64 f p)) by (simpl; lia). simpl. rewrite <- ?app_assoc, ?app_nil_r; repeat split; (lia || reflexivity).
  - destruct (ReadCanonicalVarint32 r1) as [[l r2]|] eqn:R2; [|discriminate].
    apply ReadCanonicalVarint32_spec in R2 as [Hl ->].
    destruct (Skip l r2) as [r3|] eqn:S3; [|discriminate].
    apply Skip_spec in S3 as (p & Hlen & ->); [|lia].
    injection H as <- <-. exists (ELengthDelimited f p).
    unfold serialize_entry, entry_wf.
    rewrite (Hmk (ELengthDelimited f p)) by (simpl; lia). simpl.
    replace (Z.of_nat (length p)) with l by lia.
    rewrite <- ?app_assoc, ?app_nil_r; repeat split; (lia || reflexivity).
  - injection H as <- <-. exists (EStartGroup f).
    unfold serialize_entry, entry_wf.
    rewrite (Hmk (EStartGroup f)) by (simpl; lia). simpl.
    rewrite <- ?app_assoc, ?app_nil_r; repeat split; (lia || reflexivity).
  - destruct open as [|g open]; [discriminate|].
    destruct (g =? f) eqn:G; [|discriminate].
    injection H as <- <-. exists (EEndGroup f).
    unfold serialize_entry, entry_wf.
    rewrite (Hmk (EEndGroup f)) by (simpl; lia). simpl.
    rewrite G. rewrite <- ?app_assoc, ?app_nil_r; repeat split; (lia || reflexivity).
  - destruct (Skip 4 r1) as [r2|] eqn:S2; [|discriminate].
    apply Skip_spec in S2 as (p & Hlen & ->); [|lia].
    injection H as <- <-. exists (EFixed32 f p).
    unfold serialize_entry, entry_wf.
    rewrite (Hmk (EFixed32 f p)) by (simpl; lia). simpl. rewrite <- ?app_assoc, ?app_nil_r; repeat split; (lia || reflexivity).
Qed.

Lemma serialize_entry_length (e : WireEntry) (rest : list byte) :
  (length rest < length (serialize_entry e ++ rest))%nat.
Proof.
  unfold serialize_entry. rewrite !length_app.
  pose proof (canonical_varint_nonempty (entry_tag e)). lia.
Qed.

Lemma IsProtoMessage_step_shrinks (record rest : list byte)
    (open open' : list Z) :
  IsProtoMessage_step record open = Some (rest, open') ->
  (length rest < length record)%nat.
Proof.
  intros H. apply IsProtoMessage_step_sound in H as (e & _ & _ & ->).
  apply serialize_entry_length.
Qed.

(** The iteration bound of [IsProtoMessage] is never reached. *)
Lemma IsProtoMessage_loop_total (fuel : nat) (record : list byte)
    (open : list Z) :
  (length record <= fuel)%nat ->
  exists b, IsProtoMessage_loop fuel record open = Some b.
Proof.
  revert record open. induction fuel as [|fuel IH]; intros record open Hlen.
  - destruct record; [|simpl in Hlen; lia]. simpl. eauto.
  - destruct record as [|b0 record]; [simpl; eauto|].
    cbn [IsProtoMessage_loop Pull].
    destruct (IsProtoMessage_step (b0 :: record) open) as [[r o]|] eqn:S;
      [|eauto].
    apply IH. apply IsProtoMessage_step_shrinks in S. simpl in *. lia.
Qed.

Lemma IsProtoMessage_loop_sound (fuel : nat) (record : list byte)
    (open : list Z) :
  IsProtoMessage_loop fuel record open = Some true ->
  exists es, Forall entry_wf es /\ groups_nest es open /\
             record = serialize es.
Proof.
  revert record open. induction fuel as [|fuel IH]; intros record open H.
  - destruct record; [|discriminate]. simpl in H.
    injection H as H. apply bool_decide_eq_true in H.
    exists []. repeat split; [constructor|exact H].
  - destruct record as [|b0 record].
    + simpl in H. injection H as H. apply bool_decide_eq_true in H.
      exists []. repeat split; [constructor|exact H].
    + cbn [IsProtoMessage_loop Pull] in H.
      destruct (IsProtoMessage_step (b0 :: record) open) as [[r o]|] eqn:S;
        [|discriminate].
      apply IsProtoMessage_step_sound in S as (e & Hwf & Hg & Heq).
      apply IH in H as (es & Hes & Hnest & ->).
      exists (e :: es). split; [constructor; assumption|].
      split; [simpl; rewrite Hg; exact Hnest|exact Heq].
Qed.

Lemma IsProtoMessage_loop_complete (es : list WireEntry) (open : list Z)
    (fuel : nat) :
  Forall entry_wf es -> groups_nest es open ->
  (length (serialize es) <= fuel)%nat ->
  IsProtoMessage_loop fuel (serialize es) open = Some true.
Proof.
  revert open fuel. induction es as [|e es IH]; intros open fuel Hwf Hn Hlen.
  - simpl in Hn. subst open. destruct fuel; reflexivity.
  - apply Forall_cons in Hwf as [He Hes]. simpl in Hn.
    destruct (group_step e open) as [open'|] eqn:G; [|contradiction].
    change (serialize (e :: es)) with (serialize_entry e ++ serialize es) in *.
    pose proof (serialize_entry_length e (serialize es)) as Hl.
    destruct fuel as [|fuel]; [lia|].
    cbn [IsProtoMessage_loop].
    destruct (serialize_entry e ++ serialize es) as [|b0 tl] eqn:Heq;
      [simpl in Hl; lia|].
    cbn [Pull]. rewrite <- Heq.
    rewrite (IsProtoMessage_step_complete e _ open open') by assumption.
    apply IH; [assumption|assumption|]. simpl in *. lia.
Qed.

(** C6: [IsProtoMessage] returns true for a byte range exactly when the
    range is a sequence of wire entries in which every varint (tag, value
    or length) has its minimal encoding, every field number is at least
    1, every length-delimited payload has exactly its declared number of
    bytes inside the range, only the wire types 0 to 5 occur, and
    start-group and end-group tags nest with matching field numbers,
    leaving no group open at the end. *)
Theorem IsProtoMessage_iff_canonical (record : list byte) :
  IsProtoMessage record = true <-> canonical_message record.
Proof.
  unfold IsProtoMessage, canonical_message. split.
  - destruct (IsProtoMessage_loop (length record) record []) as [b|] eqn:L;
      [|discriminate].
    intros ->. eapply IsProtoMessage_loop_sound. exact L.
  - intros (es & Hwf & Hn & ->).
    rewrite IsProtoMessage_loop_complete by (assumption || lia). reflexivity.
Qed.

(** ** Ingestion: what the helpers leave alone *)

Lemma same_frame_refl (e : Encoder) : same_frame e e.
Proof. repeat split. Qed.

Lemma same_frame_trans (e1 e2 e3 : Encoder) :
  same_frame e1 e2 -> same_frame e2 e3 -> same_frame e1 e3.
Proof.
  intros (A1 & A2 & A3 & A4) (B1 & B2 & B3 & B4).
  repeat split; congruence.
Qed.

Lemma GetNode_frame (id : NodeId) (e : Encoder) : same_frame e (GetNode id e).
Proof. unfold GetNode. destruct (message_nodes_ e !! id); repeat split. Qed.

Lemma GetPosInTagsList_frame (id : NodeId) (sub : Z) (e : Encoder) :
  same_frame e (GetPosInTagsList id sub e).2.
Proof.
  unfold GetPosInTagsList.
  destruct (_ =? kInvalidPos); repeat split.
Qed.

Lemma push_encoded_tag_frame (t : Z) (e : Encoder) :
  same_frame e (push_encoded_tag t e).
Proof. repeat split. Qed.

Lemma GetBuffer_frame (id : NodeId) (t : BufferType) (e : Encoder) :
  same_frame e (GetBuffer id t e).2.
Proof.
  unfold GetBuffer. destruct (writer (node_of id e)); repeat split.
Qed.

Lemma buffer_write_frame (w : nat * nat) (src : list byte) (e : Encoder) :
  same_frame e (buffer_write w src e).
Proof. repeat split. Qed.

(** ** The plain readers agree with the canonical ones on canonical input *)

Lemma read_varint_canonical_plain (n : nat) (src : list byte)
    (r : Z * list byte) :
  read_varint true n src = Some r -> read_varint false n src = Some r.
Proof.
  revert src r. induction n as [|n IH]; intros src r H.
  - destruct src; discriminate.
  - destruct src as [|b src']; [discriminate|]. cbn [read_varint] in *.
    destruct (byte_val b <? 128); [exact H|].
    destruct src' as [|b' tl]; [discriminate|].
    destruct (true && (byte_val b' =? 0)); [discriminate|]. simpl andb.
    destruct (read_varint true n (b' :: tl)) as [[v rest]|] eqn:R;
      [|discriminate].
    rewrite (IH _ _ R). exact H.
Qed.

Lemma ReadVarint32_canonical (src : list byte) (r : Z * list byte) :
  ReadCanonicalVarint32 src = Some r -> ReadVarint32 src = Some r.
Proof.
  unfold ReadCanonicalVarint32, ReadVarint32.
  destruct (read_varint true kMaxLengthVarint32 src) as [[v rest]|] eqn:R;
    [|discriminate].
  rewrite (read_varint_canonical_plain _ _ _ R). auto.
Qed.

Lemma copy_varint_read (c : bool) (n : nat) (src rest : list byte) (v : Z) :
  read_varint c n src = Some (v, rest) ->
  exists bs, copy_varint n src = Some (bs, rest) /\ src = bs ++ rest /\
             (0 < length bs)%nat.
Proof.
  revert src rest v. induction n as [|n IH]; intros src rest v H.
  - destruct src; discriminate.
  - destruct src as [|b src']; [discriminate|].
    cbn [read_varint copy_varint] in *.
    destruct (byte_val b <? 128).
    + injection H as <- <-. exists [b]. repeat split. simpl. lia.
    + destruct src' as [|b' tl]; [discriminate|].
      destruct (c && (byte_val b' =? 0)); [discriminate|].
      destruct (read_varint c n (b' :: tl)) as [[v' rest']|] eqn:R;
        [|discriminate].
      injection H as <- <-.
      destruct (IH _ _ _ R) as (bs & -> & Heq & Hlen).
      exists (b :: bs). rewrite Heq. repeat split. simpl. lia.
Qed.

Lemma CopyVarint64_canonical (src rest : list byte) (v : Z) :
  ReadCanonicalVarint64 src = Some (v, rest) ->
  exists bs, CopyVarint64 src = Some (bs, rest).
Proof.
  unfold ReadCanonicalVarint64, CopyVarint64.
  destruct (read_varint true kMaxLengthVarint64 src) as [[v' rest']|] eqn:R;
    [|discriminate].
  destruct (v' <? 2 ^ 64); [|discriminate]. intros H. injection H as <- <-.
  destruct (copy_varint_read _ _ _ _ _ R) as (bs & Hc & _). eauto.
Qed.

(** ** [AddMessage] returns on every record the validator accepts *)

Ltac frame_step :=
  match goal with
  | |- context [GetPosInTagsList ?id ?s ?e] =>
      let H := fresh "HF" in
      pose proof (GetPosInTagsList_frame id s e) as H;
      destruct (GetPosInTagsList id s e) as [? ?]; cbn [snd] in H
  | |- context [GetBuffer ?id ?t ?e] =>
      let H := fresh "HF" in
      pose proof (GetBuffer_frame id t e) as H;
      destruct (GetBuffer id t e) as [? ?]; cbn [snd] in H
  end.

Ltac frame_solve :=
  unfold same_frame in *; cbn [state_ group_stack_ num_records_
    decoded_data_size_ push_encoded_tag buffer_write set_encoded_tags
    set_data set_group_stack] in *;
  intuition (try congruence).

Lemma AddMessage_iteration_total
    (rec : list byte -> Z -> Z -> Encoder -> option Encoder)
    (record rest : list byte) (open open' : list Z)
    (parent depth : Z) (e : Encoder) :
  IsProtoMessage_step record open = Some (rest, open') ->
  (length open <= length (group_stack_ e))%nat ->
  (forall payload p d e0,
      IsProtoMessage payload = true ->
      (length payload < length record)%nat ->
      exists e1, rec payload p d e0 = Some e1 /\ same_frame e0 e1) ->
  exists p' d' e',
    AddMessage_iteration rec record parent depth e = Some (rest, p', d', e') /\
    state_ e' = state_ e /\ num_records_ e' = num_records_ e /\
    decoded_data_size_ e' = decoded_data_size_ e /\
    (length open' <= length (group_stack_ e'))%nat /\
    drop (length open') (group_stack_ e') =
      drop (length open) (group_stack_ e).
Proof.
  intros Hstep Hopen Hrec.
  unfold IsProtoMessage_step in Hstep. unfold AddMessage_iteration.
  destruct (ReadCanonicalVarint32 record) as [[tag r1]|] eqn:R;
    [|discriminate].
  rewrite (ReadVarint32_canonical _ _ R).
  apply ReadCanonicalVarint32_spec in R as [Htag Hrecord].
  destruct (tag_decompose tag) as [_ Hw].
  destruct (Z.shiftr tag 3 =? 0); [discriminate|].
  pose proof (GetNode_frame (parent, tag) e) as HN.
  set (e1 := GetNode (parent, tag) e) in *. clearbody e1.
  set (w := Z.land tag 7) in *.
  assert (Hcases : w = 0 \/ w = 1 \/ w = 2 \/ w = 3 \/ w = 4 \/ w = 5 \/
                   w = 6 \/ w = 7) by lia.
  destruct Hcases as [E|[E|[E|[E|[E|[E|[E|E]]]]]]]; rewrite E in *;
    try discriminate.
  - (* kVarint *)
    destruct (ReadCanonicalVarint64 r1) as [[v r2]|] eqn:R2; [|discriminate].
    destruct (CopyVarint64_canonical _ _ _ R2) as (bs & ->).
    injection Hstep as <- <-.
    destruct (_ <=? kMaxVarintInline); repeat frame_step;
      eexists _, _, _; (split; [reflexivity|]); frame_solve.
  - (* kFixed64 *)
    destruct (Skip 8 r1) as [r2|] eqn:S2; [|discriminate].
    injection Hstep as <- <-. unfold Skip in S2.
    destruct (8 <=? Z.of_nat (length r1)) eqn:L; [|discriminate].
    apply Z.leb_le in L. injection S2 as <-.
    repeat frame_step.
    destruct (length r1 <? 8)%nat eqn:L2; [apply Nat.ltb_lt in L2; lia|].
    eexists _, _, _; (split; [reflexivity|]); frame_solve.
  - (* kLengthDelimited *)
    destruct (ReadCanonicalVarint32 r1) as [[len r2]|] eqn:R2; [|discriminate].
    rewrite (ReadVarint32_canonical _ _ R2).
    apply ReadCanonicalVarint32_spec in R2 as [Hlen Hr1].
    destruct (Skip len r2) as [r3|] eqn:S3; [|discriminate].
    injection Hstep as <- <-. unfold Skip in S3.
    destruct (len <=? Z.of_nat (length r2)) eqn:L; [|discriminate].
    apply Z.leb_le in L. injection S3 as <-.
    destruct (Z.of_nat (length r2) <? len) eqn:L2;
      [apply Z.ltb_lt in L2; lia|].
    destruct ((depth <? kMaxRecursionDepth) && negb (len =? 0)
              && IsProtoMessage (take (Z.to_nat len) r2)) eqn:C.
    + apply andb_prop in C as [_ C].
      repeat frame_step.
      match goal with
      | |- context [rec ?pl ?p ?d ?e0] =>
          destruct (Hrec pl p d e0) as (e3 & -> & HF3)
      end.
      * exact C.
      * subst record r1. rewrite !length_app, length_take.
        pose proof (canonical_varint_nonempty tag). lia.
      * eexists _, _, _; (split; [reflexivity|]); frame_solve.
    + repeat frame_step.
      eexists _, _, _; (split; [reflexivity|]); frame_solve.
  - (* kStartGroup *)
    injection Hstep as <- <-. repeat frame_step.
    eexists _, _, _; (split; [reflexivity|]).
    frame_solve; cbn [length drop];
      repeat match goal with H : group_stack_ _ = _ |- _ => rewrite H end;
      (lia || congruence).
  - (* kEndGroup *)
    destruct open as [|g open0]; [discriminate|].
    destruct (g =? Z.shiftr tag 3); [|discriminate].
    injection Hstep as <- <-.
    destruct HN as (HN1 & HN2 & HN3 & HN4).
    destruct (group_stack_ e1) as [|back stack] eqn:GS.
    { rewrite <- HN2 in Hopen. simpl in Hopen. lia. }
    repeat frame_step.
    eexists _, _, _; (split; [reflexivity|]).
    rewrite <- HN2 in *. simpl in Hopen.
    frame_solve; cbn [length drop];
      repeat match goal with H : group_stack_ _ = _ |- _ => rewrite H end;
      (lia || congruence).
  - (* kFixed32 *)
    destruct (Skip 4 r1) as [r2|] eqn:S2; [|discriminate].
    injection Hstep as <- <-. unfold Skip in S2.
    destruct (4 <=? Z.of_nat (length r1)) eqn:L; [|discriminate].
    apply Z.leb_le in L. injection S2 as <-.
    repeat frame_step.
    destruct (length r1 <? 4)%nat eqn:L2; [apply Nat.ltb_lt in L2; lia|].
    eexists _, _, _; (split; [reflexivity|]); frame_solve.
Qed.

Lemma IsProtoMessage_true_loop (record : list byte) :
  IsProtoMessage record = true ->
  IsProtoMessage_loop (length record) record [] = Some true.
Proof.
  unfold IsProtoMessage.
  destruct (IsProtoMessage_loop (length record) record []) as [[|]|];
    congruence.
Qed.

Lemma AddMessage_total (fuel : nat) :
  forall (record : list byte) (open : list Z) (f : nat) (parent depth : Z)
         (e : Encoder),
    IsProtoMessage_loop f record open = Some true ->
    (length record <= fuel)%nat ->
    (length open <= length (group_stack_ e))%nat ->
    exists e',
      AddMessage fuel record parent depth e = Some e' /\
      state_ e' = state_ e /\ num_records_ e' = num_records_ e /\
      decoded_data_size_ e' = decoded_data_size_ e /\
      group_stack_ e' = drop (length open) (group_stack_ e).
Proof.
  induction fuel as [|fuel IH]; intros record open f parent depth e Hv Hlen Ho.
  - destruct record; [|simpl in Hlen; lia].
    destruct f; simpl in Hv; injection Hv as Hv;
      apply bool_decide_eq_true in Hv; subst open;
      exists e; repeat split.
  - destruct record as [|b0 record].
    { destruct f; simpl in Hv; injection Hv as Hv;
        apply bool_decide_eq_true in Hv; subst open;
        exists e; repeat split. }
    destruct f as [|f]; [discriminate|].
    cbn [IsProtoMessage_loop Pull] in Hv.
    destruct (IsProtoMessage_step (b0 :: record) open) as [[rest open']|]
      eqn:S; [|discriminate].
    cbn [AddMessage Pull].
    destruct (AddMessage_iteration_total (AddMessage fuel) _ _ _ _
                parent depth e S Ho)
      as (p' & d' & e1 & -> & H1 & H2 & H3 & H4 & H5).
    { intros payload p d e0 Hp Hl.
      destruct (IH payload [] (length payload) p d e0) as (e2 & -> & A);
        [apply IsProtoMessage_true_loop; exact Hp|simpl in *; lia|simpl; lia|].
      exists e2. split; [reflexivity|]. unfold same_frame.
      simpl in A. intuition. }
    apply IsProtoMessage_step_shrinks in S.
    destruct (IH rest open' f p' d' e1 Hv) as (e2 & -> & B1 & B2 & B3 & B4);
      [simpl in *; lia|exact H4|].
    exists e2. split; [reflexivity|]. repeat split; congruence.
Qed.

(** ** Limits of [AddRecordInternal] *)

Lemma AddRecordInternal_limit (record : list byte) (e : Encoder) :
  healthy e = true -> limit_exceeded record e ->
  AddRecordInternal record e = Some (false, Fail kResourceExhausted e).
Proof.
  intros Hh Hl. unfold AddRecordInternal. rewrite Hh. simpl.
  destruct (num_records_ e =? kMaxNumRecords) eqn:E1; [reflexivity|].
  apply Z.eqb_neq in E1.
  destruct Hl as [Hl|Hl]; [contradiction|].
  destruct (Z.of_nat (length record) >? uint64_max - decoded_data_size_ e)
    eqn:E2; [reflexivity|].
  rewrite Z.gtb_ltb in E2. apply Z.ltb_ge in E2. lia.
Qed.

(** C10: when [AddRecordInternal] fails because the record-count limit
    or the decoded-size limit is exceeded, it returns false and leaves
    [num_records_], [decoded_data_size_], the encoded-tag sequence, the
    tag list, the node registry with its next message id, the group stack
    and every value buffer, the one of the non-proto lengths included,
    exactly as they were: both checks come before any mutation. *)
Theorem AddRecordInternal_limit_keeps_state (record : list byte)
    (e : Encoder) :
  healthy e = true -> limit_exceeded record e ->
  exists e',
    AddRecordInternal record e = Some (false, e') /\
    num_records_ e' = num_records_ e /\
    decoded_data_size_ e' = decoded_data_size_ e /\
    encoded_tags_ e' = encoded_tags_ e /\
    tags_list_ e' = tags_list_ e /\
    message_nodes_ e' = message_nodes_ e /\
    next_message_id_ e' = next_message_id_ e /\
    group_stack_ e' = group_stack_ e /\
    data_ e' = data_ e /\
    nonproto_lengths_writer_ e' = nonproto_lengths_writer_ e.
Proof.
  intros Hh Hl. exists (Fail kResourceExhausted e).
  split; [apply AddRecordInternal_limit; assumption|].
  repeat split.
Qed.

(** ** Transition statistics: incoming counts *)

Lemma wrap64_small (z : Z) : 0 <= z < 2 ^ 64 -> wrap64 z = z.
Proof. intros H. unfold wrap64. apply Z.mod_small. exact H. Qed.

Lemma wrap32_small (z : Z) : 0 <= z < 2 ^ 32 -> wrap32 z = z.
Proof. intros H. unfold wrap32. apply Z.mod_small. exact H. Qed.

Lemma tag_at_update_eq (tags : list EncodedTagInfo) (i : Z)
    (f : EncodedTagInfo -> EncodedTagInfo) :
  0 <= i < Z.of_nat (length tags) ->
  tag_at (update_tag i f tags) i = f (tag_at tags i).
Proof.
  intros Hi. unfold tag_at, update_tag. rewrite list_lookup_alter_eq.
  destruct (lookup_lt_is_Some_2 tags (Z.to_nat i) ltac:(lia)) as [t ->].
  reflexivity.
Qed.

Lemma tag_at_update_ne (tags : list EncodedTagInfo) (i x : Z)
    (f : EncodedTagInfo -> EncodedTagInfo) :
  0 <= i -> 0 <= x -> i <> x ->
  tag_at (update_tag i f tags) x = tag_at tags x.
Proof.
  intros Hi Hx Hne. unfold tag_at, update_tag.
  rewrite list_lookup_alter_ne by lia. reflexivity.
Qed.

Lemma update_tag_length (tags : list EncodedTagInfo) (i : Z)
    (f : EncodedTagInfo -> EncodedTagInfo) :
  length (update_tag i f tags) = length tags.
Proof. apply length_alter. Qed.

(** An update that keeps the incoming count keeps it at every index. *)
Lemma tag_at_update_incoming (tags : list EncodedTagInfo) (i x : Z)
    (f : EncodedTagInfo -> EncodedTagInfo) :
  (forall t, num_incoming_transitions (f t) = num_incoming_transitions t) ->
  num_incoming_transitions (tag_at (update_tag i f tags) x) =
  num_incoming_transitions (tag_at tags x).
Proof.
  intros Hf. unfold tag_at, update_tag.
  destruct (decide (Z.to_nat i = Z.to_nat x)) as [E|E].
  - rewrite <- E, list_lookup_alter_eq.
    destruct (tags !! Z.to_nat i); simpl; [apply Hf|reflexivity].
  - rewrite list_lookup_alter_ne by exact E. reflexivity.
Qed.

Lemma CollectTransitionStatistics_loop_length (rest : list Z) :
  forall prev tags,
    length (CollectTransitionStatistics_loop prev rest tags) = length tags.
Proof.
  induction rest as [|p rest IH]; intros prev tags; simpl; [reflexivity|].
  rewrite IH, !update_tag_length. reflexivity.
Qed.

Lemma occurrences_cons (x p : Z) (l : list Z) :
  occurrences x (p :: l) = (if decide (p = x) then 1 else 0) + occurrences x l.
Proof.
  unfold occurrences. simpl.
  destruct (Z.eq_dec p x), (decide (p = x)); try contradiction; lia.
Qed.

Lemma occurrences_bound (x : Z) (l : list Z) :
  0 <= occurrences x l <= Z.of_nat (length l).
Proof.
  unfold occurrences. pose proof (count_occ_bound Z.eq_dec x l). lia.
Qed.

Lemma occurrences_app (x : Z) (l1 l2 : list Z) :
  occurrences x (l1 ++ l2) = occurrences x l1 + occurrences x l2.
Proof. unfold occurrences. rewrite count_occ_app. lia. Qed.

Lemma CollectTransitionStatistics_loop_incoming (rest : list Z) :
  forall (prev : Z) (tags : list EncodedTagInfo) (x : Z),
    Forall (fun t => 0 <= t < Z.of_nat (length tags)) rest ->
    0 <= x ->
    0 <= num_incoming_transitions (tag_at tags x) < 2 ^ 64 ->
    num_incoming_transitions
      (tag_at (CollectTransitionStatistics_loop prev rest tags) x) =
    wrap64 (num_incoming_transitions (tag_at tags x) + occurrences x rest).
Proof.
  induction rest as [|p rest IH]; intros prev tags x Hv Hx Hr.
  - unfold occurrences. simpl. rewrite Z.add_0_r, wrap64_small; auto.
  - apply Forall_cons in Hv as [Hp Hv]. cbn [CollectTransitionStatistics_loop].
    set (tags1 := update_tag prev (incr_num_transitions p) tags).
    assert (H1 : forall y, num_incoming_transitions (tag_at tags1 y) =
                           num_incoming_transitions (tag_at tags y)).
    { intros y. apply tag_at_update_incoming. reflexivity. }
    assert (Hl1 : length tags1 = length tags) by apply update_tag_length.
    set (tags2 := update_tag p incr_num_incoming tags1).
    assert (Hl2 : length tags2 = length tags).
    { unfold tags2. rewrite update_tag_length. exact Hl1. }
    rewrite occurrences_cons.
    pose proof (Z.mod_pos_bound
                  (num_incoming_transitions (tag_at tags x) + 1) (2 ^ 64)
                  ltac:(lia)) as Hm.
    rewrite IH.
    + destruct (decide (p = x)) as [->|Hne].
      * unfold tags2. rewrite tag_at_update_eq by lia.
        cbn [incr_num_incoming set_num_incoming_transitions
             num_incoming_transitions]. rewrite H1.
        unfold wrap64. rewrite Zplus_mod_idemp_l. f_equal. lia.
      * unfold tags2. rewrite tag_at_update_ne by lia. rewrite H1.
        f_equal.
    + rewrite Hl2. exact Hv.
    + exact Hx.
    + destruct (decide (p = x)) as [->|Hne].
      * unfold tags2. rewrite tag_at_update_eq by lia.
        cbn [incr_num_incoming set_num_incoming_transitions
             num_incoming_transitions]. rewrite H1. exact Hm.
      * unfold tags2. rewrite tag_at_update_ne by lia. rewrite H1. exact Hr.
Qed.

(** After [CollectTransitionStatistics] over a non-empty sequence of
    encoded tags, taken from a tag list whose counters are still zero,
    the first tag appended to [encoded_tags_] has
    [num_incoming_transitions] at least 1. When the sequence has one
    element, no tag transitions into it and the count is the floor of 1
    the code sets for [encoded_tags_.back()]; otherwise the tag appended
    after it transitions into it. *)
Lemma CollectTransitionStatistics_front_fresh (e : Encoder)
    (first : Z) (others : list Z) :
  encoded_tags_ e = first :: others ->
  Forall (fun t => 0 <= t < Z.of_nat (length (tags_list_ e)))
    (encoded_tags_ e) ->
  Forall (fun t => num_incoming_transitions t = 0) (tags_list_ e) ->
  Z.of_nat (length (encoded_tags_ e)) < 2 ^ 64 ->
  1 <= num_incoming_transitions
         (tag_at (tags_list_ (CollectTransitionStatistics e)) first).
Proof.
  intros Het Hvalid Hfresh Hsize.
  assert (Hfirst : 0 <= first < Z.of_nat (length (tags_list_ e))).
  { rewrite Het in Hvalid. apply Forall_cons in Hvalid as [H _]. exact H. }
  assert (Hzero : forall x, num_incoming_transitions (tag_at (tags_list_ e) x)
                            = 0).
  { intros x. unfold tag_at.
    destruct (tags_list_ e !! Z.to_nat x) as [t|] eqn:L; [|reflexivity].
    simpl. eapply Forall_lookup_1 in Hfresh; [|exact L]. exact Hfresh. }
  unfold CollectTransitionStatistics.
  assert (Hrev : Forall (fun t => 0 <= t < Z.of_nat (length (tags_list_ e)))
                   (reverse (encoded_tags_ e))).
  { apply Forall_reverse. exact Hvalid. }
  assert (Hrl : length (reverse (encoded_tags_ e)) = length (encoded_tags_ e))
    by apply length_reverse.
  rewrite Het, reverse_cons in *.
  destruct (reverse others) as [|back rest'] eqn:Hro.
  - (* one element: the floor *)
    cbn [app CollectTransitionStatistics_loop tags_list_ set_tags_list].
    rewrite Hzero. simpl. rewrite tag_at_update_eq by lia. simpl. lia.
  - cbn [app]. cbn [app] in Hrev, Hrl.
    apply Forall_cons in Hrev as [Hback Hrest].
    set (tags := CollectTransitionStatistics_loop back (rest' ++ [first])
                   (tags_list_ e)).
    assert (Hv : num_incoming_transitions (tag_at tags first) =
                 occurrences first (rest' ++ [first])).
    { unfold tags. rewrite CollectTransitionStatistics_loop_incoming;
        [|exact Hrest|lia|rewrite Hzero; lia].
      rewrite Hzero, Z.add_0_l. apply wrap64_small.
      pose proof (occurrences_bound first (rest' ++ [first])).
      cbn [length] in Hrl, Hsize. lia. }
    assert (Hge : 1 <= num_incoming_transitions (tag_at tags first)).
    { rewrite Hv, occurrences_app, occurrences_cons.
      pose proof (occurrences_bound first rest').
      pose proof (occurrences_bound first []).
      destruct (decide (first = first)); [lia|contradiction]. }
    assert (Hlen : length tags = length (tags_list_ e)).
    { unfold tags. apply CollectTransitionStatistics_loop_length. }
    cbn [tags_list_ set_tags_list].
    destruct (num_incoming_transitions (tag_at tags back) =? 0) eqn:E;
      [|exact Hge].
    destruct (decide (back = first)) as [->|Hne].
    + apply Z.eqb_eq in E. lia.
    + rewrite tag_at_update_ne by lia. exact Hge.
Qed.

(** ** The guard of the last state *)

Lemma wrap32_succ_ne (k : Z) : wrap32 (k + 1) <> k.
Proof.
  unfold wrap32. intros H.
  pose proof (Z.mod_pos_bound (k + 1) (2 ^ 32) ltac:(lia)) as Hb.
  rewrite H in Hb.
  destruct (Z.eq_dec k (2 ^ 32 - 1)) as [->|Hk].
  - vm_compute in H. discriminate.
  - rewrite Z.mod_small in H by lia. lia.
Qed.

Lemma map_size_1_inv (d : gmap Z DestInfo) :
  size d = 1%nat -> exists k v, d = {[k := v]}.
Proof.
  intros Hs.
  destruct (map_choose d) as (k & v & Hk).
  { apply map_size_non_empty_iff. lia. }
  exists k, v.
  rewrite <- (insert_delete_id d k v Hk) in Hs |- *.
  rewrite map_size_insert_None in Hs by apply lookup_delete_eq.
  assert (Hd : delete k d = ∅) by (apply map_size_empty_inv; lia).
  rewrite Hd. reflexivity.
Qed.

Lemma dest_order_singleton (i k : Z) (v : DestInfo) :
  dest_order i {[k := v]} = [(k, v)].
Proof.
  apply Permutation_singleton_r.
  rewrite dest_order_perm, map_to_list_singleton. reflexivity.
Qed.

(** C3, as the code has it: after the guard at the start of
    [WriteStatesAndData], the [dest_info] of the first encoded tag never
    has exactly one entry. When it had exactly one, of key [k], the guard
    has added the key after it, [k + 1] in 32 bits, with a destination
    that is default-constructed: the map has the two entries, the one of
    [k] as it was, and nothing else of the encoder has changed. When it
    had none or more than one, the guard has changed nothing, so a map
    that was empty is empty. *)
Theorem guard_last_state_not_single (e : Encoder) (first : Z)
    (others : list Z) :
  encoded_tags_ e = first :: others ->
  0 <= first < Z.of_nat (length (tags_list_ e)) ->
  let d := dest_info (tag_at (tags_list_ e) first) in
  let d' := dest_info (tag_at (tags_list_ (guard_last_state e)) first) in
  size d' <> 1%nat /\
  (size d = 1%nat ->
   exists k v,
     d = {[k := v]} /\ wrap32 (k + 1) <> k /\
     d' = <[wrap32 (k + 1) := DestInfo_default]> {[k := v]} /\
     d' !! k = Some v /\ size d' = 2%nat /\
     guard_last_state e
     = set_tags_list
         (update_tag first (set_dest_info d') (tags_list_ e)) e) /\
  (size d <> 1%nat -> guard_last_state e = e /\ d' = d).
Proof.
  intros Het Hfirst. cbv zeta. unfold guard_last_state. rewrite Het.
  destruct (size (dest_info (tag_at (tags_list_ e) first)) =? 1)%nat eqn:E.
  - apply Nat.eqb_eq in E.
    destruct (map_size_1_inv _ E) as (k & v & Hd).
    pose proof (wrap32_succ_ne k) as Hk.
    rewrite Hd, dest_order_singleton.
    cbn [tags_list_ set_tags_list]. rewrite tag_at_update_eq by exact Hfirst.
    unfold touch_dest. rewrite Hd.
    rewrite lookup_singleton_ne by congruence.
    cbn [dest_info set_dest_info].
    assert (Hs : size (<[wrap32 (k + 1) := DestInfo_default]>
                         ({[k := v]} : gmap Z DestInfo)) = 2%nat).
    { rewrite map_size_insert_None by (apply lookup_singleton_ne; congruence).
      rewrite map_size_singleton. reflexivity. }
    split; [rewrite Hs; lia|].
    split; [|intros Hn; rewrite map_size_singleton in Hn; congruence].
    intros _. exists k, v.
    split; [reflexivity|]. split; [exact Hk|]. split; [reflexivity|].
    split; [rewrite lookup_insert_ne by congruence;
            apply lookup_singleton_eq|].
    split; [exact Hs|]. f_equal. unfold update_tag.
    apply list_alter_ext; [|reflexivity]. intros t Ht.
    assert (Ht' : tag_at (tags_list_ e) first = t)
      by (unfold tag_at; rewrite Ht; reflexivity).
    rewrite <- Ht', Hd. rewrite lookup_singleton_ne by congruence.
    reflexivity.
  - apply Nat.eqb_neq in E. split; [exact E|]. split; [contradiction|].
    intros _. split; reflexivity.
Qed.

(** ** Zero-run compaction *)

Lemma wire_byte_eq (o r : Z) :
  0 <= o -> 0 <= r < 4 -> wire_byte (o, r) = 4 * o + r.
Proof.
  intros Ho Hr. unfold wire_byte. cbn [fst snd].
  assert (Hl : Z.land (Z.shiftl o 2) r = 0).
  { apply Z.bits_inj'. intros n Hn. rewrite Z.land_spec, Z.bits_0.
    destruct (Z.lt_ge_cases n 2) as [Hlt|Hge].
    - rewrite Z.shiftl_spec_low by assumption. reflexivity.
    - rewrite (Z.bits_above_log2 r n), andb_false_r; [reflexivity|lia|].
      destruct (Z.eq_dec r 0) as [->|Hr0]; [simpl; lia|].
      apply Z.log2_lt_pow2; [lia|].
      apply Z.lt_le_trans with (2 ^ 2); [lia|].
      apply Z.pow_le_mono_r; lia. }
  rewrite <- Z.lxor_lor, <- Z.add_nocarry_lxor by assumption.
  rewrite Z.shiftl_mul_pow2 by lia. lia.
Qed.

Lemma land_3 (o r : Z) : 0 <= r < 4 -> Z.land (4 * o + r) 3 = r.
Proof.
  intros Hr. change 3 with (Z.ones 2). rewrite Z.land_ones by lia.
  symmetry. apply (Z.mod_unique _ _ o); lia.
Qed.

Lemma shiftl_2 (o : Z) : Z.shiftl o 2 = 4 * o.
Proof. rewrite Z.shiftl_mul_pow2 by lia. lia. Qed.

Lemma wire_byte_range (o r : Z) :
  run_ok (o, r) -> 0 <= wire_byte (o, r) < 256.
Proof.
  intros [Ho Hr]. cbn [fst snd] in *. rewrite wire_byte_eq by lia. lia.
Qed.

Lemma zero_runs_maximal_snoc (runs : list (Z * Z)) (r1 r2 : Z * Z) :
  zero_runs_maximal (runs ++ [r1]) -> (r1.2 < 3 -> r2.1 <> 0) ->
  zero_runs_maximal ((runs ++ [r1]) ++ [r2]).
Proof.
  intros Hm Hn i a b Ha Hb Hlt.
  destruct (decide (S i < length (runs ++ [r1]))%nat) as [Hi|Hi].
  - rewrite lookup_app_l in Ha by lia. rewrite lookup_app_l in Hb by lia.
    exact (Hm i a b Ha Hb Hlt).
  - assert (Hlen : length (runs ++ [r1]) = S (length runs))
      by (rewrite length_app; simpl; lia).
    assert (Hib : (S i < length ((runs ++ [r1]) ++ [r2]))%nat)
      by (eapply lookup_lt_Some; exact Hb).
    rewrite length_app in Hib. simpl in Hib.
    assert (i = length runs) by lia. subst i.
    rewrite lookup_app_l in Ha by lia.
    rewrite lookup_app_r, Nat.sub_diag in Ha by lia. simpl in Ha.
    rewrite lookup_app_r in Hb by lia.
    replace (S (length runs) - length (runs ++ [r1]))%nat with 0%nat in Hb
      by lia.
    simpl in Hb. injection Ha as <-. injection Hb as <-. auto.
Qed.

Lemma zero_runs_maximal_last (runs : list (Z * Z)) (o r r' : Z) :
  zero_runs_maximal (runs ++ [(o, r)]) ->
  zero_runs_maximal (runs ++ [(o, r')]).
Proof.
  intros Hm i a b Ha Hb Hlt.
  assert (Hib : (S i < length (runs ++ [(o, r')]))%nat)
    by (eapply lookup_lt_Some; exact Hb).
  rewrite length_app in Hib. simpl in Hib.
  rewrite lookup_app_l in Ha by lia.
  destruct (decide (S i < length runs)%nat) as [Hi|Hi].
  - rewrite lookup_app_l in Hb by lia.
    apply (Hm i a b); [rewrite lookup_app_l by lia; exact Ha| |exact Hlt].
    rewrite lookup_app_l by lia. exact Hb.
  - rewrite lookup_app_r in Hb by lia.
    replace (S i - length runs)%nat with 0%nat in Hb by lia.
    simpl in Hb. injection Hb as <-.
    apply (Hm i a (o, r)); [rewrite lookup_app_l by lia; exact Ha| |exact Hlt].
    rewrite lookup_app_r by lia.
    replace (S i - length runs)%nat with 0%nat by lia. reflexivity.
Qed.

Lemma emit_offsets_runs (offsets : list Z) :
  forall (done : list (Z * Z)) (o r : Z) (st : option Z * list byte),
    Forall (fun x => 0 <= x <= 63) offsets ->
    emitter_at done o r st -> Forall run_ok (done ++ [(o, r)]) ->
    zero_runs_maximal (done ++ [(o, r)]) ->
    exists runs,
      map byte_val (flush_last (emit_offsets offsets st)) =
        map wire_byte runs /\
      Forall run_ok runs /\
      concat (map run_offsets runs) =
        concat (map run_offsets (done ++ [(o, r)])) ++ offsets /\
      zero_runs_maximal runs.
Proof.
  induction offsets as [|x offsets IH]; intros done o r st Hoff Hst Hok Hmax.
  - exists (done ++ [(o, r)]). destruct st as [pending out].
    destruct Hst as [Hp Ho]. cbn [fst snd] in *. subst pending.
    unfold emit_offsets, flush_last. cbn [foldl fst snd].
    rewrite !map_app, Ho. cbn [map].
    apply Forall_app in Hok as Hok'. destruct Hok' as [_ Hlast].
    apply Forall_cons in Hlast as [Hlast _].
    rewrite byte_val_Z_to_byte by (apply wire_byte_range; exact Hlast).
    rewrite app_nil_r. auto.
  - apply Forall_cons in Hoff as [Hx Hoff].
    destruct st as [pending out]. destruct Hst as [Hp Ho].
    cbn [fst snd] in *. subst pending.
    apply Forall_app in Hok as Hok'. destruct Hok' as [Hdone Hlast].
    apply Forall_cons in Hlast as [[Hor Hrr] _]. cbn [fst snd] in *.
    unfold emit_offsets. cbn [foldl emit_offset].
    rewrite wire_byte_eq by lia. rewrite land_3 by lia.
    destruct ((x =? 0) && (r <? 3)) eqn:C.
    + apply andb_prop in C as [Cx Cr].
      apply Z.eqb_eq in Cx. apply Z.ltb_lt in Cr. subst x.
      destruct (IH done o (r + 1) (Some (wrap8 (4 * o + r + 1)), out))
        as (runs & H1 & H2 & H3 & H4).
      * exact Hoff.
      * split; [|exact Ho]. cbn [fst]. rewrite wire_byte_eq by lia.
        f_equal. unfold wrap8. rewrite Z.mod_small; lia.
      * apply Forall_app. split; [exact Hdone|].
        constructor; [|constructor]. split; cbn [fst snd]; lia.
      * eapply zero_runs_maximal_last. exact Hmax.
      * exists runs. repeat split; try assumption.
        rewrite H3, !map_app, !concat_app. cbn [map concat run_offsets fst snd].
        rewrite !app_nil_r, <- !app_assoc. f_equal.
        unfold run_offsets. cbn [fst snd].
        replace (Z.to_nat (r + 1)) with (S (Z.to_nat r)) by lia.
        rewrite replicate_S_end. cbn [app]. rewrite <- app_assoc.
        reflexivity.
    + destruct (IH (done ++ [(o, r)]) x 0
                  (Some (wrap8 (Z.shiftl x 2)), out ++ [Z_to_byte (4 * o + r)]))
        as (runs & H1 & H2 & H3 & H4).
      * exact Hoff.
      * split; cbn [fst snd].
        -- rewrite wire_byte_eq, shiftl_2 by lia. f_equal.
           unfold wrap8. rewrite Z.mod_small; lia.
        -- rewrite !map_app, Ho. cbn [map].
           rewrite byte_val_Z_to_byte by lia.
           rewrite wire_byte_eq by lia. reflexivity.
      * apply Forall_app. split; [exact Hok|].
        constructor; [|constructor]. split; cbn [fst snd]; lia.
      * apply zero_runs_maximal_snoc; [exact Hmax|].
        cbn [fst snd]. intros Hlt Hx0. subst x.
        apply Z.ltb_lt in Hlt. rewrite Hlt in C. discriminate.
      * exists runs. repeat split; try assumption.
        rewrite H3, !map_app, !concat_app. cbn [map concat run_offsets fst snd].
        rewrite !app_nil_r, <- !app_assoc. reflexivity.
Qed.

Lemma emit_offsets_app (a b : list Z) (st : option Z * list byte) :
  emit_offsets (a ++ b) st = emit_offsets b (emit_offsets a st).
Proof. unfold emit_offsets. apply foldl_app. Qed.

(** The compaction of a sequence of offsets, from an emitter that holds
    nothing. *)
Lemma emit_offsets_zero_runs (offsets : list Z) :
  Forall (fun x => 0 <= x <= 63) offsets ->
  exists runs,
    map byte_val (flush_last (emit_offsets offsets (None, []))) =
      map wire_byte runs /\
    Forall run_ok runs /\
    concat (map run_offsets runs) = offsets /\
    zero_runs_maximal runs.
Proof.
  intros Hoff. destruct offsets as [|x offsets].
  - exists []. repeat split; [constructor|].
    intros i a b Ha. rewrite lookup_nil in Ha. discriminate.
  - apply Forall_cons in Hoff as [Hx Hoff].
    destruct (emit_offsets_runs offsets [] x 0
                (Some (wrap8 (Z.shiftl x 2)), []))
      as (runs & H1 & H2 & H3 & H4).
    + exact Hoff.
    + split; cbn [fst snd]; [|reflexivity].
      rewrite wire_byte_eq, shiftl_2 by lia. f_equal.
      unfold wrap8. rewrite Z.mod_small; lia.
    + constructor; [|constructor]. split; cbn [fst snd]; lia.
    + intros i a b Ha Hb. apply lookup_lt_Some in Hb. simpl in Hb. lia.
    + exists runs. repeat split; assumption.
Qed.

Lemma encode_hops_range (room : nat) (max_transition : Z)
    (state_machine : list StateInfo) :
  forall (current_base p : Z) (write result : list Z),
    encode_hops room max_transition state_machine current_base p write
      = Some result ->
    exists hops, result = hops ++ write /\
                 Forall (fun x => 0 <= x <= max_transition) hops.
Proof.
  induction room as [|room IH]; intros cb p write result H; [discriminate|].
  cbn [encode_hops] in H.
  destruct ((cb >? p) || (p - cb >? max_transition)) eqn:C.
  - destruct (state_machine !! Z.to_nat p) as [s|]; [|discriminate].
    destruct (state_machine !! Z.to_nat (canonical_source s)) as [s'|];
      [|discriminate].
    destruct ((state_base s' <=? p) && (p - state_base s' <=? max_transition))
      eqn:C2; [|discriminate].
    apply andb_prop in C2 as [C2 C3].
    apply Z.leb_le in C2. apply Z.leb_le in C3.
    destruct (IH _ _ _ _ H) as (hops & -> & Hh).
    exists (hops ++ [p - state_base s']). rewrite <- app_assoc.
    split; [reflexivity|].
    apply Forall_app. split; [exact Hh|]. constructor; [lia|constructor].
  - injection H as <-. apply orb_false_elim in C as [C1 C2].
    rewrite Z.gtb_ltb in C1, C2. apply Z.ltb_ge in C1. apply Z.ltb_ge in C2.
    exists [p - cb]. split; [reflexivity|]. constructor; [lia|constructor].
Qed.

Lemma wire_byte_inj (a b : Z * Z) :
  run_ok a -> run_ok b -> wire_byte a = wire_byte b -> a = b.
Proof.
  destruct a as [o r], b as [o' r']. intros [Ho Hr] [Ho' Hr'] H.
  cbn [fst snd] in *. rewrite !wire_byte_eq in H by lia.
  f_equal; lia.
Qed.

Lemma map_wire_byte_inj (a : list (Z * Z)) :
  forall b, Forall run_ok a -> Forall run_ok b ->
            map wire_byte a = map wire_byte b -> a = b.
Proof.
  induction a as [|x a IH]; intros [|y b] Ha Hb H; try discriminate;
    [reflexivity|].
  apply Forall_cons in Ha as [Hx Ha]. apply Forall_cons in Hb as [Hy Hb].
  cbn [map] in H. injection H as H1 H2.
  f_equal; [apply wire_byte_inj; assumption|apply IH; assumption].
Qed.

(** One offset: the emitter of the code does to its bytes what the rule
    does to its pairs. *)
Lemma emit_offset_absorbs_or_flushes (c : list byte)
    (ps : option (Z * Z) * list (Z * Z)) (st : option Z * list byte)
    (x : Z) :
  0 <= x <= 63 -> pending_as c ps st ->
  pending_as c (absorb_or_flush ps x) (emit_offset st x).
Proof.
  intros Hx (Hp & Ho & Hok).
  destruct ps as [[[o r]|] written], st as [pending out];
    cbn [fst snd option_map] in *; subst pending out;
    unfold absorb_or_flush, emit_offset, runs_written in *;
    cbn [fst snd] in *.
  - apply Forall_app in Hok as [Hw Hlast].
    apply Forall_cons in Hlast as [[Hor Hrr] _]. cbn [fst snd] in *.
    rewrite wire_byte_eq by lia. rewrite land_3 by lia.
    destruct ((x =? 0) && (r <? 3)) eqn:C.
    + apply andb_prop in C as [Cx Cr]. apply Z.ltb_lt in Cr.
      split; cbn [fst snd option_map].
      * rewrite wire_byte_eq by lia. f_equal. unfold wrap8.
        rewrite Z.mod_small; lia.
      * split; [reflexivity|]. apply Forall_app. split; [exact Hw|].
        constructor; [|constructor]. split; cbn [fst snd]; lia.
    + split; cbn [fst snd option_map].
      * rewrite wire_byte_eq, shiftl_2 by lia. f_equal. unfold wrap8.
        rewrite Z.mod_small; lia.
      * split.
        -- rewrite map_app, app_assoc. cbn [map].
           rewrite wire_byte_eq by lia. reflexivity.
        -- apply Forall_app. split.
           ++ apply Forall_app. split; [exact Hw|].
              constructor; [|constructor]. split; cbn [fst snd]; lia.
           ++ constructor; [|constructor]. split; cbn [fst snd]; lia.
  - split; cbn [fst snd option_map].
    + rewrite wire_byte_eq, shiftl_2 by lia. f_equal. unfold wrap8.
      rewrite Z.mod_small; lia.
    + split; [reflexivity|]. apply Forall_app. split; [exact Hok|].
      constructor; [|constructor]. split; cbn [fst snd]; lia.
Qed.

Lemma emit_offsets_absorb_or_flush (c : list byte) (offsets : list Z) :
  forall (ps : option (Z * Z) * list (Z * Z)) (st : option Z * list byte),
    Forall (fun x => 0 <= x <= 63) offsets -> pending_as c ps st ->
    pending_as c (foldl absorb_or_flush ps offsets) (emit_offsets offsets st).
Proof.
  induction offsets as [|x offsets IH]; intros ps st Hoff H; [exact H|].
  apply Forall_cons in Hoff as [Hx Hoff]. unfold emit_offsets.
  cbn [foldl]. apply IH; [exact Hoff|].
  apply emit_offset_absorbs_or_flushes; assumption.
Qed.

(** The write of the pending byte at the end. *)
Lemma flush_last_runs_written (c : list byte)
    (ps : option (Z * Z) * list (Z * Z)) (st : option Z * list byte) :
  pending_as c ps st ->
  flush_last st
  = c ++ map (fun run => Z_to_byte (wire_byte run)) (runs_written ps).
Proof.
  intros (Hp & Ho & _). unfold flush_last, runs_written.
  rewrite Hp, Ho. destruct (ps.1) as [run|]; cbn [option_map].
  - rewrite map_app, app_assoc. reflexivity.
  - reflexivity.
Qed.

(** The pairs of the rule are the runs of the offsets, and no run with
    room left is followed by a run of a zero offset. *)
Lemma runs_of_zero_runs (offsets : list Z) :
  Forall (fun x => 0 <= x <= 63) offsets ->
  Forall run_ok (runs_of offsets) /\
  concat (map run_offsets (runs_of offsets)) = offsets /\
  zero_runs_maximal (runs_of offsets) /\
  flush_last (emit_offsets offsets (None, []))
  = map (fun run => Z_to_byte (wire_byte run)) (runs_of offsets).
Proof.
  intros Hoff.
  assert (H0 : pending_as [] (None, []) (None, [])).
  { split; [reflexivity|]. split; [reflexivity|]. constructor. }
  pose proof (emit_offsets_absorb_or_flush [] offsets _ _ Hoff H0) as H.
  pose proof (flush_last_runs_written [] _ _ H) as Hf.
  destruct H as (_ & _ & Hok). fold (runs_of offsets) in Hok, Hf.
  cbn [app] in Hf.
  destruct (emit_offsets_zero_runs offsets Hoff) as (runs & R1 & R2 & R3 & R4).
  assert (E : runs = runs_of offsets).
  { apply map_wire_byte_inj; [exact R2|exact Hok|].
    rewrite <- R1, Hf, map_map. apply map_ext_in. intros run Hin.
    apply byte_val_Z_to_byte, wire_byte_range.
    rewrite Forall_forall in Hok. destruct run as [o r].
    apply Hok, list_elem_of_In, Hin. }
  subst runs. auto.
Qed.

(** One pass of the loop over the transitions emits the offsets of the
    transition and moves on to the successor. *)
Lemma write_transition_emits (max_transition : Z)
    (state_machine : list StateInfo) (w w' : TransitionWriter) (tag : Z) :
  write_transition max_transition state_machine (Some w) tag = Some w' ->
  exists offsets,
    transition_offsets max_transition state_machine (tw_tags_list w)
      (tw_prev_etag w) (tw_current_base w) tag = Some offsets /\
    Forall (fun x => 0 <= x <= max_transition) offsets /\
    tw_pending w' = emit_offsets offsets (tw_pending w) /\
    tw_tags_list w'
    = (if negb (size (dest_info (tag_at (tw_tags_list w) (tw_prev_etag w)))
                =? 1)%nat
       then update_tag (tw_prev_etag w) (touch_dest tag) (tw_tags_list w)
       else tw_tags_list w) /\
    tw_prev_etag w' = tag /\
    tw_current_base w' = base (tag_at (tw_tags_list w') tag).
Proof.
  unfold write_transition, transition_offsets.
  destruct (negb (size (dest_info (tag_at (tw_tags_list w) (tw_prev_etag w)))
                  =? 1)%nat).
  - set (tags := update_tag (tw_prev_etag w) (touch_dest tag) (tw_tags_list w)).
    destruct (pos (dest_at (dest_info (tag_at tags (tw_prev_etag w))) tag)
              =? kInvalidPos).
    + destruct (negb (public_list_noop_pos (tag_at tags (tw_prev_etag w))
                      =? kInvalidPos)).
      * destruct (encode_hops kWriteBufSize max_transition state_machine
                    (tw_current_base w) _ []) as [write1|] eqn:H1;
          [|discriminate].
        destruct (state_machine !! _) as [s|]; [|discriminate].
        destruct ((state_base s =? kInvalidPos) || _); [discriminate|].
        destruct (encode_hops kWriteBufSize max_transition state_machine
                    (state_base s) _ []) as [write2|] eqn:H2;
          [|discriminate].
        intros H. injection H as <-.
        cbn [tw_pending tw_tags_list tw_prev_etag tw_current_base].
        apply encode_hops_range in H1 as (h1 & -> & F1).
        apply encode_hops_range in H2 as (h2 & -> & F2).
        rewrite !app_nil_r. exists (h1 ++ h2).
        split; [reflexivity|]. split; [apply Forall_app; auto|].
        split; [symmetry; apply emit_offsets_app|repeat split; auto].
      * destruct ((tw_current_base w =? kInvalidPos) || _); [discriminate|].
        destruct (encode_hops kWriteBufSize max_transition state_machine
                    (tw_current_base w) _ []) as [write2|] eqn:H2;
          [|discriminate].
        intros H. injection H as <-.
        cbn [tw_pending tw_tags_list tw_prev_etag tw_current_base].
        apply encode_hops_range in H2 as (h2 & -> & F2).
        rewrite app_nil_r. exists h2. cbn [app]. repeat split; auto.
    + destruct ((tw_current_base w =? kInvalidPos) || _); [discriminate|].
      destruct (encode_hops kWriteBufSize max_transition state_machine
                  (tw_current_base w) _ []) as [write2|] eqn:H2;
        [|discriminate].
      intros H. injection H as <-.
      cbn [tw_pending tw_tags_list tw_prev_etag tw_current_base].
      apply encode_hops_range in H2 as (h2 & -> & F2).
      rewrite app_nil_r. exists h2. cbn [app]. repeat split; auto.
  - destruct (state_machine !! _) as [s|]; [|discriminate].
    destruct (etag_index s =? tag); [|discriminate].
    intros H. injection H as <-.
    cbn [tw_pending tw_tags_list tw_prev_etag tw_current_base].
    exists []. split; [reflexivity|]. split; [constructor|].
    repeat split; auto.
Qed.

Lemma write_transitions_emit (max_transition : Z)
    (state_machine : list StateInfo) (rest : list Z) :
  forall (w w' : TransitionWriter),
    foldl (write_transition max_transition state_machine) (Some w) rest
      = Some w' ->
    exists offsets,
      transitions_offsets max_transition state_machine (tw_tags_list w)
        (tw_prev_etag w) (tw_current_base w) rest = Some offsets /\
      Forall (fun x => 0 <= x <= max_transition) offsets /\
      tw_pending w' = emit_offsets offsets (tw_pending w).
Proof.
  induction rest as [|tag rest IH]; intros w w' H.
  - injection H as <-. exists []. split; [reflexivity|].
    split; [constructor|reflexivity].
  - cbn [foldl] in H.
    destruct (write_transition max_transition state_machine (Some w) tag)
      as [w1|] eqn:H1.
    + destruct (IH _ _ H) as (o2 & T2 & F2 & E2).
      destruct (write_transition_emits _ _ _ _ _ H1)
        as (o1 & T1 & F1 & E1 & G1 & G2 & G3).
      exists (o1 ++ o2). cbn [transitions_offsets]. rewrite T1.
      rewrite G2, G3, G1 in T2. rewrite T2.
      split; [reflexivity|]. split; [apply Forall_app; auto|].
      rewrite E2, E1. symmetry. apply emit_offsets_app.
    + exfalso. clear -H. induction rest as [|t rest IHr]; [discriminate|].
      apply IHr. exact H.
Qed.

(** C4, as the code has it: the offsets of the transitions, from the
    last encoded tag to the first, are those of [stream_offsets], each at
    most [max_transition]. What [WriteTransitions] adds to the compressor
    are the wire bytes [(offset << 2) | run_length] of the pairs that the
    rule [absorb_or_flush] gives for these offsets, with [run_length]
    from 0 to 3: a pending byte with [run_length] below 3 absorbs a
    following zero offset, whatever its own offset is, zero included; any
    other offset has the pending byte written first; the byte that is
    pending at the end is written last. Each pair stands for its offset
    and [run_length] zero offsets after it, the pairs together for the
    offsets of all transitions in order, and no byte with room left is
    followed by a byte for a zero offset. *)
Theorem WriteTransitions_zero_runs (max_transition : Z)
    (state_machine : list StateInfo) (encoded_tags : list Z)
    (tags tags' : list EncodedTagInfo) (compressor out : list byte) :
  max_transition <= 63 ->
  WriteTransitions max_transition state_machine encoded_tags tags compressor
    = Some (tags', out) ->
  exists offsets : list Z,
    stream_offsets max_transition state_machine encoded_tags tags
      = Some offsets /\
    Forall (fun x => 0 <= x <= max_transition) offsets /\
    out = compressor
          ++ map (fun run => Z_to_byte (wire_byte run)) (runs_of offsets) /\
    map byte_val out
    = map byte_val compressor ++ map wire_byte (runs_of offsets) /\
    Forall run_ok (runs_of offsets) /\
    concat (map run_offsets (runs_of offsets)) = offsets /\
    zero_runs_maximal (runs_of offsets).
Proof.
  intros Hmt. unfold WriteTransitions, stream_offsets.
  destruct (reverse encoded_tags) as [|back rest].
  - intros H. injection H as <- <-. exists [].
    split; [reflexivity|]. split; [constructor|].
    change (runs_of []) with (@nil (Z * Z)). cbn [map].
    rewrite !app_nil_r. repeat split; try constructor.
    intros i a b Ha. rewrite lookup_nil in Ha. discriminate.
  - destruct (foldl _ _ rest) as [w|] eqn:F; [|discriminate].
    intros H. injection H as <- <-.
    apply write_transitions_emit in F as (offsets & Ht & Hr & Hp).
    cbn [tw_pending tw_tags_list tw_prev_etag tw_current_base] in Ht, Hp.
    assert (Hoff : Forall (fun x => 0 <= x <= 63) offsets).
    { eapply Forall_impl; [exact Hr|]. simpl. intros. lia. }
    destruct (runs_of_zero_runs offsets Hoff) as (R1 & R2 & R3 & _).
    assert (H0 : pending_as compressor (None, []) (None, compressor)).
    { split; [reflexivity|]. split; [cbn; rewrite app_nil_r; reflexivity|].
      constructor. }
    pose proof (flush_last_runs_written compressor _ _
                  (emit_offsets_absorb_or_flush compressor offsets _ _ Hoff
                     H0)) as Hf.
    fold (runs_of offsets) in Hf. rewrite <- Hp in Hf.
    exists offsets. split; [exact Ht|]. split; [exact Hr|].
    split; [exact Hf|]. split; [|auto].
    rewrite Hf, map_app, map_map. f_equal. apply map_ext_in.
    intros [o r] Hin. apply byte_val_Z_to_byte, wire_byte_range.
    rewrite Forall_forall in R1. apply R1, list_elem_of_In, Hin.
Qed.

(** ** Block layout: counting the states *)

Lemma entry_ok_mono (owner : option Z) (tags_size b b' : Z)
    (x : PriorityQueueEntry) :
  b <= b' -> entry_ok owner tags_size b x -> entry_ok owner tags_size b' x.
Proof. intros Hb [H0 [H|H]]; split; auto. left. lia. Qed.

Lemma pq_push_length (x : PriorityQueueEntry) (q : list PriorityQueueEntry) :
  length (pq_push x q) = S (length q).
Proof.
  induction q as [|y q IH]; simpl; [reflexivity|].
  destruct (entry_lt y x); simpl; [reflexivity|]. rewrite IH. reflexivity.
Qed.

Lemma pq_push_Forall (P : PriorityQueueEntry -> Prop) (x : PriorityQueueEntry)
    (q : list PriorityQueueEntry) :
  P x -> Forall P q -> Forall P (pq_push x q).
Proof.
  intros Hx. induction q as [|y q IH]; intros Hq; simpl.
  - constructor; [exact Hx|constructor].
  - destruct (entry_lt y x).
    + constructor; assumption.
    + apply Forall_cons in Hq as [Hy Hq]. constructor; auto.
Qed.

Lemma pq_push_perm (x : PriorityQueueEntry) (q : list PriorityQueueEntry) :
  pq_push x q ≡ₚ x :: q.
Proof.
  induction q as [|y q IH]; cbn [pq_push]; [reflexivity|].
  destruct (entry_lt y x); [reflexivity|].
  rewrite IH. apply perm_swap.
Qed.

Lemma set_canonical_sources_loop_length (js : list nat) (b p : Z) :
  forall sm, length (set_canonical_sources_loop js b p sm) = length sm.
Proof.
  induction js as [|j js IH]; intros sm; simpl; [reflexivity|].
  destruct (_ >=? _); [reflexivity|]. rewrite IH, length_alter. reflexivity.
Qed.

Lemma set_canonical_sources_length (mt b p : Z) (sm : list StateInfo) :
  length (set_canonical_sources mt b p sm) = length sm.
Proof. apply set_canonical_sources_loop_length. Qed.

Lemma place_top_ok (max_transition : Z) (owner : option Z) (l : Layout)
    (top : PriorityQueueEntry) (queue : list PriorityQueueEntry) :
  l_tag_priority l = top :: queue ->
  1 <= l_prev_state l <= Z.of_nat (length (l_state_machine l)) ->
  Z.of_nat (length (l_state_machine l)) < 2 ^ 32 ->
  entry_ok owner (Z.of_nat (length (l_tags_list l)))
    (Z.of_nat (length (l_noop_base l))) top ->
  Z.of_nat (length (l_tags_list l)) + Z.of_nat (length (l_noop_base l))
    < kInvalidPos ->
  exists l', place_top max_transition owner l = Some l' /\ placed 1 l l'.
Proof.
  intros Hq Hp Hsm [Hd0 Hd] Hsize. unfold place_top. rewrite Hq.
  rewrite (wrap32_small (l_prev_state l - 1)) by lia.
  destruct (l_prev_state l - 1 >=? Z.of_nat (length (l_state_machine l)))
    eqn:E; [rewrite Z.geb_leb in E; apply Z.leb_le in E; lia|].
  assert (Hnoop : dest_index top <> kInvalidPos ->
                  Z.of_nat (length (l_tags_list l)) <= dest_index top ->
                  exists b, l_noop_base l
                            !! Z.to_nat (dest_index top
                                         - Z.of_nat (length (l_tags_list l)))
                            = Some b).
  { intros Hne Hge. apply lookup_lt_is_Some_2.
    destruct Hd as [Hd|[_ Hd]]; [lia|contradiction]. }
  unfold placed. rewrite Hq. cbn [drop Z.to_nat Pos.to_nat Pos.iter_op].
  change (Z.to_nat 1) with 1%nat. cbn [drop].
  destruct owner as [tag_id|].
  - destruct (dest_index top =? kInvalidPos) eqn:E1.
    + eexists. split; [reflexivity|]. cbn.
      rewrite length_insert, update_tag_length. auto.
    + apply Z.eqb_neq in E1.
      destruct (dest_index top >=? Z.of_nat (length (l_tags_list l))) eqn:E2.
      * rewrite Z.geb_leb in E2. apply Z.leb_le in E2.
        destruct (Hnoop E1 E2) as [b ->].
        eexists. split; [reflexivity|]. cbn.
        rewrite set_canonical_sources_length, length_insert. auto.
      * eexists. split; [reflexivity|]. cbn.
        rewrite length_insert, update_tag_length. auto.
  - destruct (dest_index top >=? Z.of_nat (length (l_tags_list l))) eqn:E2.
    + rewrite Z.geb_leb in E2. apply Z.leb_le in E2.
      assert (E1 : dest_index top <> kInvalidPos).
      { destruct Hd as [Hd|[[x Hx] _]]; [lia|discriminate]. }
      destruct (Hnoop E1 E2) as [b ->].
      eexists. split; [reflexivity|]. cbn.
      rewrite set_canonical_sources_length, length_insert. auto.
    + eexists. split; [reflexivity|]. cbn.
      rewrite length_insert, update_tag_length. auto.
Qed.

Lemma place_block_ok (max_transition : Z) (owner : option Z) (n : nat) :
  forall l : Layout,
    (n <= length (l_tag_priority l))%nat ->
    Z.of_nat n <= l_prev_state l <= Z.of_nat (length (l_state_machine l)) ->
    Z.of_nat (length (l_state_machine l)) < 2 ^ 32 ->
    Forall (entry_ok owner (Z.of_nat (length (l_tags_list l)))
              (Z.of_nat (length (l_noop_base l)))) (l_tag_priority l) ->
    Z.of_nat (length (l_tags_list l)) + Z.of_nat (length (l_noop_base l))
      < kInvalidPos ->
    exists l', place_block max_transition owner n l = Some l' /\
               placed (Z.of_nat n) l l'.
Proof.
  induction n as [|n IH]; intros l Hn Hp Hsm Hq Hsize.
  - exists l. split; [reflexivity|]. unfold placed. simpl.
    rewrite Z.sub_0_r. auto.
  - destruct (l_tag_priority l) as [|top queue] eqn:Q; [simpl in Hn; lia|].
    apply Forall_cons in Hq as [Htop Hqueue].
    destruct (place_top_ok max_transition owner l top queue Q) as
      (l1 & H1 & P1 & P2 & P3 & P4 & P5); [lia|exact Hsm|exact Htop|exact Hsize|].
    cbn [place_block]. rewrite H1.
    rewrite Q in P1. change (Z.to_nat 1) with 1%nat in P1. cbn [drop] in P1.
    rewrite drop_0 in P1.
    destruct (IH l1) as (l2 & H2 & R1 & R2 & R3 & R4 & R5).
    + rewrite P1. simpl in Hn. lia.
    + rewrite P2, P4. lia.
    + rewrite P4. exact Hsm.
    + rewrite P1, P3, P5. exact Hqueue.
    + rewrite P3, P5. exact Hsize.
    + exists l2. split; [exact H2|]. unfold placed.
      rewrite R1, R2, R3, R4, R5, P1, P2, P3, P4, P5, Q.
      rewrite Nat2Z.id. replace (Z.to_nat (Z.of_nat (S n))) with (S n) by lia.
      cbn [drop]. repeat split; lia.
Qed.

Lemma block_starts_length (start mt : Z) (m : nat) :
  length (block_starts start mt m) = m.
Proof. induction m as [|m IH]; simpl; [reflexivity|]. rewrite IH. reflexivity. Qed.

(** The blocks after the first: [m] blocks of [max_transition + 1]
    states each are left when the queue holds [m * max_transition + 1]
    entries. *)
Lemma place_blocks_rest (max_transition : Z) (owner : option Z) (start : Z)
    (m : nat) :
  forall (fuel : nat) (l : Layout),
    (1 <= m <= fuel)%nat -> 1 <= max_transition < 2 ^ 32 - 1 -> 0 <= start ->
    Z.of_nat (length (l_tag_priority l)) = Z.of_nat m * max_transition + 1 ->
    l_prev_state l = start + Z.of_nat m * (max_transition + 1) ->
    l_prev_state l <= Z.of_nat (length (l_state_machine l)) ->
    Z.of_nat (length (l_state_machine l)) < 2 ^ 32 ->
    Forall (entry_ok owner (Z.of_nat (length (l_tags_list l)))
              (Z.of_nat (length (l_noop_base l)))) (l_tag_priority l) ->
    Z.of_nat (length (l_tags_list l)) + Z.of_nat (length (l_noop_base l))
      + Z.of_nat m < kInvalidPos ->
    exists l',
      place_blocks fuel max_transition owner (max_transition + 1) l = Some l' /\
      l_tag_priority l' = [] /\ l_prev_state l' = start /\
      l_noop_base l' =
        l_noop_base l ++ block_starts start max_transition (m - 1) /\
      length (l_state_machine l') = length (l_state_machine l) /\
      length (l_tags_list l') = length (l_tags_list l).
Proof.
  induction m as [|m IH]; intros fuel l Hm Hmt Hstart Hq Hp Hsm Hsm32 Hok Hsz;
    [lia|].
  destruct fuel as [|fuel]; [lia|]. cbn [place_blocks].
  set (l0 := mkLayout (l_state_machine l) (l_tags_list l)
               (l_public_list_noops l) (l_tag_priority l) (l_noop_base l)
               (l_prev_state l) 0).
  destruct (place_block_ok max_transition owner
              (Z.to_nat (max_transition + 1)) l0)
    as (l1 & H1 & P1 & P2 & P3 & P4 & P5); cbn [l0 l_tag_priority
      l_prev_state l_state_machine l_tags_list l_noop_base];
    [nia|nia|exact Hsm32|exact Hok|unfold kInvalidPos in *; lia|].
  rewrite H1. cbn [l0 l_tag_priority l_prev_state l_state_machine
                   l_tags_list l_noop_base] in P1, P2, P3, P4, P5.
  rewrite Z2Nat.id in P1, P2 by lia.
  assert (Hlen1 : Z.of_nat (length (l_tag_priority l1))
                  = Z.of_nat m * max_transition).
  { rewrite P1, length_drop. nia. }
  destruct (l_tag_priority l1) as [|x q1] eqn:Q1.
  - (* the last block *)
    assert (m = 0%nat) by (simpl in Hlen1; nia). subst m.
    exists l1. split; [reflexivity|]. rewrite Q1, P2, P3, P4, P5, Hp.
    cbn [block_starts Nat.sub]. rewrite app_nil_r.
    repeat split; lia.
  - assert (Hm1 : (1 <= m)%nat) by (simpl in Hlen1; nia).
    set (noop := mkPriorityQueueEntry
                   (wrap32 (Z.of_nat (length (l_tags_list l1))
                            + Z.of_nat (length (l_noop_base l1))))
                   (l_total_block_nodes_weight l1)).
    set (l2 := mkLayout (l_state_machine l1) (l_tags_list l1)
                 (l_public_list_noops l1) (pq_push noop (x :: q1))
                 (l_noop_base l1 ++ [l_prev_state l1]) (l_prev_state l1)
                 (l_total_block_nodes_weight l1)).
    rewrite (wrap32_small (max_transition + 1)) by lia.
    assert (Hnb : Z.of_nat (length (l_tags_list l1))
                  + Z.of_nat (length (l_noop_base l1)) < 2 ^ 32).
    { rewrite P3, P5. unfold kInvalidPos in Hsz. lia. }
    assert (A1 : (1 <= m <= fuel)%nat) by lia.
    assert (A2 : Z.of_nat (length (l_tag_priority l2))
                 = Z.of_nat m * max_transition + 1).
    { cbn [l2 l_tag_priority]. rewrite pq_push_length. lia. }
    assert (A3 : l_prev_state l2 = start + Z.of_nat m * (max_transition + 1)).
    { cbn [l2 l_prev_state]. rewrite P2, Hp. lia. }
    assert (A4 : l_prev_state l2 <= Z.of_nat (length (l_state_machine l2))).
    { cbn [l2 l_prev_state l_state_machine]. rewrite P2, P4. lia. }
    assert (A5 : Z.of_nat (length (l_state_machine l2)) < 2 ^ 32).
    { cbn [l2 l_state_machine]. rewrite P4. exact Hsm32. }
    assert (A6 : Forall (entry_ok owner (Z.of_nat (length (l_tags_list l2)))
                           (Z.of_nat (length (l_noop_base l2))))
                   (l_tag_priority l2)).
    { cbn [l2 l_tags_list l_noop_base l_tag_priority].
      rewrite length_app. cbn [length].
      apply pq_push_Forall.
      - unfold entry_ok, noop. cbn [dest_index].
        rewrite wrap32_small by lia. split; [lia|]. left. lia.
      - rewrite P1, P3, P5. apply Forall_drop.
        eapply Forall_impl; [exact Hok|]. intros y Hy.
        eapply entry_ok_mono; [|exact Hy]. lia. }
    assert (A7 : Z.of_nat (length (l_tags_list l2))
                 + Z.of_nat (length (l_noop_base l2)) + Z.of_nat m
                 < kInvalidPos).
    { cbn [l2 l_tags_list l_noop_base]. rewrite length_app, P3, P5.
      cbn [length]. lia. }
    destruct (IH fuel l2 A1 Hmt Hstart A2 A3 A4 A5 A6 A7)
      as (l3 & H3 & R1 & R2 & R3 & R4 & R5).
    exists l3. split; [exact H3|].
    rewrite R1, R2, R3, R4, R5.
    cbn [l2 l_noop_base l_state_machine l_tags_list].
    rewrite P3, P4, P5, P2, Hp, <- app_assoc.
    replace (S m - 1)%nat with (S (m - 1)) by lia.
    cbn [block_starts app].
    repeat split. repeat f_equal; nia.
Qed.

(** ** Block layout: the states that are placed *)

Lemma state_kind_set_canonical_sources_loop (js : list nat) (b p : Z) :
  forall sm,
    state_kind <$> set_canonical_sources_loop js b p sm = state_kind <$> sm.
Proof.
  induction js as [|j js IH]; intros sm; cbn [set_canonical_sources_loop];
    [reflexivity|].
  destruct (_ >=? _); [reflexivity|]. rewrite IH.
  rewrite (list_fmap_alter state_kind _ id).
  - apply list_eq. intros i. rewrite list_lookup_alter.
    destruct (decide _) as [->|_]; [|reflexivity].
    destruct (_ !! _); reflexivity.
  - apply Forall_forall. intros s _. reflexivity.
Qed.

Lemma state_kind_set_canonical_sources (mt b p : Z) (sm : list StateInfo) :
  state_kind <$> set_canonical_sources mt b p sm = state_kind <$> sm.
Proof. apply state_kind_set_canonical_sources_loop. Qed.

(** An entry that stands for no block is laid out as a state of its
    destination, whatever [noop_base] holds. *)
Lemma entry_state_first (owner : option Z) (T : Z) (nb : list Z)
    (x : PriorityQueueEntry) :
  T < kInvalidPos -> entry_ok owner T 0 x ->
  entry_state owner T nb x = (dest_index x, kInvalidPos).
Proof.
  intros HT [H0 [H|[Ho H]]]; unfold entry_state.
  - destruct (dest_index x >=? T) eqn:E;
      [rewrite Z.geb_leb in E; apply Z.leb_le in E; lia|].
    rewrite andb_false_r. reflexivity.
  - destruct Ho as [tag_id ->]. rewrite H. reflexivity.
Qed.

(** The blocks recorded later do not change what an entry is laid out
    as. *)
Lemma entry_state_app (owner : option Z) (T : Z) (nb more : list Z)
    (x : PriorityQueueEntry) :
  entry_ok owner T (Z.of_nat (length nb)) x ->
  T + Z.of_nat (length nb) < kInvalidPos ->
  entry_state owner T (nb ++ more) x = entry_state owner T nb x.
Proof.
  intros [H0 H] HT. unfold entry_state.
  destruct (_ && _) eqn:C; [|reflexivity].
  apply andb_prop in C as [C1 C2].
  rewrite Z.geb_leb in C2. apply Z.leb_le in C2.
  rewrite lookup_app_l; [reflexivity|].
  destruct H as [H|[[tag_id ->] H]]; [lia|].
  rewrite H in C1. discriminate.
Qed.

(** One placement: the state at [prev_state - 1] is the one of the top
    of the queue, and no other state changes its tag or its base. *)
Lemma place_top_kinds (max_transition : Z) (owner : option Z)
    (l l' : Layout) :
  place_top max_transition owner l = Some l' ->
  0 <= l_prev_state l <= Z.of_nat (length (l_state_machine l)) ->
  Z.of_nat (length (l_state_machine l)) < 2 ^ 32 ->
  Forall (entry_ok owner (Z.of_nat (length (l_tags_list l)))
            (Z.of_nat (length (l_noop_base l)))) (l_tag_priority l) ->
  Z.of_nat (length (l_tags_list l)) + Z.of_nat (length (l_noop_base l))
    < kInvalidPos ->
  exists top queue,
    l_tag_priority l = top :: queue /\ l_tag_priority l' = queue /\
    1 <= l_prev_state l /\ l_prev_state l' = l_prev_state l - 1 /\
    l_noop_base l' = l_noop_base l /\
    length (l_state_machine l') = length (l_state_machine l) /\
    length (l_tags_list l') = length (l_tags_list l) /\
    state_kind <$> l_state_machine l'
    = <[Z.to_nat (l_prev_state l - 1) :=
          entry_state owner (Z.of_nat (length (l_tags_list l)))
            (l_noop_base l) top]> (state_kind <$> l_state_machine l).
Proof.
  intros H Hp Hsm Hq Hsize. unfold place_top in H.
  destruct (l_tag_priority l) as [|top queue] eqn:Q; [discriminate|].
  apply Forall_cons in Hq as [[Hd0 Hd] _].
  assert (Hp1 : 1 <= l_prev_state l).
  { destruct (Z.eq_dec (l_prev_state l) 0) as [E|E]; [|lia].
    rewrite E in H. change (wrap32 (0 - 1)) with (2 ^ 32 - 1) in H.
    destruct (2 ^ 32 - 1 >=? Z.of_nat (length (l_state_machine l))) eqn:C;
      [discriminate|].
    rewrite Z.geb_leb in C. apply Z.leb_gt in C. lia. }
  rewrite (wrap32_small (l_prev_state l - 1)) in H by lia.
  destruct (l_prev_state l - 1 >=? Z.of_nat (length (l_state_machine l)));
    [discriminate|].
  exists top, queue. split; [reflexivity|].
  unfold entry_state. unfold kInvalidPos in Hsize.
  destruct owner as [tag_id|].
  - destruct (dest_index top =? kInvalidPos) eqn:E1.
    + injection H as <-. apply Z.eqb_eq in E1. cbn.
      rewrite length_insert, update_tag_length, list_fmap_insert, E1.
      repeat split; reflexivity || lia.
    + destruct (dest_index top >=? Z.of_nat (length (l_tags_list l))) eqn:E2.
      * destruct (l_noop_base l !! _) as [b|] eqn:B; [|discriminate].
        injection H as <-. cbn.
        rewrite set_canonical_sources_length, length_insert.
        change (map state_kind ?x) with (state_kind <$> x).
        rewrite state_kind_set_canonical_sources, list_fmap_insert.
        repeat split; reflexivity || lia.
      * injection H as <-. cbn.
        rewrite length_insert, update_tag_length, list_fmap_insert.
        repeat split; reflexivity || lia.
  - destruct (dest_index top >=? Z.of_nat (length (l_tags_list l))) eqn:E2.
    + destruct (l_noop_base l !! _) as [b|] eqn:B; [|discriminate].
      injection H as <-. cbn.
      rewrite set_canonical_sources_length, length_insert.
      change (map state_kind ?x) with (state_kind <$> x).
      rewrite state_kind_set_canonical_sources, list_fmap_insert.
      repeat split; reflexivity || lia.
    + injection H as <-. cbn.
      rewrite length_insert, update_tag_length, list_fmap_insert.
      repeat split; reflexivity || lia.
Qed.

(** A block: the states from the new [prev_state] to the old one are
    those of the entries taken from the queue, and no other state changes
    its tag or its base. *)
Lemma place_block_kinds (max_transition : Z) (owner : option Z) (n : nat) :
  forall l l' : Layout,
    place_block max_transition owner n l = Some l' ->
    0 <= l_prev_state l <= Z.of_nat (length (l_state_machine l)) ->
    Z.of_nat (length (l_state_machine l)) < 2 ^ 32 ->
    Forall (entry_ok owner (Z.of_nat (length (l_tags_list l)))
              (Z.of_nat (length (l_noop_base l)))) (l_tag_priority l) ->
    Z.of_nat (length (l_tags_list l)) + Z.of_nat (length (l_noop_base l))
      < kInvalidPos ->
    exists placed : list (Z * Z),
      l_tag_priority l' = drop n (l_tag_priority l) /\
      0 <= l_prev_state l' /\
      l_prev_state l' = l_prev_state l - Z.of_nat (length placed) /\
      l_noop_base l' = l_noop_base l /\
      length (l_state_machine l') = length (l_state_machine l) /\
      length (l_tags_list l') = length (l_tags_list l) /\
      state_kind <$> l_state_machine l'
      = take (Z.to_nat (l_prev_state l')) (state_kind <$> l_state_machine l)
        ++ placed
        ++ drop (Z.to_nat (l_prev_state l)) (state_kind <$> l_state_machine l)
      /\
      placed ≡ₚ
        (entry_state owner (Z.of_nat (length (l_tags_list l)))
           (l_noop_base l)) <$> take n (l_tag_priority l).
Proof.
  induction n as [|n IH]; intros l l' H Hp Hsm Hq Hsize.
  - injection H as <-. exists []. rewrite drop_0, take_0.
    cbn [length app fmap list_fmap]. rewrite Z.sub_0_r, take_drop.
    repeat split; reflexivity || lia.
  - cbn [place_block] in H.
    destruct (place_top max_transition owner l) as [l1|] eqn:H1;
      [|discriminate].
    destruct (place_top_kinds _ _ _ _ H1 Hp Hsm Hq Hsize)
      as (top & queue & Q & Q1 & P0 & P1 & P2 & P3 & P4 & K1).
    rewrite Q in Hq. apply Forall_cons in Hq as [Htop Hqueue].
    destruct (IH l1 l' H) as (placed & R1 & R0 & R2 & R3 & R4 & R5 & K & Hperm).
    + rewrite P1, P3. lia.
    + rewrite P3. exact Hsm.
    + rewrite Q1, P2, P4. exact Hqueue.
    + rewrite P2, P4. exact Hsize.
    + exists (placed ++ [entry_state owner (Z.of_nat (length (l_tags_list l)))
                          (l_noop_base l) top]).
      rewrite Q. cbn [drop take]. rewrite length_app. cbn [length].
      split; [rewrite R1, Q1; reflexivity|]. split; [exact R0|].
      split; [lia|]. split; [congruence|]. split; [congruence|].
      split; [congruence|]. split.
      * rewrite K, K1.
        assert (Hlen : (Z.to_nat (l_prev_state l - 1)
                        < length (state_kind <$> l_state_machine l))%nat)
          by (rewrite length_fmap; lia).
        rewrite take_insert_ge by lia.
        rewrite (insert_take_drop _ _ _ Hlen).
        rewrite P1.
        rewrite drop_app_length' by (rewrite length_take; lia).
        replace (S (Z.to_nat (l_prev_state l - 1)))
          with (Z.to_nat (l_prev_state l)) by lia.
        rewrite <- !app_assoc. reflexivity.
      * rewrite Hperm, Q1, P2, P4. cbn [fmap list_fmap].
        rewrite <- Permutation_cons_append. reflexivity.
Qed.

(** The loop over the blocks: the states from the new [prev_state] to
    the old one are those of the entries that waited in the queue and one
    NoOp state for each block recorded in [noop_base] on the way, whose
    base is the start of the block; no other state changes its tag or its
    base, and the queue is empty at the end. *)
Lemma place_blocks_kinds (max_transition : Z) (owner : option Z)
    (fuel : nat) :
  forall (block_size : Z) (l l' : Layout),
    place_blocks fuel max_transition owner block_size l = Some l' ->
    0 <= l_prev_state l <= Z.of_nat (length (l_state_machine l)) ->
    Z.of_nat (length (l_state_machine l)) < 2 ^ 32 ->
    Forall (entry_ok owner (Z.of_nat (length (l_tags_list l)))
              (Z.of_nat (length (l_noop_base l)))) (l_tag_priority l) ->
    Z.of_nat (length (l_tags_list l)) + Z.of_nat (length (l_noop_base l))
      + Z.of_nat fuel < kInvalidPos ->
    exists (placed : list (Z * Z)) (added : list Z),
      l_tag_priority l' = [] /\
      0 <= l_prev_state l' /\
      l_prev_state l' = l_prev_state l - Z.of_nat (length placed) /\
      l_noop_base l' = l_noop_base l ++ added /\
      length (l_state_machine l') = length (l_state_machine l) /\
      length (l_tags_list l') = length (l_tags_list l) /\
      state_kind <$> l_state_machine l'
      = take (Z.to_nat (l_prev_state l')) (state_kind <$> l_state_machine l)
        ++ placed
        ++ drop (Z.to_nat (l_prev_state l)) (state_kind <$> l_state_machine l)
      /\
      placed ≡ₚ
        ((entry_state owner (Z.of_nat (length (l_tags_list l)))
            (l_noop_base l)) <$> l_tag_priority l)
        ++ ((fun b => (kInvalidPos, b)) <$> added).
Proof.
  induction fuel as [|fuel IH]; intros bs l l' H Hp Hsm Hq Hsize;
    [discriminate|].
  cbn [place_blocks] in H.
  set (l0 := mkLayout (l_state_machine l) (l_tags_list l)
               (l_public_list_noops l) (l_tag_priority l) (l_noop_base l)
               (l_prev_state l) 0) in H.
  destruct (place_block max_transition owner (Z.to_nat bs) l0) as [l1|] eqn:H1;
    [|discriminate].
  destruct (place_block_kinds _ _ _ _ _ H1)
    as (placed1 & Q1 & P0 & P1 & P2 & P3 & P4 & K1 & Hperm1);
    cbn [l0 l_tag_priority l_prev_state l_state_machine l_tags_list
         l_noop_base]; [exact Hp|exact Hsm|exact Hq|lia|].
  cbn [l0 l_tag_priority l_prev_state l_state_machine l_tags_list
       l_noop_base] in Q1, P1, P2, P3, P4, K1, Hperm1.
  destruct (l_tag_priority l1) as [|x q1] eqn:E1.
  - injection H as <-. exists placed1, [].
    rewrite E1, app_nil_r. cbn [fmap list_fmap]. rewrite app_nil_r.
    split; [reflexivity|]. split; [exact P0|]. split; [exact P1|].
    split; [exact P2|]. split; [exact P3|]. split; [exact P4|].
    split; [exact K1|]. rewrite Hperm1.
    symmetry in Q1. apply drop_nil_inv in Q1.
    rewrite take_ge by lia. reflexivity.
  - set (T := Z.of_nat (length (l_tags_list l))) in *.
    set (noop := mkPriorityQueueEntry
                   (wrap32 (Z.of_nat (length (l_tags_list l1))
                            + Z.of_nat (length (l_noop_base l1))))
                   (l_total_block_nodes_weight l1)) in H.
    set (l2 := mkLayout (l_state_machine l1) (l_tags_list l1)
                 (l_public_list_noops l1) (pq_push noop (x :: q1))
                 (l_noop_base l1 ++ [l_prev_state l1]) (l_prev_state l1)
                 (l_total_block_nodes_weight l1)) in H.
    unfold kInvalidPos in Hsize.
    assert (Hnoop : dest_index noop = T + Z.of_nat (length (l_noop_base l))).
    { unfold noop. cbn [dest_index]. rewrite P2, P4.
      apply wrap32_small. fold T. lia. }
    assert (Hrest : Forall (entry_ok owner T
                              (Z.of_nat (length (l_noop_base l))))
                      (x :: q1)).
    { rewrite Q1. apply Forall_drop. exact Hq. }
    destruct (IH _ l2 l' H)
      as (placed2 & added2 & R1 & R0 & R2 & R3 & R4 & R5 & K2 & Hperm2);
      cbn [l2 l_tag_priority l_prev_state l_state_machine l_tags_list
           l_noop_base].
    + rewrite P3. lia.
    + rewrite P3. exact Hsm.
    + rewrite P4, P2, length_app. cbn [length]. fold T.
      apply pq_push_Forall.
      * split; [rewrite Hnoop; lia|]. left. rewrite Hnoop. lia.
      * eapply Forall_impl; [exact Hrest|]. intros y Hy.
        eapply entry_ok_mono; [|exact Hy]. lia.
    + rewrite P4, P2, length_app. cbn [length]. fold T.
      unfold kInvalidPos. lia.
    + cbn [l2 l_tag_priority l_prev_state l_state_machine l_tags_list
           l_noop_base] in R2, R3, R4, R5, K2, Hperm2.
      exists (placed2 ++ placed1), (l_prev_state l1 :: added2).
      rewrite length_app.
      split; [exact R1|]. split; [exact R0|]. split; [lia|].
      split; [rewrite R3, P2, <- app_assoc; reflexivity|].
      split; [congruence|]. split; [congruence|]. split.
      * rewrite K2, K1.
        assert (Hl1 : length (take (Z.to_nat (l_prev_state l1))
                                (state_kind <$> l_state_machine l))
                      = Z.to_nat (l_prev_state l1))
          by (rewrite length_take, length_fmap; lia).
        rewrite take_app_le by lia. rewrite take_take.
        replace (Z.to_nat (l_prev_state l') `min` Z.to_nat (l_prev_state l1))%nat
          with (Z.to_nat (l_prev_state l')) by lia.
        rewrite (drop_app_length' _ _ _ (eq_sym Hl1)).
        rewrite <- !app_assoc. reflexivity.
      * assert (En : entry_state owner T
                       (l_noop_base l ++ [l_prev_state l1]) noop
                     = (kInvalidPos, l_prev_state l1)).
        { unfold entry_state. rewrite Hnoop.
          replace (T + Z.of_nat (length (l_noop_base l)) - T)
            with (Z.of_nat (length (l_noop_base l))) by lia.
          rewrite Nat2Z.id, list_lookup_middle by reflexivity.
          destruct (T + Z.of_nat (length (l_noop_base l)) >=? T) eqn:C;
            [|rewrite Z.geb_leb in C; apply Z.leb_gt in C; lia].
          destruct owner as [tag_id|]; [|reflexivity].
          destruct (T + Z.of_nat (length (l_noop_base l)) =? kInvalidPos)
            eqn:C2; [apply Z.eqb_eq in C2; unfold kInvalidPos in C2; lia|].
          reflexivity. }
        assert (Eq : forall q,
                   Forall (entry_ok owner T
                             (Z.of_nat (length (l_noop_base l)))) q ->
                   entry_state owner T (l_noop_base l ++ [l_prev_state l1])
                     <$> q
                   = entry_state owner T (l_noop_base l) <$> q).
        { intros q Hall.
          induction Hall as [|y q Hy _ IHq]; [reflexivity|].
          rewrite !fmap_cons. f_equal; [|exact IHq].
          apply entry_state_app; [exact Hy|unfold kInvalidPos; lia]. }
        rewrite Hperm2, Hperm1, P4, P2. fold T.
        rewrite (pq_push_perm noop (x :: q1)).
        rewrite !fmap_cons, En, <- fmap_cons, (Eq _ Hrest), Q1.
        rewrite <- (take_drop (Z.to_nat bs) (l_tag_priority l)) at 3.
        rewrite fmap_app.
        set (A := entry_state owner T (l_noop_base l)
                    <$> take (Z.to_nat bs) (l_tag_priority l)).
        set (B := entry_state owner T (l_noop_base l)
                    <$> drop (Z.to_nat bs) (l_tag_priority l)).
        set (C := (fun b => (kInvalidPos, b)) <$> added2).
        rewrite <- (Permutation_middle (A ++ B) C). cbn [app].
        apply Permutation_skip.
        rewrite (Permutation_app_comm (B ++ C) A), !app_assoc. reflexivity.
Qed.

Lemma noop_count_arith (mt n : Z) :
  1 <= mt -> 1 <= n ->
  let k := noop_count mt n in
  let first := (n + k - 1) mod (mt + 1) + 1 in
  0 <= k /\ k <= n /\ n + k = k * (mt + 1) + first /\ 1 <= first <= n /\
  first <= mt + 1 /\ n - first = k * mt /\
  (n <= mt + 1 -> k = 0 /\ first = n) /\
  (mt + 1 < n -> first = (n - 2) mod mt + 2).
Proof.
  intros Hmt Hn. unfold noop_count. cbv zeta.
  destruct (n <=? mt + 1) eqn:E.
  - apply Z.leb_le in E. rewrite Z.add_0_r, Z.mod_small by lia.
    repeat split; lia.
  - apply Z.leb_gt in E.
    pose proof (Z.div_mod (n - 2) mt ltac:(lia)) as Hdm.
    pose proof (Z.mod_pos_bound (n - 2) mt ltac:(lia)) as Hr.
    set (k := (n - 2) / mt) in *. set (r := (n - 2) mod mt) in *.
    assert (Hk : 1 <= k).
    { apply Z.div_le_lower_bound; lia. }
    assert (Hmod : (n + k - 1) mod (mt + 1) = r + 1).
    { symmetry. apply (Z.mod_unique _ _ k); nia. }
    rewrite Hmod. repeat split; try nia; lia.
Qed.

(** The layout returns, the state machine grows by the queued states and
    the NoOp states, and [noop_base] holds the starts of the blocks but
    the one at the base of the list. *)
Lemma layout_states_counts (max_transition : Z) (owner : option Z)
    (n : Z) (sm : list StateInfo) (tags : list EncodedTagInfo)
    (noops : list (Z * Z)) (queue : list PriorityQueueEntry) :
  1 <= max_transition <= 63 -> 1 <= n -> n = Z.of_nat (length queue) ->
  Forall (entry_ok owner (Z.of_nat (length tags)) 0) queue ->
  Z.of_nat (length sm) + 2 * n + Z.of_nat (length tags) < kInvalidPos ->
  let k := noop_count max_transition n in
  let first := (n + k - 1) mod (max_transition + 1) + 1 in
  exists l,
    layout_states max_transition owner n sm tags noops queue = Some l /\
    Z.of_nat (length (l_state_machine l)) = Z.of_nat (length sm) + n + k /\
    l_noop_base l = block_starts (Z.of_nat (length sm)) max_transition
                      (Z.to_nat k) /\
    n + k = k * (max_transition + 1) + first /\
    (n <= max_transition + 1 -> k = 0 /\ first = n) /\
    l_tag_priority l = [] /\ l_prev_state l = Z.of_nat (length sm).
Proof.
  intros Hmt Hn Hq Hok Hsz. cbv zeta.
  destruct (noop_count_arith max_transition n ltac:(lia) Hn)
    as (Hk0 & Hkn & Hsum & Hfirst & Hfm & Hrest & Hsmall & _).
  set (k := noop_count max_transition n) in *.
  set (first := (n + k - 1) mod (max_transition + 1) + 1) in *.
  unfold kInvalidPos in Hsz.
  unfold layout_states.
  rewrite (wrap32_small (max_transition + 1)) by lia.
  assert (Hnc : (if n <=? max_transition + 1 then 0
                 else wrap32 (n - 2) / max_transition) = k).
  { unfold k, noop_count. destruct (n <=? max_transition + 1) eqn:E;
      [reflexivity|]. apply Z.leb_gt in E. rewrite wrap32_small by lia.
    reflexivity. }
  rewrite Hnc.
  rewrite (wrap32_small (n + k)) by lia.
  rewrite (wrap32_small (Z.of_nat (length sm))) by lia.
  rewrite (wrap32_small (Z.of_nat (length sm) + (n + k))) by lia.
  rewrite (wrap32_small (n + k - 1)) by lia.
  fold first. rewrite (wrap32_small first) by lia.
  set (sm' := sm ++ replicate (Z.to_nat (Z.of_nat (length sm) + (n + k))
                               - length sm) StateInfo_default).
  assert (Hsm' : Z.of_nat (length sm') = Z.of_nat (length sm) + n + k).
  { unfold sm'. rewrite length_app, length_replicate. lia. }
  cbn [place_blocks l_state_machine l_tags_list l_public_list_noops
       l_tag_priority l_noop_base l_prev_state].
  match goal with
  | |- context [place_block _ _ _ ?l] => set (l0 := l)
  end.
  destruct (place_block_ok max_transition owner (Z.to_nat first) l0)
    as (l1 & H1 & P1 & P2 & P3 & P4 & P5);
    cbn [l0 l_tag_priority l_prev_state l_state_machine l_tags_list
         l_noop_base length]; [lia|lia|lia|exact Hok|unfold kInvalidPos; lia|].
  cbn [l0 l_tag_priority l_prev_state l_state_machine l_tags_list
       l_noop_base] in P1, P2, P3, P4, P5.
  rewrite H1. rewrite Z2Nat.id in P1, P2 by lia.
  assert (Hlen1 : Z.of_nat (length (l_tag_priority l1))
                  = k * max_transition).
  { rewrite P1, length_drop. lia. }
  destruct (l_tag_priority l1) as [|x q1] eqn:Q1.
  - assert (k = 0) by (simpl in Hlen1; nia).
    exists l1. split; [reflexivity|]. rewrite Q1, P2, P3, P4.
    replace (Z.to_nat k) with 0%nat by lia. cbn [block_starts].
    split; [lia|]. split; [reflexivity|].
    split; [exact Hsum|]. split; [exact Hsmall|]. split; [reflexivity|lia].
  - assert (Hk1 : 1 <= k) by (simpl in Hlen1; nia).
    set (noop := mkPriorityQueueEntry
                   (wrap32 (Z.of_nat (length (l_tags_list l1))
                            + Z.of_nat (length (l_noop_base l1))))
                   (l_total_block_nodes_weight l1)).
    set (l2 := mkLayout (l_state_machine l1) (l_tags_list l1)
                 (l_public_list_noops l1) (pq_push noop (x :: q1))
                 (l_noop_base l1 ++ [l_prev_state l1]) (l_prev_state l1)
                 (l_total_block_nodes_weight l1)).
    assert (A1 : (1 <= Z.to_nat k <= Z.to_nat (n + k))%nat) by lia.
    assert (A2 : Z.of_nat (length (l_tag_priority l2))
                 = Z.of_nat (Z.to_nat k) * max_transition + 1).
    { cbn [l2 l_tag_priority]. rewrite pq_push_length. lia. }
    assert (A3 : l_prev_state l2
                 = Z.of_nat (length sm)
                   + Z.of_nat (Z.to_nat k) * (max_transition + 1)).
    { cbn [l2 l_prev_state]. rewrite P2. lia. }
    assert (A4 : l_prev_state l2 <= Z.of_nat (length (l_state_machine l2))).
    { cbn [l2 l_prev_state l_state_machine]. rewrite P2, P4. lia. }
    assert (A5 : Z.of_nat (length (l_state_machine l2)) < 2 ^ 32).
    { cbn [l2 l_state_machine]. rewrite P4. lia. }
    assert (A6 : Forall (entry_ok owner (Z.of_nat (length (l_tags_list l2)))
                           (Z.of_nat (length (l_noop_base l2))))
                   (l_tag_priority l2)).
    { cbn [l2 l_tags_list l_noop_base l_tag_priority].
      rewrite length_app. cbn [length].
      apply pq_push_Forall.
      - unfold entry_ok, noop. cbn [dest_index]. rewrite P3, P5.
        cbn [length]. rewrite wrap32_small by lia. split; [lia|]. left. lia.
      - rewrite P1, P3, P5. apply Forall_drop.
        eapply Forall_impl; [exact Hok|]. intros y Hy.
        eapply entry_ok_mono; [|exact Hy]. cbn [length]. lia. }
    assert (A7 : Z.of_nat (length (l_tags_list l2))
                 + Z.of_nat (length (l_noop_base l2))
                 + Z.of_nat (Z.to_nat k) < kInvalidPos).
    { cbn [l2 l_tags_list l_noop_base]. rewrite length_app, P3, P5.
      cbn [length]. unfold kInvalidPos. lia. }
    destruct (place_blocks_rest max_transition owner (Z.of_nat (length sm))
                (Z.to_nat k) (Z.to_nat (n + k)) l2 A1 ltac:(lia) ltac:(lia)
                A2 A3 A4 A5 A6 A7)
      as (l3 & H3 & R1 & R2 & R3 & R4 & R5).
    rewrite (wrap32_small (max_transition + 1)) by lia.
    exists l3. split; [exact H3|].
    rewrite R1, R2, R3, R4.
    cbn [l2 l_noop_base l_state_machine]. rewrite P3, P4, P2.
    replace (Z.to_nat k) with (S (Z.to_nat k - 1)) at 2 by lia.
    cbn [block_starts app].
    split; [exact Hsm'|]. split; [f_equal; nia|].
    split; [exact Hsum|]. split; [exact Hsmall|]. split; reflexivity.
Qed.

(** The states of the list that was laid out, with their tags and
    bases. *)
Lemma layout_states_kinds (max_transition : Z) (owner : option Z)
    (n : Z) (sm : list StateInfo) (tags : list EncodedTagInfo)
    (noops : list (Z * Z)) (queue : list PriorityQueueEntry) (l : Layout) :
  1 <= max_transition <= 63 -> 1 <= n -> n = Z.of_nat (length queue) ->
  Forall (entry_ok owner (Z.of_nat (length tags)) 0) queue ->
  Z.of_nat (length sm) + 2 * n + Z.of_nat (length tags) < kInvalidPos ->
  layout_states max_transition owner n sm tags noops queue = Some l ->
  l_prev_state l = Z.of_nat (length sm) ->
  exists placed : list (Z * Z),
    state_kind <$> l_state_machine l = (state_kind <$> sm) ++ placed /\
    placed ≡ₚ
      ((fun x => (dest_index x, kInvalidPos)) <$> queue)
      ++ ((fun b => (kInvalidPos, b)) <$> l_noop_base l).
Proof.
  intros Hmt Hn Hq Hok Hsz H Hprev.
  destruct (noop_count_arith max_transition n ltac:(lia) Hn)
    as (Hk0 & Hkn & Hsum & Hfirst & Hfm & Hrest & Hsmall & _).
  set (k := noop_count max_transition n) in *.
  set (first := (n + k - 1) mod (max_transition + 1) + 1) in *.
  assert (Hk1 : k + 1 <= n).
  { assert (k * 1 <= k * max_transition)
      by (apply Z.mul_le_mono_nonneg_l; lia).
    lia. }
  unfold kInvalidPos in Hsz.
  unfold layout_states in H.
  rewrite (wrap32_small (max_transition + 1)) in H by lia.
  assert (Hnc : (if n <=? max_transition + 1 then 0
                 else wrap32 (n - 2) / max_transition) = k).
  { unfold k, noop_count. destruct (n <=? max_transition + 1) eqn:E;
      [reflexivity|]. apply Z.leb_gt in E. rewrite wrap32_small by lia.
    reflexivity. }
  rewrite Hnc in H.
  rewrite (wrap32_small (n + k)) in H by lia.
  rewrite (wrap32_small (Z.of_nat (length sm))) in H by lia.
  rewrite (wrap32_small (Z.of_nat (length sm) + (n + k))) in H by lia.
  set (sm' := sm ++ replicate (Z.to_nat (Z.of_nat (length sm) + (n + k))
                               - length sm) StateInfo_default) in H.
  assert (Hsm' : Z.of_nat (length sm') = Z.of_nat (length sm) + n + k).
  { unfold sm'. rewrite length_app, length_replicate. lia. }
  destruct (place_blocks_kinds _ _ _ _ _ _ H)
    as (placed & added & R1 & R0 & R2 & R3 & R4 & R5 & K & Hperm);
    cbn [l_tag_priority l_prev_state l_state_machine l_tags_list
         l_noop_base length]; [lia|lia|exact Hok|unfold kInvalidPos; lia|].
  cbn [l_tag_priority l_prev_state l_state_machine l_tags_list
       l_noop_base length app] in R2, R3, K, Hperm.
  exists placed. split.
  - rewrite K, Hprev. unfold sm'. rewrite fmap_app.
    rewrite take_app_length' by (rewrite length_fmap; lia).
    rewrite drop_ge; [rewrite app_nil_r; reflexivity|].
    rewrite <- fmap_app. fold sm'. rewrite length_fmap. lia.
  - rewrite Hperm, R3. apply Permutation_app_tail.
    assert (E : entry_state owner (Z.of_nat (length tags)) [] <$> queue
                = (fun x => (dest_index x, kInvalidPos)) <$> queue).
    { clear -Hok Hsz Hn. induction Hok as [|x q Hx _ IH]; [reflexivity|].
      rewrite !fmap_cons. f_equal; [|exact IH].
      apply entry_state_first; [unfold kInvalidPos; lia|exact Hx]. }
    rewrite E. reflexivity.
Qed.

(** C7, as the code has it: a list laid out from [n] queued entries gets
    [k] NoOp states, [k] being [noop_count], that is none when [n] is at
    most [max_transition + 1] and [(n - 2) / max_transition] otherwise.
    The state machine keeps the states it had, with their tags and
    bases, and grows by [n + k] states, which are, in some order: for
    each queued entry a state of its destination without a base (for the
    entry [kInvalidPos] of a private list this is the NoOp state that
    leads to the public list), and for each block but the one at the
    base of the list a NoOp state, with no tag, whose base is the start
    of the block. The block laid out first, at the end of the list, has
    [((n + k - 1) mod (max_transition + 1)) + 1] states; every other
    block, the one at the base of the list included, has
    [max_transition + 1] states, and [noop_base] holds the starts of the
    [k] blocks above the base. With [n] at most [max_transition + 1] the
    only block has [n] states. The layout ends with an empty queue at the
    base of the list. *)
Theorem layout_states_blocks (max_transition : Z) (owner : option Z)
    (n : Z) (sm : list StateInfo) (tags : list EncodedTagInfo)
    (noops : list (Z * Z)) (queue : list PriorityQueueEntry) :
  1 <= max_transition <= 63 -> 1 <= n -> n = Z.of_nat (length queue) ->
  Forall (entry_ok owner (Z.of_nat (length tags)) 0) queue ->
  Z.of_nat (length sm) + 2 * n + Z.of_nat (length tags) < kInvalidPos ->
  let k := noop_count max_transition n in
  let first := (n + k - 1) mod (max_transition + 1) + 1 in
  let starts :=
    block_starts (Z.of_nat (length sm)) max_transition (Z.to_nat k) in
  exists (l : Layout) (placed : list (Z * Z)),
    layout_states max_transition owner n sm tags noops queue = Some l /\
    Z.of_nat (length (l_state_machine l)) = Z.of_nat (length sm) + n + k /\
    l_noop_base l = starts /\ Z.of_nat (length starts) = k /\
    state_kind <$> l_state_machine l = (state_kind <$> sm) ++ placed /\
    placed ≡ₚ
      ((fun x => (dest_index x, kInvalidPos)) <$> queue)
      ++ ((fun b => (kInvalidPos, b)) <$> starts) /\
    n + k = k * (max_transition + 1) + first /\
    (n <= max_transition + 1 -> k = 0 /\ first = n) /\
    l_tag_priority l = [] /\ l_prev_state l = Z.of_nat (length sm).
Proof.
  intros Hmt Hn Hq Hok Hsz. cbv zeta.
  destruct (layout_states_counts max_transition owner n sm tags noops queue
              Hmt Hn Hq Hok Hsz)
    as (l & Hl & H1 & H2 & H3 & H4 & H5 & H6).
  destruct (layout_states_kinds max_transition owner n sm tags noops queue l
              Hmt Hn Hq Hok Hsz Hl H6) as (placed & K1 & K2).
  destruct (noop_count_arith max_transition n ltac:(lia) Hn) as (Hk0 & _).
  exists l, placed. rewrite H2 in K2.
  split; [exact Hl|]. split; [exact H1|]. split; [exact H2|].
  split; [rewrite block_starts_length; lia|].
  split; [exact K1|]. split; [exact K2|]. auto.
Qed.

(** ** The bucket packer: what the buckets are *)

Lemma bucket_size_of_app (a b : list (list byte)) :
  bucket_size_of (a ++ b) = bucket_size_of a + bucket_size_of b.
Proof. unfold bucket_size_of. rewrite concat_app, length_app. lia. Qed.

Lemma bucket_size_of_single (b : list byte) :
  bucket_size_of [b] = Z.of_nat (length b).
Proof. unfold bucket_size_of. simpl. rewrite app_nil_r. reflexivity. Qed.

Lemma pack_concat (buffers : list (list byte)) :
  forall cur, concat (pack cur buffers) = cur ++ buffers.
Proof.
  induction buffers as [|b buffers IH]; intros cur; simpl.
  - rewrite !app_nil_r. reflexivity.
  - destruct (_ >? _); simpl; rewrite IH; [reflexivity|].
    rewrite <- app_assoc. reflexivity.
Qed.

Lemma pack_ok (buffers : list (list byte)) :
  forall cur, bucket_ok cur -> Forall (fun b => b <> []) buffers ->
              Forall bucket_ok (pack cur buffers).
Proof.
  induction buffers as [|b buffers IH]; intros cur Hcur Hne; simpl.
  - constructor; [exact Hcur|constructor].
  - apply Forall_cons in Hne as [Hb Hne].
    destruct (bucket_size_of cur + Z.of_nat (length b) >? bucket_size_) eqn:E.
    + constructor; [exact Hcur|]. apply IH; [|exact Hne].
      split; [discriminate|].
      destruct (Z_le_gt_dec (Z.of_nat (length b)) bucket_size_).
      * left. rewrite bucket_size_of_single. lia.
      * right. exists b. split; [reflexivity|lia].
    + apply IH; [|exact Hne]. rewrite Z.gtb_ltb in E. apply Z.ltb_ge in E.
      split; [destruct cur; discriminate|].
      left. rewrite bucket_size_of_app, bucket_size_of_single. lia.
Qed.

Lemma pack_head (buffers : list (list byte)) (cur : list (list byte)) :
  exists first rest, pack cur buffers = first :: rest /\
                     exists more, first = cur ++ more.
Proof.
  revert cur. induction buffers as [|b buffers IH]; intros cur; simpl.
  - exists cur, []. split; [reflexivity|]. exists []. rewrite app_nil_r.
    reflexivity.
  - destruct (_ >? _).
    + exists cur, (pack [b] buffers). split; [reflexivity|]. exists [].
      rewrite app_nil_r. reflexivity.
    + destruct (IH (cur ++ [b])) as (first & rest & -> & more & ->).
      eexists _, _. split; [reflexivity|]. exists (b :: more).
      rewrite <- app_assoc. reflexivity.
Qed.

Lemma pack_greedy (buffers : list (list byte)) :
  forall cur, cur <> [] -> buckets_greedy (pack cur buffers).
Proof.
  induction buffers as [|b buffers IH]; intros cur Hcur; simpl.
  - intros i b1 b0 b2 H1 H2. apply lookup_lt_Some in H2. simpl in H2. lia.
  - destruct (bucket_size_of cur + Z.of_nat (length b) >? bucket_size_) eqn:E.
    + intros i b1 b0 b2 H1 H2. destruct i as [|i].
      * simpl in H1, H2. injection H1 as <-.
        destruct (pack_head buffers [b]) as (first & rest & Hp & more & ->).
        rewrite Hp in H2. simpl in H2. injection H2 as <- <-.
        rewrite Z.gtb_ltb in E. apply Z.ltb_lt in E. exact E.
      * simpl in H1, H2. eapply (IH [b]); [discriminate|exact H1|exact H2].
    + apply IH. destruct cur; discriminate.
Qed.

Lemma nonempty_concat (cur : list (list byte)) :
  nonempty_buffers cur -> cur <> [] -> (0 < length (concat cur))%nat.
Proof.
  intros Hne Hc. destruct cur as [|b cur]; [contradiction|].
  apply Forall_cons in Hne as [Hb _]. simpl. rewrite length_app.
  destruct b; [contradiction|]. simpl. lia.
Qed.

Lemma AddBuffer_buffer_lengths (force : bool) (b : list byte)
    (w : BucketWriter) :
  bw_buffer_lengths (AddBuffer force b w) =
  bw_buffer_lengths w ++ [Z.of_nat (length b)].
Proof.
  unfold AddBuffer. cbn [bw_compressor bw_buffer_lengths].
  destruct (_ && _); reflexivity.
Qed.

(** A buffer joins the open bucket. *)
Lemma AddBuffer_joins (b : list byte) (w : BucketWriter)
    (done : list (list (list byte))) (cur : list (list byte)) :
  packer_at done cur w ->
  bucket_size_of cur + Z.of_nat (length b) < 2 ^ 64 ->
  bucket_size_of cur + Z.of_nat (length b) <= bucket_size_ ->
  packer_at done (cur ++ [b]) (AddBuffer false b w).
Proof.
  intros (Hc & Hd & Hl) Hsz Hfit. unfold AddBuffer.
  cbn [bw_compressor bw_data_writer bw_bucket_lengths bw_buffer_lengths].
  rewrite Hc. fold (bucket_size_of cur). rewrite wrap64_small
    by (unfold bucket_size_of in *; lia).
  destruct (bucket_size_of cur + Z.of_nat (length b) >? bucket_size_) eqn:E.
  { rewrite Z.gtb_ltb in E. apply Z.ltb_lt in E. lia. }
  cbn [orb andb]. unfold packer_at.
  cbn [bw_compressor bw_data_writer bw_bucket_lengths].
  rewrite concat_app. simpl. rewrite app_nil_r. auto.
Qed.

(** A buffer opens a bucket of its own: the open bucket is closed when
    it holds something. *)
Lemma AddBuffer_opens (force : bool) (b : list byte) (w : BucketWriter)
    (done : list (list (list byte))) (cur : list (list byte)) :
  packer_at done cur w -> nonempty_buffers cur ->
  bucket_size_of cur + Z.of_nat (length b) < 2 ^ 64 ->
  force = true \/ bucket_size_ < bucket_size_of cur + Z.of_nat (length b) ->
  packer_at (done ++ match cur with [] => [] | _ => [cur] end) [b]
    (AddBuffer force b w).
Proof.
  intros (Hc & Hd & Hl) Hne Hsz Hwhy. unfold AddBuffer.
  cbn [bw_compressor bw_data_writer bw_bucket_lengths bw_buffer_lengths].
  rewrite Hc. fold (bucket_size_of cur). rewrite wrap64_small
    by (unfold bucket_size_of in *; lia).
  assert (Hor : force
                || (bucket_size_of cur + Z.of_nat (length b) >? bucket_size_)
                = true).
  { destruct Hwhy as [->|H]; [reflexivity|].
    apply orb_true_intro. right. rewrite Z.gtb_ltb. apply Z.ltb_lt. exact H. }
  rewrite Hor. cbn [andb].
  destruct cur as [|c cur].
  - unfold bucket_size_of. simpl. unfold packer_at.
    cbn [bw_compressor bw_data_writer bw_bucket_lengths].
    rewrite app_nil_r. simpl. rewrite app_nil_r. auto.
  - pose proof (nonempty_concat (c :: cur) Hne ltac:(discriminate)) as Hpos.
    destruct (bucket_size_of (c :: cur) >? 0) eqn:E.
    2:{ rewrite Z.gtb_ltb in E. apply Z.ltb_ge in E.
        unfold bucket_size_of in E. lia. }
    unfold close_bucket, packer_at.
    cbn [bw_compressor bw_data_writer bw_bucket_lengths].
    rewrite Hd, Hl, !map_app, concat_app. simpl.
    rewrite !app_nil_r. auto.
Qed.

Lemma add_buffers_rest (buffers : list BufferWithMetadata) :
  forall (w w' : BucketWriter) (bp bp' : gmap NodeId Z)
         (done : list (list (list byte))) (cur : list (list byte)),
    add_buffers false buffers (w, bp) = Some (w', bp') ->
    packer_at done cur w -> cur <> [] -> nonempty_buffers cur ->
    nonempty_buffers (map buffer buffers) ->
    bucket_size_of cur + bucket_size_of (map buffer buffers) < 2 ^ 64 ->
    exists init last,
      pack cur (map buffer buffers) = init ++ [last] /\
      packer_at (done ++ init) last w' /\ last <> [] /\
      nonempty_buffers last /\
      bucket_size_of last
        <= bucket_size_of cur + bucket_size_of (map buffer buffers) /\
      bw_buffer_lengths w' =
        bw_buffer_lengths w
          ++ map (fun b => Z.of_nat (length b)) (map buffer buffers).
Proof.
  induction buffers as [|B buffers IH];
    intros w w' bp bp' done cur H Hat Hcur Hne Hbs Hsz.
  - injection H as <- <-. exists [], cur. simpl. rewrite !app_nil_r.
    split; [reflexivity|]. split; [exact Hat|]. split; [exact Hcur|].
    split; [exact Hne|]. split; [|reflexivity].
    change (bucket_size_of []) with 0. lia.
  - cbn [add_buffers] in H.
    destruct (bp !! buffer_node_id B); [discriminate|].
    cbn [map] in *. apply Forall_cons in Hbs as [Hb Hbs].
    change (buffer B :: map buffer buffers)
      with ([buffer B] ++ map buffer buffers) in Hsz |- *.
    rewrite bucket_size_of_app, bucket_size_of_single in Hsz |- *.
    assert (Hnn : 0 <= bucket_size_of (map buffer buffers))
      by (unfold bucket_size_of; lia).
    assert (Hcn : 0 <= bucket_size_of cur) by (unfold bucket_size_of; lia).
    cbn [app pack].
    destruct (bucket_size_of cur + Z.of_nat (length (buffer B))
              >? bucket_size_) eqn:E.
    + rewrite Z.gtb_ltb in E. apply Z.ltb_lt in E.
      pose proof (AddBuffer_opens false (buffer B) w done cur Hat Hne
                    ltac:(lia) (or_intror E)) as Hat'.
      destruct cur as [|c cur0]; [contradiction|].
      destruct (IH _ _ _ _ _ _ H Hat')
        as (init & last & Hp & Hl & Hln & Hlne & Hls & Hbl).
      * discriminate.
      * constructor; [exact Hb|constructor].
      * exact Hbs.
      * rewrite bucket_size_of_single. lia.
      * exists ((c :: cur0) :: init), last. rewrite Hp.
        rewrite <- app_assoc in Hl. split; [reflexivity|].
        split; [exact Hl|]. split; [exact Hln|]. split; [exact Hlne|].
        rewrite bucket_size_of_single in Hls. split; [lia|].
        rewrite Hbl, AddBuffer_buffer_lengths, <- app_assoc. reflexivity.
    + rewrite Z.gtb_ltb in E. apply Z.ltb_ge in E.
      pose proof (AddBuffer_joins (buffer B) w done cur Hat ltac:(lia) E)
        as Hat'.
      destruct (IH _ _ _ _ _ _ H Hat')
        as (init & last & Hp & Hl & Hln & Hlne & Hls & Hbl).
      * destruct cur; discriminate.
      * apply Forall_app. split; [exact Hne|].
        constructor; [exact Hb|constructor].
      * exact Hbs.
      * rewrite bucket_size_of_app, bucket_size_of_single. lia.
      * exists init, last. split; [exact Hp|].
        split; [exact Hl|]. split; [exact Hln|]. split; [exact Hlne|].
        rewrite bucket_size_of_app, bucket_size_of_single in Hls.
        split; [lia|].
        rewrite Hbl, AddBuffer_buffer_lengths, <- app_assoc. reflexivity.
Qed.

Lemma add_buffers_kind (buffers : list BufferWithMetadata)
    (w w' : BucketWriter) (bp bp' : gmap NodeId Z)
    (done : list (list (list byte))) (cur : list (list byte)) :
  add_buffers true buffers (w, bp) = Some (w', bp') ->
  packer_at done cur w -> nonempty_buffers cur ->
  nonempty_buffers (map buffer buffers) ->
  bucket_size_of cur + bucket_size_of (map buffer buffers) < 2 ^ 64 ->
  exists done' cur',
    packer_at done' cur' w' /\ nonempty_buffers cur' /\
    closed_buckets done' cur' =
      closed_buckets done cur ++ pack_kind (map buffer buffers) /\
    bucket_size_of cur'
      <= bucket_size_of cur + bucket_size_of (map buffer buffers) /\
    bw_buffer_lengths w' =
      bw_buffer_lengths w
        ++ map (fun b => Z.of_nat (length b)) (map buffer buffers).
Proof.
  intros H Hat Hne Hbs Hsz. destruct buffers as [|B buffers].
  - injection H as <- <-. exists done, cur. simpl. rewrite !app_nil_r.
    split; [exact Hat|]. split; [exact Hne|]. split; [reflexivity|].
    split; [|reflexivity]. change (bucket_size_of []) with 0. lia.
  - cbn [add_buffers] in H.
    destruct (bp !! buffer_node_id B); [discriminate|].
    cbn [map] in *. apply Forall_cons in Hbs as [Hb Hbs].
    change (buffer B :: map buffer buffers)
      with ([buffer B] ++ map buffer buffers) in Hsz |- *.
    rewrite bucket_size_of_app, bucket_size_of_single in Hsz |- *.
    assert (Hnn : 0 <= bucket_size_of (map buffer buffers))
      by (unfold bucket_size_of; lia).
    assert (Hcn : 0 <= bucket_size_of cur) by (unfold bucket_size_of; lia).
    pose proof (AddBuffer_opens true (buffer B) w done cur Hat Hne
                  ltac:(lia) (or_introl eq_refl)) as Hat'.
    destruct (add_buffers_rest buffers _ _ _ _ _ _ H Hat')
      as (init & last & Hp & Hl & Hln & Hlne & Hls & Hbl).
    + discriminate.
    + constructor; [exact Hb|constructor].
    + exact Hbs.
    + rewrite bucket_size_of_single. lia.
    + exists (closed_buckets done cur ++ init), last.
      split; [exact Hl|]. split; [exact Hlne|].
      rewrite bucket_size_of_single in Hls.
      split; [|split; [lia|]].
      * cbn [app pack_kind]. rewrite Hp. unfold closed_buckets at 1.
        destruct last; [contradiction|]. rewrite <- app_assoc. reflexivity.
      * rewrite Hbl, AddBuffer_buffer_lengths, <- app_assoc. reflexivity.
Qed.

Lemma add_buffers_kinds (kinds : list (list BufferWithMetadata)) :
  forall (w w' : BucketWriter) (bp bp' : gmap NodeId Z)
         (done : list (list (list byte))) (cur : list (list byte)),
    foldl (fun acc buffers =>
             match acc with
             | None => None
             | Some acc => add_buffers true buffers acc
             end) (Some (w, bp)) kinds = Some (w', bp') ->
    packer_at done cur w -> nonempty_buffers cur ->
    Forall (fun k => nonempty_buffers (map buffer k)) kinds ->
    bucket_size_of cur
      + bucket_size_of (concat (map (map buffer) kinds)) < 2 ^ 64 ->
    exists done' cur',
      packer_at done' cur' w' /\ nonempty_buffers cur' /\
      closed_buckets done' cur' =
        closed_buckets done cur
          ++ concat (map (fun k => pack_kind (map buffer k)) kinds) /\
      bucket_size_of cur'
        <= bucket_size_of cur
           + bucket_size_of (concat (map (map buffer) kinds)) /\
      bw_buffer_lengths w' =
        bw_buffer_lengths w
          ++ map (fun b => Z.of_nat (length b))
               (concat (map (map buffer) kinds)).
Proof.
  induction kinds as [|k kinds IH]; intros w w' bp bp' done cur H Hat Hne Hk Hsz.
  - injection H as <- <-. exists done, cur. simpl. rewrite !app_nil_r.
    split; [exact Hat|]. split; [exact Hne|]. split; [reflexivity|].
    split; [|reflexivity]. change (bucket_size_of []) with 0. lia.
  - cbn [foldl] in H. apply Forall_cons in Hk as [Hk1 Hk].
    cbn [map concat] in *. rewrite bucket_size_of_app in Hsz |- *.
    assert (Hnn : 0 <= bucket_size_of (concat (map (map buffer) kinds)))
      by (unfold bucket_size_of; lia).
    destruct (add_buffers true k (w, bp)) as [[w1 bp1]|] eqn:H1.
    2:{ exfalso. clear -H. induction kinds as [|k' kinds IHk];
          [discriminate|]. apply IHk. exact H. }
    destruct (add_buffers_kind k _ _ _ _ done cur H1 Hat Hne Hk1 ltac:(lia))
      as (d1 & c1 & A1 & A2 & A3 & A4 & A5).
    destruct (IH _ _ _ _ d1 c1 H A1 A2 Hk ltac:(lia))
      as (d2 & c2 & B1 & B2 & B3 & B4 & B5).
    exists d2, c2. split; [exact B1|]. split; [exact B2|].
    split; [|split; [lia|]].
    + rewrite B3, A3, <- app_assoc. reflexivity.
    + rewrite B5, A5, map_app, <- app_assoc. reflexivity.
Qed.

Lemma pack_kind_spec (kind : list (list byte)) :
  nonempty_buffers kind ->
  concat (pack_kind kind) = kind /\ Forall bucket_ok (pack_kind kind) /\
  buckets_greedy (pack_kind kind).
Proof.
  intros Hne. destruct kind as [|b kind]; cbn [pack_kind].
  - repeat split; [constructor|].
    intros i b1 b0 b2 H. rewrite lookup_nil in H. discriminate.
  - apply Forall_cons in Hne as [Hb Hne].
    split; [apply pack_concat|]. split; [|apply pack_greedy; discriminate].
    apply pack_ok; [|exact Hne]. split; [discriminate|].
    destruct (Z_le_gt_dec (Z.of_nat (length b)) bucket_size_).
    + left. rewrite bucket_size_of_single. lia.
    + right. exists b. split; [reflexivity|lia].
Qed.

(** [WriteBuffers] cuts the buffers of every kind into buckets
    without splitting a buffer and without a bucket across two kinds.
    Each bucket is within [bucket_size_] or is one buffer that exceeds
    it, and a bucket of a kind ends only where the next buffer would
    cross [bucket_size_]. The data writer holds the compressed buckets in
    order, and the two tables hold their compressed lengths and the
    lengths of the buffers. *)
Lemma WriteBuffers_packs (e : Encoder) (header_writer h : list byte)
    (w : BucketWriter) (bp : gmap NodeId Z) :
  WriteBuffers e [] header_writer [] = Some (h, w, bp) ->
  Forall nonempty_buffers (buffer_kinds e) ->
  bucket_size_of (concat (buffer_kinds e)) < 2 ^ 64 ->
  exists bucketss : list (list (list (list byte))),
    Forall2 (fun kind buckets =>
               concat buckets = kind /\ Forall bucket_ok buckets /\
               buckets_greedy buckets) (buffer_kinds e) bucketss /\
    bw_data_writer w =
      concat (map (fun b => compress (concat b)) (concat bucketss)) /\
    bw_bucket_lengths w =
      map (fun b => Z.of_nat (length (compress (concat b))))
        (concat bucketss) /\
    bw_buffer_lengths w =
      map (fun b => Z.of_nat (length b)) (concat (buffer_kinds e)).
Proof.
  intros H Hne Hsz. exists (map pack_kind (buffer_kinds e)).
  split.
  { clear -Hne. induction Hne as [|k ks Hk Hks IH]; cbn [map];
      constructor; [apply pack_kind_spec; exact Hk|exact IH]. }
  unfold WriteBuffers in H.
  destruct (foldl _ _ (map sort_buffers (data_ e))) as [[w1 bp1]|] eqn:F;
    [|discriminate].
  unfold buffer_kinds in *. apply Forall_app in Hne as [Hdata Hnpl].
  rewrite concat_app, bucket_size_of_app in Hsz.
  assert (Hmm : map (fun k => map buffer (sort_buffers k)) (data_ e)
                = map (map buffer) (map sort_buffers (data_ e))).
  { rewrite map_map. reflexivity. }
  rewrite Hmm in *.
  assert (Hpk : map pack_kind (map (map buffer) (map sort_buffers (data_ e)))
                = map (fun k => pack_kind (map buffer k))
                    (map sort_buffers (data_ e))).
  { rewrite map_map. reflexivity. }
  destruct (add_buffers_kinds (map sort_buffers (data_ e))
              (mkBucketWriter [] [] [] []) w1 ∅ bp1 [] [] F)
    as (d1 & c1 & A1 & A2 & A3 & A4 & A5).
  { repeat split. }
  { constructor. }
  { clear -Hdata. induction (map sort_buffers (data_ e)) as [|k ks IH];
      [constructor|]. cbn [map] in Hdata.
    apply Forall_cons in Hdata as [H1 H2]. constructor; auto. }
  { change (bucket_size_of []) with 0.
    assert (0 <= bucket_size_of
                   (concat [match nonproto_lengths_writer_ e with
                            | [] => []
                            | _ :: _ => [nonproto_lengths_writer_ e]
                            end])) by (unfold bucket_size_of; lia).
    lia. }
  change (closed_buckets [] []) with (@nil (list (list byte))) in A3.
  cbn [app] in A3. change (bucket_size_of []) with 0 in A4.
  cbn [bw_buffer_lengths app] in A5.
  repeat (rewrite map_app || rewrite concat_app).
  rewrite Hpk, <- A3, <- A5.
  cbn [map concat]. rewrite !app_nil_r.
  destruct (nonproto_lengths_writer_ e) as [|n0 npl] eqn:Hn.
  - (* no non-proto record *)
    cbn [pack_kind map app] in *. rewrite !app_nil_r.
    destruct A1 as (Hc & Hd & Hl).
    destruct c1 as [|c c1].
    + rewrite Hc in H. simpl in H. injection H as <- <- <-.
      unfold closed_buckets. rewrite app_nil_r. auto.
    + pose proof (nonempty_concat (c :: c1) A2 ltac:(discriminate)) as Hp.
      rewrite Hc in H.
      destruct (Z.of_nat (length (concat (c :: c1))) >? 0) eqn:E.
      2:{ rewrite Z.gtb_ltb in E. apply Z.ltb_ge in E. lia. }
      injection H as <- <- <-.
      cbn [bw_data_writer bw_bucket_lengths bw_buffer_lengths].
      unfold closed_buckets. rewrite Hd, Hl, !map_app, concat_app.
      simpl. rewrite !app_nil_r. auto.
  - (* the buffer of the non-proto lengths opens the last bucket *)
    cbv beta iota zeta in H.
    set (npl' := n0 :: npl) in *.
    apply Forall_cons in Hnpl as [Hnpl _].
    cbn [concat] in Hsz. rewrite app_nil_r in Hsz.
    rewrite bucket_size_of_single in Hsz.
    apply Forall_cons in Hnpl as [Hnpl0 _].
    assert (Hsz' : bucket_size_of c1 + Z.of_nat (length npl') < 2 ^ 64)
      by lia.
    pose proof (AddBuffer_opens true npl' w1 d1 c1 A1 A2 Hsz'
                  (or_introl eq_refl)) as (Hc & Hd & Hl).
    pose proof (AddBuffer_buffer_lengths true npl' w1) as Hbl.
    set (w2 := AddBuffer true npl' w1) in *. clearbody w2.
    assert (Hp : (0 < length (concat [npl']))%nat).
    { apply nonempty_concat; [|discriminate].
      constructor; [exact Hnpl0|constructor]. }
    rewrite Hc in H.
    destruct (Z.of_nat (length (concat [npl'])) >? 0) eqn:E.
    2:{ rewrite Z.gtb_ltb in E. apply Z.ltb_ge in E. lia. }
    injection H as <- <- <-.
    cbn [bw_data_writer bw_bucket_lengths bw_buffer_lengths pack_kind pack].
    fold (closed_buckets d1 c1) in Hd, Hl.
    rewrite Hd, Hl, Hbl, ?map_app, ?concat_app.
    cbn [map concat]. rewrite ?app_nil_r. auto.
Qed.

(** ** Failure of [AddRecordInternal] and the latch *)

Lemma AddRecordInternal_accepts (record : list byte) (e : Encoder) :
  healthy e = true -> ~ limit_exceeded record e ->
  exists e', AddRecordInternal record e = Some (true, e') /\
             healthy e' = true.
Proof.
  intros Hh Hl. unfold AddRecordInternal. rewrite Hh. cbn [negb].
  unfold limit_exceeded in Hl.
  destruct (num_records_ e =? kMaxNumRecords) eqn:E1;
    [apply Z.eqb_eq in E1; tauto|].
  destruct (Z.of_nat (length record) >? uint64_max - decoded_data_size_ e)
    eqn:E2.
  { rewrite Z.gtb_ltb in E2. apply Z.ltb_lt in E2. exfalso. apply Hl. lia. }
  set (e1 := set_counters _ _ e).
  assert (H1 : state_ e1 = state_ e) by reflexivity.
  destruct (IsProtoMessage record) eqn:P.
  - pose proof (GetNode_frame (kStartOfMessage, 0) e1) as F1.
    set (e2 := GetNode (kStartOfMessage, 0) e1) in *.
    pose proof (GetPosInTagsList_frame (kStartOfMessage, 0) kTrivial e2) as F2.
    destruct (GetPosInTagsList (kStartOfMessage, 0) kTrivial e2) as [t e3].
    cbn [snd] in F2.
    destruct (AddMessage_total (length record) record [] (length record)
                kRoot 0 (push_encoded_tag t e3))
      as (e4 & -> & S4 & _); [apply IsProtoMessage_true_loop; exact P|lia|
                              simpl; lia|].
    exists e4. split; [reflexivity|]. unfold healthy in *.
    rewrite S4. cbn [push_encoded_tag state_ set_encoded_tags].
    destruct F1 as (F1 & _), F2 as (F2 & _). rewrite F2, F1, H1. exact Hh.
  - pose proof (GetNode_frame (kNonProto, 0) e1) as F1.
    set (e2 := GetNode (kNonProto, 0) e1) in *.
    pose proof (GetPosInTagsList_frame (kNonProto, 0) kTrivial e2) as F2.
    destruct (GetPosInTagsList (kNonProto, 0) kTrivial e2) as [t e3].
    cbn [snd] in F2.
    pose proof (GetBuffer_frame (kNonProto, 0) kNonProtoBuf
                  (push_encoded_tag t e3)) as F3.
    destruct (GetBuffer (kNonProto, 0) kNonProtoBuf (push_encoded_tag t e3))
      as [w e4]. cbn [snd] in F3.
    eexists. split; [reflexivity|]. unfold healthy in *.
    cbn [state_ set_nonproto_lengths buffer_write set_data].
    destruct F1 as (F1 & _), F2 as (F2 & _), F3 as (F3 & _).
    rewrite F3. cbn [push_encoded_tag state_ set_encoded_tags].
    rewrite F2, F1, H1. exact Hh.
Qed.


(** ** Ingestion keeps the tag list and the buffers in order *)

Lemma ingests_refl (e : Encoder) : ingested e -> ingests e e.
Proof. intros H. split; [exact H|lia]. Qed.

Lemma ingests_trans (e1 e2 e3 : Encoder) :
  ingests e1 e2 -> ingests e2 e3 -> ingests e1 e3.
Proof. intros [_ A] [B C]. split; [exact B|lia]. Qed.

Lemma tag_pos_ok_mono (tags tags' : list EncodedTagInfo) (p : Z) :
  (length tags <= length tags')%nat -> tag_pos_ok tags p ->
  tag_pos_ok tags' p.
Proof. unfold tag_pos_ok. intros Hl [->|H]; [left; reflexivity|right; lia]. Qed.

Lemma Encoder_new_ingested : ingested Encoder_new.
Proof.
  unfold ingested, Encoder_new. cbn.
  split; [constructor|]. split; [constructor|]. split.
  - intros id node H. rewrite lookup_empty in H. discriminate.
  - repeat constructor.
Qed.

Lemma GetNode_ingests (id : NodeId) (e : Encoder) :
  ingested e -> ingests e (GetNode id e).
Proof.
  intros (H1 & H2 & H3 & H4). unfold GetNode.
  destruct (message_nodes_ e !! id) eqn:E.
  - split; [repeat split; assumption|lia].
  - split; [|cbn; lia].
    split; [exact H1|]. split; [exact H2|]. split; [|exact H4].
    cbn. intros id' node Hl.
    destruct (decide (id' = id)) as [->|Hne].
    + rewrite lookup_insert_eq in Hl. injection Hl as <-. constructor.
    + rewrite lookup_insert_ne in Hl by congruence. eapply H3. exact Hl.
Qed.

Lemma node_of_ok (id : NodeId) (e : Encoder) :
  ingested e ->
  Forall (tag_pos_ok (tags_list_ e)) (encoded_tag_pos (node_of id e)).
Proof.
  intros (_ & _ & H3 & _). unfold node_of.
  destruct (message_nodes_ e !! id) eqn:E; cbn.
  - eapply H3. exact E.
  - constructor.
Qed.

Lemma update_node_ingested (id : NodeId) (n : MessageNode) (e : Encoder) :
  ingested e -> Forall (tag_pos_ok (tags_list_ e)) (encoded_tag_pos n) ->
  ingested (update_node id n e).
Proof.
  intros (H1 & H2 & H3 & H4) Hn. unfold update_node.
  split; [exact H1|]. split; [exact H2|]. split; [|exact H4].
  cbn. intros id' node Hl.
  destruct (decide (id' = id)) as [->|Hne].
  - rewrite lookup_insert_eq in Hl. injection Hl as <-. exact Hn.
  - rewrite lookup_insert_ne in Hl by congruence. eapply H3. exact Hl.
Qed.

Lemma wrap32_le (z : Z) : 0 <= z -> 0 <= wrap32 z <= z.
Proof.
  intros H. unfold wrap32.
  pose proof (Z.mod_pos_bound z (2 ^ 32) ltac:(lia)).
  pose proof (Z.mod_le z (2 ^ 32) H ltac:(lia)). lia.
Qed.

Lemma GetPosInTagsList_ingests (id : NodeId) (sub : Z) (e : Encoder) :
  ingested e ->
  ingests e (GetPosInTagsList id sub e).2 /\
  0 <= (GetPosInTagsList id sub e).1
    < Z.of_nat (length (tags_list_ (GetPosInTagsList id sub e).2)).
Proof.
  intros He. pose proof (node_of_ok id e He) as Hn.
  destruct He as (H1 & H2 & H3 & H4).
  unfold GetPosInTagsList.
  set (node := node_of id e) in *.
  set (etp := if (length (encoded_tag_pos node) <=? Z.to_nat sub)%nat
              then resize_up (Z.to_nat sub + 1) kInvalidPos
                     (encoded_tag_pos node)
              else encoded_tag_pos node).
  assert (Hetp : Forall (tag_pos_ok (tags_list_ e)) etp).
  { unfold etp. destruct (_ <=? _)%nat; [|exact Hn].
    unfold resize_up. apply Forall_app. split; [exact Hn|].
    apply Forall_replicate. left. reflexivity. }
  clearbody etp.
  destruct (default kInvalidPos (etp !! Z.to_nat sub) =? kInvalidPos) eqn:E.
  - cbn [fst snd].
    pose proof (wrap32_le (Z.of_nat (length (tags_list_ e))) ltac:(lia)) as Hw.
    assert (Hlen : length (tags_list_ e ++ [EncodedTagInfo_new id sub])
                   = S (length (tags_list_ e)))
      by (rewrite length_app; cbn; lia).
    split; [split|].
    + split; [|split; [|split]]; cbn.
      * eapply Forall_impl; [exact H1|]. cbn. intros t Ht. rewrite Hlen. lia.
      * apply Forall_app. split; [exact H2|]. repeat constructor.
      * intros id' n Hl.
        destruct (decide (id' = id)) as [->|Hne].
        -- rewrite lookup_insert_eq in Hl. injection Hl as <-. cbn.
           apply Forall_insert.
           ++ eapply Forall_impl; [exact Hetp|]. intros p.
              apply tag_pos_ok_mono. rewrite Hlen. lia.
           ++ right. rewrite Hlen. lia.
        -- rewrite lookup_insert_ne in Hl by congruence.
           eapply Forall_impl; [exact (H3 _ _ Hl)|]. intros p.
           apply tag_pos_ok_mono. rewrite Hlen. lia.
      * exact H4.
    + cbn. rewrite Hlen. lia.
    + cbn. rewrite Hlen. lia.
  - cbn [fst snd]. apply Z.eqb_neq in E.
    split; [split|].
    + apply update_node_ingested; [repeat split; assumption|exact Hetp].
    + cbn. lia.
    + cbn.
      destruct (etp !! Z.to_nat sub) as [r|] eqn:L; cbn in E |- *;
        [|congruence].
      pose proof (Forall_lookup_1 _ _ _ _ Hetp L) as [->|Hr];
        [congruence|exact Hr].
Qed.

Lemma push_encoded_tag_ingests (t : Z) (e : Encoder) :
  ingested e -> 0 <= t < Z.of_nat (length (tags_list_ e)) ->
  ingests e (push_encoded_tag t e).
Proof.
  intros (H1 & H2 & H3 & H4) Ht. split; [|cbn; lia].
  split; [|repeat split; assumption].
  cbn. apply Forall_app. split; [exact H1|]. repeat constructor; lia.
Qed.

Lemma set_group_stack_ingests (g : list Z) (e : Encoder) :
  ingested e -> ingests e (set_group_stack g e).
Proof. intros H. split; [exact H|cbn; lia]. Qed.

Lemma Forall_alter_at {A} (P : A -> Prop) (f : A -> A) (i : nat)
    (l : list A) :
  (forall j x, l !! j = Some x -> j <> i -> P x) ->
  (forall x, l !! i = Some x -> P (f x)) ->
  Forall P (alter f i l).
Proof.
  intros Hne Heq. apply Forall_lookup. intros j y Hy.
  destruct (decide (j = i)) as [->|Hj].
  - rewrite list_lookup_alter_eq in Hy.
    destruct (l !! i) as [x|] eqn:E; [|discriminate].
    injection Hy as <-. apply Heq. reflexivity.
  - rewrite list_lookup_alter_ne in Hy by congruence. eapply Hne; eassumption.
Qed.

Lemma prepend_to_nonempty (src : list byte) (b : BufferWithMetadata) :
  src <> [] -> buffer (prepend_to src b) <> [].
Proof. intros H. cbn. destruct src; [congruence|discriminate]. Qed.

Lemma buffer_write_ingests (id : NodeId) (t : BufferType) (src : list byte)
    (e : Encoder) :
  ingested e -> src <> [] ->
  ingests e (buffer_write (GetBuffer id t e).1 src (GetBuffer id t e).2).
Proof.
  intros He Hsrc. pose proof (node_of_ok id e He) as Hn.
  destruct He as (H1 & H2 & H3 & H4).
  unfold GetBuffer. destruct (writer (node_of id e)) as [w|] eqn:W.
  - cbn [fst snd]. split; [|cbn; lia].
    split; [exact H1|]. split; [exact H2|]. split; [exact H3|].
    cbn. apply Forall_alter_at.
    + intros j x Hx _. exact (Forall_lookup_1 _ _ _ _ H4 Hx).
    + intros x Hx. apply Forall_alter_at.
      * intros j b Hb _.
        exact (Forall_lookup_1 _ _ _ _ (Forall_lookup_1 _ _ _ _ H4 Hx) Hb).
      * intros b _. apply prepend_to_nonempty. exact Hsrc.
  - cbn [fst snd]. set (i := buffer_type_index t).
    split; [|cbn; lia].
    split; [exact H1|]. split; [exact H2|]. split.
    + cbn. intros id' node Hl.
      destruct (decide (id' = id)) as [->|Hne].
      * rewrite lookup_insert_eq in Hl. injection Hl as <-. exact Hn.
      * rewrite lookup_insert_ne in Hl by congruence. eapply H3. exact Hl.
    + cbn. apply Forall_alter_at.
      * intros j x Hx Hj. rewrite list_lookup_insert_ne in Hx by congruence.
        exact (Forall_lookup_1 _ _ _ _ H4 Hx).
      * intros x Hx.
        assert (Hi : (i < length (data_ e))%nat).
        { apply lookup_lt_Some in Hx. rewrite length_insert in Hx. exact Hx. }
        rewrite list_lookup_insert_eq in Hx by exact Hi. injection Hx as <-.
        destruct (lookup_lt_is_Some_2 _ _ Hi) as [buffers Hb].
        rewrite Hb. change (default [] (Some buffers)) with buffers.
        pose proof (Forall_lookup_1 _ _ _ _ H4 Hb) as Hbs.
        apply Forall_alter_at.
        -- intros j b Hl Hj.
           apply lookup_app_Some in Hl as [Hl|[Hge Hl]].
           ++ exact (Forall_lookup_1 _ _ _ _ Hbs Hl).
           ++ destruct (j - length buffers)%nat as [|k] eqn:K;
                [lia|discriminate].
        -- intros b _. apply prepend_to_nonempty. exact Hsrc.
Qed.

Lemma tag_pushed (id : NodeId) (sub : Z) (e : Encoder) :
  ingested e ->
  ingests e (push_encoded_tag (GetPosInTagsList id sub e).1
               (GetPosInTagsList id sub e).2).
Proof.
  intros He. destruct (GetPosInTagsList_ingests id sub e He) as [A V].
  eapply ingests_trans; [exact A|].
  apply push_encoded_tag_ingests; [exact (proj1 A)|exact V].
Qed.

Lemma copy_varint_nonempty (n : nat) (src value rest : list byte) :
  copy_varint n src = Some (value, rest) -> value <> [].
Proof.
  destruct n as [|n]; [destruct src; discriminate|].
  destruct src as [|b src]; [discriminate|]. cbn [copy_varint].
  destruct (byte_val b <? 128); [intros H; injection H as <- _; discriminate|].
  destruct (copy_varint n src) as [[bs r]|]; [|discriminate].
  intros H; injection H as <- _; discriminate.
Qed.

Lemma read_varint_shrinks (c : bool) (n : nat) (src rest : list byte)
    (v : Z) :
  read_varint c n src = Some (v, rest) -> (length rest < length src)%nat.
Proof.
  intros H. destruct (copy_varint_read _ _ _ _ _ H) as (bs & _ & -> & Hl).
  rewrite length_app. lia.
Qed.

Lemma ReadVarint32_shrinks (src rest : list byte) (v : Z) :
  ReadVarint32 src = Some (v, rest) -> (length rest < length src)%nat.
Proof.
  unfold ReadVarint32.
  destruct (read_varint false kMaxLengthVarint32 src) as [[v' r]|] eqn:R;
    [|discriminate].
  destruct (v' <? 2 ^ 32); [|discriminate].
  intros H; injection H as <- <-. eapply read_varint_shrinks. exact R.
Qed.

Lemma take_nonempty {A} (n : nat) (l : list A) :
  (0 < n)%nat -> l <> [] -> take n l <> [].
Proof. destruct n; [lia|]. destruct l; [congruence|discriminate]. Qed.

(** The calls [GetPosInTagsList] and [push_back] at the front of a
    hypothesis are taken together. *)
Ltac ingest_tag H Hc :=
  match type of H with
  | context [GetPosInTagsList ?id ?s ?e1] =>
      let A := fresh "A" in
      pose proof (tag_pushed id s e1 (proj1 Hc)) as A;
      apply (ingests_trans _ _ _ Hc) in A; clear Hc; rename A into Hc;
      destruct (GetPosInTagsList id s e1) as [? ?]; cbn [fst snd] in Hc;
      cbv beta iota zeta in H
  end.

(** The calls [GetBuffer] and [Write] at the front of a hypothesis. *)
Ltac ingest_write H Hc src :=
  match type of H with
  | context [GetBuffer ?id ?t ?e1] =>
      let A := fresh "A" in
      assert (A : ingests e1 (buffer_write (GetBuffer id t e1).1 src
                                (GetBuffer id t e1).2));
      [apply buffer_write_ingests; [exact (proj1 Hc)|]
      |apply (ingests_trans _ _ _ Hc) in A; clear Hc; rename A into Hc;
       destruct (GetBuffer id t e1) as [? ?]; cbn [fst snd] in Hc;
       cbv beta iota zeta in H]
  end.

Lemma land_7_cases (tag : Z) :
  let w := Z.land tag 7 in
  w = 0 \/ w = 1 \/ w = 2 \/ w = 3 \/ w = 4 \/ w = 5 \/ w = 6 \/ w = 7.
Proof.
  cbv zeta.
  assert (H : Z.land tag 7 = tag mod 2 ^ 3)
    by (change 7 with (Z.ones 3); apply Z.land_ones; lia).
  rewrite H. pose proof (Z.mod_pos_bound tag (2 ^ 3) ltac:(lia)). lia.
Qed.

Lemma AddMessage_iteration_ingests
    (rec : list byte -> Z -> Z -> Encoder -> option Encoder)
    (record rest : list byte) (parent depth p' d' : Z) (e e' : Encoder) :
  (forall payload p d e0 e1,
      rec payload p d e0 = Some e1 -> ingested e0 -> ingests e0 e1) ->
  AddMessage_iteration rec record parent depth e = Some (rest, p', d', e') ->
  ingested e -> ingests e e'.
Proof.
  intros Hrec H He. unfold AddMessage_iteration in H.
  destruct (ReadVarint32 record) as [[tag r1]|] eqn:R; [|discriminate].
  pose proof (GetNode_ingests (parent, tag) e He) as Hc.
  set (e1 := GetNode (parent, tag) e) in *. clearbody e1.
  destruct (land_7_cases tag) as [E|[E|[E|[E|[E|[E|[E|E]]]]]]];
    rewrite E in H; try discriminate.
  - (* kVarint *)
    destruct (CopyVarint64 r1) as [[value r2]|] eqn:C; [|discriminate].
    apply copy_varint_nonempty in C.
    destruct (_ <=? kMaxVarintInline).
    + ingest_tag H Hc. injection H as <- <- <- <-. exact Hc.
    + ingest_tag H Hc. ingest_write H Hc (map clear_high_bit value).
      * destruct value; [congruence|discriminate].
      * injection H as <- <- <- <-. exact Hc.
  - (* kFixed64 *)
    ingest_tag H Hc. ingest_write H Hc (take 8 r1).
    + destruct (length r1 <? 8)%nat eqn:L.
      * destruct (GetBuffer _ _ _); discriminate.
      * apply Nat.ltb_ge in L. apply take_nonempty; [lia|].
        destruct r1; [simpl in L; lia|discriminate].
    + destruct (length r1 <? 8)%nat; [discriminate|].
      injection H as <- <- <- <-. exact Hc.
  - (* kLengthDelimited *)
    destruct (ReadVarint32 r1) as [[len value]|] eqn:R2; [|discriminate].
    apply ReadVarint32_shrinks in R2.
    destruct (Z.of_nat (length value) <? len); [discriminate|].
    destruct ((depth <? kMaxRecursionDepth) && negb (len =? 0)
              && IsProtoMessage (take (Z.to_nat len) value)).
    + ingest_tag H Hc.
      match type of H with
      | context [GetPosInTagsList ?id ?s ?e2] =>
          destruct (GetPosInTagsList_ingests id s e2 (proj1 Hc)) as [A V];
          destruct (GetPosInTagsList id s e2) as [t3 e3]
      end.
      cbn [fst snd] in A, V. cbv beta iota zeta in H.
      match type of H with
      | context [rec ?pl ?p ?d ?e0] =>
          destruct (rec pl p d e0) as [e4|] eqn:Hr; [|discriminate];
          apply Hrec in Hr; [|exact (proj1 A)]
      end.
      injection H as <- <- <- <-.
      eapply ingests_trans; [exact Hc|].
      eapply ingests_trans; [exact A|].
      eapply ingests_trans; [exact Hr|].
      apply push_encoded_tag_ingests; [exact (proj1 Hr)|].
      destruct Hr as [_ Hr]. lia.
    + ingest_tag H Hc.
      ingest_write H Hc
        (take (length r1 - length value + Z.to_nat len) r1).
      * apply take_nonempty; [lia|]. destruct r1; [simpl in R2; lia|discriminate].
      * injection H as <- <- <- <-. exact Hc.
  - (* kStartGroup *)
    ingest_tag H Hc. injection H as <- <- <- <-.
    eapply ingests_trans; [exact Hc|].
    apply set_group_stack_ingests. exact (proj1 Hc).
  - (* kEndGroup *)
    destruct (group_stack_ e1) as [|back stack]; [discriminate|].
    cbv beta iota zeta in H.
    pose proof (set_group_stack_ingests stack e1 (proj1 Hc)) as A.
    apply (ingests_trans _ _ _ Hc) in A. clear Hc.
    ingest_tag H A. injection H as <- <- <- <-. exact A.
  - (* kFixed32 *)
    ingest_tag H Hc. ingest_write H Hc (take 4 r1).
    + destruct (length r1 <? 4)%nat eqn:L.
      * destruct (GetBuffer _ _ _); discriminate.
      * apply Nat.ltb_ge in L. apply take_nonempty; [lia|].
        destruct r1; [simpl in L; lia|discriminate].
    + destruct (length r1 <? 4)%nat; [discriminate|].
      injection H as <- <- <- <-. exact Hc.
Qed.

Lemma AddMessage_ingests (fuel : nat) :
  forall (record : list byte) (parent depth : Z) (e e' : Encoder),
    AddMessage fuel record parent depth e = Some e' ->
    ingested e -> ingests e e'.
Proof.
  induction fuel as [|fuel IH]; intros record parent depth e e' H He.
  - cbn [AddMessage] in H. destruct (Pull record); [discriminate|].
    injection H as <-. apply ingests_refl. exact He.
  - cbn [AddMessage] in H. destruct (Pull record).
    + destruct (AddMessage_iteration (AddMessage fuel) record parent depth e)
        as [[[[r p] d] e1]|] eqn:S; [|discriminate].
      apply AddMessage_iteration_ingests in S; [|exact IH|exact He].
      eapply ingests_trans; [exact S|].
      eapply IH; [exact H|exact (proj1 S)].
    + injection H as <-. apply ingests_refl. exact He.
Qed.

Lemma IsProtoMessage_nil : IsProtoMessage [] = true.
Proof. reflexivity. Qed.

Lemma AddRecordInternal_ingested (record : list byte) (e e' : Encoder)
    (ok : bool) :
  AddRecordInternal record e = Some (ok, e') -> ingested e -> ingested e'.
Proof.
  intros H He. unfold AddRecordInternal in H.
  destruct (negb (healthy e)); [injection H as <- <-; exact He|].
  destruct (num_records_ e =? kMaxNumRecords);
    [injection H as <- <-; exact He|].
  destruct (_ >? _); [injection H as <- <-; exact He|].
  cbv beta iota zeta in H.
  destruct (IsProtoMessage record) eqn:P;
    match type of H with
    | context [GetNode ?id (set_counters ?a ?b e)] =>
        assert (Hc : ingests e (GetNode id (set_counters a b e)))
          by (apply (GetNode_ingests id (set_counters a b e)); exact He)
    end.
  - ingest_tag H Hc.
    match type of H with
    | context [AddMessage ?f ?r ?p ?d ?e0] =>
        destruct (AddMessage f r p d e0) as [e2|] eqn:A; [|discriminate]
    end.
    injection H as <- <-.
    exact (proj1 (AddMessage_ingests _ _ _ _ _ _ A (proj1 Hc))).
  - ingest_tag H Hc. ingest_write H Hc record.
    + intros ->. rewrite IsProtoMessage_nil in P. discriminate.
    + injection H as <- <-. exact (proj1 Hc).
Qed.

Lemma AddRecord_each_ingested (records : list (list byte)) :
  forall (e e' : Encoder) (oks : list bool),
    AddRecord_each records e = Some (oks, e') -> ingested e -> ingested e'.
Proof.
  induction records as [|r records IH]; intros e e' oks H He.
  - injection H as <- <-. exact He.
  - cbn [AddRecord_each] in H.
    destruct (AddRecordInternal r e) as [[ok e1]|] eqn:A; [|discriminate].
    destruct (AddRecord_each records e1) as [[oks1 e2]|] eqn:B;
      [|discriminate].
    injection H as <- <-.
    eapply IH; [exact B|]. eapply AddRecordInternal_ingested; eassumption.
Qed.

(** ** The claims on the records that were added *)

Lemma AddRecordInternal_total (record : list byte) (e : Encoder) :
  exists ok e', AddRecordInternal record e = Some (ok, e').
Proof.
  destruct (healthy e) eqn:Hh.
  - assert (Hd : limit_exceeded record e \/ ~ limit_exceeded record e)
      by (unfold limit_exceeded; lia).
    destruct Hd as [Hl|Hl].
    + rewrite (AddRecordInternal_limit record e Hh Hl). eauto.
    + destruct (AddRecordInternal_accepts record e Hh Hl) as (e' & H & _).
      eauto.
  - unfold AddRecordInternal. rewrite Hh. eauto.
Qed.

Lemma AddRecord_each_total (records : list (list byte)) (e : Encoder) :
  exists oks e', AddRecord_each records e = Some (oks, e').
Proof.
  revert e. induction records as [|r records IH]; intros e.
  - eexists _, _. reflexivity.
  - cbn [AddRecord_each].
    destruct (AddRecordInternal_total r e) as (ok & e1 & ->).
    destruct (IH e1) as (oks & e2 & ->). eexists _, _. reflexivity.
Qed.

Lemma insert_buffer_Forall (P : BufferWithMetadata -> Prop)
    (x : BufferWithMetadata) (l : list BufferWithMetadata) :
  P x -> Forall P l -> Forall P (insert_buffer x l).
Proof.
  intros Hx Hl. induction Hl as [|y l Hy Hl IH]; cbn [insert_buffer].
  - repeat constructor. exact Hx.
  - destruct (buffer_before x y); repeat constructor; assumption.
Qed.

Lemma sort_buffers_Forall (P : BufferWithMetadata -> Prop)
    (l : list BufferWithMetadata) :
  Forall P l -> Forall P (sort_buffers l).
Proof.
  intros Hl. unfold sort_buffers.
  induction Hl as [|x l Hx Hl IH]; cbn [foldr]; [constructor|].
  apply insert_buffer_Forall; assumption.
Qed.

Lemma buffer_kinds_nonempty (e : Encoder) :
  ingested e -> Forall nonempty_buffers (buffer_kinds e).
Proof.
  intros (_ & _ & _ & H4). unfold buffer_kinds. apply Forall_app. split.
  - apply Forall_map. eapply Forall_impl; [exact H4|].
    intros k Hk. cbn. unfold nonempty_buffers. apply Forall_map.
    apply sort_buffers_Forall. exact Hk.
  - repeat constructor. unfold nonempty_buffers.
    destruct (nonproto_lengths_writer_ e); repeat constructor. discriminate.
Qed.

(** C2: after [CollectTransitionStatistics] on the encoder that a
    sequence of records leaves, with at least one encoded tag, the first
    tag appended to [encoded_tags_] has [num_incoming_transitions] at
    least 1. When the sequence has one element, no tag transitions into
    it and the count is the floor of 1 the code sets for
    [encoded_tags_.back()]; otherwise the tag appended after it
    transitions into it. The size of a vector is below 2^64. *)
Theorem CollectTransitionStatistics_front_incoming
    (records : list (list byte)) (oks : list bool) (e : Encoder)
    (first : Z) (others : list Z) :
  AddRecord_each records Encoder_new = Some (oks, e) ->
  encoded_tags_ e = first :: others ->
  Z.of_nat (length (encoded_tags_ e)) < 2 ^ 64 ->
  1 <= num_incoming_transitions
         (tag_at (tags_list_ (CollectTransitionStatistics e)) first).
Proof.
  intros Ha Het Hlen.
  pose proof (AddRecord_each_ingested _ _ _ _ Ha Encoder_new_ingested)
    as (H1 & H2 & _).
  apply (CollectTransitionStatistics_front_fresh e first others Het H1);
    [|exact Hlen].
  eapply Forall_impl; [exact H2|]. cbn. intros t ->. reflexivity.
Qed.

(** ** Every node has one buffer at most *)

Lemma Encoder_new_owned : owned Encoder_new.
Proof.
  intros i j bs b Hi Hj.
  change (data_ Encoder_new)
    with (replicate kNumBufferTypes (@nil BufferWithMetadata)) in Hi.
  apply lookup_replicate in Hi as [-> _]. discriminate.
Qed.

Lemma owned_GetNode (id : NodeId) (e : Encoder) :
  owned e -> owned (GetNode id e).
Proof.
  intros H. unfold GetNode.
  destruct (message_nodes_ e !! id) eqn:E; [exact H|].
  intros i j bs b Hi Hj. cbn in Hi |- *.
  destruct (H i j bs b Hi Hj) as (node & Hn & Hw).
  exists node. split; [|exact Hw].
  rewrite lookup_insert_ne; [exact Hn|]. intros E0. congruence.
Qed.

Lemma owned_update_node (id : NodeId) (n : MessageNode) (e : Encoder) :
  owned e -> writer n = writer (node_of id e) -> owned (update_node id n e).
Proof.
  intros H Hw i j bs b Hi Hj. cbn in Hi |- *.
  destruct (H i j bs b Hi Hj) as (node & Hn & Hnw).
  destruct (decide (buffer_node_id b = id)) as [E|E].
  - exists n. rewrite E, lookup_insert_eq. split; [reflexivity|].
    rewrite Hw. unfold node_of. rewrite <- E, Hn. exact Hnw.
  - exists node. rewrite lookup_insert_ne by congruence. auto.
Qed.

Lemma owned_GetPosInTagsList (id : NodeId) (sub : Z) (e : Encoder) :
  owned e -> owned (GetPosInTagsList id sub e).2.
Proof.
  intros H. unfold GetPosInTagsList.
  destruct (_ =? kInvalidPos); cbn [snd].
  - match goal with
    | |- owned (set_tags_list _ (update_node _ ?n _)) =>
        exact (owned_update_node id n e H (eq_refl _))
    end.
  - apply owned_update_node; [exact H|reflexivity].
Qed.

Lemma owned_push_encoded_tag (t : Z) (e : Encoder) :
  owned e -> owned (push_encoded_tag t e).
Proof. intros H. exact H. Qed.

Lemma owned_set_group_stack (g : list Z) (e : Encoder) :
  owned e -> owned (set_group_stack g e).
Proof. intros H. exact H. Qed.

Lemma owned_buffer_write (id : NodeId) (t : BufferType) (src : list byte)
    (e : Encoder) :
  owned e ->
  owned (buffer_write (GetBuffer id t e).1 src (GetBuffer id t e).2).
Proof.
  intros H.
  assert (Hw : forall w e1, owned e1 -> owned (buffer_write w src e1)).
  { intros [wi wj] e1 H1 i j bs b Hi Hj. cbn in Hi |- *.
    destruct (decide (i = wi)) as [->|Hne].
    - rewrite list_lookup_alter_eq in Hi.
      destruct (data_ e1 !! wi) as [bs0|] eqn:E; [|discriminate].
      cbn in Hi. injection Hi as <-.
      destruct (decide (j = wj)) as [->|Hnj].
      + rewrite list_lookup_alter_eq in Hj.
        destruct (bs0 !! wj) as [b0|] eqn:E0; [|discriminate].
        cbn in Hj. injection Hj as <-. cbn. exact (H1 _ _ _ _ E E0).
      + rewrite list_lookup_alter_ne in Hj by congruence.
        exact (H1 _ _ _ _ E Hj).
    - rewrite list_lookup_alter_ne in Hi by congruence.
      exact (H1 _ _ _ _ Hi Hj). }
  unfold GetBuffer. destruct (writer (node_of id e)) as [w|] eqn:W;
    cbn [fst snd]; apply Hw; [exact H|].
  set (k := buffer_type_index t).
  intros i j bs b Hi Hj. cbn in Hi |- *.
  assert (Hfree : forall i' j' bs' b',
             data_ e !! i' = Some bs' -> bs' !! j' = Some b' ->
             buffer_node_id b' <> id).
  { intros i' j' bs' b' Hi' Hj' Eid.
    destruct (H _ _ _ _ Hi' Hj') as (node & Hn & Hnw).
    unfold node_of in W. rewrite <- Eid, Hn in W. cbn in W. congruence. }
  destruct (decide (i = k)) as [->|Hne].
  - assert (Hk : (k < length (data_ e))%nat).
    { apply lookup_lt_Some in Hi. rewrite length_insert in Hi. exact Hi. }
    rewrite list_lookup_insert_eq in Hi by exact Hk. injection Hi as <-.
    destruct (lookup_lt_is_Some_2 _ _ Hk) as [buffers Hb].
    rewrite Hb in Hj |- *. change (default [] (Some buffers)) with buffers
      in Hj |- *.
    apply lookup_app_Some in Hj as [Hj|[Hge Hj]].
    + destruct (H _ _ _ _ Hb Hj) as (node & Hn & Hnw).
      exists node. split; [|exact Hnw].
      rewrite lookup_insert_ne; [exact Hn|].
      intros E. exact (Hfree _ _ _ _ Hb Hj (eq_sym E)).
    + destruct (j - length buffers)%nat as [|m] eqn:M; [|discriminate].
      injection Hj as <-. cbn. rewrite lookup_insert_eq.
      eexists. split; [reflexivity|]. cbn. f_equal. f_equal. lia.
  - rewrite list_lookup_insert_ne in Hi by congruence.
    destruct (H _ _ _ _ Hi Hj) as (node & Hn & Hnw).
    exists node. split; [|exact Hnw].
    rewrite lookup_insert_ne; [exact Hn|].
    intros E. exact (Hfree _ _ _ _ Hi Hj (eq_sym E)).
Qed.

(** The calls [GetPosInTagsList] and [push_back] at the front of a
    hypothesis. *)
Ltac own_tag H Hc :=
  match type of H with
  | context [GetPosInTagsList ?id ?s ?e1] =>
      let A := fresh "A" in
      pose proof (owned_GetPosInTagsList id s e1 Hc) as A;
      clear Hc; rename A into Hc;
      destruct (GetPosInTagsList id s e1) as [? ?]; cbn [fst snd] in Hc;
      cbv beta iota zeta in H
  end.

(** The calls [GetBuffer] and [Write] at the front of a hypothesis. *)
Ltac own_write H Hc src :=
  match type of H with
  | context [GetBuffer ?id ?t ?e1] =>
      let A := fresh "A" in
      pose proof (owned_buffer_write id t src e1 Hc) as A;
      clear Hc; rename A into Hc;
      destruct (GetBuffer id t e1) as [? ?]; cbn [fst snd] in Hc;
      cbv beta iota zeta in H
  end.

Lemma AddMessage_iteration_owned
    (rec : list byte -> Z -> Z -> Encoder -> option Encoder)
    (record rest : list byte) (parent depth p' d' : Z) (e e' : Encoder) :
  (forall payload p d e0 e1,
      rec payload p d e0 = Some e1 -> owned e0 -> owned e1) ->
  AddMessage_iteration rec record parent depth e = Some (rest, p', d', e') ->
  owned e -> owned e'.
Proof.
  intros Hrec H He. unfold AddMessage_iteration in H.
  destruct (ReadVarint32 record) as [[tag r1]|] eqn:R; [|discriminate].
  pose proof (owned_GetNode (parent, tag) e He) as Hc.
  set (e1 := GetNode (parent, tag) e) in *. clearbody e1.
  destruct (land_7_cases tag) as [E|[E|[E|[E|[E|[E|[E|E]]]]]]];
    rewrite E in H; try discriminate.
  - (* kVarint *)
    destruct (CopyVarint64 r1) as [[value r2]|] eqn:C; [|discriminate].
    destruct (_ <=? kMaxVarintInline).
    + own_tag H Hc. injection H as <- <- <- <-. exact Hc.
    + own_tag H Hc. own_write H Hc (map clear_high_bit value).
      injection H as <- <- <- <-. exact Hc.
  - (* kFixed64 *)
    own_tag H Hc. own_write H Hc (take 8 r1).
    destruct (length r1 <? 8)%nat; [discriminate|].
    injection H as <- <- <- <-. exact Hc.
  - (* kLengthDelimited *)
    destruct (ReadVarint32 r1) as [[len value]|] eqn:R2; [|discriminate].
    destruct (Z.of_nat (length value) <? len); [discriminate|].
    destruct ((depth <? kMaxRecursionDepth) && negb (len =? 0)
              && IsProtoMessage (take (Z.to_nat len) value)).
    + own_tag H Hc. own_tag H Hc.
      match type of H with
      | context [rec ?pl ?p ?d ?e0] =>
          destruct (rec pl p d e0) as [e4|] eqn:Hr; [|discriminate];
          apply Hrec in Hr; [|exact Hc]
      end.
      injection H as <- <- <- <-. exact Hr.
    + own_tag H Hc.
      own_write H Hc (take (length r1 - length value + Z.to_nat len) r1).
      injection H as <- <- <- <-. exact Hc.
  - (* kStartGroup *)
    own_tag H Hc. injection H as <- <- <- <-. exact Hc.
  - (* kEndGroup *)
    destruct (group_stack_ e1) as [|back stack]; [discriminate|].
    assert (A : owned (set_group_stack stack e1)) by exact Hc.
    own_tag H A. injection H as <- <- <- <-. exact A.
  - (* kFixed32 *)
    own_tag H Hc. own_write H Hc (take 4 r1).
    destruct (length r1 <? 4)%nat; [discriminate|].
    injection H as <- <- <- <-. exact Hc.
Qed.

Lemma AddMessage_owned (fuel : nat) :
  forall (record : list byte) (parent depth : Z) (e e' : Encoder),
    AddMessage fuel record parent depth e = Some e' -> owned e -> owned e'.
Proof.
  induction fuel as [|fuel IH]; intros record parent depth e e' H He.
  - cbn [AddMessage] in H. destruct (Pull record); [discriminate|].
    injection H as <-. exact He.
  - cbn [AddMessage] in H. destruct (Pull record).
    + destruct (AddMessage_iteration (AddMessage fuel) record parent depth e)
        as [[[[r p] d] e1]|] eqn:S; [|discriminate].
      apply AddMessage_iteration_owned in S; [|exact IH|exact He].
      eapply IH; [exact H|exact S].
    + injection H as <-. exact He.
Qed.

Lemma AddRecordInternal_owned (record : list byte) (e e' : Encoder)
    (ok : bool) :
  AddRecordInternal record e = Some (ok, e') -> owned e -> owned e'.
Proof.
  intros H He. unfold AddRecordInternal in H.
  destruct (negb (healthy e)); [injection H as <- <-; exact He|].
  destruct (num_records_ e =? kMaxNumRecords);
    [injection H as <- <-; exact He|].
  destruct (_ >? _); [injection H as <- <-; exact He|].
  cbv beta iota zeta in H.
  destruct (IsProtoMessage record) eqn:P;
    match type of H with
    | context [GetNode ?id (set_counters ?a ?b e)] =>
        assert (Hc : owned (GetNode id (set_counters a b e)))
          by (apply (owned_GetNode id (set_counters a b e)); exact He)
    end.
  - own_tag H Hc.
    match type of H with
    | context [AddMessage ?f ?r ?p ?d ?e0] =>
        destruct (AddMessage f r p d e0) as [e2|] eqn:A; [|discriminate]
    end.
    injection H as <- <-.
    exact (AddMessage_owned _ _ _ _ _ _ A Hc).
  - own_tag H Hc. own_write H Hc record.
    injection H as <- <-. exact Hc.
Qed.

Lemma AddRecord_each_owned (records : list (list byte)) :
  forall (e e' : Encoder) (oks : list bool),
    AddRecord_each records e = Some (oks, e') -> owned e -> owned e'.
Proof.
  induction records as [|r records IH]; intros e e' oks H He.
  - injection H as <- <-. exact He.
  - cbn [AddRecord_each] in H.
    destruct (AddRecordInternal r e) as [[ok e1]|] eqn:A; [|discriminate].
    destruct (AddRecord_each records e1) as [[oks1 e2]|] eqn:B;
      [|discriminate].
    injection H as <- <-.
    eapply IH; [exact B|]. eapply AddRecordInternal_owned; eassumption.
Qed.

Lemma elem_of_concat {A} (x : A) (ls : list (list A)) :
  x ∈ concat ls <-> exists l, l ∈ ls /\ x ∈ l.
Proof.
  induction ls as [|l ls IH]; cbn [concat].
  - split; [intros H; inversion H|intros (l & H & _); inversion H].
  - rewrite elem_of_app, IH. split.
    + intros [H|(l' & H1 & H2)].
      * exists l. split; [apply elem_of_cons; left; reflexivity|exact H].
      * exists l'. split; [apply elem_of_cons; right; exact H1|exact H2].
    + intros (l' & H1 & H2). apply elem_of_cons in H1 as [->|H1].
      * left. exact H2.
      * right. exists l'. split; assumption.
Qed.

(** No two buffers have the same node. *)
Lemma places_NoDup (data : list (list BufferWithMetadata)) :
  (forall i j i' j' bs bs' b b',
      data !! i = Some bs -> bs !! j = Some b ->
      data !! i' = Some bs' -> bs' !! j' = Some b' ->
      buffer_node_id b = buffer_node_id b' -> i = i' /\ j = j') ->
  NoDup (map buffer_node_id (concat data)).
Proof.
  induction data as [|bs data IH]; intros H; [constructor|].
  cbn [concat]. rewrite map_app. apply NoDup_app. split; [|split].
  - apply NoDup_alt. intros j j' x Hj Hj'.
    apply list_lookup_fmap_Some in Hj as (b & -> & Hb).
    apply list_lookup_fmap_Some in Hj' as (b' & Hx & Hb').
    exact (proj2 (H 0%nat j 0%nat j' bs bs b b' eq_refl Hb eq_refl Hb' Hx)).
  - intros x Hx Hx'.
    apply list_elem_of_fmap in Hx as (b & -> & Hb).
    apply list_elem_of_fmap in Hx' as (b' & Hx' & Hb').
    apply elem_of_concat in Hb' as (bs' & Hbs' & Hb').
    apply list_elem_of_lookup in Hb as [j Hj].
    apply list_elem_of_lookup in Hb' as [j' Hj'].
    apply list_elem_of_lookup in Hbs' as [i' Hi'].
    destruct (H 0%nat j (S i') j' bs bs' b b' eq_refl Hj Hi' Hj' Hx')
      as [E _].
    discriminate.
  - apply IH. intros i j i' j' bs1 bs2 b b' Hi Hj Hi' Hj' E.
    destruct (H (S i) j (S i') j' bs1 bs2 b b' Hi Hj Hi' Hj' E) as [E1 E2].
    split; [lia|exact E2].
Qed.

Lemma owned_NoDup (e : Encoder) :
  owned e -> NoDup (map buffer_node_id (concat (data_ e))).
Proof.
  intros H. apply places_NoDup.
  intros i j i' j' bs bs' b b' Hi Hj Hi' Hj' E.
  destruct (H _ _ _ _ Hi Hj) as (n & Hn & Hw).
  destruct (H _ _ _ _ Hi' Hj') as (n' & Hn' & Hw').
  rewrite E, Hn' in Hn. injection Hn as <-. rewrite Hw' in Hw.
  injection Hw as <- <-. auto.
Qed.

Lemma insert_buffer_perm (x : BufferWithMetadata)
    (l : list BufferWithMetadata) :
  insert_buffer x l ≡ₚ x :: l.
Proof.
  induction l as [|y l IH]; cbn [insert_buffer]; [reflexivity|].
  destruct (buffer_before x y); [reflexivity|].
  rewrite IH. apply Permutation_swap.
Qed.

Lemma sort_buffers_perm (l : list BufferWithMetadata) :
  sort_buffers l ≡ₚ l.
Proof.
  unfold sort_buffers. induction l as [|x l IH]; cbn [foldr]; [reflexivity|].
  rewrite insert_buffer_perm, IH. reflexivity.
Qed.

Lemma concat_sorted_perm (data : list (list BufferWithMetadata)) :
  concat (map sort_buffers data) ≡ₚ concat data.
Proof.
  induction data as [|bs data IH]; cbn [map concat]; [reflexivity|].
  rewrite sort_buffers_perm, IH. reflexivity.
Qed.

(** [AddBuffer] for buffers of distinct nodes that have no entry in
    [buffer_pos] yet: no assertion fails. *)
Lemma add_buffers_total (buffers : list BufferWithMetadata) :
  forall (first : bool) (w : BucketWriter) (bp : gmap NodeId Z),
    NoDup (map buffer_node_id buffers) ->
    (forall b, b ∈ buffers -> bp !! buffer_node_id b = None) ->
    exists w' bp',
      add_buffers first buffers (w, bp) = Some (w', bp') /\
      forall k, bp' !! k = None <->
                bp !! k = None /\ k ∉ map buffer_node_id buffers.
Proof.
  induction buffers as [|b buffers IH]; intros first w bp Hnd Hfree.
  - exists w, bp. split; [reflexivity|]. intros k. split.
    + intros H. split; [exact H|apply not_elem_of_nil].
    + intros [H _]. exact H.
  - cbn [map] in Hnd. apply NoDup_cons in Hnd as [Hb Hnd].
    cbn [add_buffers].
    rewrite (Hfree b) by (apply elem_of_cons; left; reflexivity).
    destruct (IH false (AddBuffer first (buffer b) w)
                (<[buffer_node_id b := wrap32 (Z.of_nat (size bp))]> bp) Hnd)
      as (w' & bp' & -> & Hk).
    { intros b' Hb'. rewrite lookup_insert_ne.
      - apply Hfree. apply elem_of_cons. right. exact Hb'.
      - intros E. apply Hb. rewrite E. apply list_elem_of_fmap. eauto. }
    exists w', bp'. split; [reflexivity|]. intros k. rewrite Hk.
    cbn [map]. rewrite not_elem_of_cons.
    destruct (decide (k = buffer_node_id b)) as [->|Hne].
    + rewrite lookup_insert_eq. split; [intros [[=] _]|intros (_ & E & _)].
      congruence.
    + rewrite lookup_insert_ne by congruence. tauto.
Qed.

Lemma add_buffers_kinds_total (kinds : list (list BufferWithMetadata)) :
  forall (w : BucketWriter) (bp : gmap NodeId Z),
    NoDup (map buffer_node_id (concat kinds)) ->
    (forall b, b ∈ concat kinds -> bp !! buffer_node_id b = None) ->
    exists w' bp',
      foldl (fun acc buffers =>
               match acc with
               | None => None
               | Some acc => add_buffers true buffers acc
               end) (Some (w, bp)) kinds = Some (w', bp').
Proof.
  induction kinds as [|bs kinds IH]; intros w bp Hnd Hfree.
  - exists w, bp. reflexivity.
  - cbn [concat] in Hnd, Hfree. rewrite map_app in Hnd.
    apply NoDup_app in Hnd as (Hbs & Hdis & Hnd).
    destruct (add_buffers_total bs true w bp Hbs) as (w1 & bp1 & E & Hk).
    { intros b Hb. apply Hfree. apply elem_of_app. left. exact Hb. }
    cbn [foldl]. rewrite E. apply IH; [exact Hnd|].
    intros b Hb. apply Hk. split.
    + apply Hfree. apply elem_of_app. right. exact Hb.
    + intros Hin. apply (Hdis _ Hin). apply list_elem_of_fmap. eauto.
Qed.

(** On the encoder that records leave, no assertion of [WriteBuffers]
    fails. *)
Lemma WriteBuffers_total (e : Encoder)
    (compressor header_writer data_writer : list byte) :
  owned e ->
  exists h w bp,
    WriteBuffers e compressor header_writer data_writer = Some (h, w, bp).
Proof.
  intros H. unfold WriteBuffers.
  destruct (add_buffers_kinds_total (map sort_buffers (data_ e))
              (mkBucketWriter compressor data_writer [] []) ∅)
    as (w' & bp' & ->).
  - rewrite concat_sorted_perm. apply owned_NoDup. exact H.
  - intros b _. apply lookup_empty.
  - eexists _, _, _. reflexivity.
Qed.

(** ** The order of [std::sort] *)

Lemma buffer_before_asym (a b : BufferWithMetadata) :
  buffer_before a b = true -> buffer_before b a = false.
Proof.
  unfold buffer_before.
  repeat match goal with
         | |- context [negb (?x =? ?y)%nat] => destruct (Nat.eqb_spec x y)
         | |- context [negb (?x =? ?y)] => destruct (Z.eqb_spec x y)
         end; cbn [negb];
    rewrite ?Nat.ltb_lt, ?Nat.ltb_ge, ?Z.ltb_lt, ?Z.ltb_ge; lia.
Qed.

Lemma buffer_before_total (a b : BufferWithMetadata) :
  buffer_node_id a <> buffer_node_id b ->
  buffer_before a b = true \/ buffer_before b a = true.
Proof.
  intros Hne. unfold buffer_before.
  assert (H : (buffer_node_id a).1 <> (buffer_node_id b).1
              \/ (buffer_node_id a).2 <> (buffer_node_id b).2).
  { destruct (buffer_node_id a) as [a1 a2], (buffer_node_id b) as [b1 b2].
    cbn. destruct (Z.eq_dec a1 b1); [right|left]; congruence. }
  repeat match goal with
         | |- context [negb (?x =? ?y)%nat] => destruct (Nat.eqb_spec x y)
         | |- context [negb (?x =? ?y)] => destruct (Z.eqb_spec x y)
         end; cbn [negb];
    rewrite ?Nat.ltb_lt, ?Z.ltb_lt; lia.
Qed.

Lemma buffer_before_trans (a b c : BufferWithMetadata) :
  buffer_before a b = true -> buffer_before b c = true ->
  buffer_before a c = true.
Proof.
  unfold buffer_before.
  repeat match goal with
         | |- context [negb (?x =? ?y)%nat] => destruct (Nat.eqb_spec x y)
         | |- context [negb (?x =? ?y)] => destruct (Z.eqb_spec x y)
         end; cbn [negb];
    rewrite ?Nat.ltb_lt, ?Z.ltb_lt; lia.
Qed.

Lemma insert_buffer_in_order (x : BufferWithMetadata)
    (l : list BufferWithMetadata) :
  in_order l -> in_order (insert_buffer x l).
Proof.
  induction l as [|y l IH]; cbn [insert_buffer in_order].
  - intros _. split; [constructor|exact I].
  - intros [Hy Hl]. destruct (buffer_before x y) eqn:E; cbn [in_order].
    + split; [|split; assumption].
      constructor; [apply buffer_before_asym; exact E|].
      eapply Forall_impl; [exact Hy|]. cbn. intros z Hz.
      destruct (buffer_before z x) eqn:Ez; [|reflexivity].
      rewrite (buffer_before_trans z x y Ez E) in Hz. discriminate.
    + split; [|apply IH; exact Hl].
      apply insert_buffer_Forall; [exact E|exact Hy].
Qed.

Lemma sort_buffers_in_order (l : list BufferWithMetadata) :
  in_order (sort_buffers l).
Proof.
  unfold sort_buffers. induction l as [|x l IH]; cbn [foldr].
  - exact I.
  - apply insert_buffer_in_order. exact IH.
Qed.

Lemma NoDup_node_inj (l : list BufferWithMetadata)
    (a b : BufferWithMetadata) :
  NoDup (map buffer_node_id l) -> a ∈ l -> b ∈ l ->
  buffer_node_id a = buffer_node_id b -> a = b.
Proof.
  intros Hnd Ha Hb E.
  apply list_elem_of_lookup in Ha as [i Hi].
  apply list_elem_of_lookup in Hb as [j Hj].
  assert (Hij : i = j).
  { apply (NoDup_lookup _ i j (buffer_node_id a) Hnd).
    - rewrite list_lookup_fmap, Hi. reflexivity.
    - rewrite list_lookup_fmap, Hj, E. reflexivity. }
  subst j. congruence.
Qed.

(** Buffers of distinct nodes are in order in one way only. *)
Lemma in_order_unique (l1 : list BufferWithMetadata) :
  forall l2,
    NoDup (map buffer_node_id l1) -> l1 ≡ₚ l2 ->
    in_order l1 -> in_order l2 -> l1 = l2.
Proof.
  induction l1 as [|a l1 IH]; intros l2 Hnd Hp H1 H2.
  - symmetry. apply Permutation_nil. exact Hp.
  - destruct l2 as [|b l2].
    { symmetry in Hp. apply Permutation_nil in Hp. discriminate. }
    destruct H1 as [Ha H1]. destruct H2 as [Hb H2].
    assert (E : a = b).
    { assert (Hin_b : b ∈ a :: l1).
      { rewrite Hp. apply elem_of_cons. left. reflexivity. }
      assert (Hin_a : a ∈ b :: l2).
      { rewrite <- Hp. apply elem_of_cons. left. reflexivity. }
      destruct (decide (buffer_node_id a = buffer_node_id b)) as [E|E].
      - apply (NoDup_node_inj (a :: l1)); [exact Hnd| |exact Hin_b|exact E].
        apply elem_of_cons. left. reflexivity.
      - exfalso.
        apply elem_of_cons in Hin_b as [Eb|Hin_b];
          [subst; congruence|].
        apply elem_of_cons in Hin_a as [Ea|Hin_a];
          [subst; congruence|].
        rewrite Forall_forall in Ha, Hb.
        pose proof (Ha b Hin_b) as Hba. pose proof (Hb a Hin_a) as Hab.
        cbn in Hba, Hab.
        destruct (buffer_before_total a b E); congruence. }
    subst b. f_equal. apply IH; try assumption.
    + cbn [map] in Hnd. apply NoDup_cons in Hnd as [_ Hnd]. exact Hnd.
    + apply Permutation_cons_inv in Hp. exact Hp.
Qed.

(** The buffers of one kind are of distinct nodes, so that [std::sort]
    can leave them in the order of [sort_buffers] only. *)
Lemma sort_buffers_unique (e : Encoder)
    (buffers sorted : list BufferWithMetadata) :
  owned e -> buffers ∈ data_ e ->
  sorted ≡ₚ buffers -> in_order sorted ->
  sorted = sort_buffers buffers.
Proof.
  intros H Hin Hp Hs.
  assert (Hnd : NoDup (map buffer_node_id buffers)).
  { pose proof (owned_NoDup e H) as Hall. clear -Hin Hall.
    induction (data_ e) as [|bs data IH]; [inversion Hin|].
    cbn [concat] in Hall. rewrite map_app in Hall.
    apply NoDup_app in Hall as (Hbs & _ & Hrest).
    apply elem_of_cons in Hin as [->|Hin]; [exact Hbs|].
    apply IH; assumption. }
  apply in_order_unique.
  - rewrite Hp. exact Hnd.
  - rewrite Hp. symmetry. apply sort_buffers_perm.
  - exact Hs.
  - apply sort_buffers_in_order.
Qed.

Lemma bucket_size_of_kind (kind : list (list byte))
    (kinds : list (list (list byte))) :
  kind ∈ kinds -> bucket_size_of kind <= bucket_size_of (concat kinds).
Proof.
  induction kinds as [|k kinds IH]; intros Hin; [inversion Hin|].
  cbn [concat]. rewrite bucket_size_of_app.
  assert (0 <= bucket_size_of k) by (unfold bucket_size_of; lia).
  assert (0 <= bucket_size_of (concat kinds))
    by (unfold bucket_size_of; lia).
  apply elem_of_cons in Hin as [->|Hin]; [lia|].
  specialize (IH Hin). lia.
Qed.

(** Buffers that together stay within the limit share a bucket. *)
Lemma buckets_one_bucket (kind : list (list byte))
    (buckets : list (list (list byte))) :
  bucket_size_of kind <= bucket_size_ ->
  concat buckets = kind -> Forall bucket_ok buckets ->
  buckets_greedy buckets -> buckets = one_bucket kind.
Proof.
  intros Hsz Hc Hok Hg. destruct buckets as [|b1 [|b2 rest]].
  - cbn in Hc. subst kind. reflexivity.
  - cbn in Hc. rewrite app_nil_r in Hc. subst b1.
    apply Forall_cons in Hok as [[Hne _] _].
    destruct kind; [contradiction|reflexivity].
  - exfalso. apply Forall_cons in Hok as [_ Hok].
    apply Forall_cons in Hok as [[Hne _] _].
    destruct b2 as [|b b2]; [contradiction|].
    pose proof (Hg 0%nat b1 b b2 eq_refl eq_refl) as Hlt.
    rewrite <- Hc in Hsz. cbn [concat] in Hsz.
    rewrite !bucket_size_of_app in Hsz.
    change (b :: b2) with ([b] ++ b2) in Hsz.
    rewrite bucket_size_of_app, bucket_size_of_single in Hsz.
    assert (0 <= bucket_size_of b2) by (unfold bucket_size_of; lia).
    assert (0 <= bucket_size_of (concat rest))
      by (unfold bucket_size_of; lia).
    lia.
Qed.

(** C5, as the code has it: the limit of a bucket is [bucket_size_],
    which is the bucket size given to the constructor when the
    compression type is not [kNone] and [2^64 - 1] when it is. For the
    encoder that a sequence of records leaves, and every compression
    type, bucket size and compressor, [WriteBuffers] returns and cuts the
    buffers of every kind into buckets without splitting a buffer and
    without a bucket across two kinds. Each bucket is within
    [bucket_size_] or is one buffer that exceeds it, and a bucket of a
    kind ends only where the next buffer would cross [bucket_size_]. With
    a compression type other than [kNone] both hold for the bucket size
    that was given; with [kNone] the buffers of a kind are one bucket,
    whatever bucket size was given. The data writer holds the compressed
    buckets in order, and the two tables hold their compressed lengths
    and the lengths of the buffers. The sizes of the buffers add up to
    less than 2^64. *)
Theorem WriteBuffers_buckets (records : list (list byte)) (oks : list bool)
    (e : Encoder) (header_writer : list byte) :
  AddRecord_each records Encoder_new = Some (oks, e) ->
  bucket_size_of (concat (buffer_kinds e)) < 2 ^ 64 ->
  exists (h : list byte) (w : BucketWriter) (bp : gmap NodeId Z)
         (bucketss : list (list (list (list byte)))),
    WriteBuffers e [] header_writer [] = Some (h, w, bp) /\
    Forall2 (fun kind buckets =>
               concat buckets = kind /\ Forall bucket_ok buckets /\
               buckets_greedy buckets) (buffer_kinds e) bucketss /\
    (compression_type_ <> kNone ->
     Forall (fun buckets =>
               Forall (bucket_within bucket_size) buckets /\
               cut_at_crossing bucket_size buckets) bucketss) /\
    (compression_type_ = kNone ->
     bucketss = map one_bucket (buffer_kinds e)) /\
    bw_data_writer w =
      concat (map (fun b => compress (concat b)) (concat bucketss)) /\
    bw_bucket_lengths w =
      map (fun b => Z.of_nat (length (compress (concat b))))
        (concat bucketss) /\
    bw_buffer_lengths w =
      map (fun b => Z.of_nat (length b)) (concat (buffer_kinds e)).
Proof.
  intros Ha Hsize.
  pose proof (AddRecord_each_ingested _ _ _ _ Ha Encoder_new_ingested) as He.
  pose proof (AddRecord_each_owned _ _ _ _ Ha Encoder_new_owned) as Ho.
  destruct (WriteBuffers_total e [] header_writer [] Ho) as (h & w & bp & Hw).
  destruct (WriteBuffers_packs e header_writer h w bp Hw
              (buffer_kinds_nonempty e He) Hsize)
    as (bucketss & Hb & Hd & Hl & Hbl).
  exists h, w, bp, bucketss. split; [exact Hw|]. split; [exact Hb|].
  split; [|split; [|auto]].
  - intros Hc. assert (E : bucket_size_ = bucket_size).
    { unfold bucket_size_. destruct (compression_type_ =? kNone) eqn:C;
        [apply Z.eqb_eq in C; contradiction|reflexivity]. }
    clear -Hb E. induction Hb as [|kind buckets kinds bs (_ & H1 & H2) _ IH];
      constructor; [|exact IH].
    unfold bucket_ok, buckets_greedy in *. rewrite E in *.
    split; [exact H1|exact H2].
  - intros Hc. assert (E : bucket_size_ = uint64_max).
    { unfold bucket_size_. rewrite Hc. reflexivity. }
    assert (Hk : Forall (fun kind => bucket_size_of kind <= bucket_size_)
                   (buffer_kinds e)).
    { apply Forall_forall. intros kind Hin. rewrite E.
      pose proof (bucket_size_of_kind kind _ Hin). unfold uint64_max. lia. }
    clear -Hb Hk.
    induction Hb as [|kind buckets kinds bs (H0 & H1 & H2) _ IH];
      [reflexivity|].
    apply Forall_cons in Hk as [Hk Hks]. cbn [map]. f_equal.
    + apply buckets_one_bucket; assumption.
    + apply IH. exact Hks.
Qed.

End TransposeEncoder.

(** * Determinism *)

(** The encoder keeps the destinations of a tag in a hash map, and the
    order in which a loop over the map meets them is not specified. The
    functions above take that order as [dest_order]; here two runs are
    compared, each with an order of its own. Every loop over the
    destinations is shown to give what it gives in [key_order], the
    order of the keys. *)

(** ** The blocks of the public list *)

Lemma block_of_range (mt plb : Z) (Hmt : 0 <= mt) (p : Z) :
  plb <= p ->
  plb <= block_of mt plb p <= p /\ p <= block_of mt plb p + mt.
Proof.
  intros Hp. unfold block_of.
  pose proof (Z.mul_div_le (p - plb) (mt + 1) ltac:(lia)).
  pose proof (Z.mul_succ_div_gt (p - plb) (mt + 1) ltac:(lia)).
  pose proof (Z.div_pos (p - plb) (mt + 1) ltac:(lia) ltac:(lia)).
  nia.
Qed.

Lemma block_of_start (mt plb : Z) (Hmt : 0 <= mt) (p : Z) :
  plb <= p ->
  block_of mt plb (block_of mt plb p) = block_of mt plb p.
Proof.
  intros Hp. unfold block_of.
  replace (plb + (p - plb) / (mt + 1) * (mt + 1) - plb)
    with ((p - plb) / (mt + 1) * (mt + 1)) by lia.
  rewrite Z.div_mul by lia. reflexivity.
Qed.

Lemma block_of_in (mt plb : Z) (Hmt : 0 <= mt) (b p : Z) :
  plb <= b -> block_of mt plb b = b -> b <= p <= b + mt ->
  block_of mt plb p = b.
Proof.
  intros Hb Hbb Hp. unfold block_of in *.
  set (k := (b - plb) / (mt + 1)) in *.
  assert (E : (p - plb) / (mt + 1) = k).
  { symmetry. apply Z.div_unique with (r := p - b); lia. }
  rewrite E. exact Hbb.
Qed.

Section PublicTree.

Variables (mt plb : Z) (sm : list StateInfo).
Hypothesis Hmt : 0 <= mt.
Hypothesis Hplb : 0 <= plb.
Hypothesis Hsize : Z.of_nat (length sm) < kInvalidPos.
Hypothesis Htree : public_tree mt plb sm.

Local Notation "'N'" := (Z.of_nat (length sm)).
Local Notation "'blk'" := (block_of mt plb).
Local Notation "'src'" := (source_at sm).
Local Notation "'reach'" := (reaches mt plb sm).

Lemma source_lookup (p : Z) :
  plb <= p < N -> exists s, sm !! Z.to_nat p = Some s /\
                            canonical_source s = src p.
Proof.
  intros Hp. destruct (lookup_lt_is_Some_2 sm (Z.to_nat p) ltac:(lia))
    as [s Hs].
  exists s. split; [exact Hs|]. unfold source_at. rewrite Hs. reflexivity.
Qed.

Lemma source_root (p : Z) :
  plb <= p < N -> blk p = plb -> src p = kInvalidPos.
Proof. intros Hp Hb. exact (proj1 (Htree p Hp) Hb). Qed.

Lemma source_inner (p : Z) :
  plb <= p < N -> blk p <> plb ->
  src p = src (blk p) /\ plb <= src p < blk p /\
  exists s, sm !! Z.to_nat (src p) = Some s /\ state_base s = blk p.
Proof. intros Hp Hb. exact (proj2 (Htree p Hp) Hb). Qed.

Lemma source_valid_iff (p : Z) :
  plb <= p < N -> (src p = kInvalidPos <-> blk p = plb).
Proof.
  intros Hp. split.
  - intros Hs. destruct (Z.eq_dec (blk p) plb) as [E|E]; [exact E|].
    destruct (source_inner p Hp E) as (_ & Hr & _).
    pose proof (block_of_range mt plb Hmt p ltac:(lia)). lia.
  - apply source_root. exact Hp.
Qed.

Lemma reaches_range (b q p : Z) :
  reach b q p -> plb <= q /\ q <= p /\ p < N /\ blk q = b.
Proof.
  induction 1 as [p Hp|b q p Hp Hb _ IH].
  - repeat split; lia.
  - destruct (source_inner p Hp Hb) as (_ & Hr & _).
    pose proof (block_of_range mt plb Hmt p ltac:(lia)). lia.
Qed.

Lemma reaches_inv (b q p : Z) :
  reach b q p ->
  (b = blk p /\ q = p /\ plb <= p < N) \/
  (plb <= p < N /\ blk p <> plb /\ reach b q (src p)).
Proof. destruct 1; [left|right]; auto. Qed.

(** The blocks on the way to [p] start before the block of [p]. *)
Lemma reaches_up_lt (b q p : Z) :
  plb <= p < N -> blk p <> plb -> reach b q (src p) -> b < blk p.
Proof.
  intros Hp Hb H. apply reaches_range in H as (A1 & A2 & A3 & A4).
  destruct (source_inner p Hp Hb) as (_ & Hr & _).
  pose proof (block_of_range mt plb Hmt q A1). lia.
Qed.

Lemma reaches_unique (b q q' p : Z) : reach b q p -> reach b q' p -> q = q'.
Proof.
  intros H. revert q'. induction H as [p Hp|b q p Hp Hb H IH]; intros q' H'.
  - apply reaches_inv in H' as [(_ & -> & _)|(_ & Hb' & H')]; [reflexivity|].
    pose proof (reaches_up_lt _ _ _ Hp Hb' H'). lia.
  - apply reaches_inv in H' as [(-> & _ & _)|(_ & _ & H')].
    + pose proof (reaches_up_lt _ _ _ Hp Hb H). lia.
    + apply IH. exact H'.
Qed.

Lemma reaches_trans (b q p b' q' : Z) :
  reach b q p -> reach b' q' q -> reach b' q' p.
Proof.
  induction 1 as [p Hp|b q p Hp Hb H IH]; intros H'.
  - exact H'.
  - apply reaches_up; [exact Hp|exact Hb|]. apply IH. exact H'.
Qed.

(** The positions of a block are reached through the same states of
    the blocks above it. *)
Lemma reaches_above (b q p p' : Z) :
  reach b q p -> plb <= p' < N -> blk p' = blk p -> b <> blk p ->
  reach b q p'.
Proof.
  intros H Hp' Hb Hne.
  apply reaches_inv in H as [(-> & _ & _)|(Hp & Hb0 & H)]; [congruence|].
  apply reaches_up; [exact Hp'|congruence|].
  destruct (source_inner p Hp Hb0) as (E & _).
  destruct (source_inner p' Hp' ltac:(congruence)) as (E' & _).
  rewrite E', Hb, <- E. exact H.
Qed.

(** A block above the block of [p] is above the start of that block. *)
Lemma reaches_start (b q p : Z) :
  reach b q p -> exists q', reach b q' (blk p).
Proof.
  intros H. pose proof (reaches_range _ _ _ H) as (A1 & A2 & A3 & A4).
  pose proof (block_of_range mt plb Hmt p ltac:(lia)) as Hr.
  assert (Hs : plb <= blk p < N) by lia.
  destruct (Z.eq_dec b (blk p)) as [->|Hne].
  - exists (blk p). rewrite <- (block_of_start mt plb Hmt p) at 1 by lia.
    apply reaches_here. exact Hs.
  - exists q. eapply reaches_above; [exact H|exact Hs| |exact Hne].
    apply (block_of_start mt plb Hmt). lia.
Qed.

Lemma find_base_climbs (b0 m0 p0 : Z) (fuel : nat) :
  forall b m x,
    climbing mt plb sm b0 m0 p0 b m x ->
    (b - plb) + (x - plb) < Z.of_nat fuel ->
    exists b' m' x',
      find_base fuel mt plb sm b m x = Some (b', m', x') /\
      climbing mt plb sm b0 m0 p0 b' m' x' /\ b' <= x' <= b' + mt.
Proof.
  induction fuel as [|fuel IH]; intros b m x HJ Hfuel.
  { destruct HJ as ((Hb & _) & (Hx & _) & _). lia. }
  pose proof HJ as ((Hb & Hbb) & (Hx & Hxp) & (e & He & Hm1 & Hm2) & Hdeep).
  cbn [find_base].
  destruct (b >? x) eqn:C1.
  - (* the base moves to the block above *)
    rewrite Z.gtb_ltb in C1. apply Z.ltb_lt in C1. cbn [orb].
    assert (Hne : blk b <> plb) by lia.
    destruct (source_inner b Hb Hne) as (_ & Hr & s' & Hs' & Hsb).
    destruct (source_lookup b Hb) as (s & Hs & Hcs).
    assert (Hbi : (b =? kInvalidPos) = false) by (apply Z.eqb_neq; lia).
    rewrite Hbi, Hs, Hcs.
    assert (Hci : (src b =? kInvalidPos) = false) by (apply Z.eqb_neq; lia).
    rewrite Hci, Hs'.
    set (cs := src b) in *.
    assert (Hcs_r : plb <= cs < N) by lia.
    pose proof (block_of_range mt plb Hmt cs ltac:(lia)) as Hbr.
    assert (Hnew : climbing mt plb sm b0 m0 p0 (blk cs) (Z.min m cs) x).
    { assert (Hrb : reach (blk cs) cs b).
      { apply reaches_up; [exact Hb|exact Hne|]. apply reaches_here.
        exact Hcs_r. }
      pose proof (reaches_range _ _ _ He)
        as (E1 & E2 & E3 & E4).
      assert (Hre : reach (blk cs) cs b0).
      { eapply reaches_trans; [exact He|].
        eapply reaches_above; [exact Hrb|lia|congruence|lia]. }
      split; [split; [lia|apply (block_of_start mt plb Hmt); lia]|].
      split; [split; [exact Hx|exact Hxp]|]. split.
      - exists cs. split; [exact Hre|].
        pose proof (block_of_range mt plb Hmt e E1).
        split; [intros; lia|]. intros _.
        destruct (Z.eq_dec b b0) as [Eb|Eb].
        + rewrite (Hm1 Eb). reflexivity.
        + rewrite (Hm2 Eb). lia.
      - intros B HB0 HBp. destruct (Hdeep B HB0 HBp) as ((q & Hq) & (q' & Hq')).
        split; [|exists q'; exact Hq'].
        apply reaches_inv in Hq as [(-> & _ & _)|(_ & _ & Hq)].
        + apply reaches_range in Hq'
            as (A1 & A2 & A3 & A4).
          pose proof (block_of_range mt plb Hmt q' A1). lia.
        + eapply reaches_start; eassumption. }
    assert (Hstep : forall r, 
               find_base fuel mt plb sm (blk cs) (Z.min m cs) x = r ->
               (if source_at sm cs =? kInvalidPos
                then find_base fuel mt plb sm plb (UnsignedMin m cs) x
                else match sm !! Z.to_nat (source_at sm cs) with
                     | Some s0 =>
                         find_base fuel mt plb sm (state_base s0)
                           (UnsignedMin m cs) x
                     | None => None
                     end) = r).
    { intros r Hr'. unfold UnsignedMin.
      destruct (source_at sm cs =? kInvalidPos) eqn:Ec.
      - apply Z.eqb_eq in Ec.
        apply (source_valid_iff cs Hcs_r) in Ec.
        rewrite Ec in Hr'. exact Hr'.
      - apply Z.eqb_neq in Ec.
        assert (Hnc : blk cs <> plb).
        { intros E. apply Ec.
          apply (source_valid_iff cs Hcs_r). exact E. }
        destruct (source_inner cs Hcs_r Hnc)
          as (_ & _ & s0 & Hs0 & Hsb0).
        rewrite Hs0, Hsb0. exact Hr'. }
    destruct (IH (blk cs) (Z.min m cs) x Hnew ltac:(lia))
      as (b' & m' & x' & Hf & HJ' & Hx').
    exists b', m', x'. split; [|split; assumption].
    destruct (source_lookup cs Hcs_r) as (s1 & Hs1 & Hcs1).
    rewrite Hs1 in Hs'. injection Hs' as <-. rewrite Hcs1.
    apply Hstep. exact Hf.
  - rewrite Z.gtb_ltb in C1. apply Z.ltb_ge in C1. cbn [orb].
    destruct (x - b >? mt) eqn:C2.
    + (* the position moves to its canonical source *)
      rewrite Z.gtb_ltb in C2. apply Z.ltb_lt in C2.
      pose proof (block_of_range mt plb Hmt x ltac:(lia)) as Hxr.
      assert (Hne : blk x <> plb) by lia.
      destruct (source_inner x Hx Hne)
        as (_ & Hr & s' & Hs' & Hsb).
      destruct (source_lookup x Hx) as (s & Hs & Hcs).
      rewrite Hs, Hcs, Hs', Hsb.
      assert (Hc : (blk x <=? x) && (x - blk x <=? mt) = true).
      { apply andb_true_intro. split; apply Z.leb_le; lia. }
      rewrite Hc.
      set (cs := src x) in *.
      assert (Hcs_r : plb <= cs < N) by lia.
      assert (Hnew : climbing mt plb sm b0 m0 p0 b m cs).
      { split; [split; assumption|]. split.
        - split; [exact Hcs_r|]. eapply reaches_trans; [exact Hxp|].
          apply reaches_up; [exact Hx|exact Hne|]. apply reaches_here.
          exact Hcs_r.
        - split; [exists e; auto|].
          intros B HB0 HBp.
          destruct (Hdeep B HB0 HBp) as ((q & Hq) & (q' & Hq')).
          split; [exists q; exact Hq|].
          apply reaches_inv in Hq' as [(-> & _ & _)|(_ & _ & Hq')].
          * apply reaches_range in Hq
              as (A1 & A2 & A3 & A4).
            pose proof (block_of_range mt plb Hmt q A1). lia.
          * exists q'. exact Hq'. }
      destruct (IH b m cs Hnew ltac:(lia)) as (b' & m' & x' & Hf & HJ' & Hx').
      exists b', m', x'. split; [exact Hf|split; assumption].
    + rewrite Z.gtb_ltb in C2. apply Z.ltb_ge in C2.
      exists b, m, x. split; [reflexivity|]. split; [exact HJ|lia].
Qed.

Lemma covers_ext (S S' : list Z) (b m : Z) :
  (forall p, p ∈ S <-> p ∈ S') ->
  covers mt plb sm S b m -> covers mt plb sm S' b m.
Proof.
  intros HS (Hb & Hall & (p & Hp & Hm) & Hdeep).
  split; [exact Hb|]. split; [|split].
  - intros p' Hp'. apply Hall. apply HS. exact Hp'.
  - exists p. split; [apply HS; exact Hp|exact Hm].
  - intros B HB. apply Hdeep. intros p' Hp'. apply HB. apply HS. exact Hp'.
Qed.

Lemma covers_unique (S : list Z) (b m b' m' : Z) :
  covers mt plb sm S b m -> covers mt plb sm S b' m' -> b = b' /\ m = m'.
Proof.
  intros (Hb & Hall & (p & Hp & Hm) & Hdeep)
         (Hb' & Hall' & (p' & Hp' & Hm') & Hdeep').
  assert (Hle : forall b1 b2, (exists q, reach b1 q b2) -> b1 <= b2).
  { intros b1 b2 (q & Hq). apply reaches_range in Hq as (A1 & A2 & A3 & A4).
    pose proof (block_of_range mt plb Hmt q A1). lia. }
  assert (E : b = b').
  { assert (b <= b').
    { apply Hle. apply Hdeep'. intros x Hx.
      destruct (Hall x Hx) as (q & Hq & _). eauto. }
    assert (b' <= b).
    { apply Hle. apply Hdeep. intros x Hx.
      destruct (Hall' x Hx) as (q & Hq & _). eauto. }
    lia. }
  split; [exact E|]. subst b'.
  destruct (Hall p' Hp') as (q & Hq & Hmq).
  destruct (Hall' p Hp) as (q' & Hq' & Hmq').
  pose proof (reaches_unique _ _ _ _ Hq Hm'). 
  pose proof (reaches_unique _ _ _ _ Hq' Hm). lia.
Qed.

Lemma find_base_first (fuel : nat) (m p : Z) :
  plb <= p < N -> (2 <= fuel)%nat ->
  find_base fuel mt plb sm kInvalidPos m p = Some (blk p, m, p).
Proof.
  intros Hp Hfuel. destruct fuel as [|fuel]; [lia|].
  assert (Hf1 : (1 <= fuel)%nat) by lia. clear Hfuel.
  pose proof (block_of_range mt plb Hmt p ltac:(lia)) as Hr.
  assert (Hexit : forall fuel', 
             find_base (S fuel') mt plb sm (blk p) m p = Some (blk p, m, p)).
  { intros fuel'. cbn [find_base].
    destruct (blk p >? p) eqn:C1;
      [rewrite Z.gtb_ltb in C1; apply Z.ltb_lt in C1; lia|].
    destruct (p - blk p >? mt) eqn:C2;
      [rewrite Z.gtb_ltb in C2; apply Z.ltb_lt in C2; lia|].
    reflexivity. }
  cbn [find_base].
  destruct (kInvalidPos >? p) eqn:C1.
  2:{ rewrite Z.gtb_ltb in C1. apply Z.ltb_ge in C1. lia. }
  cbn [orb]. change (kInvalidPos =? kInvalidPos) with true. cbv iota.
  destruct (source_lookup p Hp) as (s & Hs & Hcs). rewrite Hs, Hcs.
  destruct (src p =? kInvalidPos) eqn:Ec.
  - apply Z.eqb_eq in Ec. apply (source_valid_iff p Hp) in Ec.
    destruct fuel as [|fuel]; [lia|].
    pose proof (Hexit fuel) as Hx. rewrite Ec in Hx at 1. exact Hx.
  - apply Z.eqb_neq in Ec.
    assert (Hne : blk p <> plb).
    { intros E. apply Ec. apply (source_valid_iff p Hp). exact E. }
    destruct (source_inner p Hp Hne) as (_ & _ & s0 & Hs0 & Hsb0).
    rewrite Hs0, Hsb0. destruct fuel as [|fuel]; [lia|]. apply Hexit.
Qed.

Lemma covers_first (p : Z) : plb <= p < N -> covers mt plb sm [p] (blk p) p.
Proof.
  intros Hp. pose proof (block_of_range mt plb Hmt p ltac:(lia)) as Hr.
  split; [split; [lia|apply (block_of_start mt plb Hmt); lia]|]. split; [|split].
  - intros x Hx. apply list_elem_of_singleton in Hx as ->.
    exists p. split; [apply reaches_here; exact Hp|lia].
  - exists p. split; [apply list_elem_of_singleton; reflexivity|].
    apply reaches_here. exact Hp.
  - intros B HB. destruct (HB p) as (q & Hq).
    + apply list_elem_of_singleton. reflexivity.
    + eapply reaches_start. exact Hq.
Qed.

Lemma covers_step (S : list Z) (b m p0 : Z) (fuel : nat) :
  covers mt plb sm S b m -> plb <= p0 < N -> 2 * N + 2 <= Z.of_nat fuel ->
  exists b' m' x',
    find_base fuel mt plb sm b m p0 = Some (b', m', x') /\
    covers mt plb sm (p0 :: S) b' (Z.min m' x').
Proof.
  intros (Hb & Hall & (pm & Hpm & Hm) & Hdeep) Hp0 Hfuel.
  assert (Hstart : climbing mt plb sm b m p0 b m p0).
  { split; [exact Hb|]. split; [split; [exact Hp0|]|split].
    - apply reaches_here. exact Hp0.
    - exists b. split; [|split; [auto|congruence]].
      rewrite <- (proj2 Hb) at 1. apply reaches_here. exact (proj1 Hb).
    - intros B HB HB'. split; assumption. }
  destruct (find_base_climbs b m p0 fuel b m p0 Hstart ltac:(lia))
    as (b' & m' & x' & Hf & HJ & Hx').
  exists b', m', x'. split; [exact Hf|].
  destruct HJ as ((Hb' & Hbb') & (Hx & Hxp) & (e & He & Hm1 & Hm2) & Hdeep').
  assert (Hxb : blk x' = b') by (apply (block_of_in mt plb Hmt); [lia|exact Hbb'|exact Hx']).
  rewrite Hxb in Hxp.
  pose proof (reaches_range _ _ _ Hm) as (M1 & M2 & M3 & M4).
  pose proof (block_of_range mt plb Hmt m M1) as Hmr.
  (* the states entered in the new block on the way to the old positions *)
  assert (Hold : forall p, p ∈ S -> exists q, reach b' q p /\ m' <= q /\
                                              (b' <> b -> q = e /\ m' = e)).
  { intros p Hp. destruct (Hall p Hp) as (q & Hq & Hmq).
    destruct (Z.eq_dec b' b) as [->|Hne].
    - exists q. rewrite (Hm1 eq_refl). split; [exact Hq|].
      split; [exact Hmq|congruence].
    - exists e.
      pose proof (reaches_range _ _ _ Hq) as (Q1 & Q2 & Q3 & Q4).
      pose proof (reaches_range _ _ _ He) as (E1 & E2 & E3 & E4).
      assert (Hqe : reach b' e q).
      { eapply reaches_above; [exact He|lia| |lia].
        rewrite Q4. symmetry. exact (proj2 Hb). }
      split; [eapply reaches_trans; eassumption|].
      rewrite (Hm2 Hne).
      pose proof (block_of_range mt plb Hmt e E1).
      assert (e < b).
      { destruct Hb as [Hbr Hbb].
        apply reaches_inv in He as [(Eb & _ & _)|(_ & Hnb & He)].
        - congruence.
        - apply reaches_range in He as (A1 & A2 & A3 & A4).
          destruct (source_inner b Hbr Hnb) as (_ & Hr & _). lia. }
      split; [lia|]. intros _. split; [reflexivity|lia]. }
  split; [split; assumption|]. split; [|split].
  - intros p Hp. apply elem_of_cons in Hp as [->|Hp].
    + exists x'. split; [exact Hxp|lia].
    + destruct (Hold p Hp) as (q & Hq & Hmq & _). exists q.
      split; [exact Hq|lia].
  - destruct (Z.le_gt_cases m' x') as [Hle|Hgt].
    + rewrite Z.min_l by exact Hle.
      exists pm. split; [apply elem_of_cons; right; exact Hpm|].
      destruct (Hold pm Hpm) as (q & Hq & Hmq & Hlift).
      destruct (Z.eq_dec b' b) as [->|Hne].
      * rewrite (Hm1 eq_refl). exact Hm.
      * destruct (Hlift Hne) as [-> ->]. exact Hq.
    + rewrite Z.min_r by lia.
      exists p0. split; [apply elem_of_cons; left; reflexivity|exact Hxp].
  - intros B HB.
    assert (HB0 : exists q, reach B q b).
    { apply Hdeep. intros p Hp. apply HB. apply elem_of_cons. right. exact Hp. }
    assert (HBp : exists q, reach B q p0).
    { apply HB. apply elem_of_cons. left. reflexivity. }
    exact (proj1 (Hdeep' B HB0 HBp)).
Qed.

Variable tags : list EncodedTagInfo.
Hypothesis Htags :
  forall i, state_machine_pos (tag_at tags i) = kInvalidPos \/
            plb <= state_machine_pos (tag_at tags i) < N.

Lemma scan_step_None (l : list (Z * DestInfo)) :
  foldl (scan_step mt plb sm tags) None l = None.
Proof. induction l as [|d l IH]; [reflexivity|exact IH]. Qed.

Lemma public_dests_cons (d : Z * DestInfo) (l : list (Z * DestInfo)) :
  public_dests tags (d :: l) =
  if decide (pos d.2 = kInvalidPos)
  then state_machine_pos (tag_at tags d.1) :: public_dests tags l
  else public_dests tags l.
Proof.
  unfold public_dests. rewrite filter_cons.
  destruct (decide (pos d.2 = kInvalidPos)); reflexivity.
Qed.

(** What the loop leaves: nothing when a destination has no state in
    the public list; its start when no destination is looked for; the
    block and the least state for the destinations otherwise. *)
Lemma scan_fold (l : list (Z * DestInfo)) :
  forall (acc : option (Z * Z)) (S : list Z),
    (acc = Some (kInvalidPos, kInvalidPos) /\ S = []) \/
    (exists b m, acc = Some (b, m) /\ covers mt plb sm S b m) ->
    ((kInvalidPos ∈ public_dests tags l) /\
     foldl (scan_step mt plb sm tags) acc l = None) \/
    ((kInvalidPos ∉ public_dests tags l) /\
     ((public_dests tags l = [] /\
       foldl (scan_step mt plb sm tags) acc l = acc) \/
      (exists b m,
          foldl (scan_step mt plb sm tags) acc l = Some (b, m) /\
          covers mt plb sm (public_dests tags l ++ S) b m))).
Proof.
  induction l as [|[dest info] l IH]; intros acc S Hacc.
  - right. split; [apply not_elem_of_nil|]. left. split; reflexivity.
  - rewrite public_dests_cons. cbn [fst snd foldl].
    assert (Hfuel : 2 * N + 2 <= Z.of_nat (2 * length sm + 2)) by lia.
    destruct (decide (pos info = kInvalidPos)) as [Hi|Hi].
    + (* a destination in the public list *)
      set (p := state_machine_pos (tag_at tags dest)).
      assert (Hstep : scan_step mt plb sm tags acc (dest, info) =
                      match acc with
                      | None => None
                      | Some (base, min_pos) =>
                          if p =? kInvalidPos then None
                          else
                            match find_base (2 * length sm + 2) mt plb sm
                                    base min_pos p with
                            | None => None
                            | Some (base, min_pos, p) =>
                                Some (base, UnsignedMin min_pos p)
                            end
                      end).
      { unfold scan_step. destruct acc as [[b m]|]; [|reflexivity].
        rewrite Hi. reflexivity. }
      destruct (Htags dest) as [Hp|Hp]; fold p in Hp.
      * left. split; [rewrite <- Hp; apply elem_of_cons; left; reflexivity|].
        rewrite Hstep.
        destruct Hacc as [[-> _]|(b & m & -> & _)];
          rewrite Hp; apply scan_step_None.
      * assert (Hpi : (p =? kInvalidPos) = false) by (apply Z.eqb_neq; lia).
        assert (Hnext : exists b m,
                   scan_step mt plb sm tags acc (dest, info) = Some (b, m)
                   /\ covers mt plb sm (p :: S) b m).
        { rewrite Hstep. destruct Hacc as [[-> ->]|(b & m & -> & Hc)];
            rewrite Hpi.
          - rewrite find_base_first by (exact Hp || lia).
            exists (blk p), p. split.
            + unfold UnsignedMin. rewrite Z.min_r by lia. reflexivity.
            + apply covers_first. exact Hp.
          - destruct (covers_step S b m p _ Hc Hp Hfuel)
              as (b' & m' & x' & -> & Hc').
            exists b', (Z.min m' x'). split; [reflexivity|exact Hc']. }
        destruct Hnext as (b & m & Hs & Hc).
        destruct (IH (scan_step mt plb sm tags acc (dest, info)) (p :: S)) as
          [[Hin Hf]|[Hnin [[Hnil Hf]|(b' & m' & Hf & Hc')]]].
        -- right. exists b, m. split; assumption.
        -- left. split; [apply elem_of_cons; right; exact Hin|exact Hf].
        -- right. split.
           { intros Hin. apply elem_of_cons in Hin as [Hin|Hin];
               [lia|contradiction]. }
           right. exists b, m. rewrite Hf, Hs, Hnil. split; [reflexivity|].
           exact Hc.
        -- right. split.
           { intros Hin. apply elem_of_cons in Hin as [Hin|Hin];
               [lia|contradiction]. }
           right. exists b', m'. split; [exact Hf|].
           eapply covers_ext; [|exact Hc']. intros x.
           rewrite ?elem_of_app, ?elem_of_cons, ?elem_of_app. tauto.
    + (* a destination in the private list *)
      assert (Hstep : scan_step mt plb sm tags acc (dest, info) = acc).
      { unfold scan_step. destruct acc as [[b m]|]; [|reflexivity].
        apply Z.eqb_neq in Hi. rewrite Hi. reflexivity. }
      rewrite Hstep. apply IH. exact Hacc.
Qed.

Lemma scan_fold_perm (l1 l2 : list (Z * DestInfo)) :
  l1 ≡ₚ l2 ->
  foldl (scan_step mt plb sm tags) (Some (kInvalidPos, kInvalidPos)) l1 =
  foldl (scan_step mt plb sm tags) (Some (kInvalidPos, kInvalidPos)) l2.
Proof.
  intros Hperm.
  assert (Hp : public_dests tags l1 ≡ₚ public_dests tags l2).
  { unfold public_dests. rewrite Hperm. reflexivity. }
  destruct (scan_fold l1 (Some (kInvalidPos, kInvalidPos)) [])
    as [[Hin1 ->]|[Hnin1 H1]]; [left; auto| |];
    (destruct (scan_fold l2 (Some (kInvalidPos, kInvalidPos)) [])
      as [[Hin2 ->]|[Hnin2 H2]]; [left; auto| |]).
  - reflexivity.
  - rewrite Hp in Hin1. contradiction.
  - rewrite <- Hp in Hin2. contradiction.
  - destruct H1 as [[Hn1 ->]|(b1 & m1 & -> & Hc1)];
      destruct H2 as [[Hn2 ->]|(b2 & m2 & -> & Hc2)].
    + reflexivity.
    + rewrite Hn1 in Hp. apply Permutation_nil in Hp.
      rewrite Hp in Hc2. destruct Hc2 as (_ & _ & (p & Hp' & _) & _).
      apply elem_of_nil in Hp'. contradiction.
    + rewrite Hn2 in Hp. symmetry in Hp. apply Permutation_nil in Hp.
      rewrite Hp in Hc1. destruct Hc1 as (_ & _ & (p & Hp' & _) & _).
      apply elem_of_nil in Hp'. contradiction.
    + assert (Hc2' : covers mt plb sm (public_dests tags l1 ++ []) b2 m2).
      { eapply covers_ext; [|exact Hc2]. intros x.
        rewrite !elem_of_app. rewrite Hp. tauto. }
      destruct (covers_unique _ _ _ _ _ Hc1 Hc2') as [-> ->]. reflexivity.
Qed.

End PublicTree.

Lemma scan_destinations_fold (order : Z -> gmap Z DestInfo -> list (Z * DestInfo))
    (mt plb : Z) (sm : list StateInfo) (tags : list EncodedTagInfo)
    (origin : Z) :
  scan_destinations order mt plb sm tags origin =
  foldl (scan_step mt plb sm tags) (Some (kInvalidPos, kInvalidPos))
    (order origin (dest_info (tag_at tags origin))).
Proof. reflexivity. Qed.

(** On a well-formed public list, the loop over the destinations of a
    tag gives the same base and least position in whatever order the
    destinations are met. *)
Lemma scan_destinations_order
    (order : Z -> gmap Z DestInfo -> list (Z * DestInfo))
    (mt plb : Z) (sm : list StateInfo) (tags : list EncodedTagInfo)
    (origin : Z) :
  (forall i d, order i d ≡ₚ map_to_list d) ->
  0 <= mt -> 0 <= plb -> Z.of_nat (length sm) < kInvalidPos ->
  public_tree mt plb sm ->
  (forall i, state_machine_pos (tag_at tags i) = kInvalidPos \/
             plb <= state_machine_pos (tag_at tags i)
               < Z.of_nat (length sm)) ->
  scan_destinations order mt plb sm tags origin =
  scan_destinations key_order mt plb sm tags origin.
Proof.
  intros Hperm Hmt Hplb Hsize Htree Htags.
  rewrite !scan_destinations_fold.
  apply scan_fold_perm; try assumption. apply Hperm.
Qed.

(** ** The layout of the public list gives a tree of blocks *)

Lemma source_at_insert_eq (sm : list StateInfo) (p : Z) (s : StateInfo) :
  0 <= p < Z.of_nat (length sm) ->
  source_at (<[Z.to_nat p := s]> sm) p = canonical_source s.
Proof.
  intros Hp. unfold source_at.
  rewrite list_lookup_insert_eq by lia. reflexivity.
Qed.

Lemma source_at_insert_ne (sm : list StateInfo) (p q : Z) (s : StateInfo) :
  0 <= p -> 0 <= q -> p <> q ->
  source_at (<[Z.to_nat p := s]> sm) q = source_at sm q.
Proof.
  intros Hp Hq Hne. unfold source_at.
  rewrite list_lookup_insert_ne by lia. reflexivity.
Qed.

(** What the loop that sets the canonical sources of a block does to a
    state. *)
Lemma set_canonical_sources_loop_lookup (n : nat) :
  forall (a : nat) (base prev : Z) (sm : list StateInfo) (i : nat),
    0 <= base -> base + Z.of_nat a + Z.of_nat n <= 2 ^ 32 ->
    set_canonical_sources_loop (seq a n) base prev sm !! i =
    if decide (base + Z.of_nat a <= Z.of_nat i
               /\ Z.of_nat i < base + Z.of_nat a + Z.of_nat n)
    then (fun s => mkStateInfo (etag_index s) (state_base s) prev)
           <$> sm !! i
    else sm !! i.
Proof.
  induction n as [|n IH]; intros a base prev sm i Hb Hn.
  - cbn [seq set_canonical_sources_loop].
    destruct (decide _) as [H|H]; [lia|reflexivity].
  - cbn [seq set_canonical_sources_loop].
    rewrite (wrap32_small (Z.of_nat a + base)) by lia.
    destruct (Z.of_nat a + base >=? Z.of_nat (length sm)) eqn:E.
    + rewrite Z.geb_leb in E. apply Z.leb_le in E.
      destruct (decide _) as [H|H]; [|reflexivity].
      rewrite (lookup_ge_None_2 sm i) by lia. reflexivity.
    + rewrite Z.geb_leb in E. apply Z.leb_gt in E.
      rewrite IH by lia.
      destruct (decide (Z.of_nat i = base + Z.of_nat a)) as [Ei|Ei].
      * assert (Hi : i = Z.to_nat (Z.of_nat a + base)) by lia.
        rewrite <- Hi. rewrite list_lookup_alter_eq.
        destruct (decide _) as [H|H]; [lia|].
        destruct (decide _) as [H'|H']; [reflexivity|lia].
      * rewrite list_lookup_alter_ne by lia.
        destruct (decide _) as [H|H]; destruct (decide _) as [H'|H'];
          try reflexivity; lia.
Qed.

Lemma set_canonical_sources_lookup (mt base prev : Z) (sm : list StateInfo)
    (i : nat) :
  0 <= mt -> 0 <= base -> base + mt + 1 <= 2 ^ 32 ->
  set_canonical_sources mt base prev sm !! i =
  if decide (base <= Z.of_nat i <= base + mt)
  then (fun s => mkStateInfo (etag_index s) (state_base s) prev) <$> sm !! i
  else sm !! i.
Proof.
  intros Hmt Hb Hn. unfold set_canonical_sources.
  rewrite set_canonical_sources_loop_lookup by lia.
  destruct (decide _) as [H|H]; destruct (decide _) as [H'|H'];
    try reflexivity; lia.
Qed.

Lemma set_canonical_sources_source (mt base prev : Z) (sm : list StateInfo)
    (p : Z) :
  0 <= mt -> 0 <= base -> base + mt + 1 <= 2 ^ 32 -> 0 <= p ->
  source_at (set_canonical_sources mt base prev sm) p =
  if decide (base <= p <= base + mt /\ p < Z.of_nat (length sm))
  then prev else source_at sm p.
Proof.
  intros Hmt Hb Hn Hp. unfold source_at.
  rewrite set_canonical_sources_lookup by lia.
  destruct (decide (base <= Z.of_nat (Z.to_nat p) <= base + mt)) as [H|H].
  - destruct (sm !! Z.to_nat p) as [s|] eqn:E; cbn.
    + apply lookup_lt_Some in E.
      destruct (decide _) as [H'|H']; [reflexivity|lia].
    + apply lookup_ge_None_1 in E.
      destruct (decide _) as [H'|H']; [lia|reflexivity].
  - destruct (decide _) as [H'|H']; [lia|reflexivity].
Qed.

Lemma set_canonical_sources_base (mt base prev : Z) (sm : list StateInfo)
    (i : nat) (s : StateInfo) :
  0 <= mt -> 0 <= base -> base + mt + 1 <= 2 ^ 32 ->
  sm !! i = Some s ->
  exists s', set_canonical_sources mt base prev sm !! i = Some s' /\
             state_base s' = state_base s.
Proof.
  intros Hmt Hb Hn Hs. rewrite set_canonical_sources_lookup by lia.
  rewrite Hs. destruct (decide _); cbn; eauto.
Qed.

Lemma laid_place_top (mt plb nt T ce : Z) (l : Layout)
    (top : PriorityQueueEntry) (q : list PriorityQueueEntry) :
  0 <= mt -> 0 <= plb -> nt + mt + 1 <= 2 ^ 32 -> nt < kInvalidPos ->
  laid mt plb nt T ce l -> l_tag_priority l = top :: q ->
  plb < l_prev_state l ->
  exists l',
    place_top mt None l = Some l' /\ laid mt plb nt T ce l' /\
    l_prev_state l' = l_prev_state l - 1 /\ l_tag_priority l' = q /\
    l_noop_base l' = l_noop_base l.
Proof.
  intros Hmt Hplb Hnt Hinv Hl Hq Hprev.
  destruct Hl as ((Hlen & HT & Hpr & Hce) & Hblocks & Hcur & Hcover & Hnb
                  & Hnd & Hqb & Htags).
  rewrite Hq in *. cbn [map] in Hnd. apply NoDup_cons in Hnd as [Htop Hnd].
  unfold place_top. rewrite Hq.
  rewrite (wrap32_small (l_prev_state l - 1)) by lia.
  set (prev' := l_prev_state l - 1) in *.
  destruct (prev' >=? Z.of_nat (length (l_state_machine l))) eqn:E;
    [rewrite Z.geb_leb in E; apply Z.leb_le in E; lia|]. clear E.
  rewrite HT.
  pose proof (Hqb top ltac:(apply elem_of_cons; left; reflexivity)) as Hidx.
  assert (Hput : forall s p, 0 <= p ->
             source_at (<[Z.to_nat prev' := s]> (l_state_machine l)) p =
             if decide (p = prev') then canonical_source s
             else source_at (l_state_machine l) p).
  { intros s p Hp. destruct (decide (p = prev')) as [->|Hne].
    - apply source_at_insert_eq. lia.
    - apply source_at_insert_ne; lia. }
  assert (Hqtail : forall x, x ∈ q ->
             0 <= dest_index x < T + Z.of_nat (length (l_noop_base l))).
  { intros x Hx. apply Hqb. apply elem_of_cons. right. exact Hx. }
  destruct (dest_index top >=? T) eqn:Ei.
  - (* the NoOp state of a block *)
    rewrite Z.geb_leb in Ei. apply Z.leb_le in Ei.
    set (i := Z.to_nat (dest_index top - T)).
    assert (Hi : (i < length (l_noop_base l))%nat) by lia.
    destruct (lookup_lt_is_Some_2 _ _ Hi) as [b Hb]. rewrite Hb.
    eexists. split; [reflexivity|].
    split; [|cbn; auto].
    destruct (Hblocks i b Hb) as (Bb & Br & Bu & Bp & Bc).
    set (sm' := set_canonical_sources mt b prev'
                  (<[Z.to_nat prev' := StateInfo_new kInvalidPos b]>
                     (l_state_machine l))).
    assert (Hsrc : forall p, 0 <= p ->
               source_at sm' p =
               if decide (b <= p <= b + mt /\ p < nt) then prev'
               else if decide (p = prev') then kInvalidPos
                    else source_at (l_state_machine l) p).
    { intros p Hp. unfold sm'. rewrite set_canonical_sources_source by lia.
      rewrite length_insert, Hlen. destruct (decide _); [reflexivity|].
      rewrite Hput by exact Hp. reflexivity. }
    assert (Hbase : forall p s, 0 <= p -> p <> prev' ->
               l_state_machine l !! Z.to_nat p = Some s ->
               exists s', sm' !! Z.to_nat p = Some s' /\
                          state_base s' = state_base s).
    { intros p s Hp Hne Hs. unfold sm'.
      apply set_canonical_sources_base; [lia|lia|lia|].
      rewrite list_lookup_insert_ne by lia. exact Hs. }
    unfold laid.
    cbn [l_state_machine l_prev_state l_noop_base l_tag_priority l_tags_list].
    fold sm'.
    split; [|split; [|split; [|split; [|split; [|split; [|split]]]]]].
    + unfold sm'. rewrite set_canonical_sources_length, length_insert. lia.
    + intros i' b' Hb'.
      destruct (Hblocks i' b' Hb') as (Bb' & Br' & Bu' & Bp' & Bc').
      split; [exact Bb'|]. split; [exact Br'|].
      destruct (Z.eq_dec b' b) as [->|Hne].
      * (* the block of the NoOp state *)
        assert (i' = i) as -> by exact (NoDup_lookup _ _ _ _ Hnb Hb' Hb).
        assert (Hsb : source_at sm' b = prev').
        { rewrite Hsrc by lia. destruct (decide _) as [H|H]; [reflexivity|lia]. }
        rewrite Hsb. split; [|split].
        -- intros p Hp Hpn. rewrite Hsrc by lia.
           destruct (decide _) as [H|H]; [reflexivity|lia].
        -- intros H. lia.
        -- intros _. split; [lia|]. split.
           ++ unfold sm'.
              destruct (set_canonical_sources_base mt b prev'
                          (<[Z.to_nat prev' := StateInfo_new kInvalidPos b]>
                             (l_state_machine l)) (Z.to_nat prev')
                          (StateInfo_new kInvalidPos b))
                as (s' & Hs' & Hsb'); [lia|lia|lia| |].
              { apply list_lookup_insert_eq. lia. }
              exists s'. split; [exact Hs'|exact Hsb'].
           ++ replace (T + Z.of_nat i) with (dest_index top) by lia.
              exact Htop.
      * (* another block *)
        assert (Hdisj : forall p, b' <= p <= b' + mt -> ~ (b <= p <= b + mt)).
        { intros p Hp1 Hp2. apply Hne.
          rewrite <- (block_of_in mt plb Hmt b' p) by (lia || assumption).
          apply (block_of_in mt plb Hmt b p); (lia || assumption). }
        assert (Hsame : forall p, b' <= p <= b' + mt ->
                   source_at sm' p = source_at (l_state_machine l) p).
        { intros p Hp. rewrite Hsrc by lia.
          destruct (decide _) as [H|H]; [exfalso; apply (Hdisj p Hp); lia|].
          destruct (decide _) as [H'|H']; [lia|reflexivity]. }
        rewrite (Hsame b') by lia. split; [|split].
        -- intros p Hp Hpn. rewrite (Hsame p) by lia. apply Bu'; assumption.
        -- intros Hs. specialize (Bp' Hs). cbn [map] in Bp'.
           apply elem_of_cons in Bp' as [Bp'|Bp']; [|exact Bp'].
           exfalso. apply Hne.
           assert (i' = i) as -> by lia. congruence.
        -- intros Hs. destruct (Bc' Hs) as (C1 & (s & Hs1 & Hs2) & C3).
           split; [lia|]. split.
           ++ destruct (Hbase (source_at (l_state_machine l) b') s
                          ltac:(lia) ltac:(lia) Hs1) as (s' & A & B).
              exists s'. split; [exact A|congruence].
           ++ intros Hin. apply C3. cbn [map]. apply elem_of_cons. right.
              exact Hin.
    + intros p Hp. rewrite Hsrc by lia.
      destruct (decide _) as [H|H]; [lia|].
      destruct (decide _) as [H'|H']; [reflexivity|]. apply Hcur. lia.
    + exact Hcover.
    + exact Hnb.
    + exact Hnd.
    + exact Hqtail.
    + intros j. destruct (Htags j) as [H|H]; [left; exact H|right; lia].
  - (* the state of a tag *)
    rewrite Z.geb_leb in Ei. apply Z.leb_gt in Ei.
    eexists. split; [reflexivity|].
    split; [|cbn; auto].
    set (sm' := <[Z.to_nat prev' := StateInfo_new (dest_index top) kInvalidPos]>
                  (l_state_machine l)).
    assert (Hsrc : forall p, 0 <= p ->
               source_at sm' p =
               if decide (p = prev') then kInvalidPos
               else source_at (l_state_machine l) p).
    { intros p Hp. unfold sm'. rewrite Hput by exact Hp. reflexivity. }
    unfold laid.
    cbn [l_state_machine l_prev_state l_noop_base l_tag_priority l_tags_list].
    fold sm'.
    split; [|split; [|split; [|split; [|split; [|split; [|split]]]]]].
    + unfold sm'. rewrite length_insert, update_tag_length. lia.
    + intros i' b' Hb'.
      destruct (Hblocks i' b' Hb') as (Bb' & Br' & Bu' & Bp' & Bc').
      split; [exact Bb'|]. split; [exact Br'|].
      assert (Hsame : forall p, b' <= p ->
                 source_at sm' p = source_at (l_state_machine l) p).
      { intros p Hp. rewrite Hsrc by lia.
        destruct (decide _) as [H'|H']; [lia|reflexivity]. }
      rewrite (Hsame b') by lia. split; [|split].
      * intros p Hp Hpn. rewrite (Hsame p) by lia. apply Bu'; assumption.
      * intros Hs. specialize (Bp' Hs). cbn [map] in Bp'.
        apply elem_of_cons in Bp' as [Bp'|Bp']; [lia|exact Bp'].
      * intros Hs. destruct (Bc' Hs) as (C1 & (s & Hs1 & Hs2) & C3).
        split; [lia|]. split.
        -- exists s. split; [|exact Hs2]. unfold sm'.
           rewrite list_lookup_insert_ne by lia. exact Hs1.
        -- intros Hin. apply C3. cbn [map]. apply elem_of_cons. right.
           exact Hin.
    + intros p Hp. rewrite Hsrc by lia.
      destruct (decide _) as [H'|H']; [reflexivity|]. apply Hcur. lia.
    + exact Hcover.
    + exact Hnb.
    + exact Hnd.
    + exact Hqtail.
    + intros j.
      destruct (decide (Z.to_nat j = Z.to_nat (dest_index top))) as [Ej|Ej].
      * right. unfold tag_at, update_tag. rewrite Ej.
        rewrite list_lookup_alter_eq.
        destruct (lookup_lt_is_Some_2 (l_tags_list l)
                    (Z.to_nat (dest_index top)) ltac:(lia)) as [t Ht].
        rewrite Ht. cbn. lia.
      * unfold tag_at, update_tag.
        rewrite list_lookup_alter_ne by congruence.
        destruct (Htags j) as [H|H]; [left; exact H|right].
        unfold tag_at in H. lia.
Qed.

Lemma laid_weight (mt plb nt T ce : Z) (l : Layout) (w : Z) :
  laid mt plb nt T ce l ->
  laid mt plb nt T ce
    (mkLayout (l_state_machine l) (l_tags_list l) (l_public_list_noops l)
       (l_tag_priority l) (l_noop_base l) (l_prev_state l) w).
Proof. intros H. exact H. Qed.

Lemma laid_place_block (mt plb nt T ce : Z) (n : nat) :
  0 <= mt -> 0 <= plb -> nt + mt + 1 <= 2 ^ 32 -> nt < kInvalidPos ->
  forall l : Layout,
    laid mt plb nt T ce l -> (n <= length (l_tag_priority l))%nat ->
    plb + Z.of_nat n <= l_prev_state l ->
    exists l',
      place_block mt None n l = Some l' /\ laid mt plb nt T ce l' /\
      l_prev_state l' = l_prev_state l - Z.of_nat n /\
      l_tag_priority l' = drop n (l_tag_priority l) /\
      l_noop_base l' = l_noop_base l.
Proof.
  intros Hmt Hplb Hnt Hinv. induction n as [|n IH]; intros l Hl Hn Hp.
  - exists l. cbn [place_block drop]. split; [reflexivity|].
    split; [exact Hl|]. split; [lia|]. split; reflexivity.
  - destruct (l_tag_priority l) as [|top q] eqn:Q; [cbn in Hn; lia|].
    destruct (laid_place_top mt plb nt T ce l top q Hmt Hplb Hnt Hinv Hl Q
                ltac:(lia)) as (l1 & H1 & L1 & P1 & Q1 & N1).
    cbn [place_block]. rewrite H1.
    destruct (IH l1 L1) as (l2 & H2 & L2 & P2 & Q2 & N2).
    { rewrite Q1. cbn in Hn. lia. }
    { rewrite P1. lia. }
    exists l2. split; [exact H2|]. split; [exact L2|].
    split; [lia|]. split; [|congruence].
    rewrite Q2, Q1. reflexivity.
Qed.

(** The end of a block: its NoOp state joins the queue. *)
Lemma laid_close (mt plb nt T ce w w' : Z) (l : Layout) :
  0 <= mt -> 0 <= plb ->
  laid mt plb nt T ce l ->
  l_prev_state l < ce -> ce - l_prev_state l <= mt + 1 ->
  (ce = nt \/ ce = l_prev_state l + mt + 1) ->
  plb < l_prev_state l ->
  block_of mt plb (l_prev_state l) = l_prev_state l ->
  T + Z.of_nat (length (l_noop_base l)) < 2 ^ 32 ->
  laid mt plb nt T (l_prev_state l)
    (mkLayout (l_state_machine l) (l_tags_list l) (l_public_list_noops l)
       (pq_push
          (mkPriorityQueueEntry
             (wrap32 (Z.of_nat (length (l_tags_list l))
                      + Z.of_nat (length (l_noop_base l)))) w)
          (l_tag_priority l))
       (l_noop_base l ++ [l_prev_state l]) (l_prev_state l) w').
Proof.
  intros Hmt Hplb Hl Hlt Hsz Hfull Hprev Hblk Hbound.
  destruct Hl as ((Hlen & HT & Hpr & Hce) & Hblocks & Hcur & Hcover & Hnb
                  & Hnd & Hqb & Htags).
  rewrite HT, wrap32_small by lia.
  set (x := mkPriorityQueueEntry (T + Z.of_nat (length (l_noop_base l))) w).
  assert (Hin : forall y, y ∈ map dest_index (pq_push x (l_tag_priority l))
                <-> y = T + Z.of_nat (length (l_noop_base l))
                    \/ y ∈ map dest_index (l_tag_priority l)).
  { intros y. rewrite (pq_push_perm x). cbn [map]. apply elem_of_cons. }
  assert (Hfresh : (T + Z.of_nat (length (l_noop_base l)))
                   ∉ map dest_index (l_tag_priority l)).
  { intros H. apply list_elem_of_fmap in H as (y & Hy & Hyq).
    specialize (Hqb y Hyq). lia. }
  unfold laid.
  cbn [l_state_machine l_prev_state l_noop_base l_tag_priority l_tags_list].
  split; [lia|].
  split; [|split; [|split; [|split; [|split; [|split]]]]].
  - intros i b Hb. apply lookup_app_Some in Hb as [Hb|[Hge Hb]].
    + destruct (Hblocks i b Hb) as (Bb & Br & Bu & Bp & Bc).
      split; [exact Bb|]. split; [lia|]. split; [exact Bu|]. split.
      * intros Hs. apply Hin. right. apply Bp. exact Hs.
      * intros Hs. destruct (Bc Hs) as (C1 & C2 & C3).
        split; [exact C1|]. split; [exact C2|].
        intros H. apply Hin in H as [H|H]; [|contradiction].
        apply lookup_lt_Some in Hb. lia.
    + destruct (i - length (l_noop_base l))%nat as [|k] eqn:K;
        [|destruct k; discriminate].
      cbn in Hb. injection Hb as <-.
      assert (Hsp : forall p, l_prev_state l <= p <= l_prev_state l + mt ->
                      p < nt -> source_at (l_state_machine l) p = kInvalidPos).
      { intros p Hp Hpn. apply Hcur. lia. }
      split; [exact Hblk|]. split; [lia|]. split; [|split].
      * intros p Hp Hpn. rewrite (Hsp p Hp Hpn). symmetry. apply Hsp; lia.
      * intros _. apply Hin. left. lia.
      * intros Hs. exfalso. apply Hs. apply Hsp; lia.
  - intros p Hp. lia.
  - intros p Hp. destruct (Z.lt_ge_cases p ce) as [Hpc|Hpc].
    + exists (length (l_noop_base l)), (l_prev_state l). split; [|lia].
      rewrite lookup_app_r by lia. rewrite Nat.sub_diag. reflexivity.
    + destruct (Hcover p ltac:(lia)) as (i & b & Hb & Hr).
      exists i, b. split; [|exact Hr]. apply lookup_app_l_Some. exact Hb.
  - apply NoDup_app. split; [exact Hnb|]. split; [|apply NoDup_singleton].
    intros b Hb Hb'. apply list_elem_of_singleton in Hb' as ->.
    apply list_elem_of_lookup in Hb as (i & Hb).
    destruct (Hblocks i _ Hb) as (_ & Br & _). lia.
  - rewrite (pq_push_perm x). cbn [map]. apply NoDup_cons.
    split; [exact Hfresh|exact Hnd].
  - intros y Hy. rewrite (pq_push_perm x) in Hy.
    rewrite length_app. cbn [length].
    apply elem_of_cons in Hy as [->|Hy]; [cbn; lia|].
    specialize (Hqb y Hy). lia.
  - exact Htags.
Qed.

Lemma block_of_multiple (mt plb m : Z) :
  0 <= mt -> 0 <= m -> block_of mt plb (plb + m * (mt + 1)) = plb + m * (mt + 1).
Proof.
  intros Hmt Hm. unfold block_of.
  replace (plb + m * (mt + 1) - plb) with (m * (mt + 1)) by lia.
  rewrite Z.div_mul by lia. reflexivity.
Qed.

(** The loop over the blocks: [m] blocks are left after the one of
    [bs] states that is laid out first. *)
Lemma laid_place_blocks (mt plb nt T : Z) (m : nat) :
  1 <= mt -> 0 <= plb -> nt + mt + 1 <= 2 ^ 32 -> nt < kInvalidPos ->
  forall (fuel : nat) (l : Layout) (ce bs : Z),
    (m < fuel)%nat ->
    laid mt plb nt T ce l -> l_prev_state l = ce ->
    ce = plb + Z.of_nat m * (mt + 1) + bs -> 1 <= bs <= mt + 1 ->
    (ce = nt \/ bs = mt + 1) ->
    Z.of_nat (length (l_tag_priority l)) = Z.of_nat m * mt + bs ->
    T + Z.of_nat (length (l_noop_base l)) + Z.of_nat m < 2 ^ 32 ->
    exists l' ce',
      place_blocks fuel mt None bs l = Some l' /\
      laid mt plb nt T ce' l' /\ l_tag_priority l' = [] /\
      l_prev_state l' = plb /\ plb < ce' <= plb + mt + 1.
Proof.
  intros Hmt Hplb Hnt Hinv.
  induction m as [|m IH]; intros fuel l ce bs Hfuel Hl Hp Hce Hbs Hfull Hq Hsz;
    (destruct fuel as [|fuel]; [lia|]); cbn [place_blocks];
    (destruct (laid_place_block mt plb nt T ce (Z.to_nat bs)
                 ltac:(lia) Hplb Hnt Hinv _ (laid_weight _ _ _ _ _ l 0 Hl))
       as (l1 & H1 & L1 & P1 & Q1 & N1);
     [cbn [l_tag_priority]; lia|cbn [l_prev_state]; lia|]);
    rewrite H1; cbn [l_prev_state l_tag_priority l_noop_base] in P1, Q1, N1;
    rewrite Z2Nat.id in P1 by lia;
    assert (Hlen1 : Z.of_nat (length (l_tag_priority l1)) + bs
                    = Z.of_nat (length (l_tag_priority l)))
      by (rewrite Q1, length_drop; lia).
  - (* the last block *)
    destruct (l_tag_priority l1) as [|x q1] eqn:E1; [|cbn in Hlen1; lia].
    exists l1, ce. split; [reflexivity|]. split; [exact L1|].
    split; [exact E1|]. lia.
  - pose proof (Z.mul_pos_pos (Z.of_nat (S m)) mt ltac:(lia) ltac:(lia)) as Hpos.
    pose proof (Z.mul_pos_pos (Z.of_nat (S m)) (mt + 1) ltac:(lia) ltac:(lia))
      as Hpos'.
    assert (Hnt0 : ce <= nt) by (destruct Hl as ((_ & _ & ? & ?) & _); lia).
    destruct (l_tag_priority l1) as [|x q1] eqn:E1; [cbn in Hlen1; lia|].
    rewrite <- E1. rewrite (wrap32_small (mt + 1)) by lia.
    assert (Hp1 : l_prev_state l1 = plb + Z.of_nat (S m) * (mt + 1)) by lia.
    pose proof (laid_close mt plb nt T ce (l_total_block_nodes_weight l1)
                  (l_total_block_nodes_weight l1) l1 ltac:(lia) Hplb L1
                  ltac:(lia) ltac:(lia) ltac:(lia) ltac:(lia)) as L2.
    rewrite Hp1 in L2 at 1.
    rewrite block_of_multiple in L2 by lia.
    specialize (L2 ltac:(lia) ltac:(rewrite N1; lia)).
    match type of L2 with
    | laid _ _ _ _ _ ?l2 =>
        destruct (IH fuel l2 (l_prev_state l1) (mt + 1)) as (l3 & ce' & H3 & R)
    end.
    + lia.
    + exact L2.
    + reflexivity.
    + lia.
    + lia.
    + right. reflexivity.
    + cbn [l_tag_priority]. rewrite (Permutation_length (pq_push_perm _ _)).
      rewrite E1. cbn [length] in Hlen1 |- *. nia.
    + cbn [l_noop_base]. rewrite length_app, N1. cbn [length]. lia.
    + exists l3, ce'. split; [exact H3|exact R].
Qed.

(** When the queue is empty, the blocks form the tree of the public
    list. *)
Lemma laid_public_tree (mt plb nt T ce : Z) (l : Layout) :
  0 <= mt -> 0 <= plb ->
  laid mt plb nt T ce l -> l_tag_priority l = [] -> l_prev_state l = plb ->
  plb < ce <= plb + mt + 1 ->
  public_tree mt plb (l_state_machine l) /\
  Z.of_nat (length (l_state_machine l)) = nt /\
  Z.of_nat (length (l_tags_list l)) = T /\
  (forall i,
      state_machine_pos (tag_at (l_tags_list l) i) = kInvalidPos \/
      plb <= state_machine_pos (tag_at (l_tags_list l) i) < nt).
Proof.
  intros Hmt Hplb Hl Hq Hp Hce.
  destruct Hl as ((Hlen & HT & Hpr & Hcen) & Hblocks & Hcur & Hcover & Hnb
                  & Hnd & Hqb & Htags).
  rewrite Hq, Hp in *.
  assert (Hroot : block_of mt plb plb = plb).
  { pose proof (block_of_multiple mt plb 0 Hmt ltac:(lia)) as H.
    rewrite Z.mul_0_l, Z.add_0_r in H. exact H. }
  split; [|split; [exact Hlen|split; [exact HT|exact Htags]]].
  intros p Hpr'. rewrite Hlen in Hpr'. cbv zeta.
  destruct (Z.lt_ge_cases p ce) as [Hpc|Hpc].
  - (* the first block *)
    assert (Hb : block_of mt plb p = plb)
      by (apply (block_of_in mt plb Hmt plb p); [lia|exact Hroot|lia]).
    split; [intros _; apply Hcur; lia|]. intros H. congruence.
  - destruct (Hcover p ltac:(lia)) as (i & b & Hb & Hr).
    destruct (Hblocks i b Hb) as (Bb & Br & Bu & Bp & Bc).
    assert (Hpb : block_of mt plb p = b)
      by (apply (block_of_in mt plb Hmt b p); [lia|exact Bb|lia]).
    rewrite Hpb.
    assert (Hs : source_at (l_state_machine l) b <> kInvalidPos).
    { intros H. specialize (Bp H). cbn in Bp. apply elem_of_nil in Bp.
      exact Bp. }
    destruct (Bc Hs) as (C1 & C2 & _).
    split; [intros H; lia|]. intros _.
    rewrite (Bu p) by lia. split; [reflexivity|]. split; [lia|exact C2].
Qed.

Lemma indices_NoDup (n : nat) : NoDup (indices n).
Proof.
  unfold indices. apply NoDup_fmap_2; [|apply NoDup_seq].
  intros a b H. lia.
Qed.

Lemma elem_of_indices (n : nat) (i : Z) :
  i ∈ indices n <-> 0 <= i < Z.of_nat n.
Proof.
  unfold indices. rewrite list_elem_of_fmap. split.
  - intros (k & -> & Hk). apply elem_of_seq in Hk. lia.
  - intros Hi. exists (Z.to_nat i). split; [lia|]. apply elem_of_seq. lia.
Qed.

(** The queue of the public list holds every tag with incoming
    transitions left, once. *)
Lemma public_queue_perm (tags : list EncodedTagInfo) :
  map dest_index (public_queue tags) ≡ₚ
  filter (fun i => num_incoming_transitions (tag_at tags i) <> 0)
    (indices (length tags)).
Proof.
  unfold public_queue.
  assert (H : forall l q,
             map dest_index
               (foldl (fun queue i =>
                         if negb (num_incoming_transitions (tag_at tags i) =? 0)
                         then pq_push
                                (mkPriorityQueueEntry i
                                   (num_incoming_transitions (tag_at tags i)))
                                queue
                         else queue) q l)
             ≡ₚ filter (fun i => num_incoming_transitions (tag_at tags i) <> 0)
                  l ++ map dest_index q).
  { induction l as [|i l IH]; intros q; [reflexivity|].
    cbn [foldl]. rewrite IH, filter_cons.
    destruct (num_incoming_transitions (tag_at tags i) =? 0) eqn:E.
    - apply Z.eqb_eq in E. cbn [negb].
      destruct (decide _) as [H|H]; [congruence|reflexivity].
    - apply Z.eqb_neq in E. cbn [negb].
      destruct (decide _) as [H|H]; [|contradiction].
      rewrite (pq_push_perm _ q). cbn [map dest_index].
      rewrite <- Permutation_middle. reflexivity. }
  rewrite H. cbn [map]. rewrite app_nil_r. reflexivity.
Qed.

Lemma layout_states_public_tree (mt : Z) (sm : list StateInfo)
    (tags : list EncodedTagInfo) (queue : list PriorityQueueEntry) :
  let plb := Z.of_nat (length sm) in
  let T := Z.of_nat (length tags) in
  let n := Z.of_nat (length queue) in
  1 <= mt -> 1 <= n ->
  NoDup (map dest_index queue) ->
  (forall x, x ∈ queue -> 0 <= dest_index x < T) ->
  (forall i, state_machine_pos (tag_at tags i) = kInvalidPos) ->
  plb + 2 * n + T + mt + 2 <= 2 ^ 32 ->
  exists l,
    layout_states mt None n sm tags [] queue = Some l /\
    public_tree mt plb (l_state_machine l) /\
    Z.of_nat (length (l_state_machine l)) = plb + n + noop_count mt n /\
    Z.of_nat (length (l_tags_list l)) = T /\
    (forall i,
        state_machine_pos (tag_at (l_tags_list l) i) = kInvalidPos \/
        plb <= state_machine_pos (tag_at (l_tags_list l) i)
          < Z.of_nat (length (l_state_machine l))).
Proof.
  intros plb T n Hmt Hn Hnd Hq Htags Hsz.
  pose proof (noop_count_arith mt n Hmt Hn)
    as (Hk0 & Hkn & Hsum & Hfirst & Hfm & Hrest & Hsmall & _).
  set (k := noop_count mt n) in *.
  set (first := (n + k - 1) mod (mt + 1) + 1) in *.
  unfold layout_states.
  rewrite (wrap32_small (mt + 1)) by lia.
  assert (Hnc : (if n <=? mt + 1 then 0 else wrap32 (n - 2) / mt) = k).
  { unfold k, noop_count. destruct (n <=? mt + 1) eqn:E; [reflexivity|].
    apply Z.leb_gt in E. rewrite wrap32_small by lia. reflexivity. }
  rewrite Hnc.
  rewrite (wrap32_small (n + k)) by lia.
  rewrite (wrap32_small (Z.of_nat (length sm))) by lia.
  rewrite (wrap32_small (Z.of_nat (length sm) + (n + k))) by lia.
  rewrite (wrap32_small (n + k - 1)) by lia.
  fold first. rewrite (wrap32_small first) by lia.
  set (sm' := sm ++ replicate (Z.to_nat (Z.of_nat (length sm) + (n + k))
                               - length sm) StateInfo_default).
  assert (Hsm' : Z.of_nat (length sm') = plb + n + k).
  { unfold sm'. rewrite length_app, length_replicate. lia. }
  set (nt := plb + n + k) in *.
  fold plb.
  replace (plb + (n + k)) with nt by lia.
  match goal with
  | |- context [place_blocks _ _ _ _ ?l] => set (l0 := l)
  end.
  assert (L0 : laid mt plb nt T nt l0).
  { unfold laid, l0.
    cbn [l_state_machine l_prev_state l_noop_base l_tag_priority l_tags_list].
    split; [repeat split; lia|].
    split; [intros i b H; rewrite lookup_nil in H; discriminate|].
    split; [intros p Hp; lia|]. split; [intros p Hp; lia|].
    split; [constructor|]. split; [exact Hnd|].
    split; [intros x Hx; specialize (Hq x Hx); cbn [length]; lia|].
    intros i. left. apply Htags. }
  destruct (laid_place_blocks mt plb nt T (Z.to_nat k) Hmt ltac:(lia)
              ltac:(lia) ltac:(unfold kInvalidPos; lia)
              (S (Z.to_nat (n + k))) l0 nt first)
    as (l1 & ce & H1 & L1 & Q1 & P1 & Hce).
  - lia.
  - exact L0.
  - reflexivity.
  - rewrite Z2Nat.id by lia. lia.
  - lia.
  - left. reflexivity.
  - cbn [l0 l_tag_priority]. rewrite Z2Nat.id by lia. fold n. lia.
  - cbn [l0 l_noop_base length]. lia.
  - exists l1. split; [exact H1|].
    destruct (laid_public_tree mt plb nt T ce l1 ltac:(lia) ltac:(lia) L1 Q1
                P1 Hce) as (A & B & C & D).
    split; [exact A|]. split; [exact B|]. split; [exact C|].
    rewrite B. exact D.
Qed.

(** [create_public_list] leaves a tree of blocks, and every tag with a
    state in the public list knows its position. *)
Lemma create_public_list_tree (mt : Z) (sm sm' : list StateInfo)
    (tags tags' : list EncodedTagInfo) :
  let plb := Z.of_nat (length sm) in
  1 <= mt ->
  (forall i, state_machine_pos (tag_at tags i) = kInvalidPos) ->
  plb + 3 * Z.of_nat (length tags) + mt + 2 <= 2 ^ 32 ->
  create_public_list mt sm tags = Some (sm', tags') ->
  public_tree mt plb sm' /\
  plb <= Z.of_nat (length sm') <= plb + 2 * Z.of_nat (length tags) /\
  length tags' = length tags /\
  (forall i,
      state_machine_pos (tag_at tags' i) = kInvalidPos \/
      plb <= state_machine_pos (tag_at tags' i) < Z.of_nat (length sm')).
Proof.
  intros plb Hmt Htags Hsz H. unfold create_public_list in H.
  pose proof (public_queue_perm tags) as Hperm.
  assert (Hnd : NoDup (map dest_index (public_queue tags))).
  { rewrite Hperm. apply NoDup_filter. apply indices_NoDup. }
  assert (Hq : forall x, x ∈ public_queue tags ->
                 0 <= dest_index x < Z.of_nat (length tags)).
  { intros x Hx. apply elem_of_indices.
    assert (Hin : dest_index x ∈ map dest_index (public_queue tags))
      by (apply list_elem_of_fmap; eauto).
    rewrite Hperm in Hin. apply list_elem_of_filter in Hin as [_ Hin].
    exact Hin. }
  assert (Hlen : Z.of_nat (length (public_queue tags))
                 <= Z.of_nat (length tags)).
  { rewrite <- (length_map dest_index (public_queue tags)).
    rewrite (Permutation_length Hperm).
    pose proof (length_filter
                  (fun i => num_incoming_transitions (tag_at tags i) <> 0)
                  (indices (length tags))) as Hf.
    unfold indices in Hf at 2. rewrite length_map, length_seq in Hf. lia. }
  rewrite wrap32_small in H by lia.
  destruct (Z.of_nat (length (public_queue tags)) >? 0) eqn:E.
  - rewrite Z.gtb_ltb in E. apply Z.ltb_lt in E.
    destruct (layout_states_public_tree mt sm tags (public_queue tags)
                Hmt ltac:(lia) Hnd Hq Htags ltac:(lia))
      as (l & Hl & A & B & C & D).
    rewrite Hl in H. injection H as <- <-.
    assert (Hn1 : 1 <= Z.of_nat (length (public_queue tags))) by lia.
    pose proof (noop_count_arith mt _ Hmt Hn1) as (Hk0 & Hkn & _).
    split; [exact A|]. split; [fold plb in B; lia|].
    split; [lia|exact D].
  - injection H as <- <-.
    split; [intros p Hp; fold plb in Hp; lia|]. split; [fold plb; lia|].
    split; [reflexivity|]. intros i. left. apply Htags.
Qed.

(** ** What the layout loops keep *)

(** A property of the state machine, the tag list and the NoOp states to
    the public list that every placement keeps is kept by the loop over
    the blocks. *)
Lemma place_block_keeps
    (P : list StateInfo -> list EncodedTagInfo -> list (Z * Z) -> Prop)
    (mt : Z) (owner : option Z) :
  (forall l l', place_top mt owner l = Some l' ->
     P (l_state_machine l) (l_tags_list l) (l_public_list_noops l) ->
     P (l_state_machine l') (l_tags_list l') (l_public_list_noops l')) ->
  forall (n : nat) (l l' : Layout),
    place_block mt owner n l = Some l' ->
    P (l_state_machine l) (l_tags_list l) (l_public_list_noops l) ->
    P (l_state_machine l') (l_tags_list l') (l_public_list_noops l').
Proof.
  intros Htop. induction n as [|n IH]; intros l l' H HP.
  - injection H as <-. exact HP.
  - cbn [place_block] in H.
    destruct (place_top mt owner l) as [l1|] eqn:E; [|discriminate].
    eapply IH; [exact H|]. eapply Htop; eassumption.
Qed.

Lemma place_blocks_keeps
    (P : list StateInfo -> list EncodedTagInfo -> list (Z * Z) -> Prop)
    (mt : Z) (owner : option Z) :
  (forall l l', place_top mt owner l = Some l' ->
     P (l_state_machine l) (l_tags_list l) (l_public_list_noops l) ->
     P (l_state_machine l') (l_tags_list l') (l_public_list_noops l')) ->
  forall (fuel : nat) (bs : Z) (l l' : Layout),
    place_blocks fuel mt owner bs l = Some l' ->
    P (l_state_machine l) (l_tags_list l) (l_public_list_noops l) ->
    P (l_state_machine l') (l_tags_list l') (l_public_list_noops l').
Proof.
  intros Htop. induction fuel as [|fuel IH]; intros bs l l' H HP;
    [discriminate|].
  cbn [place_blocks] in H.
  match type of H with
  | context [place_block mt owner ?n ?l0] =>
      destruct (place_block mt owner n l0) as [l1|] eqn:E; [|discriminate];
      apply (place_block_keeps P mt owner Htop) in E; [|exact HP]
  end.
  destruct (l_tag_priority l1) as [|x q].
  - injection H as <-. exact E.
  - eapply IH; [exact H|]. exact E.
Qed.

Lemma layout_states_keeps
    (P : list StateInfo -> list EncodedTagInfo -> list (Z * Z) -> Prop)
    (mt : Z) (owner : option Z) (n : Z) (sm : list StateInfo)
    (tags : list EncodedTagInfo) (noops : list (Z * Z))
    (q : list PriorityQueueEntry) (l : Layout) :
  (forall l l', place_top mt owner l = Some l' ->
     P (l_state_machine l) (l_tags_list l) (l_public_list_noops l) ->
     P (l_state_machine l') (l_tags_list l') (l_public_list_noops l')) ->
  layout_states mt owner n sm tags noops q = Some l ->
  (forall k, P (sm ++ replicate k StateInfo_default) tags noops) ->
  P (l_state_machine l) (l_tags_list l) (l_public_list_noops l).
Proof.
  intros Htop H HP. unfold layout_states in H.
  eapply (place_blocks_keeps P mt owner Htop) in H; [exact H|]. apply HP.
Qed.

Lemma place_top_length (mt : Z) (owner : option Z) (l l' : Layout) :
  place_top mt owner l = Some l' ->
  length (l_state_machine l') = length (l_state_machine l) /\
  length (l_tags_list l') = length (l_tags_list l).
Proof.
  unfold place_top. intros H.
  destruct (l_tag_priority l) as [|top q]; [discriminate|].
  destruct (_ >=? _); [discriminate|].
  destruct owner as [tag_id|].
  - destruct (_ =? kInvalidPos).
    + injection H as <-. cbn. rewrite length_insert, update_tag_length. auto.
    + destruct (_ >=? _).
      * destruct (_ !! _); [|discriminate]. injection H as <-. cbn.
        rewrite set_canonical_sources_length, length_insert. auto.
      * injection H as <-. cbn. rewrite length_insert, update_tag_length. auto.
  - destruct (_ >=? _).
    + destruct (_ !! _); [|discriminate]. injection H as <-. cbn.
      rewrite set_canonical_sources_length, length_insert. auto.
    + injection H as <-. cbn. rewrite length_insert, update_tag_length. auto.
Qed.

(** ** The base indices do not depend on the order of the destinations *)

Lemma public_tree_set_base (mt plb : Z) (sm : list StateInfo) (st b : Z) :
  0 <= plb -> 0 <= st < plb -> public_tree mt plb sm ->
  public_tree mt plb (alter (set_state_base b) (Z.to_nat st) sm).
Proof.
  intros Hplb Hst Htree.
  assert (Hsrc : forall p, source_at (alter (set_state_base b) (Z.to_nat st) sm) p
                           = source_at sm p).
  { intros p. unfold source_at.
    destruct (decide (Z.to_nat p = Z.to_nat st)) as [E|E].
    - rewrite E, list_lookup_alter_eq. destruct (sm !! Z.to_nat st); reflexivity.
    - rewrite list_lookup_alter_ne by congruence. reflexivity. }
  intros p Hp. rewrite length_alter in Hp. cbv zeta. rewrite !Hsrc.
  destruct (Htree p Hp) as [H1 H2]. split; [exact H1|].
  intros Hb. destruct (H2 Hb) as (A & B & s & Hs & Hsb).
  split; [exact A|]. split; [exact B|]. exists s. split; [|exact Hsb].
  rewrite list_lookup_alter_ne by lia. exact Hs.
Qed.

Lemma tag_at_set_base_pos (tags : list EncodedTagInfo) (i j b : Z) :
  state_machine_pos (tag_at (update_tag i (set_base b) tags) j)
  = state_machine_pos (tag_at tags j).
Proof.
  unfold tag_at, update_tag.
  destruct (decide (Z.to_nat j = Z.to_nat i)) as [E|E].
  - rewrite E, list_lookup_alter_eq. destruct (tags !! Z.to_nat i); reflexivity.
  - rewrite list_lookup_alter_ne by congruence. reflexivity.
Qed.

Lemma ComputeBaseIndices_order
    (order : Z -> gmap Z DestInfo -> list (Z * DestInfo)) (mt plb : Z)
    (noops : list (Z * Z)) (sm : list StateInfo)
    (tags : list EncodedTagInfo) :
  (forall i d, order i d ≡ₚ map_to_list d) ->
  0 <= mt -> 0 <= plb -> Z.of_nat (length sm) < kInvalidPos ->
  public_tree mt plb sm ->
  (forall i, state_machine_pos (tag_at tags i) = kInvalidPos \/
             plb <= state_machine_pos (tag_at tags i)
               < Z.of_nat (length sm)) ->
  Forall (fun x => 0 <= x.2 < plb) noops ->
  ComputeBaseIndices order mt plb noops sm tags =
  ComputeBaseIndices key_order mt plb noops sm tags.
Proof.
  intros Hperm Hmt Hplb Hsize Htree Htags Hnoops.
  unfold ComputeBaseIndices.
  (* the loop over the NoOp states to the public list *)
  set (f := fun o (acc : option (list StateInfo)) (x : Z * Z) =>
              match acc with
              | None => None
              | Some state_machine =>
                  match scan_destinations o mt plb state_machine tags x.1 with
                  | None => None
                  | Some (_, min_pos) =>
                      if min_pos =? kInvalidPos then None
                      else Some (alter (set_state_base min_pos)
                                   (Z.to_nat x.2) state_machine)
                  end
              end).
  change (match foldl (f order) (Some sm) noops with
          | None => None
          | Some state_machine =>
              match
                foldl
                  (fun (acc : option (list EncodedTagInfo)) (i : Z) =>
                     match acc with
                     | None => None
                     | Some tags0 =>
                         if negb (base (tag_at tags0 i) =? kInvalidPos)
                         then Some tags0
                         else
                           match scan_destinations order mt plb
                                   state_machine tags0 i with
                           | None => None
                           | Some (_, min_pos) =>
                               if negb (min_pos =? kInvalidPos)
                               then Some (update_tag i (set_base min_pos)
                                            tags0)
                               else Some tags0
                           end
                     end) (Some tags) (indices (length tags))
              with
              | None => None
              | Some tags0 => Some (state_machine, tags0)
              end
          end =
          match foldl (f key_order) (Some sm) noops with
          | None => None
          | Some state_machine =>
              match
                foldl
                  (fun (acc : option (list EncodedTagInfo)) (i : Z) =>
                     match acc with
                     | None => None
                     | Some tags0 =>
                         if negb (base (tag_at tags0 i) =? kInvalidPos)
                         then Some tags0
                         else
                           match scan_destinations key_order mt plb
                                   state_machine tags0 i with
                           | None => None
                           | Some (_, min_pos) =>
                               if negb (min_pos =? kInvalidPos)
                               then Some (update_tag i (set_base min_pos)
                                            tags0)
                               else Some tags0
                           end
                     end) (Some tags) (indices (length tags))
              with
              | None => None
              | Some tags0 => Some (state_machine, tags0)
              end
          end).
  assert (H1 : foldl (f order) (Some sm) noops
               = foldl (f key_order) (Some sm) noops /\
               forall sm', foldl (f key_order) (Some sm) noops = Some sm' ->
                           length sm' = length sm /\ public_tree mt plb sm').
  { revert sm Hsize Htree Htags.
    induction Hnoops as [|x noops Hx Hnoops IH]; intros sm Hsize Htree Htags.
    - split; [reflexivity|]. intros sm' H. injection H as <-. auto.
    - cbn [foldl].
      assert (Hs : f order (Some sm) x = f key_order (Some sm) x).
      { unfold f.
        rewrite (scan_destinations_order order mt plb sm tags x.1 Hperm Hmt
                   Hplb Hsize Htree Htags). reflexivity. }
      rewrite Hs.
      destruct (f key_order (Some sm) x) as [sm1|] eqn:E.
      + assert (Hsm1 : length sm1 = length sm /\ public_tree mt plb sm1).
        { unfold f in E.
          destruct (scan_destinations key_order mt plb sm tags x.1)
            as [[b m]|]; [|discriminate].
          destruct (m =? kInvalidPos); [discriminate|].
          injection E as <-. split; [apply length_alter|].
          apply public_tree_set_base; assumption. }
        destruct Hsm1 as [Hl1 Ht1].
        destruct (IH sm1) as [A B].
        * rewrite Hl1. exact Hsize.
        * exact Ht1.
        * rewrite Hl1. exact Htags.
        * split; [exact A|]. intros sm' H. destruct (B sm' H) as [B1 B2].
          split; [congruence|exact B2].
      + split.
        * clear. induction noops as [|y noops IH]; [reflexivity|exact IH].
        * intros sm' H. exfalso. clear -H.
          induction noops as [|y noops IH]; [discriminate|exact (IH H)]. }
  destruct H1 as [H1 H2]. rewrite H1.
  destruct (foldl (f key_order) (Some sm) noops) as [sm'|]; [|reflexivity].
  destruct (H2 sm' eq_refl) as [Hl' Ht'].
  (* the loop over the tags *)
  set (g := fun o (acc : option (list EncodedTagInfo)) (i : Z) =>
              match acc with
              | None => None
              | Some tags0 =>
                  if negb (base (tag_at tags0 i) =? kInvalidPos)
                  then Some tags0
                  else
                    match scan_destinations o mt plb sm' tags0 i with
                    | None => None
                    | Some (_, min_pos) =>
                        if negb (min_pos =? kInvalidPos)
                        then Some (update_tag i (set_base min_pos) tags0)
                        else Some tags0
                    end
              end).
  enough (H3 : foldl (g order) (Some tags) (indices (length tags))
               = foldl (g key_order) (Some tags) (indices (length tags))).
  { unfold g in H3. rewrite H3. reflexivity. }
  generalize (indices (length tags)) as l. intros l.
  assert (Htags' : forall i,
             state_machine_pos (tag_at tags i) = kInvalidPos \/
             plb <= state_machine_pos (tag_at tags i)
               < Z.of_nat (length sm')) by (rewrite Hl'; exact Htags).
  clear Htags H1 H2 f. revert tags Htags'.
  induction l as [|i l IH]; intros tags Htags; [reflexivity|].
  cbn [foldl].
  assert (Hs : g order (Some tags) i = g key_order (Some tags) i).
  { unfold g.
    rewrite (scan_destinations_order order mt plb sm' tags i Hperm Hmt
               Hplb ltac:(rewrite Hl'; exact Hsize) Ht' Htags). reflexivity. }
  rewrite Hs. destruct (g key_order (Some tags) i) as [tags1|] eqn:E.
  - apply IH. intros j. unfold g in E.
    destruct (negb (base (tag_at tags i) =? kInvalidPos)).
    + injection E as <-. apply Htags.
    + destruct (scan_destinations key_order mt plb sm' tags i)
        as [[b m]|]; [|discriminate].
      destruct (negb (m =? kInvalidPos)); injection E as <-.
      * rewrite tag_at_set_base_pos. apply Htags.
      * apply Htags.
  - clear. induction l as [|y l IH]; [reflexivity|exact IH].
Qed.

(** ** Loops over a hash map: the order of the entries *)

Lemma key_order_perm (i : Z) (d : gmap Z DestInfo) :
  key_order i d ≡ₚ map_to_list d.
Proof. reflexivity. Qed.

Lemma foldl_perm_comm {A B} (f : A -> B -> A) (l1 l2 : list B) :
  l1 ≡ₚ l2 ->
  (forall a x y, x ∈ l1 -> y ∈ l1 -> f (f a x) y = f (f a y) x) ->
  forall a, foldl f a l1 = foldl f a l2.
Proof.
  induction 1 as [|x l1 l2 Hp IH|x y l|l1 l2 l3 Hp1 IH1 Hp2 IH2];
    intros Hc a.
  - reflexivity.
  - cbn [foldl]. apply IH. intros a' u v Hu Hv.
    apply Hc; apply elem_of_cons; right; assumption.
  - cbn [foldl]. rewrite (Hc a y x); [reflexivity| |].
    + apply elem_of_cons. left. reflexivity.
    + apply elem_of_cons. right. apply elem_of_cons. left. reflexivity.
  - rewrite IH1 by exact Hc. apply IH2. intros a' u v Hu Hv.
    apply Hc; rewrite Hp1; assumption.
Qed.

Lemma alter_comm {A} (f g : A -> A) (i j : nat) (l : list A) :
  (forall x, f (g x) = g (f x)) ->
  alter f i (alter g j l) = alter g j (alter f i l).
Proof.
  intros H. apply list_eq. intros k.
  destruct (decide (k = i)) as [Ei|Hi]; destruct (decide (k = j)) as [Ej|Hj].
  - subst i j. rewrite !list_lookup_alter_eq.
    destruct (l !! k); cbn; [|reflexivity]. rewrite H. reflexivity.
  - subst i. rewrite list_lookup_alter_eq.
    rewrite !(list_lookup_alter_ne g) by congruence.
    rewrite list_lookup_alter_eq. reflexivity.
  - subst j. rewrite (list_lookup_alter_ne f) by congruence.
    rewrite !list_lookup_alter_eq.
    rewrite (list_lookup_alter_ne f) by congruence. reflexivity.
  - rewrite !list_lookup_alter_ne by congruence. reflexivity.
Qed.

Lemma update_tag_comm (f g : EncodedTagInfo -> EncodedTagInfo) (i j : Z)
    (tags : list EncodedTagInfo) :
  (forall x, f (g x) = g (f x)) ->
  update_tag i f (update_tag j g tags) = update_tag j g (update_tag i f tags).
Proof. apply alter_comm. Qed.

Lemma sub_num_incoming_comm (a b : Z) (t : EncodedTagInfo) :
  sub_num_incoming a (sub_num_incoming b t)
  = sub_num_incoming b (sub_num_incoming a t).
Proof.
  unfold sub_num_incoming, set_num_incoming_transitions. cbn. f_equal.
  unfold wrap64. rewrite !Zminus_mod_idemp_l. f_equal. lia.
Qed.

Lemma set_dest_pos_sub_comm (k p a : Z) (t : EncodedTagInfo) :
  set_dest_pos k p (sub_num_incoming a t)
  = sub_num_incoming a (set_dest_pos k p t).
Proof. reflexivity. Qed.

Lemma set_dest_pos_comm (k1 k2 p1 p2 : Z) (t : EncodedTagInfo) :
  k1 <> k2 ->
  set_dest_pos k1 p1 (set_dest_pos k2 p2 t)
  = set_dest_pos k2 p2 (set_dest_pos k1 p1 t).
Proof.
  intros Hne. unfold set_dest_pos, set_dest_info, dest_at. cbn.
  rewrite !lookup_insert_ne by congruence.
  rewrite (insert_insert_ne _ k1 k2) by congruence. reflexivity.
Qed.

Lemma order_key_inj (order : Z -> gmap Z DestInfo -> list (Z * DestInfo))
    (i : Z) (d : gmap Z DestInfo) (x y : Z * DestInfo) :
  (forall i d, order i d ≡ₚ map_to_list d) ->
  x ∈ order i d -> y ∈ order i d -> x.1 = y.1 -> x = y.
Proof.
  intros Hperm Hx Hy Hk. rewrite Hperm in Hx, Hy.
  destruct x as [k v], y as [k' v']. cbn in Hk. subst k'.
  apply elem_of_map_to_list in Hx, Hy. congruence.
Qed.

(** The first loop of [CreateStateMachine] marks the same destinations
    in whatever order it meets them. *)
Lemma mark_in_list_order (order : Z -> gmap Z DestInfo -> list (Z * DestInfo))
    (min_count : Z) (tags : list EncodedTagInfo) (tag_id : Z) :
  (forall i d, order i d ≡ₚ map_to_list d) ->
  mark_in_list order min_count tags tag_id
  = mark_in_list key_order min_count tags tag_id.
Proof.
  intros Hperm. unfold mark_in_list.
  apply foldl_perm_comm; [apply Hperm|].
  intros a x y Hx Hy.
  destruct (decide (x.1 = y.1)) as [E|E].
  { rewrite (order_key_inj order _ _ x y Hperm Hx Hy E). reflexivity. }
  destruct x as [d1 c1], y as [d2 c2]. cbn [fst] in E.
  destruct (num_transitions c1 >=? min_count);
    destruct (num_transitions c2 >=? min_count); try reflexivity.
  rewrite (update_tag_comm _ _ d2 tag_id)
    by (intros t; symmetry; apply set_dest_pos_sub_comm).
  rewrite (update_tag_comm _ _ tag_id tag_id)
    by (intros t; apply set_dest_pos_comm; congruence).
  rewrite (update_tag_comm _ _ d2 d1) by (intros t; apply sub_num_incoming_comm).
  rewrite (update_tag_comm _ _ tag_id d1)
    by (intros t; apply set_dest_pos_sub_comm).
  reflexivity.
Qed.

Lemma mark_all_order (order : Z -> gmap Z DestInfo -> list (Z * DestInfo))
    (min_count : Z) (l : list Z) (tags : list EncodedTagInfo) :
  (forall i d, order i d ≡ₚ map_to_list d) ->
  foldl (mark_in_list order min_count) tags l
  = foldl (mark_in_list key_order min_count) tags l.
Proof.
  intros Hperm. revert tags. induction l as [|i l IH]; intros tags;
    [reflexivity|].
  cbn [foldl]. rewrite (mark_in_list_order order) by exact Hperm. apply IH.
Qed.

(** ** The priority queue: [operator<] orders the entries *)

Lemma entry_lt_asym (a b : PriorityQueueEntry) :
  entry_lt a b = true -> entry_lt b a = false.
Proof.
  unfold entry_lt.
  destruct (entry_num_transitions a =? entry_num_transitions b) eqn:E.
  - apply Z.eqb_eq in E. rewrite <- E, Z.eqb_refl. cbn [negb].
    intros H. apply Z.ltb_lt in H. apply Z.ltb_ge. lia.
  - apply Z.eqb_neq in E.
    destruct (entry_num_transitions b =? entry_num_transitions a) eqn:E';
      [apply Z.eqb_eq in E'; lia|]. cbn [negb].
    rewrite !Z.gtb_ltb. intros H. apply Z.ltb_lt in H. apply Z.ltb_ge. lia.
Qed.

Lemma entry_lt_trans (a b c : PriorityQueueEntry) :
  entry_lt a b = true -> entry_lt b c = true -> entry_lt a c = true.
Proof.
  unfold entry_lt.
  destruct (entry_num_transitions a =? entry_num_transitions b) eqn:E1;
    destruct (entry_num_transitions b =? entry_num_transitions c) eqn:E2;
    destruct (entry_num_transitions a =? entry_num_transitions c) eqn:E3;
    cbn [negb]; rewrite ?Z.gtb_ltb; intros H1 H2;
    repeat match goal with
           | H : (_ =? _) = true |- _ => apply Z.eqb_eq in H
           | H : (_ =? _) = false |- _ => apply Z.eqb_neq in H
           | H : (_ <? _) = true |- _ => apply Z.ltb_lt in H
           end;
    apply Z.ltb_lt; lia.
Qed.

(** The tie-break on the index makes the order total: of two different
    entries one is less than the other. *)
Lemma entry_lt_total (a b : PriorityQueueEntry) :
  a <> b -> entry_lt a b = true \/ entry_lt b a = true.
Proof.
  intros Hne. unfold entry_lt.
  destruct (entry_num_transitions a =? entry_num_transitions b) eqn:E.
  - apply Z.eqb_eq in E. rewrite <- E, Z.eqb_refl. cbn [negb].
    destruct (Z.lt_trichotomy (dest_index a) (dest_index b)) as [H|[H|H]].
    + left. apply Z.ltb_lt. exact H.
    + exfalso. apply Hne. destruct a, b. cbn in *. congruence.
    + right. apply Z.ltb_lt. exact H.
  - apply Z.eqb_neq in E.
    destruct (entry_num_transitions b =? entry_num_transitions a) eqn:E';
      [apply Z.eqb_eq in E'; lia|]. cbn [negb]. rewrite !Z.gtb_ltb.
    destruct (Z.lt_trichotomy (entry_num_transitions a)
                (entry_num_transitions b)) as [H|[H|H]]; [|lia|].
    + right. apply Z.ltb_lt. exact H.
    + left. apply Z.ltb_lt. exact H.
Qed.

(** The queue does not depend on the order in which its entries are
    pushed. *)
Lemma pq_push_comm (x y : PriorityQueueEntry) (q : list PriorityQueueEntry) :
  pq_push x (pq_push y q) = pq_push y (pq_push x q).
Proof.
  assert (Hd : x = y \/ x <> y).
  { destruct (Z.eq_dec (dest_index x) (dest_index y)) as [E1|E1];
      [|right; congruence].
    destruct (Z.eq_dec (entry_num_transitions x) (entry_num_transitions y))
      as [E2|E2]; [|right; congruence].
    left. destruct x, y. cbn in *. congruence. }
  destruct Hd as [->|Hne]; [reflexivity|].
  assert (Hxy : (entry_lt x y = true /\ entry_lt y x = false) \/
                (entry_lt y x = true /\ entry_lt x y = false)).
  { destruct (entry_lt_total x y Hne) as [H|H]; [left|right];
      (split; [exact H|apply entry_lt_asym; exact H]). }
  induction q as [|w q IH].
  - cbn [pq_push]. destruct Hxy as [[-> ->]|[-> ->]]; reflexivity.
  - cbn [pq_push].
    destruct (entry_lt w y) eqn:Wy; destruct (entry_lt w x) eqn:Wx;
      cbn [pq_push]; rewrite ?Wx, ?Wy.
    + destruct Hxy as [[-> ->]|[-> ->]]; rewrite ?Wx, ?Wy; reflexivity.
    + assert (Hyx : entry_lt y x = false).
      { destruct (entry_lt y x) eqn:E; [|reflexivity].
        rewrite (entry_lt_trans w y x Wy E) in Wx. discriminate. }
      rewrite ?Hyx, ?Wx. reflexivity.
    + assert (Hx : entry_lt x y = false).
      { destruct (entry_lt x y) eqn:E; [|reflexivity].
        rewrite (entry_lt_trans w x y Wx E) in Wy. discriminate. }
      rewrite ?Hx, ?Wy. reflexivity.
    + rewrite IH. reflexivity.
Qed.

(** ** The choice of the private list *)

Lemma select_private_fold (order : Z -> gmap Z DestInfo -> list (Z * DestInfo))
    (tags : list EncodedTagInfo) (tag_id : Z) :
  select_private order tags tag_id =
  foldl select_step (tags, [], mkPriorityQueueEntry 0 0, 0)
    (order tag_id (dest_info (tag_at tags tag_id))).
Proof. reflexivity. Qed.

Lemma tag_at_update_ne_incoming (tags : list EncodedTagInfo) (i j : Z)
    (f : EncodedTagInfo -> EncodedTagInfo) :
  0 <= i -> 0 <= j -> i <> j ->
  tag_at (update_tag i f tags) j = tag_at tags j.
Proof. apply tag_at_update_ne. Qed.

(** With every destination met once, the test on a destination sees
    the incoming count the loop started from, so that the four variables
    go their own ways. *)
Lemma select_step_fold (tags0 : list EncodedTagInfo)
    (l : list (Z * DestInfo)) :
  NoDup (map fst l) -> (forall x, x ∈ l -> 0 <= x.1) ->
  forall tags q e n,
    (forall x, x ∈ l ->
       num_incoming_transitions (tag_at tags x.1)
       = num_incoming_transitions (tag_at tags0 x.1)) ->
    foldl select_step (tags, q, e, n) l =
    (foldl (select_tags tags0) tags l, foldl (select_queue tags0) q l,
     foldl (select_excluded tags0) e l, foldl (select_count tags0) n l).
Proof.
  induction l as [|[dest info] l IH]; intros Hnd Hpos tags q e n Hinc;
    [reflexivity|].
  cbn [map fst] in Hnd. apply NoDup_cons in Hnd as [Hd Hnd].
  assert (Hhead : num_incoming_transitions (tag_at tags dest)
                  = num_incoming_transitions (tag_at tags0 dest)).
  { apply (Hinc (dest, info)). apply elem_of_cons. left. reflexivity. }
  assert (Hd0 : 0 <= dest).
  { apply (Hpos (dest, info)). apply elem_of_cons. left. reflexivity. }
  assert (Hpos' : forall x, x ∈ l -> 0 <= x.1).
  { intros x Hx. apply Hpos. apply elem_of_cons. right. exact Hx. }
  cbn [foldl].
  unfold select_step at 2, select_tags at 2, select_queue at 2,
    select_excluded at 2, select_count at 2, chosen, queue_entry.
  cbn [fst snd]. rewrite Hhead.
  destruct ((pos info =? kInListPos)
            || (num_transitions info =?
                num_incoming_transitions (tag_at tags0 dest))) eqn:C.
  - cbn [andb]. apply IH; [exact Hnd|exact Hpos'|].
    intros x Hx. destruct (negb (pos info =? kInListPos)).
    + rewrite tag_at_update_ne.
      * apply Hinc. apply elem_of_cons. right. exact Hx.
      * exact Hd0.
      * apply Hpos'. exact Hx.
      * intros ->. apply Hd. apply list_elem_of_fmap. eauto.
    + apply Hinc. apply elem_of_cons. right. exact Hx.
  - cbn [andb]. apply IH; [exact Hnd|exact Hpos'|].
    intros x Hx. apply Hinc. apply elem_of_cons. right. exact Hx.
Qed.

Lemma select_tags_comm (tags0 a : list EncodedTagInfo) (x y : Z * DestInfo) :
  select_tags tags0 (select_tags tags0 a x) y
  = select_tags tags0 (select_tags tags0 a y) x.
Proof.
  unfold select_tags.
  destruct (chosen tags0 x && negb (pos x.2 =? kInListPos));
    destruct (chosen tags0 y && negb (pos y.2 =? kInListPos));
    try reflexivity.
  apply update_tag_comm. intros t. apply sub_num_incoming_comm.
Qed.

Lemma select_queue_comm (tags0 : list EncodedTagInfo)
    (q : list PriorityQueueEntry) (x y : Z * DestInfo) :
  select_queue tags0 (select_queue tags0 q x) y
  = select_queue tags0 (select_queue tags0 q y) x.
Proof.
  unfold select_queue. destruct (chosen tags0 x); destruct (chosen tags0 y);
    try reflexivity. apply pq_push_comm.
Qed.

Lemma select_count_comm (tags0 : list EncodedTagInfo) (n : Z)
    (x y : Z * DestInfo) :
  select_count tags0 (select_count tags0 n x) y
  = select_count tags0 (select_count tags0 n y) x.
Proof.
  unfold select_count. destruct (chosen tags0 x); destruct (chosen tags0 y);
    try reflexivity.
  unfold wrap32. rewrite !Zplus_mod_idemp_l. f_equal. lia.
Qed.

Lemma select_queue_length (tags0 : list EncodedTagInfo)
    (l : list (Z * DestInfo)) :
  forall q,
    length (foldl (select_queue tags0) q l)
    = (length q + length (filter (fun x => chosen tags0 x = true) l))%nat.
Proof.
  induction l as [|x l IH]; intros q; [cbn; lia|].
  cbn [foldl]. rewrite IH, filter_cons. unfold select_queue.
  destruct (chosen tags0 x) eqn:E.
  - rewrite pq_push_length. destruct (decide _) as [H|H]; [|congruence].
    cbn [length]. lia.
  - destruct (decide _) as [H|H]; [congruence|]. lia.
Qed.

Lemma select_excluded_last (tags0 : list EncodedTagInfo)
    (l : list (Z * DestInfo)) :
  forall e,
    foldl (select_excluded tags0) e l =
    match last (filter (fun x => chosen tags0 x = false) l) with
    | Some x => queue_entry x
    | None => e
    end.
Proof.
  induction l as [|x l IH]; intros e; [reflexivity|].
  cbn [foldl]. rewrite IH, filter_cons. unfold select_excluded.
  destruct (chosen tags0 x) eqn:E.
  - destruct (decide _) as [H|H]; [congruence|]. reflexivity.
  - destruct (decide _) as [H|H]; [|congruence].
    destruct (filter _ l) as [|y f] eqn:F; [reflexivity|].
    change (last (x :: y :: f)) with (last (y :: f)).
    destruct (last (y :: f)) eqn:L; [reflexivity|].
    apply last_None in L. discriminate.
Qed.

Lemma filter_chosen_length (tags0 : list EncodedTagInfo)
    (l : list (Z * DestInfo)) :
  (length (filter (fun x => chosen tags0 x = true) l)
   + length (filter (fun x => chosen tags0 x = false) l))%nat = length l.
Proof.
  induction l as [|x l IH]; [reflexivity|].
  rewrite !filter_cons. destruct (chosen tags0 x);
    repeat (destruct (decide _); try congruence); cbn [length]; lia.
Qed.

Lemma map_to_list_keys_NoDup (d : gmap Z DestInfo) :
  NoDup (map fst (map_to_list d)).
Proof. apply (NoDup_fst_map_to_list d). Qed.

Lemma select_private_order
    (order : Z -> gmap Z DestInfo -> list (Z * DestInfo))
    (tags : list EncodedTagInfo) (tag_id : Z) :
  (forall i d, order i d ≡ₚ map_to_list d) ->
  (forall k v, dest_info (tag_at tags tag_id) !! k = Some v -> 0 <= k) ->
  exists tags' q e e0 n,
    select_private order tags tag_id = (tags', q, e, n)
    /\ select_private key_order tags tag_id = (tags', q, e0, n)
    /\ (length q <= size (dest_info (tag_at tags tag_id)))%nat
    /\ ((length q + 1)%nat = size (dest_info (tag_at tags tag_id))
        -> e = e0).
Proof.
  intros Hperm Hkeys. set (d := dest_info (tag_at tags tag_id)) in *.
  assert (Hin : forall l, l ≡ₚ map_to_list d ->
                          forall x, x ∈ l -> 0 <= x.1).
  { intros l Hl [k v] Hx. rewrite Hl in Hx.
    apply elem_of_map_to_list in Hx. exact (Hkeys k v Hx). }
  assert (Hnd : forall l, l ≡ₚ map_to_list d -> NoDup (map fst l)).
  { intros l Hl. rewrite Hl. apply map_to_list_keys_NoDup. }
  rewrite !select_private_fold. fold d.
  rewrite (select_step_fold tags (order tag_id d) (Hnd _ (Hperm tag_id d))
             (Hin _ (Hperm tag_id d)) tags [] _ 0 (fun _ _ => eq_refl)).
  rewrite (select_step_fold tags (map_to_list d) (Hnd _ (reflexivity _))
             (Hin _ (reflexivity _)) tags [] _ 0 (fun _ _ => eq_refl)).
  rewrite (foldl_perm_comm (select_tags tags) _ _ (Hperm tag_id d)
             (fun a x y _ _ => select_tags_comm tags a x y) tags).
  rewrite (foldl_perm_comm (select_queue tags) _ _ (Hperm tag_id d)
             (fun a x y _ _ => select_queue_comm tags a x y) []).
  rewrite (foldl_perm_comm (select_count tags) _ _ (Hperm tag_id d)
             (fun a x y _ _ => select_count_comm tags a x y) 0).
  eexists _, _, _, _, _. split; [reflexivity|]. split; [reflexivity|].
  rewrite select_queue_length. cbn [length Nat.add].
  pose proof (filter_chosen_length tags (map_to_list d)) as Hlen.
  rewrite length_map_to_list in Hlen. fold d. split; [lia|].
  intros Hone.
  assert (H1 : length (filter (fun x => chosen tags x = false)
                         (map_to_list d)) = 1%nat) by lia.
  rewrite !select_excluded_last.
  assert (Hp : filter (fun x => chosen tags x = false) (order tag_id d)
               ≡ₚ filter (fun x => chosen tags x = false) (map_to_list d)).
  { rewrite (Hperm tag_id d). reflexivity. }
  destruct (filter (fun x => chosen tags x = false) (map_to_list d))
    as [|x [|y f]] eqn:F; try discriminate.
  apply Permutation_singleton_r in Hp. rewrite Hp. reflexivity.
Qed.

Lemma create_private_list_order
    (order : Z -> gmap Z DestInfo -> list (Z * DestInfo)) (mt : Z)
    (sm : list StateInfo) (tags : list EncodedTagInfo)
    (noops : list (Z * Z)) (tag_id : Z) :
  (forall i d, order i d ≡ₚ map_to_list d) ->
  (forall k v, dest_info (tag_at tags tag_id) !! k = Some v -> 0 <= k) ->
  Z.of_nat (size (dest_info (tag_at tags tag_id))) < 2 ^ 32 - 1 ->
  create_private_list order mt (Some (sm, tags, noops)) tag_id
  = create_private_list key_order mt (Some (sm, tags, noops)) tag_id.
Proof.
  intros Hperm Hkeys Hsize.
  destruct (select_private_order order tags tag_id Hperm Hkeys)
    as (tags' & q & e & e0 & n & E1 & E2 & Hle & He).
  unfold create_private_list. rewrite E1, E2.
  destruct (wrap32 (Z.of_nat (length q)) =? 0) eqn:Z0; [reflexivity|].
  destruct (wrap32 (wrap32 (Z.of_nat (length q)) + 1)
            =? wrap32 (Z.of_nat (size (dest_info (tag_at tags tag_id)))))
    eqn:C; [|reflexivity].
  rewrite He; [reflexivity|].
  apply Z.eqb_eq in C. unfold wrap32 in C.
  rewrite Zplus_mod_idemp_l in C.
  rewrite !Z.mod_small in C by lia. lia.
Qed.

(** ** The private lists *)

Lemma dests_kept_update (i : nat) (tags0 tags : list EncodedTagInfo)
    (k : Z) (f : EncodedTagInfo -> EncodedTagInfo) :
  dests_kept i tags0 tags ->
  (forall t, dest_info (f t) = dest_info t) \/ (Z.to_nat k < i)%nat ->
  dests_kept i tags0 (update_tag k f tags).
Proof.
  intros H Hf j Hj. rewrite <- (H j Hj). unfold update_tag.
  destruct (decide (j = Z.to_nat k)) as [->|Hne].
  - rewrite list_lookup_alter_eq. destruct Hf as [Hf|Hf]; [|lia].
    destruct (tags !! Z.to_nat k); cbn; [|reflexivity]. rewrite Hf.
    reflexivity.
  - rewrite list_lookup_alter_ne by congruence. reflexivity.
Qed.

Lemma dests_kept_mono (i i' : nat) (tags0 tags : list EncodedTagInfo) :
  (i <= i')%nat -> dests_kept i tags0 tags -> dests_kept i' tags0 tags.
Proof. intros Hi H j Hj. apply H. lia. Qed.

Lemma pos_kept_update (tags : list EncodedTagInfo) (k : Z)
    (f : EncodedTagInfo -> EncodedTagInfo) :
  (forall t, state_machine_pos (f t) = state_machine_pos t) ->
  Forall (fun t => state_machine_pos t = kInvalidPos) tags ->
  Forall (fun t => state_machine_pos t = kInvalidPos) (update_tag k f tags).
Proof.
  intros Hf H. unfold update_tag. apply Forall_alter; [exact H|].
  intros x _ Hx. rewrite Hf. exact Hx.
Qed.

(** A property of the tag list that updates of the incoming counts keep
    is kept by [select_private]. *)
Lemma select_private_keeps (P : list EncodedTagInfo -> Prop)
    (order : Z -> gmap Z DestInfo -> list (Z * DestInfo))
    (tags : list EncodedTagInfo) (tag_id : Z) :
  (forall k n tags, P tags -> P (update_tag k (sub_num_incoming n) tags)) ->
  P tags -> P (select_private order tags tag_id).1.1.1.
Proof.
  intros Hsub. rewrite select_private_fold.
  generalize (order tag_id (dest_info (tag_at tags tag_id))).
  generalize (mkPriorityQueueEntry 0 0). generalize 0.
  generalize (@nil PriorityQueueEntry). generalize tags.
  intros ts q n e l. revert ts q n e.
  induction l as [|[dest info] l IH]; intros ts q n e HP; [exact HP|].
  cbn [foldl]. unfold select_step at 2.
  destruct (_ || _).
  - apply IH. destruct (negb _); [apply Hsub|]; exact HP.
  - apply IH. exact HP.
Qed.

Lemma tag_at_lookup (tags : list EncodedTagInfo) (i : nat)
    (t : EncodedTagInfo) :
  tags !! i = Some t -> tag_at tags (Z.of_nat i) = t.
Proof. intros H. unfold tag_at. rewrite Nat2Z.id, H. reflexivity. Qed.

Lemma dests_kept_at (i : nat) (tags0 tags : list EncodedTagInfo) :
  length tags = length tags0 -> dests_kept i tags0 tags ->
  dest_info (tag_at tags (Z.of_nat i)) = dest_info (tag_at tags0 (Z.of_nat i)).
Proof.
  intros Hlen H. specialize (H i (le_n _)). unfold tag_at.
  rewrite Nat2Z.id.
  destruct (tags !! i) eqn:E1, (tags0 !! i) eqn:E2; cbn in *;
    try congruence.
Qed.

Lemma private_ok_place_top (tags0 : list EncodedTagInfo) (i : nat) (mt : Z)
    (l l' : Layout) :
  place_top mt (Some (Z.of_nat i)) l = Some l' ->
  private_ok tags0 (S i) (l_state_machine l) (l_tags_list l)
    (l_public_list_noops l) ->
  private_ok tags0 (S i) (l_state_machine l') (l_tags_list l')
    (l_public_list_noops l').
Proof.
  intros H (Hlen & Hd & Hp & Hn). unfold place_top in H.
  destruct (l_tag_priority l) as [|top q]; [discriminate|].
  destruct (_ >=? _) eqn:Hps; [discriminate|].
  rewrite Z.geb_leb in Hps. apply Z.leb_gt in Hps.
  destruct (_ =? kInvalidPos).
  - injection H as <-. cbn. unfold private_ok.
    rewrite update_tag_length, length_insert.
    split; [exact Hlen|]. split.
    { apply dests_kept_update; [exact Hd|]. left. reflexivity. }
    split.
    { apply pos_kept_update; [reflexivity|exact Hp]. }
    apply Forall_app. split; [exact Hn|]. apply Forall_singleton. cbn.
    split; [|exact Hps]. unfold wrap32. apply Z.mod_pos_bound. lia.
  - destruct (_ >=? _).
    + destruct (_ !! _); [|discriminate]. injection H as <-. cbn.
      unfold private_ok.
      rewrite set_canonical_sources_length, length_insert. auto.
    + injection H as <-. cbn. unfold private_ok.
      rewrite update_tag_length, length_insert.
      split; [exact Hlen|]. split.
      { apply dests_kept_update; [exact Hd|]. right.
        rewrite Nat2Z.id. lia. }
      split; [|exact Hn].
      apply pos_kept_update; [reflexivity|exact Hp].
Qed.

Lemma place_block_length (mt : Z) (owner : option Z) (n : nat) :
  forall l l', place_block mt owner n l = Some l' ->
               length (l_state_machine l') = length (l_state_machine l).
Proof.
  induction n as [|n IH]; intros l l' H.
  - injection H as <-. reflexivity.
  - cbn [place_block] in H.
    destruct (place_top mt owner l) as [l1|] eqn:E; [|discriminate].
    rewrite (IH _ _ H). apply (place_top_length _ _ _ _ E).
Qed.

Lemma place_blocks_length (mt : Z) (owner : option Z) (fuel : nat) :
  forall bs l l', place_blocks fuel mt owner bs l = Some l' ->
                  length (l_state_machine l') = length (l_state_machine l).
Proof.
  induction fuel as [|fuel IH]; intros bs l l' H; [discriminate|].
  cbn [place_blocks] in H.
  match type of H with
  | context [place_block mt owner ?n ?l0] =>
      destruct (place_block mt owner n l0) as [l1|] eqn:E; [|discriminate];
      apply place_block_length in E; cbn in E
  end.
  destruct (l_tag_priority l1) as [|x q].
  - injection H as <-. exact E.
  - rewrite (IH _ _ _ H). cbn. exact E.
Qed.

Lemma wrap32_range (x : Z) : 0 <= wrap32 x < 2 ^ 32.
Proof. unfold wrap32. apply Z.mod_pos_bound. lia. Qed.

Lemma wrap32_below (x : Z) : 0 <= x -> wrap32 x <= x.
Proof. intros Hx. unfold wrap32. apply Z.mod_le; lia. Qed.

(** A list of [n] entries takes at most [2 * n] states. *)
Lemma layout_states_length (mt : Z) (owner : option Z) (n : Z)
    (sm : list StateInfo) (tags : list EncodedTagInfo) (noops : list (Z * Z))
    (q : list PriorityQueueEntry) (l : Layout) :
  1 <= mt < 2 ^ 32 - 1 -> 0 <= n < 2 ^ 32 ->
  layout_states mt owner n sm tags noops q = Some l ->
  Z.of_nat (length sm) <= Z.of_nat (length (l_state_machine l))
    <= Z.of_nat (length sm) + 2 * n.
Proof.
  intros Hmt Hn H. unfold layout_states in H.
  apply place_blocks_length in H. cbn in H. rewrite H, length_app,
    length_replicate.
  set (noop := if n <=? wrap32 (mt + 1) then 0 else wrap32 (n - 2) / mt).
  assert (Hnoop : 0 <= noop <= n).
  { unfold noop. destruct (n <=? wrap32 (mt + 1)) eqn:E; [lia|].
    apply Z.leb_gt in E. unfold wrap32 in E.
    rewrite Z.mod_small in E by lia.
    unfold wrap32. rewrite Z.mod_small by lia. split.
    - apply Z.div_pos; lia.
    - transitivity (n - 2); [|lia]. apply Z.div_le_upper_bound; nia. }
  pose proof (wrap32_below (n + noop) ltac:(lia)) as H1.
  pose proof (wrap32_range (n + noop)) as H1'.
  pose proof (wrap32_below (Z.of_nat (length sm)) ltac:(lia)) as H2.
  pose proof (wrap32_range (Z.of_nat (length sm))) as H2'.
  pose proof (wrap32_below (wrap32 (Z.of_nat (length sm))
                            + wrap32 (n + noop)) ltac:(lia)) as H3.
  pose proof (wrap32_range (wrap32 (Z.of_nat (length sm))
                            + wrap32 (n + noop))) as H3'.
  fold noop. lia.
Qed.

Lemma private_ok_update (tags0 : list EncodedTagInfo) (i : nat)
    (sm : list StateInfo) (tags : list EncodedTagInfo) (noops : list (Z * Z))
    (k : Z) (f : EncodedTagInfo -> EncodedTagInfo) :
  (forall t, dest_info (f t) = dest_info t) ->
  (forall t, state_machine_pos (f t) = state_machine_pos t) ->
  private_ok tags0 i sm tags noops ->
  private_ok tags0 i sm (update_tag k f tags) noops.
Proof.
  intros Hd Hp (Hlen & Hk & Hpos & Hn). unfold private_ok.
  rewrite update_tag_length. split; [exact Hlen|]. split.
  - apply dests_kept_update; [exact Hk|]. left. exact Hd.
  - split; [|exact Hn]. apply pos_kept_update; assumption.
Qed.

Lemma private_ok_next (tags0 : list EncodedTagInfo) (i : nat)
    (sm : list StateInfo) (tags : list EncodedTagInfo) (noops : list (Z * Z))
    (k : nat) :
  private_ok tags0 i sm tags noops ->
  private_ok tags0 (S i) (sm ++ replicate k StateInfo_default) tags noops.
Proof.
  intros (Hlen & Hk & Hpos & Hn). unfold private_ok.
  split; [exact Hlen|]. split.
  - apply (dests_kept_mono i); [lia|exact Hk].
  - split; [exact Hpos|]. eapply Forall_impl; [exact Hn|].
    intros x Hx. cbn in *. rewrite length_app. lia.
Qed.

Lemma keys_nonneg_at (tags : list EncodedTagInfo) (i : Z) (k : Z)
    (v : DestInfo) :
  keys_nonneg tags -> dest_info (tag_at tags i) !! k = Some v -> 0 <= k.
Proof.
  intros H. unfold tag_at. destruct (tags !! Z.to_nat i) as [t|] eqn:E.
  - cbn. unfold keys_nonneg in H. rewrite Forall_lookup in H.
    apply (H _ _ E).
  - cbn. rewrite lookup_empty. discriminate.
Qed.

(** The private list of tag [i] keeps [private_ok], and takes at most
    two states for each destination of the tag. *)
Lemma create_private_list_keeps
    (order : Z -> gmap Z DestInfo -> list (Z * DestInfo)) (mt : Z)
    (tags0 : list EncodedTagInfo) (i : nat)
    (sm : list StateInfo) (tags : list EncodedTagInfo) (noops : list (Z * Z))
    (sm' : list StateInfo) (tags' : list EncodedTagInfo)
    (noops' : list (Z * Z)) :
  (forall i d, order i d ≡ₚ map_to_list d) ->
  1 <= mt < 2 ^ 32 - 1 ->
  keys_nonneg tags0 ->
  private_ok tags0 i sm tags noops ->
  create_private_list order mt (Some (sm, tags, noops)) (Z.of_nat i)
  = Some (sm', tags', noops') ->
  private_ok tags0 (S i) sm' tags' noops' /\
  Z.of_nat (length sm) <= Z.of_nat (length sm')
    <= Z.of_nat (length sm)
       + 2 * Z.of_nat (size (dest_info (tag_at tags0 (Z.of_nat i)))).
Proof.
  intros Hperm Hmt Hkeys Hok H.
  assert (Hd : dest_info (tag_at tags (Z.of_nat i))
               = dest_info (tag_at tags0 (Z.of_nat i))).
  { destruct Hok as (Hlen & Hk & _). apply dests_kept_at; assumption. }
  assert (Hk0 : forall k v,
             dest_info (tag_at tags (Z.of_nat i)) !! k = Some v -> 0 <= k).
  { intros k v. rewrite Hd. apply keys_nonneg_at. exact Hkeys. }
  destruct (select_private_order order tags (Z.of_nat i) Hperm Hk0)
    as (ts & q & e & e0 & n & E1 & _ & Hle & _).
  pose proof (select_private_keeps
                (fun ts => private_ok tags0 i sm ts noops) order tags
                (Z.of_nat i)) as Hts.
  rewrite E1 in Hts. cbn [fst] in Hts.
  assert (Hok1 : private_ok tags0 i sm ts noops).
  { apply Hts; [|exact Hok]. intros k m ts' Hts'.
    apply private_ok_update; [reflexivity|reflexivity|exact Hts']. }
  clear Hts. unfold create_private_list in H. rewrite E1 in H.
  rewrite Hd in H, Hle.
  set (size_d := size (dest_info (tag_at tags0 (Z.of_nat i)))) in *.
  pose proof (wrap32_below (Z.of_nat (length q)) ltac:(lia)) as Hq.
  pose proof (wrap32_range (Z.of_nat (length q))) as Hq'.
  destruct (wrap32 (Z.of_nat (length q)) =? 0).
  { injection H as <- <- <-. split; [|lia].
    rewrite <- (app_nil_r sm). apply (private_ok_next _ _ _ _ _ 0).
    exact Hok1. }
  assert (Hlay : forall ns q2 ts2 l,
             0 <= ns < 2 ^ 32 -> ns <= Z.of_nat size_d ->
             private_ok tags0 i sm ts2 noops ->
             layout_states mt (Some (Z.of_nat i)) ns sm ts2 noops q2
             = Some l ->
             private_ok tags0 (S i) (l_state_machine l) (l_tags_list l)
               (l_public_list_noops l)
             /\ Z.of_nat (length sm) <= Z.of_nat (length (l_state_machine l))
                <= Z.of_nat (length sm) + 2 * Z.of_nat size_d).
  { intros ns q2 ts2 l Hns Hns' Hok2 L. split.
    - apply (layout_states_keeps (private_ok tags0 (S i)) _ _ _ _ _ _ _ _
               (private_ok_place_top tags0 i mt) L).
      intros k. apply private_ok_next. exact Hok2.
    - pose proof (layout_states_length _ _ _ _ _ _ _ _ Hmt Hns L). lia. }
  pose proof (wrap32_range (Z.of_nat size_d)) as Hsz.
  pose proof (wrap32_range (wrap32 (Z.of_nat (length q)) + 1)) as Hq1.
  pose proof (wrap32_below (wrap32 (Z.of_nat (length q)) + 1) ltac:(lia))
    as Hq1'.
  pose proof (wrap32_below (Z.of_nat size_d) ltac:(lia)) as Hsz'.
  destruct (wrap32 (wrap32 (Z.of_nat (length q)) + 1)
            =? wrap32 (Z.of_nat size_d)) eqn:C1.
  - apply Z.eqb_eq in C1. rewrite C1, Z.eqb_refl in H. cbn [negb] in H.
    match type of H with
    | context [layout_states _ _ ?ns _ ?ts2 _ ?q2] =>
        destruct (layout_states mt (Some (Z.of_nat i)) ns sm ts2 noops q2)
          as [l|] eqn:L; [|discriminate];
        injection H as <- <- <-;
        apply (Hlay _ _ _ _ Hsz Hsz') in L; [exact L|]
    end.
    apply private_ok_update; [reflexivity|reflexivity|].
    apply private_ok_update; [reflexivity|reflexivity|exact Hok1].
  - destruct (negb (wrap32 (Z.of_nat (length q))
                    =? wrap32 (Z.of_nat size_d))) eqn:C2.
    + apply negb_true_iff, Z.eqb_neq in C2.
      assert (Hlt : (length q < size_d)%nat).
      { destruct (decide (length q = size_d)) as [E|E]; [|lia].
        rewrite E in C2. congruence. }
      match type of H with
      | context [layout_states _ _ ?ns _ ?ts2 _ ?q2] =>
          destruct (layout_states mt (Some (Z.of_nat i)) ns sm ts2 noops q2)
            as [l|] eqn:L; [|discriminate];
          injection H as <- <- <-;
          apply (Hlay _ _ _ _ Hq1 ltac:(lia)) in L; [exact L|]
      end.
      apply private_ok_update; [reflexivity|reflexivity|exact Hok1].
    + match type of H with
      | context [layout_states _ _ ?ns _ ?ts2 _ ?q2] =>
          destruct (layout_states mt (Some (Z.of_nat i)) ns sm ts2 noops q2)
            as [l|] eqn:L; [|discriminate];
          injection H as <- <- <-;
          apply (Hlay _ _ _ _ Hq' ltac:(lia)) in L; [exact L|]
      end.
      apply private_ok_update; [reflexivity|reflexivity|exact Hok1].
Qed.

Lemma dest_count_app (l1 l2 : list EncodedTagInfo) :
  dest_count (l1 ++ l2) = (dest_count l1 + dest_count l2)%nat.
Proof.
  unfold dest_count. induction l1 as [|t l1 IH]; [reflexivity|].
  cbn. rewrite IH. lia.
Qed.

Lemma dest_count_take_S (tags : list EncodedTagInfo) (i : nat)
    (t : EncodedTagInfo) :
  tags !! i = Some t ->
  dest_count (take (S i) tags)
  = (dest_count (take i tags) + size (dest_info t))%nat.
Proof.
  intros H. rewrite (take_S_r _ _ _ H), dest_count_app.
  unfold dest_count at 2. cbn. lia.
Qed.

Lemma dest_count_take (tags : list EncodedTagInfo) (i : nat) :
  (dest_count (take i tags) <= dest_count tags)%nat.
Proof.
  rewrite <- (take_drop i tags) at 2. rewrite dest_count_app. lia.
Qed.

Lemma create_private_list_None
    (order : Z -> gmap Z DestInfo -> list (Z * DestInfo)) (mt : Z) (l : list Z) :
  foldl (create_private_list order mt) None l = None.
Proof. induction l as [|i l IH]; [reflexivity|]. exact IH. Qed.

(** The private lists are the same in whatever order the destinations of
    the tags are met, and they take at most two states for each
    destination. *)
Lemma private_lists_order
    (order : Z -> gmap Z DestInfo -> list (Z * DestInfo)) (mt : Z)
    (tags0 : list EncodedTagInfo) :
  (forall i d, order i d ≡ₚ map_to_list d) ->
  1 <= mt < 2 ^ 32 - 1 ->
  keys_nonneg tags0 ->
  2 * Z.of_nat (dest_count tags0) < 2 ^ 32 - 1 ->
  forall (n i : nat) (sm : list StateInfo) (tags : list EncodedTagInfo)
         (noops : list (Z * Z)),
    (i + n)%nat = length tags0 ->
    private_ok tags0 i sm tags noops ->
    Z.of_nat (length sm) <= 2 * Z.of_nat (dest_count (take i tags0)) ->
    foldl (create_private_list order mt) (Some (sm, tags, noops))
      (map Z.of_nat (seq i n))
    = foldl (create_private_list key_order mt) (Some (sm, tags, noops))
        (map Z.of_nat (seq i n))
    /\ forall sm' tags' noops',
         foldl (create_private_list key_order mt) (Some (sm, tags, noops))
           (map Z.of_nat (seq i n)) = Some (sm', tags', noops') ->
         private_ok tags0 (length tags0) sm' tags' noops'
         /\ Z.of_nat (length sm') <= 2 * Z.of_nat (dest_count tags0).
Proof.
  intros Hperm Hmt Hkeys Hbound.
  induction n as [|n IH]; intros i sm tags noops Hi Hok Hlen.
  - cbn. split; [reflexivity|]. intros sm' tags' noops' [= <- <- <-].
    assert (i = length tags0) as -> by lia.
    rewrite firstn_all in Hlen. auto.
  - cbn [seq map foldl].
    destruct (lookup_lt_is_Some_2 tags0 i ltac:(lia)) as [t Ht].
    assert (Hd : dest_info (tag_at tags (Z.of_nat i)) = dest_info t).
    { destruct Hok as (Hl & Hk & _).
      rewrite (dests_kept_at i tags0 tags Hl Hk).
      rewrite (tag_at_lookup _ _ _ Ht). reflexivity. }
    pose proof (dest_count_take_S _ _ _ Ht) as HS.
    pose proof (dest_count_take tags0 (S i)) as HT.
    rewrite (create_private_list_order order mt sm tags noops (Z.of_nat i)
               Hperm).
    2:{ intros k v. rewrite Hd. intros Hkv.
        unfold keys_nonneg in Hkeys. rewrite Forall_lookup in Hkeys.
        exact (Hkeys _ _ Ht k v Hkv). }
    2:{ rewrite Hd. lia. }
    destruct (create_private_list key_order mt (Some (sm, tags, noops))
                (Z.of_nat i)) as [[[sm1 tags1] noops1]|] eqn:E.
    + destruct (create_private_list_keeps key_order mt tags0 i sm tags
                  noops sm1 tags1 noops1 key_order_perm Hmt Hkeys
                  Hok E) as [Hok1 Hlen1].
      rewrite (tag_at_lookup _ _ _ Ht) in Hlen1.
      apply IH; [lia|exact Hok1|lia].
    + rewrite !create_private_list_None. split; [reflexivity|].
      intros sm' tags' noops' [=].
Qed.

(** ** The destinations that the transition statistics leave *)

Lemma dest_count_update_le (tags : list EncodedTagInfo) (k : Z)
    (f : EncodedTagInfo -> EncodedTagInfo) (c : nat) :
  (forall t, (size (dest_info (f t)) <= size (dest_info t) + c)%nat) ->
  (dest_count (update_tag k f tags) <= dest_count tags + c)%nat.
Proof.
  intros Hf. unfold update_tag. generalize (Z.to_nat k). clear k.
  induction tags as [|t tags IH]; intros [|i]; unfold dest_count in *; cbn;
    try lia.
  - specialize (Hf t). lia.
  - specialize (IH i). cbn in IH. lia.
Qed.

Lemma keys_nonneg_update (tags : list EncodedTagInfo) (k : Z)
    (f : EncodedTagInfo -> EncodedTagInfo) :
  (forall t, (forall j v, dest_info t !! j = Some v -> 0 <= j) ->
             forall j v, dest_info (f t) !! j = Some v -> 0 <= j) ->
  keys_nonneg tags -> keys_nonneg (update_tag k f tags).
Proof.
  intros Hf H. unfold keys_nonneg, update_tag.
  apply Forall_alter; [exact H|]. intros t _. apply Hf.
Qed.

Lemma incr_num_transitions_size (p : Z) (t : EncodedTagInfo) :
  (size (dest_info (incr_num_transitions p t)) <= size (dest_info t) + 1)%nat.
Proof.
  unfold incr_num_transitions. cbn. rewrite map_size_insert.
  destruct (dest_info t !! p); cbn; lia.
Qed.

Lemma incr_num_transitions_keys (p : Z) (t : EncodedTagInfo) :
  0 <= p ->
  (forall j v, dest_info t !! j = Some v -> 0 <= j) ->
  forall j v, dest_info (incr_num_transitions p t) !! j = Some v -> 0 <= j.
Proof.
  intros Hp H j v. unfold incr_num_transitions. cbn.
  destruct (decide (j = p)) as [->|Hne].
  - intros _. exact Hp.
  - rewrite lookup_insert_ne by congruence. apply H.
Qed.

Lemma CollectTransitionStatistics_loop_keeps (rest : list Z) :
  forall (prev : Z) (tags : list EncodedTagInfo),
    Forall (fun p => 0 <= p) rest ->
    keys_nonneg tags ->
    Forall (fun t => state_machine_pos t = kInvalidPos) tags ->
    keys_nonneg (CollectTransitionStatistics_loop prev rest tags) /\
    Forall (fun t => state_machine_pos t = kInvalidPos)
      (CollectTransitionStatistics_loop prev rest tags) /\
    (dest_count (CollectTransitionStatistics_loop prev rest tags)
     <= dest_count tags + length rest)%nat /\
    length (CollectTransitionStatistics_loop prev rest tags) = length tags.
Proof.
  induction rest as [|p rest IH]; intros prev tags Hrest Hk Hp.
  - cbn [CollectTransitionStatistics_loop length].
    split; [exact Hk|]. split; [exact Hp|]. split; [lia|reflexivity].
  - apply Forall_cons in Hrest as [Hp0 Hrest].
    cbn [CollectTransitionStatistics_loop length].
    set (tags1 := update_tag p incr_num_incoming
                    (update_tag prev (incr_num_transitions p) tags)).
    assert (Hk1 : keys_nonneg tags1).
    { apply keys_nonneg_update; [intros t Ht; exact Ht|].
      apply keys_nonneg_update; [|exact Hk].
      intros t. apply incr_num_transitions_keys. exact Hp0. }
    assert (Hp1 : Forall (fun t => state_machine_pos t = kInvalidPos) tags1).
    { apply pos_kept_update; [reflexivity|].
      apply pos_kept_update; [reflexivity|exact Hp]. }
    assert (Hc1 : (dest_count tags1 <= dest_count tags + 1)%nat).
    { pose proof (dest_count_update_le
                    (update_tag prev (incr_num_transitions p) tags) p
                    incr_num_incoming 0
                    ltac:(intros t;
                          change (dest_info (incr_num_incoming t))
                            with (dest_info t); lia)) as H1.
      pose proof (dest_count_update_le tags prev (incr_num_transitions p) 1
                    (incr_num_transitions_size p)) as H2.
      fold tags1 in H1. lia. }
    destruct (IH p tags1 Hrest Hk1 Hp1) as (G1 & G2 & G3 & G4).
    split; [exact G1|]. split; [exact G2|]. split; [lia|].
    rewrite G4. unfold tags1. rewrite !update_tag_length. reflexivity.
Qed.

Lemma dest_count_fresh (tags : list EncodedTagInfo) :
  Forall (fun t => t = EncodedTagInfo_new (node_id t) (subtype t)) tags ->
  dest_count tags = 0%nat.
Proof.
  unfold dest_count. induction 1 as [|t l Ht _ IH]; [reflexivity|].
  cbn. rewrite IH, Ht. cbn. rewrite map_size_empty. reflexivity.
Qed.

(** After [CollectTransitionStatistics], the tags have at most as many
    destinations as there are encoded tags. *)
Lemma CollectTransitionStatistics_dests (e : Encoder) :
  ingested e ->
  let tags := tags_list_ (CollectTransitionStatistics e) in
  keys_nonneg tags /\
  Forall (fun t => state_machine_pos t = kInvalidPos) tags /\
  (dest_count tags <= length (encoded_tags_ e))%nat /\
  length tags = length (tags_list_ e).
Proof.
  intros (Henc & Hfresh & _ & _).
  assert (Hk : keys_nonneg (tags_list_ e)).
  { unfold keys_nonneg. eapply Forall_impl; [exact Hfresh|].
    intros t Ht k v. rewrite Ht. cbn. rewrite lookup_empty. discriminate. }
  assert (Hp : Forall (fun t => state_machine_pos t = kInvalidPos)
                 (tags_list_ e)).
  { eapply Forall_impl; [exact Hfresh|]. intros t Ht. rewrite Ht.
    reflexivity. }
  assert (Hc : dest_count (tags_list_ e) = 0%nat).
  { apply dest_count_fresh. exact Hfresh. }
  unfold CollectTransitionStatistics.
  destruct (reverse (encoded_tags_ e)) as [|back rest] eqn:E.
  { cbn zeta. split; [exact Hk|]. split; [exact Hp|].
    split; [lia|reflexivity]. }
  assert (Hrest : Forall (fun p => 0 <= p) rest).
  { assert (H : Forall (fun t => 0 <= t) (reverse (encoded_tags_ e))).
    { apply Forall_reverse. eapply Forall_impl; [exact Henc|].
      intros t Ht. cbn in Ht. lia. }
    rewrite E in H. apply Forall_cons in H as [_ H]. exact H. }
  assert (Hlen : length (encoded_tags_ e) = S (length rest)).
  { rewrite <- length_reverse, E. reflexivity. }
  destruct (CollectTransitionStatistics_loop_keeps rest back (tags_list_ e)
              Hrest Hk Hp) as (G1 & G2 & G3 & G4).
  cbn zeta.
  destruct (_ =? 0); cbn -[dest_count keys_nonneg update_tag].
  - split.
    { apply keys_nonneg_update; [intros t Ht; exact Ht|exact G1]. }
    split.
    { apply pos_kept_update; [reflexivity|exact G2]. }
    split.
    { pose proof (dest_count_update_le
                    (CollectTransitionStatistics_loop back rest
                       (tags_list_ e)) back
                    (set_num_incoming_transitions 1) 0
                    ltac:(intros t;
                          change (dest_info
                                    (set_num_incoming_transitions 1 t))
                            with (dest_info t); lia)). lia. }
    rewrite update_tag_length. exact G4.
  - split; [exact G1|]. split; [exact G2|]. split; [lia|exact G4].
Qed.

(** ** The destinations that the marking keeps *)

Lemma same_dests_mark (order : Z -> gmap Z DestInfo -> list (Z * DestInfo))
    (min_count : Z) (ref tags : list EncodedTagInfo) (tag_id : Z) :
  (forall i d, order i d ≡ₚ map_to_list d) ->
  Forall2 same_dests ref tags ->
  Forall2 same_dests ref (mark_in_list order min_count tags tag_id).
Proof.
  intros Hperm Hsame. unfold mark_in_list.
  set (d0 := dest_info (tag_at tags tag_id)).
  assert (Hin : forall x, x ∈ order tag_id d0 -> x.1 ∈ dom d0).
  { intros [k v] Hx. rewrite Hperm in Hx. apply elem_of_map_to_list in Hx.
    apply elem_of_dom. eauto. }
  assert (Hd0 : forall x, ref !! Z.to_nat tag_id = Some x ->
                          dom (dest_info x) = dom d0).
  { intros x Hx. destruct (Forall2_lookup_l _ _ _ _ _ Hsame Hx)
      as (y & Hy & Hxy). unfold d0, tag_at. rewrite Hy. cbn.
    symmetry. apply Hxy. }
  clearbody d0. revert Hin. generalize (order tag_id d0). intros l.
  revert tags Hsame. induction l as [|[dest count] l IH];
    intros tags Hsame Hin; [exact Hsame|].
  cbn [foldl]. apply IH.
  2:{ intros x Hx. apply Hin. apply elem_of_cons. right. exact Hx. }
  destruct (_ >=? _); [|exact Hsame].
  unfold update_tag. apply Forall2_alter_r.
  - apply Forall2_alter_r; [exact Hsame|].
    intros x y _ _ Hxy. exact Hxy.
  - intros x y Hx _ [Hxy1 Hxy2]. split; [|exact Hxy2].
    unfold set_dest_pos. cbn. rewrite dom_insert_L, Hxy1.
    specialize (Hin (dest, count) ltac:(apply elem_of_cons; left;
                                        reflexivity)).
    cbn in Hin. apply subseteq_union_1_L, singleton_subseteq_l.
    rewrite (Hd0 x Hx). exact Hin.
Qed.

Lemma same_dests_mark_all (order : Z -> gmap Z DestInfo -> list (Z * DestInfo))
    (min_count : Z) (ref : list EncodedTagInfo) (l : list Z) :
  (forall i d, order i d ≡ₚ map_to_list d) ->
  forall tags,
    Forall2 same_dests ref tags ->
    Forall2 same_dests ref (foldl (mark_in_list order min_count) tags l).
Proof.
  intros Hperm. induction l as [|i l IH]; intros tags H; [exact H|].
  cbn [foldl]. apply IH. apply same_dests_mark; assumption.
Qed.

Lemma same_dests_refl (tags : list EncodedTagInfo) :
  Forall2 same_dests tags tags.
Proof. induction tags; constructor; [split; reflexivity|assumption]. Qed.

Lemma same_dests_keeps (ref tags : list EncodedTagInfo) :
  Forall2 same_dests ref tags ->
  length tags = length ref /\
  dest_count tags = dest_count ref /\
  (keys_nonneg ref -> keys_nonneg tags) /\
  (Forall (fun t => state_machine_pos t = kInvalidPos) ref ->
   Forall (fun t => state_machine_pos t = kInvalidPos) tags).
Proof.
  induction 1 as [|x y ref tags [Hd Hp] _ (IH1 & IH2 & IH3 & IH4)].
  - repeat split; auto.
  - split; [cbn; lia|]. split.
    { unfold dest_count in *. cbn. rewrite IH2.
      rewrite <- (size_dom (dest_info y)), <- (size_dom (dest_info x)), Hd.
      reflexivity. }
    split.
    + intros Hk. apply Forall_cons in Hk as [Hx Hk].
      apply Forall_cons. split; [|apply IH3; exact Hk].
      intros k v Hkv. assert (Hin : k ∈ dom (dest_info x)).
      { rewrite <- Hd. apply elem_of_dom. eauto. }
      apply elem_of_dom in Hin as [v' Hv']. exact (Hx k v' Hv').
    + intros Hk. apply Forall_cons in Hk as [Hx Hk].
      apply Forall_cons. split; [congruence|apply IH4; exact Hk].
Qed.

(** ** The state machine, the header and the chunk *)

Lemma tag_at_pos_invalid (tags : list EncodedTagInfo) (i : Z) :
  Forall (fun t => state_machine_pos t = kInvalidPos) tags ->
  state_machine_pos (tag_at tags i) = kInvalidPos.
Proof.
  intros H. unfold tag_at. destruct (tags !! Z.to_nat i) as [t|] eqn:E.
  - cbn. rewrite Forall_lookup in H. exact (H _ _ E).
  - reflexivity.
Qed.

(** The state machine is the same in whatever order the loops over the
    destinations of a tag meet them. *)
Lemma CreateStateMachine_order
    (order : Z -> gmap Z DestInfo -> list (Z * DestInfo))
    (mt min_count : Z) (e : Encoder) :
  (forall i d, order i d ≡ₚ map_to_list d) ->
  1 <= mt ->
  ingested e ->
  2 * Z.of_nat (length (encoded_tags_ e))
    + 3 * Z.of_nat (length (tags_list_ e)) + mt + 2 <= 2 ^ 32 ->
  CreateStateMachine order mt min_count e
  = CreateStateMachine key_order mt min_count e.
Proof.
  intros Hperm Hmt Hing Hbound. unfold CreateStateMachine.
  destruct (CollectTransitionStatistics_dests e Hing) as (K1 & K2 & K3 & K4).
  destruct (encoded_tags_ e) as [|first others] eqn:Eenc; [reflexivity|].
  set (e1 := CollectTransitionStatistics e) in *.
  rewrite (mark_all_order order) by exact Hperm.
  set (tags0 := foldl (mark_in_list key_order min_count) (tags_list_ e1)
                  (indices (length (tags_list_ e1)))).
  destruct (same_dests_keeps (tags_list_ e1) tags0) as (M1 & M2 & M3 & M4).
  { apply same_dests_mark_all; [exact key_order_perm|].
    apply same_dests_refl. }
  specialize (M3 K1). specialize (M4 K2).
  rewrite M1.
  destruct (private_lists_order order mt tags0 Hperm ltac:(lia) M3
              ltac:(lia) (length tags0) 0 [] tags0 [] eq_refl)
    as [Heq Hinv].
  { split; [reflexivity|]. split; [intros j _; reflexivity|].
    split; [exact M4|constructor]. }
  { cbn. lia. }
  unfold indices. rewrite <- M1. rewrite Heq.
  destruct (foldl (create_private_list key_order mt) (Some ([], tags0, []))
              (map Z.of_nat (seq 0 (length tags0))))
    as [[[sm1 tags1] noops1]|] eqn:EP; [|reflexivity].
  destruct (Hinv _ _ _ eq_refl) as [(L1 & L2 & L3 & L4) L5].
  assert (Hplb : wrap32 (Z.of_nat (length sm1)) = Z.of_nat (length sm1)).
  { unfold wrap32. apply Z.mod_small. lia. }
  rewrite Hplb.
  destruct (create_public_list mt sm1 tags1) as [[sm2 tags2]|] eqn:EPub;
    [|reflexivity].
  pose proof (create_public_list_tree mt sm1 sm2 tags1 tags2 Hmt
                (fun i => tag_at_pos_invalid tags1 i L3)) as HT.
  cbv zeta in HT.
  destruct (HT ltac:(lia) EPub) as (T1 & T2 & T3 & T4).
  rewrite (ComputeBaseIndices_order order mt (Z.of_nat (length sm1)) noops1
             sm2 tags2 Hperm); try assumption; try lia.
  - reflexivity.
  - unfold kInvalidPos. lia.
Qed.

(** A map with one entry is met in one order only. *)
Lemma guard_last_state_order
    (order : Z -> gmap Z DestInfo -> list (Z * DestInfo)) (e : Encoder) :
  (forall i d, order i d ≡ₚ map_to_list d) ->
  guard_last_state order e = guard_last_state key_order e.
Proof.
  intros Hperm. unfold guard_last_state, key_order.
  destruct (encoded_tags_ e) as [|first others]; [reflexivity|].
  set (d := dest_info (tag_at (tags_list_ e) first)).
  destruct (size d =? 1)%nat eqn:E; [|reflexivity].
  apply Nat.eqb_eq in E. rewrite <- length_map_to_list in E.
  specialize (Hperm first d).
  destruct (map_to_list d) as [|x [|y l]]; try discriminate.
  apply Permutation_singleton_r in Hperm. rewrite Hperm. reflexivity.
Qed.

Lemma WriteStatesAndData_order
    (order : Z -> gmap Z DestInfo -> list (Z * DestInfo))
    (compression_type bucket_size : Z) (compress : list byte -> list byte)
    (mt : Z) (sm : list StateInfo) (e : Encoder) :
  (forall i d, order i d ≡ₚ map_to_list d) ->
  WriteStatesAndData order compression_type bucket_size compress mt sm e
  = WriteStatesAndData key_order compression_type bucket_size compress
      mt sm e.
Proof.
  intros Hperm. unfold WriteStatesAndData.
  rewrite (guard_last_state_order order e Hperm). reflexivity.
Qed.

Lemma EncodeAndCloseInternal_order
    (order : Z -> gmap Z DestInfo -> list (Z * DestInfo))
    (compression_type bucket_size : Z) (compress : list byte -> list byte)
    (mt min_count : Z) (dest : list byte) (e : Encoder) :
  (forall i d, order i d ≡ₚ map_to_list d) ->
  1 <= mt ->
  ingested e ->
  2 * Z.of_nat (length (encoded_tags_ e))
    + 3 * Z.of_nat (length (tags_list_ e)) + mt + 2 <= 2 ^ 32 ->
  EncodeAndCloseInternal order compression_type bucket_size compress mt
    min_count dest e
  = EncodeAndCloseInternal key_order compression_type bucket_size compress
      mt min_count dest e.
Proof.
  intros Hperm Hmt Hing Hbound. unfold EncodeAndCloseInternal.
  rewrite (CreateStateMachine_order order mt min_count e Hperm Hmt Hing
             Hbound).
  destruct (CreateStateMachine key_order mt min_count e) as [[sm e']|];
    [|reflexivity].
  rewrite (WriteStatesAndData_order order _ _ _ _ _ _ Hperm). reflexivity.
Qed.

Lemma EncodeAndClose_order
    (order : Z -> gmap Z DestInfo -> list (Z * DestInfo))
    (compression_type bucket_size : Z) (compress : list byte -> list byte)
    (dest : list byte) (e : Encoder) :
  (forall i d, order i d ≡ₚ map_to_list d) ->
  ingested e ->
  2 * Z.of_nat (length (encoded_tags_ e))
    + 3 * Z.of_nat (length (tags_list_ e)) + 65 <= 2 ^ 32 ->
  EncodeAndClose order compression_type bucket_size compress dest e
  = EncodeAndClose key_order compression_type bucket_size compress dest e.
Proof.
  intros Hperm Hing Hbound. unfold EncodeAndClose.
  apply EncodeAndCloseInternal_order; try assumption; unfold kMaxTransition;
    lia.
Qed.

(** C9. Determinism: two runs of the encoder on the same records with
    the same configuration give the same result, and so the same output
    bytes. The runs may differ in the order in which their loops over
    the destinations of a tag, which are kept in a hash map, meet them:
    [order1 tag_id d] in one run and [order2 tag_id d] in the other, for
    the destinations [d] of the tag [tag_id]. The chunk holds fewer than
    [2 ^ 32] states: twice the number of encoded tags, three times the
    number of distinct tags and 65 are at most [2 ^ 32]. *)
Theorem EncodeAndClose_deterministic
    (order1 order2 : Z -> gmap Z DestInfo -> list (Z * DestInfo))
    (kMaxNumRecords compression_type bucket_size : Z)
    (compress : list byte -> list byte)
    (records : list (list byte)) (oks : list bool) (e : Encoder)
    (dest : list byte) :
  (forall i d, order1 i d ≡ₚ map_to_list d) ->
  (forall i d, order2 i d ≡ₚ map_to_list d) ->
  AddRecord_each kMaxNumRecords records Encoder_new = Some (oks, e) ->
  2 * Z.of_nat (length (encoded_tags_ e))
    + 3 * Z.of_nat (length (tags_list_ e)) + 65 <= 2 ^ 32 ->
  EncodeAndClose order1 compression_type bucket_size compress dest e
  = EncodeAndClose order2 compression_type bucket_size compress dest e.
Proof.
  intros H1 H2 Hrec Hbound.
  assert (Hing : ingested e).
  { exact (AddRecord_each_ingested kMaxNumRecords records _ _ _ Hrec
             Encoder_new_ingested). }
  rewrite (EncodeAndClose_order order1) by assumption.
  rewrite (EncodeAndClose_order order2) by assumption.
  reflexivity.
Qed.

(** * Further properties of the encoder *)

(** ** Records that are messages *)

(** X1: [AddMessage] has [IsProtoMessage] as its precondition. On a record
    that [IsProtoMessage] accepts, [AddMessage] returns, so that none of
    the branches it marks unreachable is reached, whatever the encoder
    was before, and it leaves the health of the encoder, its counters
    and the group stack as they were. *)
Theorem AddMessage_reads_what_IsProtoMessage_accepts (record : list byte)
    (parent_message_id depth : Z) (e : Encoder) :
  IsProtoMessage record = true ->
  exists e',
    AddMessage (length record) record parent_message_id depth e = Some e' /\
    state_ e' = state_ e /\ num_records_ e' = num_records_ e /\
    decoded_data_size_ e' = decoded_data_size_ e /\
    group_stack_ e' = group_stack_ e.
Proof.
  intros H.
  destruct (AddMessage_total (fun b => b) (length record) record []
              (length record) parent_message_id depth e
              (IsProtoMessage_true_loop record H)
              (le_n _) ltac:(cbn; lia))
    as (e' & A & B & C & D & E).
  exists e'. rewrite drop_0 in E. auto.
Qed.

(** ** What the records leave in the encoder *)

(** X2: Whatever records were added to a new encoder, every encoded tag is
    an index of [tags_list_], every position that a node keeps for a
    subtype is none or an index of [tags_list_], the entries of
    [tags_list_] are as their constructor left them, and no value buffer
    is empty. *)
Theorem AddRecord_keeps_tags_in_range (kMaxNumRecords : Z)
    (records : list (list byte)) (oks : list bool) (e : Encoder) :
  AddRecord_each kMaxNumRecords records Encoder_new = Some (oks, e) ->
  Forall (fun t => 0 <= t < Z.of_nat (length (tags_list_ e)))
    (encoded_tags_ e) /\
  Forall (fun t => t = EncodedTagInfo_new (node_id t) (subtype t))
    (tags_list_ e) /\
  (forall id node, message_nodes_ e !! id = Some node ->
     Forall (tag_pos_ok (tags_list_ e)) (encoded_tag_pos node)) /\
  Forall (Forall (fun b => buffer b <> [])) (data_ e).
Proof.
  intros H.
  exact (AddRecord_each_ingested kMaxNumRecords records _ _ _ H
           Encoder_new_ingested).
Qed.

(** X3: [GetBuffer] gives a node one buffer, the first time a value of the
    node is written: whatever records were added to a new encoder, the
    writer of the node of every buffer is at the place of that buffer,
    and no two buffers, of one kind or of two, have the same node. *)
Theorem GetBuffer_one_buffer_for_a_node (kMaxNumRecords : Z)
    (records : list (list byte)) (oks : list bool) (e : Encoder) :
  AddRecord_each kMaxNumRecords records Encoder_new = Some (oks, e) ->
  (forall i j bs b,
      data_ e !! i = Some bs -> bs !! j = Some b ->
      exists node,
        message_nodes_ e !! buffer_node_id b = Some node /\
        writer node = Some (i, j)) /\
  NoDup (map buffer_node_id (concat (data_ e))).
Proof.
  intros H.
  pose proof (AddRecord_each_owned kMaxNumRecords records _ _ _ H
                Encoder_new_owned) as Ho.
  split; [exact Ho|apply owned_NoDup; exact Ho].
Qed.

(** ** The order of the buffers *)

(** X4: The comparison that [WriteBuffers] gives to [std::sort] is a strict
    order, as [std::sort] requires: no buffer is before itself, of two
    buffers at most one is before the other, the comparison is
    transitive, and so is its negation. Of two buffers of different nodes
    one is before the other. *)
Theorem buffer_before_strict_order :
  (forall a, buffer_before a a = false) /\
  (forall a b, buffer_before a b = true -> buffer_before b a = false) /\
  (forall a b c, buffer_before a b = true -> buffer_before b c = true ->
                 buffer_before a c = true) /\
  (forall a b c, buffer_before a b = false -> buffer_before b c = false ->
                 buffer_before a c = false) /\
  (forall a b, buffer_node_id a <> buffer_node_id b ->
               buffer_before a b = true \/ buffer_before b a = true).
Proof.
  split; [|split; [|split; [|split]]].
  - intros a. destruct (buffer_before a a) eqn:E; [|reflexivity].
    rewrite (buffer_before_asym a a E) in E. discriminate.
  - apply buffer_before_asym.
  - apply buffer_before_trans.
  - intros a b c. unfold buffer_before.
    repeat match goal with
           | |- context [negb (?x =? ?y)%nat] => destruct (Nat.eqb_spec x y)
           | |- context [negb (?x =? ?y)] => destruct (Z.eqb_spec x y)
           end; cbn [negb];
      rewrite ?Nat.ltb_lt, ?Nat.ltb_ge, ?Z.ltb_lt, ?Z.ltb_ge; lia.
  - apply buffer_before_total.
Qed.

(** X5: [std::sort] does not say in which order it leaves buffers of which
    none is before the other. For the buffers of one kind that records
    leave there is no choice: they are of different nodes, so that any
    arrangement of them in which no buffer is before an earlier one is
    the one of [sort_buffers], which is such an arrangement. *)
Theorem sort_buffers_is_the_sorted_order (kMaxNumRecords : Z)
    (records : list (list byte)) (oks : list bool) (e : Encoder)
    (buffers sorted : list BufferWithMetadata) :
  AddRecord_each kMaxNumRecords records Encoder_new = Some (oks, e) ->
  buffers ∈ data_ e ->
  sorted ≡ₚ buffers -> in_order sorted ->
  sorted = sort_buffers buffers /\
  sort_buffers buffers ≡ₚ buffers /\ in_order (sort_buffers buffers).
Proof.
  intros H Hin Hp Hs.
  pose proof (AddRecord_each_owned kMaxNumRecords records _ _ _ H
                Encoder_new_owned) as Ho.
  split; [exact (sort_buffers_unique e buffers sorted Ho Hin Hp Hs)|].
  split; [apply sort_buffers_perm|apply sort_buffers_in_order].
Qed.

(** ** The priority queue *)

(** X6: [operator<] on the entries of the priority queue is a strict total
    order: no entry is less than itself, of two entries at most one is
    less than the other, the comparison is transitive, and of two
    different entries one is less than the other. An entry with more
    transitions is less; with as many, the one with the smaller index. *)
Theorem entry_lt_strict_total_order :
  (forall a, entry_lt a a = false) /\
  (forall a b, entry_lt a b = true -> entry_lt b a = false) /\
  (forall a b c, entry_lt a b = true -> entry_lt b c = true ->
                 entry_lt a c = true) /\
  (forall a b, a <> b -> entry_lt a b = true \/ entry_lt b a = true) /\
  (forall a b, entry_lt a b = true <->
               entry_num_transitions b < entry_num_transitions a \/
               (entry_num_transitions a = entry_num_transitions b /\
                dest_index a < dest_index b)).
Proof.
  split; [|split; [|split; [|split]]].
  - intros a. destruct (entry_lt a a) eqn:E; [|reflexivity].
    rewrite (entry_lt_asym a a E) in E. discriminate.
  - apply entry_lt_asym.
  - apply entry_lt_trans.
  - apply entry_lt_total.
  - intros a b. unfold entry_lt.
    destruct (Z.eqb_spec (entry_num_transitions a) (entry_num_transitions b));
      cbn [negb]; rewrite ?Z.gtb_ltb, Z.ltb_lt; lia.
Qed.

Lemma pq_push_ordered (x : PriorityQueueEntry)
    (q : list PriorityQueueEntry) :
  queue_ordered q -> queue_ordered (pq_push x q).
Proof.
  induction q as [|y q IH]; cbn [pq_push queue_ordered].
  - intros _. split; [constructor|exact I].
  - intros [Hy Hq]. destruct (entry_lt y x) eqn:E; cbn [queue_ordered].
    + split; [|split; assumption].
      constructor; [apply entry_lt_asym; exact E|].
      eapply Forall_impl; [exact Hy|]. cbn. intros z Hz.
      destruct (entry_lt x z) eqn:Ez; [|reflexivity].
      rewrite (entry_lt_trans y x z E Ez) in Hz. discriminate.
    + split; [|apply IH; exact Hq].
      apply pq_push_Forall; [exact E|exact Hy].
Qed.

(** X7: The queue does not depend on the order of the pushes: entries
    pushed in two orders give the same queue, which holds the entries
    pushed and no other, with an entry at the top that is less than no
    other, and so on after every pop. *)
Theorem pq_push_any_order (l1 l2 : list PriorityQueueEntry) :
  l1 ≡ₚ l2 ->
  foldr pq_push [] l1 = foldr pq_push [] l2 /\
  foldr pq_push [] l1 ≡ₚ l1 /\
  queue_ordered (foldr pq_push [] l1).
Proof.
  intros Hp. split; [|split].
  - induction Hp as [|x l1 l2 Hp IH|x y l|l1 l2 l3 Hp1 IH1 Hp2 IH2].
    + reflexivity.
    + cbn [foldr]. rewrite IH. reflexivity.
    + cbn [foldr]. apply pq_push_comm.
    + congruence.
  - clear Hp. induction l1 as [|x l IH]; cbn [foldr]; [reflexivity|].
    rewrite pq_push_perm, IH. reflexivity.
  - clear Hp. induction l1 as [|x l IH]; cbn [foldr]; [exact I|].
    apply pq_push_ordered. exact IH.
Qed.

(** ** The state machine *)

(** X8: The first loop of [CreateStateMachine], which marks the frequent
    destinations of every tag and takes their transitions off the
    incoming counts, gives the same tag list in whatever order it meets
    the destinations of a tag in the hash map. *)
Theorem mark_in_list_any_order
    (order : Z -> gmap Z DestInfo -> list (Z * DestInfo))
    (min_count_for_state : Z) (tags : list EncodedTagInfo) :
  (forall i d, order i d ≡ₚ map_to_list d) ->
  foldl (mark_in_list order min_count_for_state) tags
    (indices (length tags))
  = foldl (mark_in_list key_order min_count_for_state) tags
      (indices (length tags)).
Proof. intros H. apply mark_all_order. exact H. Qed.

(** Every state that a placement writes is the state of a tag, without
    a base, or a NoOp state. *)
Lemma place_top_tag_or_noop (plb : nat) (mt : Z) (owner : option Z)
    (l l' : Layout) :
  place_top mt owner l = Some l' ->
  Forall tag_or_noop (drop plb (state_kind <$> l_state_machine l)) ->
  Forall tag_or_noop (drop plb (state_kind <$> l_state_machine l')).
Proof.
  intros H HP.
  assert (Hput : forall i a b,
             tag_or_noop (a, b) ->
             Forall tag_or_noop
               (drop plb (state_kind <$> <[i := StateInfo_new a b]>
                                           (l_state_machine l)))).
  { intros i a b Hab. rewrite list_fmap_insert, drop_insert.
    destruct (decide _); [apply Forall_insert|]; assumption. }
  unfold place_top in H.
  destruct (l_tag_priority l) as [|top q]; [discriminate|].
  destruct (_ >=? _); [discriminate|].
  destruct owner as [tag_id|].
  - destruct (_ =? kInvalidPos).
    + injection H as <-. cbn [l_state_machine]. apply Hput. left. reflexivity.
    + destruct (_ >=? _).
      * destruct (_ !! _); [|discriminate]. injection H as <-.
        cbn [l_state_machine]. rewrite state_kind_set_canonical_sources.
        apply Hput. right. reflexivity.
      * injection H as <-. cbn [l_state_machine]. apply Hput. left.
        reflexivity.
  - destruct (_ >=? _).
    + destruct (_ !! _); [|discriminate]. injection H as <-.
      cbn [l_state_machine]. rewrite state_kind_set_canonical_sources.
      apply Hput. right. reflexivity.
    + injection H as <-. cbn [l_state_machine]. apply Hput. left.
      reflexivity.
Qed.

(** The states of the public list are states of tags, without a base,
    and NoOp states. *)
Lemma create_public_list_tag_or_noop (mt : Z) (sm sm' : list StateInfo)
    (tags tags' : list EncodedTagInfo) :
  create_public_list mt sm tags = Some (sm', tags') ->
  Forall tag_or_noop (drop (length sm) (state_kind <$> sm')).
Proof.
  unfold create_public_list. intros H. destruct (_ >? 0).
  - destruct (layout_states mt None _ sm tags [] (public_queue tags))
      as [l|] eqn:L; [|discriminate].
    injection H as <- <-.
    eapply (layout_states_keeps
              (fun sm0 _ _ =>
                 Forall tag_or_noop (drop (length sm) (state_kind <$> sm0)))
              mt None); [|exact L|].
    + intros l0 l1 H0. exact (place_top_tag_or_noop _ _ _ _ _ H0).
    + intros k. rewrite fmap_app.
      rewrite drop_app_length' by (rewrite length_fmap; reflexivity).
      rewrite fmap_replicate. apply Forall_replicate. left. reflexivity.
  - injection H as <- <-. rewrite drop_ge by (rewrite length_fmap; lia).
    constructor.
Qed.

(** X9: The layout of the public list returns and leaves a tree of blocks
    of [max_transition + 1] states: the states of the block at the base
    of the list have no canonical source, and the states of every other
    block have one canonical source, a state of the public list before
    the block, which is a NoOp state, with no tag, and whose base is the
    start of the block. The list takes at most two states for each tag,
    and a tag has its state in it or none. *)
Theorem create_public_list_is_a_tree (max_transition : Z)
    (state_machine : list StateInfo) (tags : list EncodedTagInfo) :
  1 <= max_transition ->
  (forall i, state_machine_pos (tag_at tags i) = kInvalidPos) ->
  Z.of_nat (length state_machine) + 3 * Z.of_nat (length tags)
    + max_transition + 2 <= 2 ^ 32 ->
  exists state_machine' tags',
    create_public_list max_transition state_machine tags
      = Some (state_machine', tags') /\
    public_tree max_transition (Z.of_nat (length state_machine))
      state_machine' /\
    (forall p,
        Z.of_nat (length state_machine) <= p
          < Z.of_nat (length state_machine') ->
        block_of max_transition (Z.of_nat (length state_machine)) p
          <> Z.of_nat (length state_machine) ->
        Z.of_nat (length state_machine) <= source_at state_machine' p
          < block_of max_transition (Z.of_nat (length state_machine)) p /\
        exists s,
          state_machine' !! Z.to_nat (source_at state_machine' p) = Some s /\
          etag_index s = kInvalidPos /\
          state_base s
          = block_of max_transition (Z.of_nat (length state_machine)) p) /\
    Z.of_nat (length state_machine) <= Z.of_nat (length state_machine')
      <= Z.of_nat (length state_machine) + 2 * Z.of_nat (length tags) /\
    length tags' = length tags /\
    (forall i,
        state_machine_pos (tag_at tags' i) = kInvalidPos \/
        Z.of_nat (length state_machine) <= state_machine_pos (tag_at tags' i)
          < Z.of_nat (length state_machine')).
Proof.
  intros Hmt Htags Hsz.
  destruct (create_public_list max_transition state_machine tags)
    as [[sm' tags']|] eqn:H.
  - exists sm', tags'. split; [reflexivity|].
    destruct (create_public_list_tree max_transition state_machine sm' tags
                tags' Hmt Htags Hsz H) as (Htree & Hlen & Ht & Hpos).
    split; [exact Htree|]. split; [|auto].
    intros p Hp Hb. destruct (Htree p Hp) as [_ Hup].
    destruct (Hup Hb) as (_ & Hrange & s & Hs & Hbase).
    split; [exact Hrange|]. exists s. split; [exact Hs|].
    split; [|exact Hbase].
    pose proof (create_public_list_tag_or_noop _ _ _ _ _ H) as Hall.
    rewrite Forall_forall in Hall.
    pose proof (block_of_range max_transition
                  (Z.of_nat (length state_machine)) ltac:(lia) p
                  ltac:(lia)) as Hblock.
    assert (Hin : state_kind s
                  ∈ drop (length state_machine) (state_kind <$> sm')).
    { apply list_elem_of_lookup.
      exists (Z.to_nat (source_at sm' p) - length state_machine)%nat.
      rewrite lookup_drop, list_lookup_fmap.
      replace (length state_machine
               + (Z.to_nat (source_at sm' p) - length state_machine))%nat
        with (Z.to_nat (source_at sm' p)) by lia.
      rewrite Hs. reflexivity. }
    destruct (Hall _ Hin) as [Hk|Hk]; cbn [state_kind fst snd] in Hk.
    + exfalso. unfold kInvalidPos in Hk. lia.
    + exact Hk.
  - exfalso. unfold create_public_list in H.
    pose proof (public_queue_perm tags) as Hperm.
    assert (Hin : forall x, x ∈ public_queue tags ->
                    dest_index x ∈ indices (length tags)).
    { intros x Hx.
      assert (Hd : dest_index x ∈ map dest_index (public_queue tags))
        by (apply list_elem_of_fmap; eauto).
      rewrite Hperm in Hd. apply list_elem_of_filter in Hd as [_ Hd].
      exact Hd. }
    assert (Hnd : NoDup (map dest_index (public_queue tags))).
    { rewrite Hperm. apply NoDup_filter, indices_NoDup. }
    assert (Hlen : Z.of_nat (length (public_queue tags))
                   <= Z.of_nat (length tags)).
    { rewrite <- (length_map dest_index (public_queue tags)).
      rewrite (Permutation_length Hperm).
      pose proof (length_filter
                    (fun i => num_incoming_transitions (tag_at tags i) <> 0)
                    (indices (length tags))) as Hf.
      unfold indices in Hf at 2. rewrite length_map, length_seq in Hf.
      lia. }
    rewrite wrap32_small in H by lia.
    destruct (Z.of_nat (length (public_queue tags)) >? 0) eqn:E;
      [|discriminate].
    rewrite Z.gtb_ltb in E. apply Z.ltb_lt in E.
    destruct (layout_states_public_tree max_transition state_machine tags
                (public_queue tags) Hmt ltac:(lia) Hnd
                ltac:(intros x Hx; apply elem_of_indices, Hin, Hx) Htags
                ltac:(lia)) as (l & Hl & _).
    rewrite Hl in H. discriminate.
Qed.

(** ** The counters of the records *)

Lemma AddRecordInternal_counters (kMaxNumRecords : Z)
    (record : list byte) (e e' : Encoder) (ok : bool) :
  AddRecordInternal kMaxNumRecords record e = Some (ok, e') ->
  if ok then
    num_records_ e <> kMaxNumRecords /\
    Z.of_nat (length record) <= uint64_max - decoded_data_size_ e /\
    num_records_ e' = wrap64 (num_records_ e + 1) /\
    decoded_data_size_ e'
    = wrap64 (decoded_data_size_ e + Z.of_nat (length record))
  else
    num_records_ e' = num_records_ e /\
    decoded_data_size_ e' = decoded_data_size_ e.
Proof.
  intros H. unfold AddRecordInternal in H.
  destruct (negb (healthy e)); [injection H as <- <-; auto|].
  destruct (num_records_ e =? kMaxNumRecords) eqn:E1;
    [injection H as <- <-; auto|].
  apply Z.eqb_neq in E1.
  destruct (_ >? _) eqn:E2; [injection H as <- <-; auto|].
  rewrite Z.gtb_ltb in E2. apply Z.ltb_ge in E2.
  cbv beta iota zeta in H.
  set (e0 := set_counters (wrap64 (num_records_ e + 1))
               (wrap64 (decoded_data_size_ e + Z.of_nat (length record))) e)
    in *.
  destruct (IsProtoMessage record) eqn:P.
  - pose proof (GetNode_frame (kStartOfMessage, 0) e0) as F1.
    set (e1 := GetNode (kStartOfMessage, 0) e0) in *. clearbody e1.
    pose proof (GetPosInTagsList_frame (kStartOfMessage, 0) kTrivial e1)
      as F2.
    destruct (GetPosInTagsList (kStartOfMessage, 0) kTrivial e1) as [t e2].
    cbn [snd] in F2.
    destruct (AddMessage_total (fun b => b) (length record) record []
                (length record) kRoot 0 (push_encoded_tag t e2)
                (IsProtoMessage_true_loop record P) (le_n _)
                ltac:(cbn; lia)) as (e3 & A & _ & A2 & A3 & _).
    rewrite A in H. injection H as <- <-.
    destruct F1 as (_ & _ & F1 & F1'), F2 as (_ & _ & F2 & F2').
    cbn [push_encoded_tag set_encoded_tags num_records_ decoded_data_size_]
      in A2, A3.
    split; [exact E1|]. split; [exact E2|].
    rewrite A2, A3, F2, F2', F1, F1'. split; reflexivity.
  - pose proof (GetNode_frame (kNonProto, 0) e0) as F1.
    set (e1 := GetNode (kNonProto, 0) e0) in *. clearbody e1.
    pose proof (GetPosInTagsList_frame (kNonProto, 0) kTrivial e1) as F2.
    destruct (GetPosInTagsList (kNonProto, 0) kTrivial e1) as [t e2].
    cbn [snd] in F2.
    pose proof (GetBuffer_frame (kNonProto, 0) kNonProtoBuf
                  (push_encoded_tag t e2)) as F3.
    destruct (GetBuffer (kNonProto, 0) kNonProtoBuf (push_encoded_tag t e2))
      as [w e3].
    cbn [snd] in F3. injection H as <- <-.
    destruct F1 as (_ & _ & F1 & F1'), F2 as (_ & _ & F2 & F2'),
      F3 as (_ & _ & F3 & F3').
    cbn [push_encoded_tag set_encoded_tags num_records_ decoded_data_size_]
      in F3, F3'.
    split; [exact E1|]. split; [exact E2|].
    cbn [set_nonproto_lengths buffer_write set_data num_records_
         decoded_data_size_].
    rewrite F3, F3', F2, F2', F1, F1'. split; reflexivity.
Qed.

Lemma AddRecord_each_counters (kMaxNumRecords : Z)
    (records : list (list byte)) :
  forall (e e' : Encoder) (oks : list bool),
    AddRecord_each kMaxNumRecords records e = Some (oks, e') ->
    0 <= num_records_ e <= kMaxNumRecords -> kMaxNumRecords < 2 ^ 64 ->
    0 <= decoded_data_size_ e <= uint64_max ->
    length oks = length records /\
    num_records_ e'
    = num_records_ e + Z.of_nat (length (accepted records oks)) /\
    decoded_data_size_ e'
    = decoded_data_size_ e
      + Z.of_nat (length (concat (accepted records oks))) /\
    num_records_ e' <= kMaxNumRecords /\
    decoded_data_size_ e' <= uint64_max.
Proof.
  induction records as [|r records IH]; intros e e' oks H Hn Hk Hd.
  - injection H as <- <-. cbn. repeat split; lia.
  - cbn [AddRecord_each] in H.
    destruct (AddRecordInternal kMaxNumRecords r e) as [[ok e1]|] eqn:A;
      [|discriminate].
    destruct (AddRecord_each kMaxNumRecords records e1) as [[oks1 e2]|]
      eqn:B; [|discriminate].
    injection H as <- <-.
    apply AddRecordInternal_counters in A.
    unfold uint64_max in *.
    destruct ok.
    + destruct A as (A1 & A2 & A3 & A4).
      rewrite wrap64_small in A3 by lia. rewrite wrap64_small in A4 by lia.
      destruct (IH e1 e2 oks1 B) as (I1 & I2 & I3 & I4 & I5); try lia.
      cbn [accepted length concat]. rewrite length_app.
      repeat split; lia.
    + destruct A as (A1 & A2).
      destruct (IH e1 e2 oks1 B) as (I1 & I2 & I3 & I4 & I5); try lia.
      cbn [accepted length]. repeat split; lia.
Qed.

(** X10: The counters that [EncodeAndClose] reports are exact: whatever
    records were added to a new encoder, [num_records_] is the number of
    the records that were accepted and [decoded_data_size_] is the sum of
    their sizes; neither has wrapped around, as the number of records is
    at most [kMaxNumRecords], which is a 64-bit number. *)
Theorem AddRecord_counts_accepted_records (kMaxNumRecords : Z)
    (records : list (list byte)) (oks : list bool) (e : Encoder) :
  AddRecord_each kMaxNumRecords records Encoder_new = Some (oks, e) ->
  0 <= kMaxNumRecords < 2 ^ 64 ->
  length oks = length records /\
  num_records_ e = Z.of_nat (length (accepted records oks)) /\
  decoded_data_size_ e = Z.of_nat (length (concat (accepted records oks))) /\
  num_records_ e <= kMaxNumRecords /\
  decoded_data_size_ e <= uint64_max.
Proof.
  intros H Hk.
  destruct (AddRecord_each_counters kMaxNumRecords records Encoder_new e oks
              H) as (A & B & C & D & E);
    try (cbn; unfold uint64_max; lia).
  cbn in B, C. auto.
Qed.

(** ** The transition statistics *)

Lemma tag_at_update_kept_dests (tags : list EncodedTagInfo) (i x : Z)
    (f : EncodedTagInfo -> EncodedTagInfo) :
  (forall t, dest_info (f t) = dest_info t) ->
  dest_info (tag_at (update_tag i f tags) x) = dest_info (tag_at tags x).
Proof.
  intros Hf. unfold tag_at, update_tag.
  destruct (decide (Z.to_nat i = Z.to_nat x)) as [E|E].
  - rewrite <- E, list_lookup_alter_eq.
    destruct (tags !! Z.to_nat i); simpl; [apply Hf|reflexivity].
  - rewrite list_lookup_alter_ne by exact E. reflexivity.
Qed.

Lemma transitions_along_bound (a b : Z) (rest : list Z) :
  forall prev, 0 <= transitions_along a b prev rest <= Z.of_nat (length rest).
Proof.
  induction rest as [|p rest IH]; intros prev; cbn [transitions_along length].
  - lia.
  - specialize (IH p). destruct ((prev =? a) && (p =? b)); lia.
Qed.

Lemma CollectTransitionStatistics_loop_transitions (a b : Z)
    (rest : list Z) :
  forall (prev : Z) (tags : list EncodedTagInfo),
    Forall (fun t => 0 <= t < Z.of_nat (length tags)) (prev :: rest) ->
    0 <= a ->
    0 <= num_transitions (dest_at (dest_info (tag_at tags a)) b) ->
    num_transitions (dest_at (dest_info (tag_at tags a)) b)
    + Z.of_nat (length rest) < 2 ^ 64 ->
    let tags' := CollectTransitionStatistics_loop prev rest tags in
    num_transitions (dest_at (dest_info (tag_at tags' a)) b)
    = num_transitions (dest_at (dest_info (tag_at tags a)) b)
      + transitions_along a b prev rest /\
    (is_Some (dest_info (tag_at tags' a) !! b) <->
     is_Some (dest_info (tag_at tags a) !! b) \/
     0 < transitions_along a b prev rest).
Proof.
  induction rest as [|p rest IH]; intros prev tags Hv Ha H0 Hb.
  - cbn. split; [lia|]. split; [auto|]. intros [H|H]; [exact H|lia].
  - apply Forall_cons in Hv as [Hprev Hv].
    pose proof Hv as Hv'. apply Forall_cons in Hv' as [Hp _].
    cbn [CollectTransitionStatistics_loop transitions_along].
    cbn [length] in Hb.
    set (tags1 := update_tag p incr_num_incoming
                    (update_tag prev (incr_num_transitions p) tags)).
    assert (Hl : length tags1 = length tags).
    { unfold tags1. rewrite !update_tag_length. reflexivity. }
    assert (Hd : dest_info (tag_at tags1 a)
                 = if decide (prev = a)
                   then <[p := mkDestInfo
                                 (pos (dest_at (dest_info (tag_at tags a)) p))
                                 (wrap64
                                    (num_transitions
                                       (dest_at (dest_info (tag_at tags a)) p)
                                     + 1))]>
                          (dest_info (tag_at tags a))
                   else dest_info (tag_at tags a)).
    { unfold tags1.
      rewrite tag_at_update_kept_dests by reflexivity.
      destruct (decide (prev = a)) as [->|Hne].
      - rewrite tag_at_update_eq by exact Hprev. reflexivity.
      - rewrite tag_at_update_ne by lia. reflexivity. }
    pose proof (transitions_along_bound a b rest p) as Hbound.
    assert (Hstep :
      num_transitions (dest_at (dest_info (tag_at tags1 a)) b)
      = num_transitions (dest_at (dest_info (tag_at tags a)) b)
        + (if (prev =? a) && (p =? b) then 1 else 0) /\
      (is_Some (dest_info (tag_at tags1 a) !! b) <->
       is_Some (dest_info (tag_at tags a) !! b) \/
       (prev =? a) && (p =? b) = true)).
    { rewrite Hd. destruct (decide (prev = a)) as [->|Hne].
      - rewrite Z.eqb_refl. cbn [andb].
        destruct (Z.eqb_spec p b) as [->|Hpb].
        + unfold dest_at at 1. rewrite !lookup_insert_eq.
          cbn [default num_transitions].
          rewrite wrap64_small by lia.
          split; [reflexivity|]. split; [auto|]. intros _. eexists.
          reflexivity.
        + unfold dest_at at 1. rewrite !lookup_insert_ne by exact Hpb.
          split; [unfold dest_at; lia|]. split; [auto|].
          intros [H|H]; [exact H|discriminate].
      - destruct (Z.eqb_spec prev a) as [E|_]; [contradiction|].
        cbn [andb]. split; [lia|]. split; [auto|].
        intros [H|H]; [exact H|discriminate]. }
    destruct Hstep as [S1 S2].
    destruct (IH p tags1) as [I1 I2].
    + rewrite Hl. exact Hv.
    + exact Ha.
    + rewrite S1. destruct ((prev =? a) && (p =? b)); lia.
    + rewrite S1. destruct ((prev =? a) && (p =? b)); lia.
    + fold tags1. cbv zeta in I1, I2. rewrite I1, I2, S1, S2.
      split; [lia|].
      destruct ((prev =? a) && (p =? b)); intuition (try discriminate; lia).
Qed.

Lemma transitions_between_snoc (a b y : Z) (l : list Z) :
  transitions_between a b (l ++ [y])
  = transitions_between a b l
    + match last l with
      | Some x => if (y =? a) && (x =? b) then 1 else 0
      | None => 0
      end.
Proof.
  induction l as [|x l IH]; [reflexivity|].
  change ((x :: l) ++ [y]) with (x :: (l ++ [y])).
  cbn [transitions_between]. rewrite IH.
  destruct l as [|x' l].
  - cbn. lia.
  - change (last (x :: x' :: l)) with (last (x' :: l)).
    cbn [app]. lia.
Qed.

Lemma transitions_along_reverse (a b : Z) (rest : list Z) :
  forall back,
    transitions_along a b back rest
    = transitions_between a b (reverse (back :: rest)).
Proof.
  induction rest as [|p rest IH]; intros back.
  - reflexivity.
  - cbn [transitions_along]. rewrite IH.
    rewrite (reverse_cons (p :: rest) back), transitions_between_snoc.
    rewrite reverse_cons, last_snoc. lia.
Qed.

(** X11: [CollectTransitionStatistics] counts exactly: on the encoder that
    any records were added to, whose [encoded_tags_] holds fewer than
    2^64 tags, the tag [a] gets an entry for the destination [b] exactly
    when [b] is followed by [a] somewhere in [encoded_tags_], the entry's
    [num_transitions] is the number of these places, and
    [num_incoming_transitions] of [b] is the number of times that [b]
    occurs before the last place of [encoded_tags_], but 1 when that is
    0 and [b] is the last encoded tag. *)
Theorem CollectTransitionStatistics_counts_transitions (kMaxNumRecords : Z)
    (records : list (list byte)) (oks : list bool) (e : Encoder) (a b : Z) :
  AddRecord_each kMaxNumRecords records Encoder_new = Some (oks, e) ->
  Z.of_nat (length (encoded_tags_ e)) < 2 ^ 64 ->
  0 <= a -> 0 <= b ->
  let tags := tags_list_ (CollectTransitionStatistics e) in
  num_transitions (dest_at (dest_info (tag_at tags a)) b)
  = transitions_between a b (encoded_tags_ e) /\
  (is_Some (dest_info (tag_at tags a) !! b) <->
   0 < transitions_between a b (encoded_tags_ e)) /\
  num_incoming_transitions (tag_at tags b)
  = (let n := occurrences b (removelast (encoded_tags_ e)) in
     if (n =? 0) && bool_decide (last (encoded_tags_ e) = Some b)
     then 1 else n).
Proof.
  intros H Hsize Ha Hb.
  assert (Hin : ingested e).
  { exact (AddRecord_each_ingested kMaxNumRecords records _ _ _ H
             Encoder_new_ingested). }
  destruct Hin as (Henc & Hfresh & _ & _).
  assert (Hnew : forall x, tag_at (tags_list_ e) x
                           = EncodedTagInfo_new
                               (node_id (tag_at (tags_list_ e) x))
                               (subtype (tag_at (tags_list_ e) x))).
  { intros x. unfold tag_at.
    destruct (tags_list_ e !! Z.to_nat x) as [t|] eqn:L; [|reflexivity].
    simpl. eapply Forall_lookup_1 in Hfresh; [|exact L]. exact Hfresh. }
  assert (Hd0 : forall x, dest_info (tag_at (tags_list_ e) x) = ∅).
  { intros x. rewrite Hnew. reflexivity. }
  assert (Hi0 : forall x,
             num_incoming_transitions (tag_at (tags_list_ e) x) = 0).
  { intros x. rewrite Hnew. reflexivity. }
  cbv zeta. unfold CollectTransitionStatistics.
  assert (Hrev : Forall (fun t => 0 <= t < Z.of_nat (length (tags_list_ e)))
                   (reverse (encoded_tags_ e))).
  { apply Forall_reverse. exact Henc. }
  assert (Hrl : length (reverse (encoded_tags_ e))
                = length (encoded_tags_ e)) by apply length_reverse.
  destruct (reverse (encoded_tags_ e)) as [|back rest] eqn:E.
  - assert (E0 : encoded_tags_ e = []).
    { destruct (encoded_tags_ e); [reflexivity|discriminate]. }
    rewrite E0. cbn. rewrite Hd0, Hi0. unfold dest_at.
    rewrite lookup_empty. cbn. split; [reflexivity|].
    split; [|reflexivity]. split; [intros [? ?]; discriminate|lia].
  - assert (E1 : encoded_tags_ e = reverse rest ++ [back]).
    { rewrite <- (reverse_involutive (encoded_tags_ e)), E, reverse_cons.
      reflexivity. }
    cbn [length] in Hrl.
    set (tags := CollectTransitionStatistics_loop back rest (tags_list_ e)).
    assert (Hlen : length tags = length (tags_list_ e)).
    { apply CollectTransitionStatistics_loop_length. }
    pose proof Hrev as Hrev'. apply Forall_cons in Hrev' as [Hback Hrest].
    destruct (CollectTransitionStatistics_loop_transitions a b rest back
                (tags_list_ e) Hrev Ha) as [T1 T2].
    { rewrite Hd0. unfold dest_at. rewrite lookup_empty. cbn. lia. }
    { rewrite Hd0. unfold dest_at. rewrite lookup_empty. cbn. lia. }
    cbv zeta in T1, T2. fold tags in T1, T2.
    rewrite Hd0 in T1, T2. unfold dest_at at 2 in T1.
    rewrite lookup_empty in T1, T2. cbn [default DestInfo_default
      num_transitions] in T1.
    rewrite transitions_along_reverse, <- E, reverse_involutive in T1, T2.
    assert (I : num_incoming_transitions (tag_at tags b)
                = occurrences b (removelast (encoded_tags_ e))).
    { unfold tags. rewrite CollectTransitionStatistics_loop_incoming.
      - rewrite Hi0, Z.add_0_l. rewrite E1, removelast_last.
        assert (Ho : occurrences b (reverse rest) = occurrences b rest).
        { unfold occurrences. f_equal.
          apply Permutation_count_occ, reverse_Permutation. }
        rewrite Ho. apply wrap64_small.
        pose proof (occurrences_bound b rest). lia.
      - exact Hrest.
      - exact Hb.
      - rewrite Hi0. lia. }
    assert (Hlast : last (encoded_tags_ e) = Some back).
    { rewrite E1. apply last_snoc. }
    assert (D : forall f, dest_info (tag_at (update_tag back
                   (set_num_incoming_transitions f) tags) a)
                = dest_info (tag_at tags a)).
    { intros f. apply tag_at_update_kept_dests. reflexivity. }
    assert (G12 :
      forall tags',
        dest_info (tag_at tags' a) = dest_info (tag_at tags a) ->
        num_transitions (dest_at (dest_info (tag_at tags' a)) b)
        = transitions_between a b (encoded_tags_ e) /\
        (is_Some (dest_info (tag_at tags' a) !! b) <->
         0 < transitions_between a b (encoded_tags_ e))).
    { intros tags' ->. split; [lia|]. rewrite T2. split.
      - intros [[? ?]|?]; [discriminate|assumption].
      - auto. }
    cbn [tags_list_ set_tags_list].
    destruct (num_incoming_transitions (tag_at tags back) =? 0) eqn:Z0.
    + destruct (G12 _ (D 1)) as [G1 G2].
      split; [exact G1|]. split; [exact G2|].
      cbv zeta. rewrite Hlast. apply Z.eqb_eq in Z0.
      destruct (decide (b = back)) as [->|Hne].
      * rewrite tag_at_update_eq by lia. cbn. rewrite <- I, Z0.
        rewrite bool_decide_eq_true_2 by reflexivity. reflexivity.
      * rewrite tag_at_update_ne by (try lia; congruence).
        rewrite bool_decide_eq_false_2 by congruence.
        rewrite andb_false_r. exact I.
    + destruct (G12 _ eq_refl) as [G1 G2].
      split; [exact G1|]. split; [exact G2|].
      cbv zeta. rewrite Hlast. apply Z.eqb_neq in Z0.
      destruct (decide (b = back)) as [->|Hne].
      * rewrite <- I. apply Z.eqb_neq in Z0. rewrite Z0. reflexivity.
      * rewrite bool_decide_eq_false_2 by congruence.
        rewrite andb_false_r. exact I.
Qed.

(** ** The offsets of a transition *)

Lemma encode_hops_leads (max_transition : Z)
    (state_machine : list StateInfo) (room : nat) :
  forall (current_base p : Z) (write result : list Z),
    encode_hops room max_transition state_machine current_base p write
      = Some result ->
    exists hops,
      result = hops ++ write /\
      (length hops <= room)%nat /\
      follow_hops state_machine current_base result
      = match write with
        | [] => Some p
        | _ :: _ =>
            match state_machine !! Z.to_nat p with
            | Some s => follow_hops state_machine (state_base s) write
            | None => None
            end
        end.
Proof.
  induction room as [|room IH]; intros cb p write result H; [discriminate|].
  cbn [encode_hops] in H.
  destruct ((cb >? p) || (p - cb >? max_transition)) eqn:C.
  - destruct (state_machine !! Z.to_nat p) as [s|] eqn:Lp; [|discriminate].
    destruct (state_machine !! Z.to_nat (canonical_source s)) as [s'|] eqn:L;
      [|discriminate].
    destruct ((state_base s' <=? p) && (p - state_base s' <=? max_transition));
      [|discriminate].
    destruct (IH _ _ _ _ H) as (hops & -> & Hl & Hf).
    exists (hops ++ [p - state_base s']). rewrite <- app_assoc.
    split; [reflexivity|]. split; [rewrite length_app; cbn; lia|].
    cbn [app] in Hf |- *. rewrite Hf, L. cbn [follow_hops].
    replace (state_base s' + (p - state_base s')) with p by lia.
    rewrite Lp. reflexivity.
  - injection H as <-. exists [p - cb]. split; [reflexivity|].
    split; [cbn; lia|]. cbn [follow_hops].
    replace (cb + (p - cb)) with p by lia. reflexivity.
Qed.

(** X12: The offsets that [WriteTransitions] writes for a transition lead
    from [current_base] to the position: there are at most [kWriteBufSize]
    of them, each is between 0 and [max_transition], and adding the
    first to [current_base] and each of the others to the base of the
    state that the one before it led to gives the position. *)
Theorem encode_hops_leads_to_the_position (max_transition : Z)
    (state_machine : list StateInfo) (current_base p : Z)
    (write : list Z) :
  encode_hops kWriteBufSize max_transition state_machine current_base p []
    = Some write ->
  follow_hops state_machine current_base write = Some p /\
  Forall (fun offset => 0 <= offset <= max_transition) write /\
  (1 <= length write <= kWriteBufSize)%nat.
Proof.
  intros H.
  destruct (encode_hops_leads _ _ _ _ _ _ _ H) as (hops & E & Hl & Hf).
  destruct (encode_hops_range _ _ _ _ _ _ _ H) as (hops' & E' & Hr).
  rewrite app_nil_r in E, E'. subst hops hops'.
  split; [exact Hf|]. split; [exact Hr|]. split; [|exact Hl].
  destruct write; [discriminate Hf|cbn; lia].
Qed.

(** ** The header of the states *)

Lemma find_first_tag_pos_first (back : Z) (state_machine : list StateInfo) :
  forall first_tag_pos,
    0 <= first_tag_pos ->
    first_tag_pos + Z.of_nat (length state_machine) <= 2 ^ 32 ->
    match find_first_tag_pos state_machine back first_tag_pos with
    | Some p =>
        first_tag_pos <= p /\
        (exists s, state_machine !! Z.to_nat (p - first_tag_pos) = Some s /\
                   etag_index s = back) /\
        (forall i s, (i < Z.to_nat (p - first_tag_pos))%nat ->
                     state_machine !! i = Some s -> etag_index s <> back)
    | None => Forall (fun s => etag_index s <> back) state_machine
    end.
Proof.
  induction state_machine as [|s sm IH]; intros start H0 Hsz.
  - constructor.
  - cbn [find_first_tag_pos]. cbn [length] in Hsz.
    destruct (Z.eqb_spec (etag_index s) back) as [E|E].
    + split; [lia|]. rewrite Z.sub_diag. split.
      * exists s. split; [reflexivity|exact E].
      * intros i s' Hi. cbn in Hi. lia.
    + destruct (decide (sm = [])) as [->|Hsm].
      { cbn. constructor; [exact E|constructor]. }
      assert (0 < Z.of_nat (length sm)) by (destruct sm; [done|cbn; lia]).
      rewrite wrap32_small by lia.
      specialize (IH (start + 1) ltac:(lia) ltac:(lia)).
      destruct (find_first_tag_pos sm back (start + 1)) as [p|].
      * destruct IH as (I1 & (s' & I2 & I3) & I4).
        split; [lia|].
        replace (Z.to_nat (p - start)) with (S (Z.to_nat (p - (start + 1))))
          by lia.
        split; [exists s'; split; [exact I2|exact I3]|].
        intros [|i] s''; cbn.
        -- intros _ [= <-]. exact E.
        -- intros Hi. apply I4. lia.
      * constructor; [exact E|exact IH].
Qed.

(** X13: The search for the first state of the last encoded tag, over a state
    machine of at most 2^32 states, gives the least index of a state of
    that tag; it runs off the state machine only when no state is of
    that tag. *)
Theorem find_first_tag_pos_is_the_first (back : Z)
    (state_machine : list StateInfo) :
  Z.of_nat (length state_machine) <= 2 ^ 32 ->
  match find_first_tag_pos state_machine back 0 with
  | Some p =>
      0 <= p < Z.of_nat (length state_machine) /\
      (exists s, state_machine !! Z.to_nat p = Some s /\
                 etag_index s = back) /\
      (forall i s, (i < Z.to_nat p)%nat ->
                   state_machine !! i = Some s -> etag_index s <> back)
  | None => Forall (fun s => etag_index s <> back) state_machine
  end.
Proof.
  intros Hsz.
  pose proof (find_first_tag_pos_first back state_machine 0 ltac:(lia)
                ltac:(lia)) as H.
  destruct (find_first_tag_pos state_machine back 0) as [p|]; [|exact H].
  rewrite Z.sub_0_r in H. destruct H as (H1 & (s & H2 & H3) & H4).
  split; [|split; [exists s; auto|exact H4]].
  apply lookup_lt_Some in H2. lia.
Qed.

(** ** The indices of the buffers *)

Section BufferPlaces.

Variables compression_type_ bucket_size : Z.
Variable compress : list byte -> list byte.

Lemma AddBuffer_lengths (force_new_bucket : bool) (next_chunk : list byte)
    (w : BucketWriter) :
  bw_buffer_lengths
    (AddBuffer compression_type_ bucket_size compress force_new_bucket
       next_chunk w)
  = bw_buffer_lengths w ++ [Z.of_nat (length next_chunk)].
Proof.
  unfold AddBuffer. cbn.
  destruct ((force_new_bucket || _) && _); reflexivity.
Qed.

Lemma add_buffers_indexes (buffers : list BufferWithMetadata) :
  forall (first : bool) (w w' : BucketWriter) (bp bp' : gmap NodeId Z)
         (seen : list NodeId),
    add_buffers compression_type_ bucket_size compress first buffers (w, bp)
      = Some (w', bp') ->
    indexes bp seen ->
    Z.of_nat (length seen + length buffers) <= 2 ^ 32 ->
    indexes bp' (seen ++ map buffer_node_id buffers) /\
    bw_buffer_lengths w'
    = bw_buffer_lengths w
      ++ map (fun b => Z.of_nat (length (buffer b))) buffers.
Proof.
  induction buffers as [|b buffers IH];
    intros first w w' bp bp' seen H Hi Hsz.
  - injection H as <- <-. rewrite !app_nil_r. split; [exact Hi|reflexivity].
  - cbn [add_buffers] in H.
    destruct (bp !! buffer_node_id b) eqn:L; [discriminate|].
    cbn [map].
    rewrite (cons_middle (buffer_node_id b) seen),
      (cons_middle (Z.of_nat (length (buffer b))) (bw_buffer_lengths w)),
      !app_assoc.
    cbn [length] in Hsz.
    rewrite <- AddBuffer_lengths with (force_new_bucket := first).
    eapply IH; [exact H| |rewrite length_app; cbn [length]; lia].
    destruct Hi as [Hs Hl]. rewrite Hs, wrap32_small by lia. split.
    + rewrite map_size_insert_None by exact L.
      rewrite length_app, Hs. cbn. lia.
    + intros id i. destruct (decide (id = buffer_node_id b)) as [->|Hne].
      * rewrite lookup_insert_eq. split.
        -- intros [= <-]. exists (length seen). split; [|reflexivity].
           rewrite lookup_app_r by lia. rewrite Nat.sub_diag. reflexivity.
        -- intros (n & Hn & ->).
           destruct (decide (n < length seen)%nat) as [Hlt|Hge].
           ++ rewrite lookup_app_l in Hn by exact Hlt.
              assert (bp !! buffer_node_id b = Some (Z.of_nat n)) as E
                by (apply Hl; eauto).
              congruence.
           ++ apply lookup_lt_Some in Hn. rewrite length_app in Hn.
              cbn in Hn. do 2 f_equal. lia.
      * rewrite lookup_insert_ne by congruence. rewrite Hl.
        split; intros (n & Hn & ->); exists n; (split; [|reflexivity]).
        -- apply lookup_app_l_Some. exact Hn.
        -- apply lookup_app_Some in Hn as [Hn|[_ Hn]]; [exact Hn|].
           apply list_lookup_singleton_Some in Hn as [_ Hn]. congruence.
Qed.

Lemma add_buffers_kinds_indexes (kinds : list (list BufferWithMetadata)) :
  forall (w w' : BucketWriter) (bp bp' : gmap NodeId Z) (seen : list NodeId),
    foldl (fun acc buffers =>
             match acc with
             | None => None
             | Some acc =>
                 add_buffers compression_type_ bucket_size compress true
                   buffers acc
             end) (Some (w, bp)) kinds = Some (w', bp') ->
    indexes bp seen ->
    Z.of_nat (length seen + length (concat kinds)) <= 2 ^ 32 ->
    indexes bp' (seen ++ map buffer_node_id (concat kinds)) /\
    bw_buffer_lengths w'
    = bw_buffer_lengths w
      ++ map (fun b => Z.of_nat (length (buffer b))) (concat kinds).
Proof.
  induction kinds as [|bs kinds IH]; intros w w' bp bp' seen H Hi Hsz.
  - injection H as <- <-. cbn. rewrite !app_nil_r.
    split; [exact Hi|reflexivity].
  - cbn [foldl] in H. cbn [concat] in Hsz |- *.
    rewrite length_app in Hsz.
    destruct (add_buffers _ _ _ true bs (w, bp)) as [[w1 bp1]|] eqn:E.
    + destruct (add_buffers_indexes _ _ _ _ _ _ seen E Hi ltac:(lia))
        as [I1 I2].
      rewrite !map_app, !app_assoc, <- I2.
      eapply IH; [exact H|exact I1|rewrite length_app, length_map; lia].
    + exfalso. clear -H. induction kinds as [|k kinds IHk];
        [discriminate|exact (IHk H)].
Qed.

End BufferPlaces.

Lemma WriteBuffers_indexes (e : Encoder)
    (compressor header_writer data_writer header : list byte)
    (w : BucketWriter) (buffer_pos : gmap NodeId Z)
    (compression_type bucket_size : Z) (compress : list byte -> list byte) :
  WriteBuffers compression_type bucket_size compress e compressor
    header_writer data_writer = Some (header, w, buffer_pos) ->
  Z.of_nat (length (concat (data_ e))) <= 2 ^ 32 ->
  let written := concat (map sort_buffers (data_ e)) in
  size buffer_pos = length written /\
  (forall id i,
      buffer_pos !! id = Some i <->
      exists (n : nat) b,
        written !! n = Some b /\ buffer_node_id b = id /\ i = Z.of_nat n) /\
  (forall (n : nat) b,
      written !! n = Some b ->
      buffer_pos !! buffer_node_id b = Some (Z.of_nat n) /\
      bw_buffer_lengths w !! n = Some (Z.of_nat (length (buffer b)))).
Proof.
  intros H Hsz. cbv zeta.
  unfold WriteBuffers in H.
  destruct (foldl _ _ (map sort_buffers (data_ e))) as [[w1 bp1]|] eqn:F;
    [|discriminate].
  assert (Hlen : length (concat (map sort_buffers (data_ e)))
                 = length (concat (data_ e))).
  { apply Permutation_length, concat_sorted_perm. }
  destruct (add_buffers_kinds_indexes _ _ _ _ _ _ _ _ [] F) as [[Hs Hl] Hb].
  { split; [apply map_size_empty|]. intros id i. rewrite lookup_empty.
    split; [discriminate|]. intros (n & Hn & _). discriminate. }
  { cbn [length Nat.add]. lia. }
  cbn [app bw_buffer_lengths] in Hs, Hl, Hb.
  rewrite length_map in Hs.
  assert (Hl' : forall id i,
             bp1 !! id = Some i <->
             exists (n : nat) b,
               concat (map sort_buffers (data_ e)) !! n = Some b /\
               buffer_node_id b = id /\ i = Z.of_nat n).
  { intros id i. rewrite Hl. split.
    - intros (n & Hn & ->). apply list_lookup_fmap_Some in Hn as (b & Hb' & E).
      exists n, b. auto.
    - intros (n & b & Hb' & <- & ->). exists n. split; [|reflexivity].
      apply list_lookup_fmap_Some. eauto. }
  assert (Hw : exists more, bw_buffer_lengths w
                            = bw_buffer_lengths w1 ++ more).
  { injection H as _ <- _.
    destruct (nonproto_lengths_writer_ e) as [|x l].
    - exists []. rewrite app_nil_r.
      destruct (_ >? 0); reflexivity.
    - exists [Z.of_nat (length (x :: l))].
      rewrite <- (AddBuffer_lengths compression_type bucket_size compress
                    true (x :: l) w1).
      destruct (_ >? 0); reflexivity. }
  destruct Hw as [more Hw].
  injection H as _ _ <-.
  split; [exact Hs|]. split; [exact Hl'|].
  intros n b Hn. split; [apply Hl'; eauto|].
  rewrite Hw, Hb. apply lookup_app_l_Some.
  apply list_lookup_fmap_Some. eauto.
Qed.

(** X14: For the encoder that records leave, with at most 2^32 buffers,
    [WriteBuffers] returns, and [buffer_pos] holds for the node of every
    buffer the place of the buffer in the order in which the buffers are
    written, kind after kind and each kind sorted, and nothing else: it
    has as many entries as there are buffers, and the length at that
    place of the table of buffer lengths is the length of the buffer. *)
Theorem WriteBuffers_buffer_pos_is_the_place (kMaxNumRecords : Z)
    (records : list (list byte)) (oks : list bool) (e : Encoder)
    (compressor header_writer data_writer : list byte)
    (compression_type bucket_size : Z) (compress : list byte -> list byte) :
  AddRecord_each kMaxNumRecords records Encoder_new = Some (oks, e) ->
  Z.of_nat (length (concat (data_ e))) <= 2 ^ 32 ->
  let written := concat (map sort_buffers (data_ e)) in
  exists header w buffer_pos,
    WriteBuffers compression_type bucket_size compress e compressor
      header_writer data_writer = Some (header, w, buffer_pos) /\
    size buffer_pos = length written /\
    (forall id i,
        buffer_pos !! id = Some i <->
        exists (n : nat) b,
          written !! n = Some b /\ buffer_node_id b = id /\
          i = Z.of_nat n) /\
    (forall (n : nat) b,
        written !! n = Some b ->
        buffer_pos !! buffer_node_id b = Some (Z.of_nat n) /\
        bw_buffer_lengths w !! n = Some (Z.of_nat (length (buffer b)))).
Proof.
  intros H Hsz. cbv zeta.
  pose proof (AddRecord_each_owned kMaxNumRecords records _ _ _ H
                Encoder_new_owned) as Ho.
  destruct (WriteBuffers_total compression_type bucket_size compress e
              compressor header_writer data_writer Ho)
    as (header & w & bp & Hw).
  exists header, w, bp. split; [exact Hw|].
  exact (WriteBuffers_indexes e compressor header_writer data_writer header
           w bp compression_type bucket_size compress Hw Hsz).
Qed.

(** ** The tables of the states *)

Lemma write_state_None (tags : list EncodedTagInfo)
    (buffer_pos : gmap NodeId Z) (num_states : Z)
    (state_machine : list StateInfo) :
  foldl (write_state tags buffer_pos num_states) None state_machine = None.
Proof. induction state_machine; [reflexivity|assumption]. Qed.

Lemma write_state_step (tags : list EncodedTagInfo)
    (buffer_pos : gmap NodeId Z) (num_states : Z)
    (w w' : StateWriter) (s : StateInfo) :
  write_state tags buffer_pos num_states (Some w) s = Some w' ->
  exists b indices,
    sw_base_to_write w' = sw_base_to_write w ++ [b] /\
    b = base_written tags num_states s /\
    sw_buffer_index_to_write w'
    = sw_buffer_index_to_write w ++ indices /\
    (indices = [] \/
     exists i, indices = [i] /\
               buffer_pos !! node_id (tag_at tags (etag_index s)) = Some i).
Proof.
  unfold write_state, base_written.
  destruct (etag_index s =? kInvalidPos) eqn:E0.
  - intros [= <-]. cbn. exists (state_base s), [].
    rewrite app_nil_r. auto.
  - cbv zeta. set (t := tag_at tags (etag_index s)).
    destruct (node_id t) as [id1 id2] eqn:Eid. cbn [fst snd].
    match goal with
    | |- match ?d with _ => _ end = _ -> _ => destruct d as [w1|] eqn:D
    end; [|discriminate].
    intros [= <-]. cbn [sw_base_to_write sw_buffer_index_to_write].
    assert (G : exists indices,
               sw_base_to_write w1 = sw_base_to_write w /\
               sw_buffer_index_to_write w1
               = sw_buffer_index_to_write w ++ indices /\
               (indices = [] \/
                exists i, indices = [i] /\
                          buffer_pos !! (id1, id2) = Some i)).
    { repeat match type of D with
             | context [if ?c then _ else _] =>
                 let C := fresh "C" in destruct c eqn:C; cbv beta iota in D
             end; try discriminate.
      all: try (destruct (buffer_pos !! _) as [i|] eqn:L in D;
                [|discriminate]).
      all: injection D as <-.
      all: cbn [sw_base_to_write sw_buffer_index_to_write].
      all: first
             [ exists (@nil Z); split; [reflexivity|];
               split; [symmetry; apply app_nil_r|left; reflexivity]
             | exists [i]; split; [reflexivity|]; split; [reflexivity|];
               right; exists i; split; [reflexivity|] ].
      - exact L.
      - exact L.
      - apply negb_false_iff, Z.eqb_eq in C. apply Z.eqb_eq in C0.
        subst id1 id2. exact L. }
    destruct G as (indices & G1 & G2 & G3).
    eexists _, indices. rewrite G1. split; [reflexivity|].
    split; [|split; [exact G2|exact G3]].
    destruct (base t =? kInvalidPos); reflexivity.
Qed.

Lemma write_state_fold (tags : list EncodedTagInfo)
    (buffer_pos : gmap NodeId Z) (num_states : Z)
    (state_machine : list StateInfo) :
  forall (w sw : StateWriter),
    foldl (write_state tags buffer_pos num_states) (Some w) state_machine
      = Some sw ->
    sw_base_to_write sw
    = sw_base_to_write w ++ map (base_written tags num_states) state_machine /\
    exists indices,
      sw_buffer_index_to_write sw = sw_buffer_index_to_write w ++ indices /\
      (length indices <= length state_machine)%nat /\
      Forall (fun i =>
                exists s, s ∈ state_machine /\
                          etag_index s <> kInvalidPos /\
                          buffer_pos !! node_id (tag_at tags (etag_index s))
                          = Some i) indices.
Proof.
  induction state_machine as [|s sm IH]; intros w sw H.
  - injection H as <-. cbn. rewrite app_nil_r. split; [reflexivity|].
    exists []. rewrite app_nil_r. split; [reflexivity|].
    split; [reflexivity|constructor].
  - cbn [foldl] in H.
    destruct (write_state tags buffer_pos num_states (Some w) s) as [w1|]
      eqn:E; [|rewrite write_state_None in H; discriminate].
    destruct (write_state_step _ _ _ _ _ _ E) as (b & ix & B1 & -> & B2 & B3).
    destruct (IH _ _ H) as (I1 & ixs & I2 & I3 & I4).
    split.
    + rewrite I1, B1, <- app_assoc. reflexivity.
    + exists (ix ++ ixs). rewrite I2, B2, <- app_assoc.
      split; [reflexivity|]. split.
      * rewrite length_app. cbn [length].
        destruct B3 as [->|(i & -> & _)]; cbn; lia.
      * apply Forall_app. split.
        -- destruct B3 as [->|(i & -> & L)]; constructor; [|constructor].
           exists s. split; [apply elem_of_cons; left; reflexivity|].
           split; [|exact L].
           intros E0. unfold write_state in E. rewrite E0 in E.
           cbn in E. injection E as <-. cbn in B2.
           apply (f_equal length) in B2. rewrite length_app in B2.
           cbn in B2. lia.
        -- eapply Forall_impl; [exact I4|].
           intros i (s' & S1 & S2 & S3). exists s'.
           split; [apply elem_of_cons; right; exact S1|auto].
Qed.

(** X15: The tables that [WriteStatesAndData] collects over the state
    machine are aligned with it: [base_to_write] has one entry for each
    state, in the order of the states, which is the base of a NoOp state
    and the base of the tag of any other state, 0 when the tag has none.
    Every buffer index written is the entry of [buffer_pos] for the node
    of a state, and no state has more than one. *)
Theorem write_state_tables (tags : list EncodedTagInfo)
    (buffer_pos : gmap NodeId Z) (num_states : Z) (header_writer : list byte)
    (state_machine : list StateInfo) (sw : StateWriter) :
  foldl (write_state tags buffer_pos num_states)
    (Some (mkStateWriter header_writer [] [] [])) state_machine = Some sw ->
  sw_base_to_write sw = map (base_written tags num_states) state_machine /\
  (length (sw_buffer_index_to_write sw) <= length state_machine)%nat /\
  Forall (fun i =>
            exists s, s ∈ state_machine /\
                      etag_index s <> kInvalidPos /\
                      buffer_pos !! node_id (tag_at tags (etag_index s))
                      = Some i)
    (sw_buffer_index_to_write sw).
Proof.
  intros H.
  destruct (write_state_fold _ _ _ _ _ _ H) as (B & ixs & I1 & I2 & I3).
  cbn in B, I1. rewrite I1. auto.
Qed.

(** ** Messages one after the other *)

Lemma IsProtoMessage_loop_enough (fuel1 : nat) :
  forall (fuel2 : nat) (record : list byte) (open : list Z),
    (length record <= fuel1)%nat -> (length record <= fuel2)%nat ->
    IsProtoMessage_loop fuel1 record open
    = IsProtoMessage_loop fuel2 record open.
Proof.
  induction fuel1 as [|fuel1 IH]; intros fuel2 record open H1 H2.
  - destruct record; [|simpl in H1; lia]. destruct fuel2; reflexivity.
  - destruct record as [|b0 record]; [destruct fuel2; reflexivity|].
    destruct fuel2 as [|fuel2]; [simpl in H2; lia|].
    cbn [IsProtoMessage_loop Pull].
    destruct (IsProtoMessage_step (b0 :: record) open) as [[r o]|] eqn:S;
      [|reflexivity].
    apply IsProtoMessage_step_shrinks in S. simpl in *. apply IH; lia.
Qed.

Lemma IsProtoMessage_loop_prefix (es : list WireEntry) (rest : list byte) :
  forall (open : list Z) (fuel : nat),
    Forall entry_wf es -> groups_nest es open ->
    (length (serialize es ++ rest) <= fuel)%nat ->
    IsProtoMessage_loop fuel (serialize es ++ rest) open
    = IsProtoMessage_loop (length rest) rest [].
Proof.
  induction es as [|e es IH]; intros open fuel Hwf Hn Hlen.
  - simpl in Hn. subst open. cbn [serialize map concat app] in *.
    apply IsProtoMessage_loop_enough; [exact Hlen|reflexivity].
  - apply Forall_cons in Hwf as [He Hes]. simpl in Hn.
    destruct (group_step e open) as [open'|] eqn:G; [|contradiction].
    change (serialize (e :: es)) with (serialize_entry e ++ serialize es) in *.
    rewrite <- app_assoc in *.
    pose proof (serialize_entry_length e (serialize es ++ rest)) as Hl.
    destruct fuel as [|fuel]; [lia|].
    cbn [IsProtoMessage_loop].
    destruct (serialize_entry e ++ serialize es ++ rest) as [|b0 tl] eqn:Heq;
      [simpl in Hl; lia|].
    cbn [Pull]. rewrite <- Heq.
    rewrite (IsProtoMessage_step_complete e _ open open') by assumption.
    apply IH; [assumption|assumption|]. simpl in *. lia.
Qed.

(** X16: A message at the front of a record does not change what
    [IsProtoMessage] says of the record: after the bytes of a record that
    it accepts, it accepts or refuses any bytes as it does on their own.
    So messages written one after the other are accepted. *)
Theorem IsProtoMessage_after_a_message (record rest : list byte) :
  IsProtoMessage record = true ->
  IsProtoMessage (record ++ rest) = IsProtoMessage rest.
Proof.
  intros H. apply IsProtoMessage_true_loop in H.
  apply IsProtoMessage_loop_sound in H as (es & Hwf & Hn & ->).
  unfold IsProtoMessage.
  rewrite (IsProtoMessage_loop_prefix es rest [] _ Hwf Hn (le_n _)).
  reflexivity.
Qed.

(** ** What every step of ingestion keeps *)

Lemma GetNode_present (id : NodeId) (e : Encoder) :
  is_Some (message_nodes_ (GetNode id e) !! id).
Proof.
  unfold GetNode. destruct (message_nodes_ e !! id) eqn:E.
  - rewrite E. eauto.
  - cbn. rewrite lookup_insert_eq. eauto.
Qed.

Lemma GetPosInTagsList_present (id id' : NodeId) (sub : Z) (e : Encoder) :
  is_Some (message_nodes_ e !! id') ->
  is_Some (message_nodes_ (GetPosInTagsList id sub e).2 !! id').
Proof.
  intros H. unfold GetPosInTagsList.
  destruct (_ =? kInvalidPos); cbn;
    (destruct (decide (id' = id)) as [->|Hne];
     [rewrite lookup_insert_eq; eauto
     |rewrite lookup_insert_ne by congruence; exact H]).
Qed.

Section Kept.

Variable kMaxNumRecords : Z.

(** A property of the encoder that every operation of ingestion keeps:
    the creation of a node, the interning of an encoded tag of a node
    that exists, a write to the buffer of one, and the changes of the
    other members. *)
Variable P : Encoder -> Prop.

Hypothesis P_GetNode : forall id e, P e -> P (GetNode id e).
Hypothesis P_GetPosInTagsList :
  forall id sub e,
    P e -> is_Some (message_nodes_ e !! id) -> 0 <= sub ->
    P (GetPosInTagsList id sub e).2.
Hypothesis P_push_encoded_tag : forall t e, P e -> P (push_encoded_tag t e).
Hypothesis P_buffer_write :
  forall id t src e,
    P e -> is_Some (message_nodes_ e !! id) ->
    P (buffer_write (GetBuffer id t e).1 src (GetBuffer id t e).2).
Hypothesis P_set_group_stack : forall g e, P e -> P (set_group_stack g e).
Hypothesis P_set_counters : forall n d e, P e -> P (set_counters n d e).
Hypothesis P_set_state : forall s e, P e -> P (set_state s e).
Hypothesis P_set_nonproto_lengths :
  forall w e,
    P e -> P (set_nonproto_lengths (w ++ nonproto_lengths_writer_ e) e).

(** The calls [GetPosInTagsList] and [push_back] at the front of a
    hypothesis, for a node that exists. *)
Ltac keep_tag H Hc Hn :=
  match type of H with
  | context [GetPosInTagsList ?id ?s ?e1] =>
      let A := fresh "A" in
      let B := fresh "B" in
      assert (A : P (GetPosInTagsList id s e1).2)
        by (apply P_GetPosInTagsList;
            [exact Hc|exact Hn
            |first [assumption
                   |unfold kTrivial, kLengthDelimitedString,
                      kLengthDelimitedStartOfSubmessage,
                      kLengthDelimitedEndOfSubmessage; lia]]);
      pose proof (GetPosInTagsList_present id id s e1 Hn) as B;
      clear Hc Hn; rename A into Hc; rename B into Hn;
      destruct (GetPosInTagsList id s e1) as [? ?]; cbn [fst snd] in Hc, Hn;
      cbv beta iota zeta in H
  end.

(** The calls [GetBuffer] and [Write] at the front of a hypothesis. *)
Ltac keep_write H Hc Hn src :=
  match type of H with
  | context [GetBuffer ?id ?t ?e1] =>
      let A := fresh "A" in
      pose proof (P_buffer_write id t src e1 Hc Hn) as A;
      clear Hc Hn; rename A into Hc;
      destruct (GetBuffer id t e1) as [? ?]; cbn [fst snd] in Hc;
      cbv beta iota zeta in H
  end.

Lemma AddMessage_iteration_keeps
    (rec : list byte -> Z -> Z -> Encoder -> option Encoder)
    (record rest : list byte) (parent depth p' d' : Z) (e e' : Encoder) :
  (forall payload p d e0 e1,
      rec payload p d e0 = Some e1 -> P e0 -> P e1) ->
  AddMessage_iteration rec record parent depth e = Some (rest, p', d', e') ->
  P e -> P e'.
Proof.
  intros Hrec H He. unfold AddMessage_iteration in H.
  destruct (ReadVarint32 record) as [[tag r1]|] eqn:R; [|discriminate].
  pose proof (P_GetNode (parent, tag) e He) as Hc.
  pose proof (GetNode_present (parent, tag) e) as Hn.
  set (e1 := GetNode (parent, tag) e) in *. clearbody e1.
  destruct (land_7_cases tag) as [E|[E|[E|[E|[E|[E|[E|E]]]]]]];
    rewrite E in H; try discriminate.
  - (* kVarint *)
    destruct (CopyVarint64 r1) as [[value r2]|] eqn:C; [|discriminate].
    assert (Hs : 0 <= kVarintInline0 + byte_val (hd x00 value)).
    { pose proof (byte_val_bound (hd x00 value)). unfold kVarintInline0.
      lia. }
    assert (Hs' : 0 <= kVarint1 + wrap8 (Z.of_nat (length value) - 1)).
    { unfold kVarint1, wrap8.
      pose proof (Z.mod_pos_bound (Z.of_nat (length value) - 1) (2 ^ 8)
                    ltac:(lia)). lia. }
    destruct (_ <=? kMaxVarintInline).
    + keep_tag H Hc Hn.
      injection H as <- <- <- <-. apply P_push_encoded_tag. exact Hc.
    + keep_tag H Hc Hn.
      apply P_push_encoded_tag with (t := z) in Hc.
      keep_write H Hc Hn (map clear_high_bit value).
      injection H as <- <- <- <-. exact Hc.
  - (* kFixed64 *)
    keep_tag H Hc Hn. apply P_push_encoded_tag with (t := z) in Hc.
    keep_write H Hc Hn (take 8 r1).
    destruct (length r1 <? 8)%nat; [discriminate|].
    injection H as <- <- <- <-. exact Hc.
  - (* kLengthDelimited *)
    destruct (ReadVarint32 r1) as [[len value]|] eqn:R2; [|discriminate].
    destruct (Z.of_nat (length value) <? len); [discriminate|].
    destruct ((depth <? kMaxRecursionDepth) && negb (len =? 0)
              && IsProtoMessage (take (Z.to_nat len) value)).
    + keep_tag H Hc Hn. apply P_push_encoded_tag with (t := z) in Hc.
      change (message_nodes_ e0) with (message_nodes_ (push_encoded_tag z e0))
        in Hn.
      keep_tag H Hc Hn.
      match type of H with
      | context [rec ?pl ?p ?d ?e0] =>
          destruct (rec pl p d e0) as [e4|] eqn:Hr; [|discriminate];
          apply Hrec in Hr; [|exact Hc]
      end.
      injection H as <- <- <- <-. apply P_push_encoded_tag. exact Hr.
    + keep_tag H Hc Hn. apply P_push_encoded_tag with (t := z) in Hc.
      keep_write H Hc Hn (take (length r1 - length value + Z.to_nat len) r1).
      injection H as <- <- <- <-. exact Hc.
  - (* kStartGroup *)
    keep_tag H Hc Hn. injection H as <- <- <- <-.
    apply P_set_group_stack, P_push_encoded_tag. exact Hc.
  - (* kEndGroup *)
    destruct (group_stack_ e1) as [|back stack]; [discriminate|].
    apply P_set_group_stack with (g := stack) in Hc.
    change (message_nodes_ e1)
      with (message_nodes_ (set_group_stack stack e1)) in Hn.
    keep_tag H Hc Hn. injection H as <- <- <- <-.
    apply P_push_encoded_tag. exact Hc.
  - (* kFixed32 *)
    keep_tag H Hc Hn. apply P_push_encoded_tag with (t := z) in Hc.
    keep_write H Hc Hn (take 4 r1).
    destruct (length r1 <? 4)%nat; [discriminate|].
    injection H as <- <- <- <-. exact Hc.
Qed.

Lemma AddMessage_keeps (fuel : nat) :
  forall (record : list byte) (parent depth : Z) (e e' : Encoder),
    AddMessage fuel record parent depth e = Some e' -> P e -> P e'.
Proof.
  induction fuel as [|fuel IH]; intros record parent depth e e' H He.
  - cbn [AddMessage] in H. destruct (Pull record); [discriminate|].
    injection H as <-. exact He.
  - cbn [AddMessage] in H. destruct (Pull record).
    + destruct (AddMessage_iteration (AddMessage fuel) record parent depth e)
        as [[[[r p] d] e1]|] eqn:S; [|discriminate].
      apply AddMessage_iteration_keeps in S; [|exact IH|exact He].
      eapply IH; [exact H|exact S].
    + injection H as <-. exact He.
Qed.

Lemma AddRecordInternal_keeps (record : list byte) (e e' : Encoder)
    (ok : bool) :
  AddRecordInternal kMaxNumRecords record e = Some (ok, e') -> P e -> P e'.
Proof.
  intros H He. unfold AddRecordInternal in H.
  destruct (negb (healthy e)); [injection H as <- <-; exact He|].
  destruct (num_records_ e =? kMaxNumRecords);
    [injection H as <- <-; apply P_set_state; exact He|].
  destruct (_ >? _); [injection H as <- <-; apply P_set_state; exact He|].
  cbv beta iota zeta in H.
  destruct (IsProtoMessage record) eqn:Pr;
    match type of H with
    | context [GetNode ?id (set_counters ?a ?b e)] =>
        assert (Hc : P (GetNode id (set_counters a b e)))
          by (apply P_GetNode, P_set_counters; exact He);
        pose proof (GetNode_present id (set_counters a b e)) as Hn
    end.
  - keep_tag H Hc Hn. apply P_push_encoded_tag with (t := z) in Hc.
    match type of H with
    | context [AddMessage ?f ?r ?p ?d ?e0] =>
        destruct (AddMessage f r p d e0) as [e2|] eqn:A; [|discriminate]
    end.
    injection H as <- <-.
    exact (AddMessage_keeps _ _ _ _ _ _ A Hc).
  - keep_tag H Hc Hn. apply P_push_encoded_tag with (t := z) in Hc.
    keep_write H Hc Hn record.
    injection H as <- <-. unfold WriteVarint64_backward.
    match type of Hc with
    | P ?e2 => exact (P_set_nonproto_lengths _ e2 Hc)
    end.
Qed.

Lemma AddRecord_each_keeps (records : list (list byte)) :
  forall (e e' : Encoder) (oks : list bool),
    AddRecord_each kMaxNumRecords records e = Some (oks, e') -> P e -> P e'.
Proof.
  induction records as [|r records IH]; intros e e' oks H He.
  - injection H as <- <-. exact He.
  - cbn [AddRecord_each] in H.
    destruct (AddRecordInternal kMaxNumRecords r e) as [[ok e1]|] eqn:A;
      [|discriminate].
    destruct (AddRecord_each kMaxNumRecords records e1) as [[oks1 e2]|]
      eqn:B; [|discriminate].
    injection H as <- <-.
    eapply IH; [exact B|]. eapply AddRecordInternal_keeps; eassumption.
Qed.

End Kept.

(** ** Ingestion only adds *)

Lemma grows_refl (e : Encoder) : grows e e.
Proof.
  split; [reflexivity|]. split; [reflexivity|]. split; [reflexivity|].
  split.
  - intros i j bs b Hi Hj. exists bs, b. repeat split; auto.
  - intros id n Hn. exists n. repeat split; auto.
Qed.

Lemma grows_trans (e1 e2 e3 : Encoder) :
  grows e1 e2 -> grows e2 e3 -> grows e1 e3.
Proof.
  intros (A1 & A2 & A3 & A4 & A5) (B1 & B2 & B3 & B4 & B5).
  split; [etrans; eassumption|]. split; [etrans; eassumption|].
  split; [etrans; eassumption|]. split.
  - intros i j bs b Hi Hj.
    destruct (A4 i j bs b Hi Hj) as (bs2 & b2 & Hi2 & Hj2 & N2 & S2).
    destruct (B4 i j bs2 b2 Hi2 Hj2) as (bs3 & b3 & Hi3 & Hj3 & N3 & S3).
    exists bs3, b3. split; [exact Hi3|]. split; [exact Hj3|].
    split; [congruence|etrans; eassumption].
  - intros id n Hn.
    destruct (A5 id n Hn) as (n2 & Hn2 & M2 & W2 & T2).
    destruct (B5 id n2 Hn2) as (n3 & Hn3 & M3 & W3 & T3).
    exists n3. split; [exact Hn3|]. split; [congruence|]. split.
    + intros w Hw. apply W3, W2, Hw.
    + intros p t Ht Hne. apply T3; [|exact Hne]. apply T2; assumption.
Qed.

(** An encoder that differs in its nodes only. *)
Lemma grows_nodes (e : Encoder) (nodes : gmap NodeId MessageNode)
    (next : Z) :
  (forall id n,
      message_nodes_ e !! id = Some n ->
      exists n',
        nodes !! id = Some n' /\ message_id n' = message_id n /\
        (forall w, writer n = Some w -> writer n' = Some w) /\
        (forall p t, encoded_tag_pos n !! p = Some t -> t <> kInvalidPos ->
                     encoded_tag_pos n' !! p = Some t)) ->
  grows e (set_message_nodes nodes next e).
Proof.
  intros H.
  split; [reflexivity|]. split; [reflexivity|]. split; [reflexivity|].
  split; [|exact H].
  intros i j bs b Hi Hj. exists bs, b. repeat split; auto.
Qed.

Lemma grows_GetNode (id : NodeId) (e : Encoder) : grows e (GetNode id e).
Proof.
  unfold GetNode. destruct (message_nodes_ e !! id) eqn:E;
    [apply grows_refl|].
  apply grows_nodes. intros id' n Hn. exists n.
  rewrite lookup_insert_ne by congruence. repeat split; auto.
Qed.

Lemma grows_update_node (id : NodeId) (node : MessageNode) (e : Encoder) :
  message_id node = message_id (node_of id e) ->
  (forall w, writer (node_of id e) = Some w -> writer node = Some w) ->
  (forall p t, encoded_tag_pos (node_of id e) !! p = Some t ->
               t <> kInvalidPos -> encoded_tag_pos node !! p = Some t) ->
  grows e (update_node id node e).
Proof.
  intros Hm Hw Ht. apply grows_nodes. intros id' n Hn.
  destruct (decide (id' = id)) as [->|Hne].
  - exists node. rewrite lookup_insert_eq.
    unfold node_of in Hm, Hw, Ht. rewrite Hn in Hm, Hw, Ht. cbn in *.
    repeat split; auto.
  - exists n. rewrite lookup_insert_ne by congruence. repeat split; auto.
Qed.

Lemma grows_GetPosInTagsList (id : NodeId) (sub : Z) (e : Encoder) :
  grows e (GetPosInTagsList id sub e).2.
Proof.
  unfold GetPosInTagsList.
  set (node := node_of id e). set (p := Z.to_nat sub).
  set (etp := if (length (encoded_tag_pos node) <=? p)%nat
              then resize_up (p + 1) kInvalidPos (encoded_tag_pos node)
              else encoded_tag_pos node).
  assert (Hetp : forall q t, encoded_tag_pos node !! q = Some t ->
                             etp !! q = Some t).
  { intros q t Hq. unfold etp.
    destruct (_ <=? p)%nat; [|exact Hq].
    unfold resize_up. apply lookup_app_l_Some. exact Hq. }
  destruct (default kInvalidPos (etp !! p) =? kInvalidPos) eqn:C; cbn [snd].
  - apply Z.eqb_eq in C.
    eapply grows_trans.
    + apply (grows_update_node id
               (mkMessageNode (writer node) (message_id node)
                  (<[p := wrap32 (Z.of_nat (length (tags_list_ e)))]> etp))).
      * reflexivity.
      * intros w Hw. exact Hw.
      * intros q t Hq Hne. cbn.
        destruct (decide (q = p)) as [->|Hqp].
        -- apply Hetp in Hq. rewrite Hq in C. cbn in C. contradiction.
        -- rewrite list_lookup_insert_ne by congruence. apply Hetp. exact Hq.
    + split; [reflexivity|]. split; [eexists; reflexivity|].
      split; [reflexivity|]. split.
      * intros i j bs b Hi Hj. exists bs, b. repeat split; auto.
      * intros id' n Hn. exists n. repeat split; auto.
  - apply grows_update_node.
    + reflexivity.
    + intros w Hw. exact Hw.
    + intros q t Hq _. cbn. apply Hetp. exact Hq.
Qed.

Lemma grows_push_encoded_tag (t : Z) (e : Encoder) :
  grows e (push_encoded_tag t e).
Proof.
  split; [eexists; reflexivity|]. split; [reflexivity|].
  split; [reflexivity|]. split.
  - intros i j bs b Hi Hj. exists bs, b. repeat split; auto.
  - intros id n Hn. exists n. repeat split; auto.
Qed.

Lemma grows_members (e e' : Encoder) :
  encoded_tags_ e' = encoded_tags_ e -> tags_list_ e' = tags_list_ e ->
  nonproto_lengths_writer_ e `suffix_of` nonproto_lengths_writer_ e' ->
  data_ e' = data_ e -> message_nodes_ e' = message_nodes_ e ->
  grows e e'.
Proof.
  intros H1 H2 H3 H4 H5. unfold grows. rewrite H1, H2, H4, H5.
  split; [reflexivity|]. split; [reflexivity|]. split; [exact H3|]. split.
  - intros i j bs b Hi Hj. exists bs, b. repeat split; auto.
  - intros id n Hn. exists n. repeat split; auto.
Qed.

Lemma grows_GetBuffer (id : NodeId) (t : BufferType) (e : Encoder) :
  grows e (GetBuffer id t e).2.
Proof.
  unfold GetBuffer. destruct (writer (node_of id e)) as [w|] eqn:W;
    cbn [snd]; [apply grows_refl|].
  set (k := buffer_type_index t).
  eapply grows_trans; [|apply grows_update_node].
  - split; [reflexivity|]. split; [reflexivity|]. split; [reflexivity|].
    split.
    + intros i j bs b Hi Hj. cbn.
      destruct (decide (i = k)) as [->|Hne].
      * rewrite Hi. cbn [default].
        exists (bs ++ [mkBuffer [] id]), b.
        rewrite list_lookup_insert_eq by (eapply lookup_lt_Some; exact Hi).
        split; [reflexivity|].
        split; [apply lookup_app_l_Some; exact Hj|]. auto.
      * exists bs, b. rewrite list_lookup_insert_ne by congruence.
        repeat split; auto.
    + intros id' n Hn. exists n. repeat split; auto.
  - reflexivity.
  - cbn. unfold node_of in W |- *. cbn. intros w Hw. congruence.
  - cbn. intros q x Hq _. exact Hq.
Qed.

Lemma grows_buffer_write (w : nat * nat) (src : list byte) (e : Encoder) :
  grows e (buffer_write w src e).
Proof.
  destruct w as [wi wj].
  split; [reflexivity|]. split; [reflexivity|]. split; [reflexivity|].
  split.
  - intros i j bs b Hi Hj. cbn.
    destruct (decide (i = wi)) as [->|Hne].
    + rewrite list_lookup_alter_eq, Hi. cbn.
      destruct (decide (j = wj)) as [->|Hnj].
      * eexists _, _. split; [reflexivity|].
        rewrite list_lookup_alter_eq, Hj. cbn. split; [reflexivity|].
        split; [reflexivity|]. exists src. reflexivity.
      * eexists _, b. split; [reflexivity|].
        rewrite list_lookup_alter_ne by congruence. auto.
    + exists bs, b. rewrite list_lookup_alter_ne by congruence.
      repeat split; auto.
  - intros id n Hn. exists n. repeat split; auto.
Qed.

(** X17: Ingestion only adds to the encoder, whatever the encoder is and
    whether the records are accepted or not: the encoded tags and the
    tag list grow at the back and the lengths of the records that are no
    messages at the front, every buffer stays at its place, of its node,
    and grows at the front, and every node keeps its message id, its
    writer and the positions of its encoded tags. *)
Theorem AddRecord_only_adds (kMaxNumRecords : Z)
    (records : list (list byte)) (oks : list bool) (e e' : Encoder) :
  AddRecord_each kMaxNumRecords records e = Some (oks, e') ->
  grows e e'.
Proof.
  intros H.
  refine (AddRecord_each_keeps kMaxNumRecords (grows e) _ _ _ _ _ _ _ _
            records e e' oks H (grows_refl e)).
  - intros id e1 H1. eapply grows_trans; [exact H1|apply grows_GetNode].
  - intros id sub e1 H1 _ _.
    eapply grows_trans; [exact H1|apply grows_GetPosInTagsList].
  - intros t e1 H1.
    eapply grows_trans; [exact H1|apply grows_push_encoded_tag].
  - intros id t src e1 H1 _.
    eapply grows_trans; [exact H1|].
    eapply grows_trans; [apply grows_GetBuffer|apply grows_buffer_write].
  - intros g e1 H1.
    eapply grows_trans; [exact H1|]. apply grows_members; reflexivity.
  - intros n d e1 H1.
    eapply grows_trans; [exact H1|]. apply grows_members; reflexivity.
  - intros s e1 H1.
    eapply grows_trans; [exact H1|]. apply grows_members; reflexivity.
  - intros w e1 H1.
    eapply grows_trans; [exact H1|].
    apply grows_members; try reflexivity. exists w. reflexivity.
Qed.

(** ** The interning of the encoded tags *)

Lemma resize_up_lookup (p : nat) (etp : list Z) :
  let etp' := if (length etp <=? p)%nat
              then resize_up (p + 1) kInvalidPos etp else etp in
  (p < length etp')%nat /\
  (forall q t, etp !! q = Some t -> etp' !! q = Some t) /\
  (forall q t, etp' !! q = Some t -> t <> kInvalidPos -> etp !! q = Some t).
Proof.
  cbv zeta. destruct (Nat.leb_spec (length etp) p) as [Hle|Hlt].
  - unfold resize_up. split; [rewrite length_app, length_replicate; lia|].
    split.
    + intros q t Hq. apply lookup_app_l_Some. exact Hq.
    + intros q t Hq Hne. apply lookup_app_Some in Hq as [Hq|[_ Hq]];
        [exact Hq|].
      apply lookup_replicate in Hq as [-> _]. contradiction.
  - split; [exact Hlt|]. split; auto.
Qed.

Lemma interned_nodes (e e' : Encoder) (id : NodeId) (node : MessageNode) :
  tags_list_ e' = tags_list_ e ->
  message_nodes_ e' = <[id := node]> (message_nodes_ e) ->
  encoded_tag_pos node = encoded_tag_pos (node_of id e) ->
  is_Some (message_nodes_ e !! id) \/ encoded_tag_pos node = [] ->
  interned e -> interned e'.
Proof.
  intros Ht Hn Hp Hid [I1 I2]. unfold interned. rewrite Ht, Hn. split.
  - intros id' n p t Hl Hq Hne.
    destruct (decide (id' = id)) as [->|Hd].
    + rewrite lookup_insert_eq in Hl. injection Hl as <-.
      destruct Hid as [[n0 Hn0]|Hnil]; [|rewrite Hnil in Hq; discriminate].
      rewrite Hp in Hq. unfold node_of in Hq. rewrite Hn0 in Hq.
      exact (I1 id n0 p t Hn0 Hq Hne).
    + rewrite lookup_insert_ne in Hl by congruence.
      exact (I1 id' n p t Hl Hq Hne).
  - intros t x Hx. destruct (I2 t x Hx) as (Hs & n & Hl & Hq).
    split; [exact Hs|].
    destruct (decide (node_id x = id)) as [E|Hd].
    + exists node. rewrite E, lookup_insert_eq. split; [reflexivity|].
      rewrite Hp. unfold node_of. rewrite <- E, Hl. exact Hq.
    + exists n. rewrite lookup_insert_ne by congruence. auto.
Qed.

Lemma interned_members (e e' : Encoder) :
  tags_list_ e' = tags_list_ e -> message_nodes_ e' = message_nodes_ e ->
  interned e -> interned e'.
Proof. intros Ht Hn H. unfold interned. rewrite Ht, Hn. exact H. Qed.

Lemma interned_GetNode (id : NodeId) (e : Encoder) :
  interned e -> interned (GetNode id e).
Proof.
  intros H. unfold GetNode.
  destruct (message_nodes_ e !! id) eqn:E; [exact H|].
  apply (interned_nodes e _ id
           (mkMessageNode None (next_message_id_ e) []));
    [reflexivity|reflexivity|unfold node_of; rewrite E; reflexivity
    |right; reflexivity|exact H].
Qed.

Lemma interned_GetBuffer (id : NodeId) (t : BufferType) (e : Encoder) :
  is_Some (message_nodes_ e !! id) ->
  interned e -> interned (GetBuffer id t e).2.
Proof.
  intros Hid H. unfold GetBuffer.
  destruct (writer (node_of id e)); cbn [snd]; [exact H|].
  match goal with
  | |- interned (update_node _ ?node _) =>
      apply (interned_nodes e _ id node);
        [reflexivity|reflexivity|reflexivity|left; exact Hid|exact H]
  end.
Qed.

Lemma interned_GetPosInTagsList (id : NodeId) (sub : Z) (e : Encoder) :
  is_Some (message_nodes_ e !! id) -> 0 <= sub ->
  Z.of_nat (length (tags_list_ (GetPosInTagsList id sub e).2))
    < kInvalidPos ->
  interned e -> interned (GetPosInTagsList id sub e).2.
Proof.
  intros [n0 Hn0] Hsub. unfold GetPosInTagsList.
  assert (Hnode : node_of id e = n0) by (unfold node_of; rewrite Hn0; auto).
  rewrite Hnode.
  set (p := Z.to_nat sub).
  destruct (resize_up_lookup p (encoded_tag_pos n0)) as (Hlen & Hup & Hdown).
  set (etp := if (length (encoded_tag_pos n0) <=? p)%nat
              then resize_up (p + 1) kInvalidPos (encoded_tag_pos n0)
              else encoded_tag_pos n0) in *.
  destruct (default kInvalidPos (etp !! p) =? kInvalidPos) eqn:C; cbn [snd].
  - apply Z.eqb_eq in C. cbn [tags_list_ set_tags_list].
    rewrite length_app. cbn [length]. intros Hsz [I1 I2].
    unfold kInvalidPos in Hsz.
    rewrite wrap32_small by lia.
    assert (Hp : forall q t, etp !! q = Some t -> t <> kInvalidPos ->
                             q <> p).
    { intros q t Hq Hne ->. rewrite Hq in C. cbn in C. contradiction. }
    split.
    + intros id' n q t Hl Hq Hne. cbn in Hl |- *.
      destruct (decide (id' = id)) as [->|Hd].
      * rewrite lookup_insert_eq in Hl. injection Hl as <-. cbn in Hq.
        destruct (decide (q = p)) as [->|Hqp].
        -- rewrite list_lookup_insert_eq in Hq by exact Hlen.
           injection Hq as <-. split; [lia|].
           rewrite Nat2Z.id, lookup_app_r, Nat.sub_diag by lia.
           unfold p. rewrite Z2Nat.id by lia. reflexivity.
        -- rewrite list_lookup_insert_ne in Hq by congruence.
           destruct (I1 id n0 q t Hn0 (Hdown q t Hq Hne) Hne) as [T0 T1].
           split; [exact T0|]. apply lookup_app_l_Some. exact T1.
      * rewrite lookup_insert_ne in Hl by congruence.
        destruct (I1 id' n q t Hl Hq Hne) as [T0 T1].
        split; [exact T0|]. apply lookup_app_l_Some. exact T1.
    + intros t x Hx. cbn in Hx |- *.
      apply lookup_app_Some in Hx as [Hx|[Hge Hx]].
      * destruct (I2 t x Hx) as (Hs & n & Hl & Hq). split; [exact Hs|].
        destruct (decide (node_id x = id)) as [E|Hd].
        -- rewrite E, lookup_insert_eq. eexists. split; [reflexivity|].
           cbn. rewrite E, Hn0 in Hl. injection Hl as <-.
           apply lookup_lt_Some in Hx.
           rewrite list_lookup_insert_ne; [apply Hup; exact Hq|].
           intros Ep. rewrite <- Ep in Hq. apply Hup in Hq.
           rewrite Hq in C. cbn in C.
           unfold kInvalidPos in C. lia.
        -- exists n. rewrite lookup_insert_ne by congruence. auto.
      * apply list_lookup_singleton_Some in Hx as [Ht <-]. cbn.
        split; [exact Hsub|]. rewrite lookup_insert_eq.
        eexists. split; [reflexivity|]. cbn. fold p.
        rewrite list_lookup_insert_eq by exact Hlen. do 2 f_equal. lia.
  - apply Z.eqb_neq in C. cbn [tags_list_ update_node set_message_nodes].
    intros _ [I1 I2]. split.
    + intros id' n q t Hl Hq Hne. cbn in Hl |- *.
      destruct (decide (id' = id)) as [->|Hd].
      * rewrite lookup_insert_eq in Hl. injection Hl as <-. cbn in Hq.
        exact (I1 id n0 q t Hn0 (Hdown q t Hq Hne) Hne).
      * rewrite lookup_insert_ne in Hl by congruence.
        exact (I1 id' n q t Hl Hq Hne).
    + intros t x Hx. cbn in Hx |- *.
      destruct (I2 t x Hx) as (Hs & n & Hl & Hq). split; [exact Hs|].
      destruct (decide (node_id x = id)) as [E|Hd].
      * rewrite E, lookup_insert_eq. eexists. split; [reflexivity|].
        cbn. rewrite E, Hn0 in Hl. injection Hl as <-. apply Hup. exact Hq.
      * exists n. rewrite lookup_insert_ne by congruence. auto.
Qed.

(** X18: [GetPosInTagsList] interns the encoded tags: whatever records were
    added to a new encoder, as long as [tags_list_] has fewer than
    2^32 - 1 entries, the position that a node keeps for a subtype is the
    index of the entry of that node and subtype in [tags_list_], every
    entry is at the position that its node keeps for its subtype, and no
    two entries have the same node and subtype. *)
Theorem GetPosInTagsList_interns (kMaxNumRecords : Z)
    (records : list (list byte)) (oks : list bool) (e : Encoder) :
  AddRecord_each kMaxNumRecords records Encoder_new = Some (oks, e) ->
  Z.of_nat (length (tags_list_ e)) < kInvalidPos ->
  interned e /\
  NoDup (map (fun x => (node_id x, subtype x)) (tags_list_ e)).
Proof.
  intros H Hsz.
  assert (Hi : interned e).
  { refine (AddRecord_each_keeps kMaxNumRecords
              (fun e => Z.of_nat (length (tags_list_ e)) < kInvalidPos ->
                        interned e)
              _ _ _ _ _ _ _ _ records Encoder_new e oks H _ Hsz).
    - intros id e1 H1 Hl. apply interned_GetNode, H1.
      unfold GetNode in Hl. destruct (message_nodes_ e1 !! id); exact Hl.
    - intros id sub e1 H1 Hn Hs Hl.
      apply interned_GetPosInTagsList; [exact Hn|exact Hs|exact Hl|].
      apply H1.
      destruct (grows_GetPosInTagsList id sub e1) as (_ & Hp & _).
      apply prefix_length in Hp. lia.
    - intros t e1 H1 Hl. exact (H1 Hl).
    - intros id t src e1 H1 Hn Hl.
      apply (interned_members (GetBuffer id t e1).2); [reflexivity..|].
      apply interned_GetBuffer; [exact Hn|]. apply H1.
      destruct (grows_GetBuffer id t e1) as (_ & Hp & _).
      apply prefix_length in Hp. cbn in Hl. lia.
    - intros g e1 H1 Hl. exact (H1 Hl).
    - intros n d e1 H1 Hl. exact (H1 Hl).
    - intros s e1 H1 Hl. exact (H1 Hl).
    - intros w e1 H1 Hl. exact (H1 Hl).
    - intros _. split.
      + intros id n p t Hl. cbn in Hl. rewrite lookup_empty in Hl.
        discriminate.
      + intros t x Hx. discriminate. }
  split; [exact Hi|].
  destruct Hi as [_ I2]. apply NoDup_alt. intros i j k Hi Hj.
  apply list_lookup_fmap_Some in Hi as (x & Ex & Hx).
  apply list_lookup_fmap_Some in Hj as (y & Ey & Hy).
  destruct (I2 i x Hx) as (_ & n & Hn & Hp).
  destruct (I2 j y Hy) as (_ & n' & Hn' & Hp').
  assert (E1 : node_id x = node_id y) by congruence.
  assert (E2 : subtype x = subtype y) by congruence.
  rewrite E1, Hn' in Hn. injection Hn as <-.
  rewrite E2, Hp' in Hp. injection Hp as Hij. lia.
Qed.

(** ** The message ids *)

Lemma ids_in_turn_update (id : NodeId) (node : MessageNode) (e : Encoder) :
  is_Some (message_nodes_ e !! id) ->
  message_id node = message_id (node_of id e) ->
  ids_in_turn e -> ids_in_turn (update_node id node e).
Proof.
  intros [n0 Hn0] Hm (I1 & I2 & I3).
  unfold node_of in Hm. rewrite Hn0 in Hm. cbn in Hm.
  unfold ids_in_turn. cbn.
  assert (Hl : forall id' n,
             <[id := node]> (message_nodes_ e) !! id' = Some n ->
             exists n', message_nodes_ e !! id' = Some n' /\
                        message_id n' = message_id n).
  { intros id' n Hl. destruct (decide (id' = id)) as [->|Hd].
    - rewrite lookup_insert_eq in Hl. injection Hl as <-. eauto.
    - rewrite lookup_insert_ne in Hl by congruence. eauto. }
  split; [|split].
  - rewrite map_size_insert_Some by eauto. exact I1.
  - intros id' n Hn. apply Hl in Hn as (n' & Hn' & <-). eauto.
  - intros id1 id2 n1 n2 H1 H2 E.
    apply Hl in H1 as (n1' & H1 & E1). apply Hl in H2 as (n2' & H2 & E2).
    apply (I3 id1 id2 n1' n2' H1 H2). congruence.
Qed.

Lemma ids_in_turn_members (e e' : Encoder) :
  message_nodes_ e' = message_nodes_ e ->
  next_message_id_ e' = next_message_id_ e ->
  ids_in_turn e -> ids_in_turn e'.
Proof. intros Hn Hx H. unfold ids_in_turn. rewrite Hn, Hx. exact H. Qed.

Lemma ids_in_turn_GetNode (id : NodeId) (e : Encoder) :
  Z.of_nat (size (message_nodes_ (GetNode id e))) + kRoot + 1 < 2 ^ 32 ->
  ids_in_turn e -> ids_in_turn (GetNode id e).
Proof.
  unfold GetNode. destruct (message_nodes_ e !! id) eqn:E; [auto|].
  cbn [message_nodes_ set_message_nodes].
  rewrite map_size_insert_None by exact E.
  intros Hsz (I1 & I2 & I3).
  unfold ids_in_turn. cbn.
  rewrite map_size_insert_None by exact E.
  unfold kRoot in *.
  rewrite wrap32_small by lia.
  split; [lia|]. split.
  - intros id' n Hn. destruct (decide (id' = id)) as [->|Hd].
    + rewrite lookup_insert_eq in Hn. injection Hn as <-. cbn. lia.
    + rewrite lookup_insert_ne in Hn by congruence.
      specialize (I2 id' n Hn). lia.
  - intros id1 id2 n1 n2 H1 H2 Em.
    destruct (decide (id1 = id)) as [->|D1];
      destruct (decide (id2 = id)) as [->|D2]; [reflexivity| | |].
    + rewrite lookup_insert_eq in H1. injection H1 as <-.
      rewrite lookup_insert_ne in H2 by congruence.
      specialize (I2 id2 n2 H2). cbn in Em. lia.
    + rewrite lookup_insert_eq in H2. injection H2 as <-.
      rewrite lookup_insert_ne in H1 by congruence.
      specialize (I2 id1 n1 H1). cbn in Em. lia.
    + rewrite lookup_insert_ne in H1, H2 by congruence.
      exact (I3 id1 id2 n1 n2 H1 H2 Em).
Qed.

Lemma GetNode_size (id : NodeId) (e : Encoder) :
  (size (message_nodes_ e) <= size (message_nodes_ (GetNode id e)))%nat.
Proof.
  unfold GetNode. destruct (message_nodes_ e !! id) eqn:E; [lia|].
  cbn. rewrite map_size_insert_None by exact E. lia.
Qed.

Lemma update_node_size (id : NodeId) (node : MessageNode) (e : Encoder) :
  is_Some (message_nodes_ e !! id) ->
  size (message_nodes_ (update_node id node e)) = size (message_nodes_ e).
Proof. intros Hn. cbn. apply map_size_insert_Some. exact Hn. Qed.

Lemma ids_in_turn_GetPosInTagsList (id : NodeId) (sub : Z) (e : Encoder) :
  is_Some (message_nodes_ e !! id) ->
  size (message_nodes_ (GetPosInTagsList id sub e).2)
  = size (message_nodes_ e) /\
  (ids_in_turn e -> ids_in_turn (GetPosInTagsList id sub e).2).
Proof.
  intros Hn. unfold GetPosInTagsList.
  destruct (_ =? kInvalidPos); cbn [snd].
  - match goal with
    | |- context [set_tags_list ?l (update_node _ ?node _)] =>
        split;
          [exact (update_node_size id node e Hn)
          |intros H;
           apply (ids_in_turn_members (update_node id node e));
             [reflexivity|reflexivity|];
           exact (ids_in_turn_update id node e Hn eq_refl H)]
    end.
  - split; [apply update_node_size; exact Hn|].
    intros H. apply ids_in_turn_update; [exact Hn|reflexivity|exact H].
Qed.

Lemma ids_in_turn_GetBuffer (id : NodeId) (t : BufferType) (e : Encoder) :
  is_Some (message_nodes_ e !! id) ->
  size (message_nodes_ (GetBuffer id t e).2) = size (message_nodes_ e) /\
  (ids_in_turn e -> ids_in_turn (GetBuffer id t e).2).
Proof.
  intros Hn. unfold GetBuffer.
  destruct (writer (node_of id e)); cbn [snd]; [auto|].
  match goal with
  | |- context [update_node _ ?node (set_data ?d _)] =>
      split;
        [exact (update_node_size id node (set_data d e) Hn)
        |intros H;
         exact (ids_in_turn_update id node (set_data d e) Hn eq_refl H)]
  end.
Qed.

(** X19: [GetNode] gives every node a message id of its own: whatever records
    were added to a new encoder, as long as there are fewer than
    2^32 - 5 nodes, [next_message_id_] is [kRoot + 1] plus the number of
    nodes, the message id of every node is above [kRoot] and below
    [next_message_id_], and no two nodes have the same message id. *)
Theorem GetNode_gives_ids_in_turn (kMaxNumRecords : Z)
    (records : list (list byte)) (oks : list bool) (e : Encoder) :
  AddRecord_each kMaxNumRecords records Encoder_new = Some (oks, e) ->
  Z.of_nat (size (message_nodes_ e)) + kRoot + 1 < 2 ^ 32 ->
  ids_in_turn e.
Proof.
  intros H Hsz.
  refine (AddRecord_each_keeps kMaxNumRecords
            (fun e => Z.of_nat (size (message_nodes_ e)) + kRoot + 1 < 2 ^ 32
                      -> ids_in_turn e)
            _ _ _ _ _ _ _ _ records Encoder_new e oks H _ Hsz).
  - intros id e1 H1 Hl. apply ids_in_turn_GetNode; [exact Hl|]. apply H1.
    pose proof (GetNode_size id e1). lia.
  - intros id sub e1 H1 Hn _ Hl.
    destruct (ids_in_turn_GetPosInTagsList id sub e1 Hn) as [Hs Hk].
    rewrite Hs in Hl. exact (Hk (H1 Hl)).
  - intros t e1 H1 Hl. exact (H1 Hl).
  - intros id t src e1 H1 Hn Hl.
    destruct (ids_in_turn_GetBuffer id t e1 Hn) as [Hs Hk].
    apply (ids_in_turn_members (GetBuffer id t e1).2);
      [reflexivity|reflexivity|].
    apply Hk, H1. rewrite <- Hs. exact Hl.
  - intros g e1 H1 Hl. exact (H1 Hl).
  - intros n d e1 H1 Hl. exact (H1 Hl).
  - intros s e1 H1 Hl. exact (H1 Hl).
  - intros w e1 H1 Hl. exact (H1 Hl).
  - intros _. split; [reflexivity|]. split.
    + intros id n Hn. cbn in Hn. rewrite lookup_empty in Hn. discriminate.
    + intros id1 id2 n1 n2 Hn. cbn in Hn. rewrite lookup_empty in Hn.
      discriminate.
Qed.

(** ** Refusals *)

Lemma AddRecord_each_unhealthy (kMaxNumRecords : Z)
    (records : list (list byte)) (e : Encoder) :
  healthy e = false ->
  AddRecord_each kMaxNumRecords records e
  = Some (replicate (length records) false, e).
Proof.
  intros Hh. induction records as [|r records IH]; [reflexivity|].
  cbn [AddRecord_each length replicate].
  unfold AddRecordInternal at 1. rewrite Hh. cbn [negb]. rewrite IH.
  reflexivity.
Qed.

Lemma accepted_none (records : list (list byte)) :
  accepted records (replicate (length records) false) = [].
Proof. induction records as [|r records IH]; [reflexivity|exact IH]. Qed.

(** X20: [AddRecord] returns for every record, whatever the encoder is, and a
    refusal is final: of the records added in turn, some number [n] of
    the first are accepted and all the others are refused. The encoder
    is then the one that the first [n] records leave, which has failed
    with a resource-exhausted error if it was healthy and a record was
    refused; it is healthy only if it was healthy and no record was
    refused. *)
Theorem AddRecord_refusals_are_final (kMaxNumRecords : Z)
    (records : list (list byte)) (e : Encoder) :
  exists (oks : list bool) (e' e_n : Encoder) (n : nat),
    AddRecord_each kMaxNumRecords records e = Some (oks, e') /\
    (n <= length records)%nat /\
    oks = replicate n true ++ replicate (length records - n) false /\
    accepted records oks = take n records /\
    AddRecord_each kMaxNumRecords (take n records) e
    = Some (replicate n true, e_n) /\
    (n = length records -> e' = e_n) /\
    ((n < length records)%nat -> healthy e_n = true ->
     e' = Fail kResourceExhausted e_n) /\
    (healthy e_n = false -> e' = e_n) /\
    (healthy e' = true <-> healthy e = true /\ n = length records).
Proof.
  revert e. induction records as [|r records IH]; intros e.
  - exists [], e, e, 0%nat. cbn [AddRecord_each length take replicate app].
    split; [reflexivity|]. split; [lia|]. split; [reflexivity|].
    split; [reflexivity|]. split; [reflexivity|]. split; [reflexivity|].
    split; [lia|]. split; [reflexivity|].
    split; [intros H; split; [exact H|reflexivity]|intros [H _]; exact H].
  - destruct (healthy e) eqn:Hh.
    + assert (Hd : limit_exceeded kMaxNumRecords r e \/
                   ~ limit_exceeded kMaxNumRecords r e)
        by (unfold limit_exceeded; lia).
      destruct Hd as [Hl|Hl].
      * exists (false :: replicate (length records) false),
          (Fail kResourceExhausted e), e, 0%nat.
        cbn [AddRecord_each].
        rewrite (AddRecordInternal_limit kMaxNumRecords r e Hh Hl).
        rewrite AddRecord_each_unhealthy by reflexivity.
        cbn [length take replicate app Nat.sub accepted].
        rewrite accepted_none.
        split; [reflexivity|]. split; [lia|]. split; [reflexivity|].
        split; [reflexivity|]. split; [reflexivity|].
        split; [discriminate|]. split; [reflexivity|].
        split; [congruence|]. split; [discriminate|intros [_ ?]; lia].
      * destruct (AddRecordInternal_accepts kMaxNumRecords (fun b => b) r e
                    Hh Hl)
          as (e1 & A & Hh1).
        destruct (IH e1)
          as (oks & e' & e_n & n & B & Hn & Ho & Ha & Bn & E1 & E2 & E3 & E4).
        exists (true :: oks), e', e_n, (S n).
        cbn [AddRecord_each length take replicate app Nat.sub accepted].
        rewrite A, B, Bn. split; [reflexivity|]. split; [lia|].
        split; [rewrite Ho; reflexivity|]. split; [rewrite Ha; reflexivity|].
        split; [reflexivity|]. split; [intros [= ->]; auto|].
        split; [intros Hlt; apply E2; lia|]. split; [exact E3|].
        rewrite E4, Hh1. split; intros [_ ?]; split; (reflexivity || lia).
    + exists (replicate (S (length records)) false), e, e, 0%nat.
      rewrite (AddRecord_each_unhealthy kMaxNumRecords (r :: records) e Hh).
      cbn [length take replicate app Nat.sub AddRecord_each].
      change (false :: replicate (length records) false)
        with (replicate (length (r :: records)) false).
      rewrite accepted_none.
      split; [reflexivity|]. split; [lia|]. split; [reflexivity|].
      split; [reflexivity|]. split; [reflexivity|].
      split; [reflexivity|]. split; [congruence|].
      split; [reflexivity|]. rewrite Hh. split; [discriminate|].
      intros [? _]. discriminate.
Qed.

(** ** The bytes of the buffers *)

Lemma bytes_of_cons (l : list BufferWithMetadata)
    (data : list (list BufferWithMetadata)) :
  bytes_of (l :: data) = bytes_of [l] + bytes_of data.
Proof.
  unfold bytes_of. cbn [concat]. rewrite app_nil_r, map_app, concat_app,
    length_app. lia.
Qed.

Lemma bytes_of_insert (data : list (list BufferWithMetadata)) :
  forall (i : nat) (l l' : list BufferWithMetadata),
    data !! i = Some l ->
    bytes_of (<[i := l']> data) = bytes_of data - bytes_of [l] + bytes_of [l'].
Proof.
  induction data as [|k data IH]; intros i l l' Hi; [discriminate|].
  destruct i as [|i]; cbn in Hi.
  - injection Hi as ->.
    change (<[0%nat := l']> (l :: data)) with (l' :: data).
    rewrite (bytes_of_cons l' data), (bytes_of_cons l data). lia.
  - change (<[S i := l']> (k :: data)) with (k :: <[i := l']> data).
    rewrite (bytes_of_cons k data), (bytes_of_cons k (<[i:=l']> data)).
    rewrite (IH i l l' Hi). lia.
Qed.

Lemma bytes_of_snoc (l : list BufferWithMetadata) (b : BufferWithMetadata) :
  bytes_of [l ++ [b]] = bytes_of [l] + Z.of_nat (length (buffer b)).
Proof.
  unfold bytes_of. cbn [concat]. rewrite !app_nil_r, map_app, concat_app.
  cbn. rewrite app_nil_r, length_app. lia.
Qed.

Lemma bytes_of_prepend (src : list byte) (l : list BufferWithMetadata) :
  forall j : nat,
    bytes_of [l] <= bytes_of [alter (prepend_to src) j l]
    <= bytes_of [l] + Z.of_nat (length src).
Proof.
  assert (H : forall j : nat,
             (length (concat (map buffer l))
              <= length (concat (map buffer (alter (prepend_to src) j l)))
              <= length (concat (map buffer l)) + length src)%nat).
  { induction l as [|b l IH]; intros j; [destruct j; cbn; lia|].
    destruct j as [|j].
    - change (alter (prepend_to src) 0%nat (b :: l))
        with (prepend_to src b :: l).
      cbn [map concat prepend_to buffer]. rewrite !length_app. lia.
    - change (alter (prepend_to src) (S j) (b :: l))
        with (b :: alter (prepend_to src) j l).
      specialize (IH j). cbn [map concat]. rewrite !length_app. lia. }
  intros j. specialize (H j). unfold bytes_of. cbn [concat].
  rewrite !app_nil_r. lia.
Qed.

Lemma stored_GetNode (id : NodeId) (e : Encoder) :
  stored (GetNode id e) = stored e.
Proof. unfold GetNode. destruct (message_nodes_ e !! id); reflexivity. Qed.

Lemma stored_GetPosInTagsList (id : NodeId) (sub : Z) (e : Encoder) :
  stored (GetPosInTagsList id sub e).2 = stored e.
Proof.
  unfold GetPosInTagsList. destruct (_ =? kInvalidPos); reflexivity.
Qed.

Lemma stored_GetBuffer (id : NodeId) (t : BufferType) (e : Encoder) :
  stored (GetBuffer id t e).2 = stored e.
Proof.
  unfold GetBuffer. destruct (writer (node_of id e)); [reflexivity|].
  cbn [snd]. unfold stored. cbn.
  destruct (data_ e !! buffer_type_index t) as [l|] eqn:L.
  - rewrite (bytes_of_insert _ _ l _ L). cbn [default].
    rewrite bytes_of_snoc. cbn. lia.
  - rewrite list_insert_ge; [reflexivity|].
    apply lookup_ge_None. exact L.
Qed.

Lemma stored_buffer_write (w : nat * nat) (src : list byte) (e : Encoder) :
  stored e <= stored (buffer_write w src e)
  <= stored e + Z.of_nat (length src).
Proof.
  destruct w as [i j]. unfold stored, buffer_write. cbn.
  destruct (data_ e !! i) as [l|] eqn:L.
  - assert (E : alter (alter (prepend_to src) j) i (data_ e)
                = <[i := alter (prepend_to src) j l]> (data_ e)).
    { apply list_eq. intros k. destruct (decide (k = i)) as [->|Hne].
      - rewrite list_lookup_alter_eq, L.
        rewrite list_lookup_insert_eq by (eapply lookup_lt_Some; exact L).
        reflexivity.
      - rewrite list_lookup_alter_ne, list_lookup_insert_ne by congruence.
        reflexivity. }
    rewrite E, (bytes_of_insert _ _ l _ L).
    pose proof (bytes_of_prepend src l j). lia.
  - assert (E : alter (alter (prepend_to src) j) i (data_ e) = data_ e).
    { apply list_eq. intros k. destruct (decide (k = i)) as [->|Hne].
      - rewrite list_lookup_alter_eq, L. reflexivity.
      - rewrite list_lookup_alter_ne by congruence. reflexivity. }
    rewrite E. lia.
Qed.

Lemma copy_varint_app (n : nat) :
  forall src value rest,
    copy_varint n src = Some (value, rest) -> src = value ++ rest.
Proof.
  induction n as [|n IH]; intros src value rest H;
    [destruct src; discriminate|].
  destruct src as [|b src]; [discriminate|]. cbn [copy_varint] in H.
  destruct (byte_val b <? 128); [injection H as <- <-; reflexivity|].
  destruct (copy_varint n src) as [[bs r]|] eqn:C; [|discriminate].
  injection H as <- <-. rewrite (IH _ _ _ C). reflexivity.
Qed.

(** The calls [GetPosInTagsList] and [push_back] at the front of a
    hypothesis. *)
Ltac bytes_tag H Hs :=
  match type of H with
  | context [GetPosInTagsList ?id ?s ?e1] =>
      let A := fresh "A" in
      pose proof (stored_GetPosInTagsList id s e1) as A;
      rewrite Hs in A; clear Hs; rename A into Hs;
      destruct (GetPosInTagsList id s e1) as [? ?]; cbn [fst snd] in Hs;
      cbv beta iota zeta in H
  end.

(** The calls [GetBuffer] and [Write] at the front of a hypothesis. *)
Ltac bytes_write H Hs src :=
  match type of H with
  | context [GetBuffer ?id ?t (push_encoded_tag ?z ?e1)] =>
      let A := fresh "A" in
      let B := fresh "B" in
      pose proof (stored_GetBuffer id t (push_encoded_tag z e1)) as A;
      change (stored (push_encoded_tag z e1)) with (stored e1) in A;
      rewrite Hs in A; clear Hs; rename A into Hs;
      pose proof (stored_buffer_write
                    (GetBuffer id t (push_encoded_tag z e1)).1 src
                    (GetBuffer id t (push_encoded_tag z e1)).2) as B;
      rewrite Hs in B;
      destruct (GetBuffer id t (push_encoded_tag z e1)) as [? ?];
      cbn [fst snd] in Hs, B;
      cbv beta iota zeta in H
  end.

Lemma AddMessage_iteration_bytes
    (rec : list byte -> Z -> Z -> Encoder -> option Encoder)
    (record rest : list byte) (parent depth p' d' : Z) (e e' : Encoder) :
  (forall payload p d e0 e1,
      rec payload p d e0 = Some e1 ->
      stored e0 <= stored e1 <= stored e0 + Z.of_nat (length payload)) ->
  AddMessage_iteration rec record parent depth e = Some (rest, p', d', e') ->
  stored e <= stored e' /\
  stored e' + Z.of_nat (length rest) <= stored e + Z.of_nat (length record).
Proof.
  intros Hrec H. unfold AddMessage_iteration in H.
  destruct (ReadVarint32 record) as [[tag r1]|] eqn:R; [|discriminate].
  apply ReadVarint32_shrinks in R.
  pose proof (stored_GetNode (parent, tag) e) as Hs.
  set (e1 := GetNode (parent, tag) e) in *. clearbody e1.
  destruct (land_7_cases tag) as [E|[E|[E|[E|[E|[E|[E|E]]]]]]];
    rewrite E in H; try discriminate.
  - (* kVarint *)
    destruct (CopyVarint64 r1) as [[value r2]|] eqn:C; [|discriminate].
    apply copy_varint_app in C. apply (f_equal length) in C.
    rewrite length_app in C.
    destruct (_ <=? kMaxVarintInline).
    + bytes_tag H Hs. injection H as <- <- <- <-.
      change (stored (push_encoded_tag z e0)) with (stored e0). lia.
    + bytes_tag H Hs. bytes_write H Hs (map clear_high_bit value).
      injection H as <- <- <- <-. rewrite length_map in B. lia.
  - (* kFixed64 *)
    bytes_tag H Hs. bytes_write H Hs (take 8 r1).
    destruct (length r1 <? 8)%nat eqn:L; [discriminate|].
    apply Nat.ltb_ge in L.
    injection H as <- <- <- <-. rewrite length_take in B.
    rewrite length_drop. lia.
  - (* kLengthDelimited *)
    destruct (ReadVarint32 r1) as [[len value]|] eqn:R2; [|discriminate].
    apply ReadVarint32_shrinks in R2.
    destruct (Z.of_nat (length value) <? len) eqn:L; [discriminate|].
    apply Z.ltb_ge in L.
    destruct ((depth <? kMaxRecursionDepth) && negb (len =? 0)
              && IsProtoMessage (take (Z.to_nat len) value)).
    + bytes_tag H Hs.
      match type of H with
      | context [GetPosInTagsList ?id ?s (push_encoded_tag ?z ?e2)] =>
          change (stored e2) with (stored (push_encoded_tag z e2)) in Hs
      end.
      bytes_tag H Hs.
      match type of H with
      | context [rec ?pl ?p ?d ?e0] =>
          destruct (rec pl p d e0) as [e4|] eqn:Hr; [|discriminate];
          apply Hrec in Hr
      end.
      injection H as <- <- <- <-.
      change (stored (push_encoded_tag z0 e4)) with (stored e4).
      rewrite length_take in Hr. rewrite length_drop. lia.
    + bytes_tag H Hs.
      bytes_write H Hs (take (length r1 - length value + Z.to_nat len) r1).
      injection H as <- <- <- <-. rewrite length_take in B.
      rewrite length_drop. lia.
  - (* kStartGroup *)
    bytes_tag H Hs. injection H as <- <- <- <-.
    change (stored (set_group_stack _ (push_encoded_tag z e0)))
      with (stored e0). lia.
  - (* kEndGroup *)
    destruct (group_stack_ e1) as [|back stack]; [discriminate|].
    change (stored e1) with (stored (set_group_stack stack e1)) in Hs.
    bytes_tag H Hs. injection H as <- <- <- <-.
    change (stored (push_encoded_tag z e0)) with (stored e0). lia.
  - (* kFixed32 *)
    bytes_tag H Hs. bytes_write H Hs (take 4 r1).
    destruct (length r1 <? 4)%nat eqn:L; [discriminate|].
    apply Nat.ltb_ge in L.
    injection H as <- <- <- <-. rewrite length_take in B.
    rewrite length_drop. lia.
Qed.

Lemma AddMessage_bytes (fuel : nat) :
  forall (record : list byte) (parent depth : Z) (e e' : Encoder),
    AddMessage fuel record parent depth e = Some e' ->
    stored e <= stored e' <= stored e + Z.of_nat (length record).
Proof.
  induction fuel as [|fuel IH]; intros record parent depth e e' H.
  - cbn [AddMessage] in H. destruct (Pull record); [discriminate|].
    injection H as <-. lia.
  - cbn [AddMessage] in H. destruct (Pull record).
    + destruct (AddMessage_iteration (AddMessage fuel) record parent depth e)
        as [[[[r p] d] e1]|] eqn:S; [|discriminate].
      apply AddMessage_iteration_bytes in S; [|exact IH].
      apply IH in H. lia.
    + injection H as <-. lia.
Qed.

Lemma AddRecordInternal_bytes (kMaxNumRecords : Z) (record : list byte)
    (e e' : Encoder) (ok : bool) :
  AddRecordInternal kMaxNumRecords record e = Some (ok, e') ->
  stored e <= stored e'
  <= stored e + (if ok then Z.of_nat (length record) else 0).
Proof.
  intros H. unfold AddRecordInternal in H.
  destruct (negb (healthy e)); [injection H as <- <-; lia|].
  destruct (num_records_ e =? kMaxNumRecords);
    [injection H as <- <-; change (stored (Fail _ e)) with (stored e); lia|].
  destruct (_ >? _);
    [injection H as <- <-; change (stored (Fail _ e)) with (stored e); lia|].
  cbv beta iota zeta in H.
  destruct (IsProtoMessage record) eqn:P;
    match type of H with
    | context [GetNode ?id (set_counters ?a ?b e)] =>
        pose proof (stored_GetNode id (set_counters a b e)) as Hs;
        change (stored (set_counters a b e)) with (stored e) in Hs
    end.
  - bytes_tag H Hs.
    match type of H with
    | context [AddMessage ?f ?r ?p ?d ?e0] =>
        destruct (AddMessage f r p d e0) as [e2|] eqn:A; [|discriminate]
    end.
    injection H as <- <-. apply AddMessage_bytes in A.
    change (stored (push_encoded_tag z e0)) with (stored e0) in A. lia.
  - bytes_tag H Hs. bytes_write H Hs record.
    injection H as <- <-.
    match goal with
    | |- context [stored (set_nonproto_lengths ?w ?e2)] =>
        change (stored (set_nonproto_lengths w e2)) with (stored e2)
    end.
    lia.
Qed.

Lemma AddRecord_each_bytes (kMaxNumRecords : Z)
    (records : list (list byte)) :
  forall (e e' : Encoder) (oks : list bool),
    AddRecord_each kMaxNumRecords records e = Some (oks, e') ->
    stored e <= stored e'
    <= stored e + Z.of_nat (length (concat (accepted records oks))).
Proof.
  induction records as [|r records IH]; intros e e' oks H.
  - injection H as <- <-. cbn. lia.
  - cbn [AddRecord_each] in H.
    destruct (AddRecordInternal kMaxNumRecords r e) as [[ok e1]|] eqn:A;
      [|discriminate].
    destruct (AddRecord_each kMaxNumRecords records e1) as [[oks1 e2]|]
      eqn:B; [|discriminate].
    injection H as <- <-.
    apply AddRecordInternal_bytes in A. apply IH in B.
    cbn [accepted]. destruct ok; cbn [concat]; [rewrite length_app|]; lia.
Qed.

(** X21: The buffers hold no more bytes than the records had: whatever
    records were added to a new encoder, the sizes of the buffers of
    [data_] add up to at most [decoded_data_size_], which is the sum of
    the sizes of the records that were accepted and is less than
    2^64. *)
Theorem AddRecord_stores_no_more_than_it_read (kMaxNumRecords : Z)
    (records : list (list byte)) (oks : list bool) (e : Encoder) :
  AddRecord_each kMaxNumRecords records Encoder_new = Some (oks, e) ->
  0 <= kMaxNumRecords < 2 ^ 64 ->
  0 <= stored e <= decoded_data_size_ e /\ decoded_data_size_ e < 2 ^ 64.
Proof.
  intros H Hk.
  destruct (AddRecord_each_counters kMaxNumRecords records Encoder_new e oks
              H) as (_ & _ & C & _ & D);
    try (cbn; unfold uint64_max; lia).
  pose proof (AddRecord_each_bytes kMaxNumRecords records _ _ _ H) as B.
  change (stored Encoder_new) with 0 in B.
  change (decoded_data_size_ Encoder_new) with 0 in C.
  unfold uint64_max in D. lia.
Qed.

(** ** The base of a tag *)

(** X22: On a public list that is a tree of blocks, the loop of
    [ComputeBaseIndices] over the destinations of a tag returns unless a
    destination that is served from the public list has no state there.
    When no destination is served from the public list, it leaves the
    base and the least position invalid. Otherwise the base is the start
    of the lowest block through which every such destination is reached,
    and the least position is the least of the states by which they are
    entered in that block. *)
Theorem scan_destinations_finds_the_base
    (order : Z -> gmap Z DestInfo -> list (Z * DestInfo))
    (max_transition public_list_base : Z) (state_machine : list StateInfo)
    (tags : list EncodedTagInfo) (origin : Z) :
  0 <= max_transition -> 0 <= public_list_base ->
  Z.of_nat (length state_machine) < kInvalidPos ->
  public_tree max_transition public_list_base state_machine ->
  (forall i, state_machine_pos (tag_at tags i) = kInvalidPos \/
             public_list_base <= state_machine_pos (tag_at tags i)
               < Z.of_nat (length state_machine)) ->
  let dests :=
    public_dests tags (order origin (dest_info (tag_at tags origin))) in
  let found :=
    scan_destinations order max_transition public_list_base state_machine
      tags origin in
  (kInvalidPos ∈ dests /\ found = None) \/
  ((kInvalidPos ∉ dests) /\
   ((dests = [] /\ found = Some (kInvalidPos, kInvalidPos)) \/
    (exists base min_pos,
        found = Some (base, min_pos) /\
        covers max_transition public_list_base state_machine dests
          base min_pos))).
Proof.
  intros Hmt Hplb Hsize Htree Htags. cbv zeta.
  rewrite scan_destinations_fold.
  destruct (scan_fold max_transition public_list_base state_machine Hmt Hplb
              Hsize Htree tags Htags
              (order origin (dest_info (tag_at tags origin)))
              (Some (kInvalidPos, kInvalidPos)) [])
    as [H|[Hn [H|(b & m & H & Hc)]]]; [left; auto|left; exact H| |].
  - right. split; [exact Hn|]. left. exact H.
  - right. split; [exact Hn|]. right. exists b, m.
    rewrite app_nil_r in Hc. auto.
Qed.

(** ** The records that are no messages *)

Section KeptOnMessages.

(** A property of the encoder that the operations of [AddMessage] keep,
    as far as [AddMessage] uses them on a message: the tag of a field
    is not 0, and no value of a field goes to the buffer of the records
    that are no messages. *)
Variable Q : Encoder -> Prop.

Hypothesis Q_GetNode : forall id e, Q e -> Q (GetNode id e).
Hypothesis Q_GetPosInTagsList :
  forall id sub e, Q e -> Q (GetPosInTagsList id sub e).2.
Hypothesis Q_push_encoded_tag : forall t e, Q e -> Q (push_encoded_tag t e).
Hypothesis Q_buffer_write :
  forall (id : NodeId) t src e,
    Q e -> id.2 <> 0 -> t <> kNonProtoBuf ->
    Q (buffer_write (GetBuffer id t e).1 src (GetBuffer id t e).2).
Hypothesis Q_set_group_stack : forall g e, Q e -> Q (set_group_stack g e).

(** The calls [GetPosInTagsList] and [push_back] at the front of a
    hypothesis. *)
Ltac message_tag H Hc :=
  match type of H with
  | context [GetPosInTagsList ?id ?s ?e1] =>
      let A := fresh "A" in
      pose proof (Q_GetPosInTagsList id s e1 Hc) as A;
      clear Hc; rename A into Hc;
      destruct (GetPosInTagsList id s e1) as [? ?]; cbn [fst snd] in Hc;
      cbv beta iota zeta in H
  end.

(** The calls [GetBuffer] and [Write] at the front of a hypothesis. *)
Ltac message_write H Hc Ht src :=
  match type of H with
  | context [GetBuffer ?id ?t ?e1] =>
      let A := fresh "A" in
      pose proof (Q_buffer_write id t src e1 Hc Ht ltac:(discriminate)) as A;
      clear Hc; rename A into Hc;
      destruct (GetBuffer id t e1) as [? ?]; cbn [fst snd] in Hc;
      cbv beta iota zeta in H
  end.

Lemma AddMessage_iteration_message_keeps
    (rec : list byte -> Z -> Z -> Encoder -> option Encoder)
    (record rest rest' : list byte) (open open' : list Z)
    (parent depth p' d' : Z) (e e' : Encoder) :
  IsProtoMessage_step record open = Some (rest, open') ->
  (forall payload p d e0 e1,
      IsProtoMessage payload = true ->
      (length payload < length record)%nat ->
      rec payload p d e0 = Some e1 -> Q e0 -> Q e1) ->
  AddMessage_iteration rec record parent depth e = Some (rest', p', d', e') ->
  Q e -> Q e'.
Proof.
  intros Hstep Hrec H He. unfold AddMessage_iteration in H.
  unfold IsProtoMessage_step in Hstep.
  destruct (ReadCanonicalVarint32 record) as [[tag r1]|] eqn:R;
    [|discriminate].
  apply ReadVarint32_canonical in R. rewrite R in H.
  apply ReadVarint32_shrinks in R.
  destruct (Z.shiftr tag 3 =? 0) eqn:F; [discriminate|].
  assert (Ht : (parent, tag).2 <> 0).
  { cbn. intros ->. discriminate. }
  clear Hstep F.
  pose proof (Q_GetNode (parent, tag) e He) as Hc.
  set (e1 := GetNode (parent, tag) e) in *. clearbody e1.
  destruct (land_7_cases tag) as [E|[E|[E|[E|[E|[E|[E|E]]]]]]];
    rewrite E in H; try discriminate.
  - (* kVarint *)
    destruct (CopyVarint64 r1) as [[value r2]|] eqn:C; [|discriminate].
    destruct (_ <=? kMaxVarintInline).
    + message_tag H Hc. injection H as <- <- <- <-.
      apply Q_push_encoded_tag. exact Hc.
    + message_tag H Hc. apply Q_push_encoded_tag with (t := z) in Hc.
      message_write H Hc Ht (map clear_high_bit value).
      injection H as <- <- <- <-. exact Hc.
  - (* kFixed64 *)
    message_tag H Hc. apply Q_push_encoded_tag with (t := z) in Hc.
    message_write H Hc Ht (take 8 r1).
    destruct (length r1 <? 8)%nat; [discriminate|].
    injection H as <- <- <- <-. exact Hc.
  - (* kLengthDelimited *)
    destruct (ReadVarint32 r1) as [[len value]|] eqn:R2; [|discriminate].
    destruct (Z.of_nat (length value) <? len); [discriminate|].
    destruct ((depth <? kMaxRecursionDepth) && negb (len =? 0)
              && IsProtoMessage (take (Z.to_nat len) value)) eqn:C.
    + apply andb_prop in C as [_ C].
      apply ReadVarint32_shrinks in R2.
      message_tag H Hc. apply Q_push_encoded_tag with (t := z) in Hc.
      message_tag H Hc.
      match type of H with
      | context [rec ?pl ?p ?d ?e0] =>
          destruct (rec pl p d e0) as [e4|] eqn:Hr; [|discriminate];
          apply Hrec in Hr; [|exact C|rewrite length_take; lia|exact Hc]
      end.
      injection H as <- <- <- <-. apply Q_push_encoded_tag. exact Hr.
    + message_tag H Hc. apply Q_push_encoded_tag with (t := z) in Hc.
      message_write H Hc Ht
        (take (length r1 - length value + Z.to_nat len) r1).
      injection H as <- <- <- <-. exact Hc.
  - (* kStartGroup *)
    message_tag H Hc. injection H as <- <- <- <-.
    apply Q_set_group_stack, Q_push_encoded_tag. exact Hc.
  - (* kEndGroup *)
    destruct (group_stack_ e1) as [|back stack]; [discriminate|].
    apply Q_set_group_stack with (g := stack) in Hc.
    message_tag H Hc. injection H as <- <- <- <-.
    apply Q_push_encoded_tag. exact Hc.
  - (* kFixed32 *)
    message_tag H Hc. apply Q_push_encoded_tag with (t := z) in Hc.
    message_write H Hc Ht (take 4 r1).
    destruct (length r1 <? 4)%nat; [discriminate|].
    injection H as <- <- <- <-. exact Hc.
Qed.

Lemma AddMessage_message_keeps (fuel : nat) :
  forall (record : list byte) (open : list Z) (f : nat) (parent depth : Z)
         (e e' : Encoder),
    IsProtoMessage_loop f record open = Some true ->
    (length record <= fuel)%nat ->
    (length open <= length (group_stack_ e))%nat ->
    AddMessage fuel record parent depth e = Some e' ->
    Q e -> Q e'.
Proof.
  induction fuel as [|fuel IH];
    intros record open f parent depth e e' Hv Hlen Ho H He.
  - cbn [AddMessage] in H. destruct (Pull record); [discriminate|].
    injection H as <-. exact He.
  - destruct record as [|b0 record].
    { cbn [AddMessage Pull] in H. injection H as <-. exact He. }
    destruct f as [|f]; [discriminate|].
    cbn [IsProtoMessage_loop Pull] in Hv.
    destruct (IsProtoMessage_step (b0 :: record) open) as [[rest open']|]
      eqn:S; [|discriminate].
    cbn [AddMessage Pull] in H.
    destruct (AddMessage_iteration_total (fun b => b) (AddMessage fuel)
                _ _ _ _ parent depth e S Ho)
      as (p' & d' & e1 & A & _ & _ & _ & H4 & _).
    { intros payload p d e0 Hp Hl.
      destruct (AddMessage_total (fun b => b) fuel payload []
                  (length payload) p d e0) as (e2 & -> & B);
        [apply IsProtoMessage_true_loop; exact Hp|simpl in *; lia
        |simpl; lia|].
      exists e2. split; [reflexivity|]. unfold same_frame.
      simpl in B. intuition. }
    rewrite A in H.
    assert (H1 : Q e1).
    { eapply AddMessage_iteration_message_keeps;
        [exact S| |exact A|exact He].
      intros payload p d e0 e2 Hp Hl Hr H0.
      eapply (IH payload [] (length payload));
        [apply IsProtoMessage_true_loop; exact Hp|simpl in *; lia|simpl; lia
        |exact Hr|exact H0]. }
    apply IsProtoMessage_step_shrinks in S.
    exact (IH rest open' f p' d' e1 e' Hv ltac:(simpl in *; lia) H4 H H1).
Qed.

End KeptOnMessages.

Lemma nonproto_kept_members (np : list (list byte)) (e e' : Encoder) :
  data_ e' !! buffer_type_index kNonProtoBuf
  = data_ e !! buffer_type_index kNonProtoBuf ->
  nonproto_lengths_writer_ e' = nonproto_lengths_writer_ e ->
  message_nodes_ e' = message_nodes_ e ->
  nonproto_kept np e -> nonproto_kept np e'.
Proof.
  intros Hd Hl Hn (K1 & K2 & K3 & K4).
  unfold nonproto_kept, node_of in *. rewrite Hd, Hl, Hn. auto.
Qed.

Lemma nonproto_kept_update_node (np : list (list byte)) (id : NodeId)
    (node : MessageNode) (e : Encoder) :
  writer node = writer (node_of id e) ->
  nonproto_kept np e -> nonproto_kept np (update_node id node e).
Proof.
  intros Hw (K1 & K2 & K3 & K4).
  split; [exact K1|]. split; [exact K2|]. split.
  - rewrite <- K3. unfold node_of. cbn.
    destruct (decide ((kNonProto, 0) = id)) as [<-|Hne].
    + rewrite lookup_insert_eq. exact Hw.
    + rewrite lookup_insert_ne by congruence. reflexivity.
  - intros id' n j Hn Hj. cbn in Hn.
    destruct (decide (id' = id)) as [->|Hne].
    + rewrite lookup_insert_eq in Hn. injection Hn as <-.
      rewrite Hw in Hj. unfold node_of in Hj.
      destruct (message_nodes_ e !! id) as [n0|] eqn:E; [|discriminate].
      exact (K4 id n0 j E Hj).
    + rewrite lookup_insert_ne in Hn by congruence. exact (K4 id' n j Hn Hj).
Qed.

Lemma nonproto_kept_GetNode (np : list (list byte)) (id : NodeId)
    (e : Encoder) :
  nonproto_kept np e -> nonproto_kept np (GetNode id e).
Proof.
  intros H. unfold GetNode.
  destruct (message_nodes_ e !! id) eqn:E; [exact H|].
  apply (nonproto_kept_update_node np id
           (mkMessageNode None (next_message_id_ e) []) e) in H.
  - destruct H as (K1 & K2 & K3 & K4). split; [exact K1|].
    split; [exact K2|]. split; [exact K3|exact K4].
  - unfold node_of. rewrite E. reflexivity.
Qed.

Lemma nonproto_kept_GetPosInTagsList (np : list (list byte)) (id : NodeId)
    (sub : Z) (e : Encoder) :
  nonproto_kept np e -> nonproto_kept np (GetPosInTagsList id sub e).2.
Proof.
  intros H. unfold GetPosInTagsList.
  destruct (_ =? kInvalidPos); cbn [snd].
  - match goal with
    | |- nonproto_kept np (set_tags_list _ (update_node _ ?node _)) =>
        apply (nonproto_kept_members np (update_node id node e));
          [reflexivity|reflexivity|reflexivity|];
        exact (nonproto_kept_update_node np id node e eq_refl H)
    end.
  - apply nonproto_kept_update_node; [reflexivity|exact H].
Qed.

Lemma nonproto_kept_buffer_write (np : list (list byte)) (id : NodeId)
    (t : BufferType) (src : list byte) (e : Encoder) :
  nonproto_kept np e -> id.2 <> 0 -> t <> kNonProtoBuf ->
  nonproto_kept np
    (buffer_write (GetBuffer id t e).1 src (GetBuffer id t e).2).
Proof.
  intros H Hid Ht.
  assert (Hk : buffer_type_index t <> buffer_type_index kNonProtoBuf)
    by (destruct t; cbn; congruence).
  unfold GetBuffer. destruct (writer (node_of id e)) as [[i j]|] eqn:W;
    cbn [fst snd].
  - assert (Hi : i <> buffer_type_index kNonProtoBuf).
    { intros ->. destruct H as (_ & _ & _ & K4). unfold node_of in W.
      destruct (message_nodes_ e !! id) as [n0|] eqn:E; [|discriminate].
      apply (K4 id n0 j E) in W. subst id. cbn in Hid. congruence. }
    apply (nonproto_kept_members np e); [|reflexivity|reflexivity|exact H].
    cbn -[buffer_type_index]. rewrite list_lookup_alter_ne by congruence. reflexivity.
  - match goal with
    | |- nonproto_kept np (buffer_write ?w src (update_node _ ?node ?e1)) =>
        apply (nonproto_kept_members np (update_node id node e));
          [| reflexivity | reflexivity |]
    end.
    + cbn -[buffer_type_index]. rewrite list_lookup_alter_ne by congruence.
      rewrite list_lookup_insert_ne by congruence. reflexivity.
    + destruct H as (K1 & K2 & K3 & K4).
      split; [exact K1|]. split; [exact K2|]. split.
      * rewrite <- K3. unfold node_of. cbn -[buffer_type_index].
        rewrite lookup_insert_ne; [reflexivity|].
        intros ->. cbn in Hid. congruence.
      * intros id' n j Hn Hj. cbn -[buffer_type_index] in Hn.
        destruct (decide (id' = id)) as [->|Hne].
        -- rewrite lookup_insert_eq in Hn. injection Hn as <-. cbn -[buffer_type_index] in Hj.
           exfalso. apply Hk. congruence.
        -- rewrite lookup_insert_ne in Hn by congruence.
           exact (K4 id' n j Hn Hj).
Qed.

Lemma nonproto_kept_record (np : list (list byte)) (record : list byte)
    (e : Encoder) :
  nonproto_kept np e ->
  is_Some (message_nodes_ e !! ((kNonProto, 0) : NodeId)) ->
  let e' := buffer_write (GetBuffer (kNonProto, 0) kNonProtoBuf e).1 record
              (GetBuffer (kNonProto, 0) kNonProtoBuf e).2 in
  nonproto_kept (np ++ [record])
    (set_nonproto_lengths
       (WriteVarint64_backward (Z.of_nat (length record))
          (nonproto_lengths_writer_ e')) e').
Proof.
  intros (K1 & K2 & K3 & K4) [n0 Hn0]. cbv zeta.
  assert (Hnode : node_of (kNonProto, 0) e = n0)
    by (unfold node_of; rewrite Hn0; reflexivity).
  assert (Hnp : match np ++ [record] with
                | [] => @None (nat * nat)
                | _ :: _ => Some (buffer_type_index kNonProtoBuf, 0%nat)
                end = Some (buffer_type_index kNonProtoBuf, 0%nat))
    by (destruct np; reflexivity).
  assert (Hbuf : match np ++ [record] with
                 | [] => []
                 | _ :: _ =>
                     [mkBuffer (concat (reverse (np ++ [record])))
                        (kNonProto, 0)]
                 end
                 = [mkBuffer (record ++ concat (reverse np)) (kNonProto, 0)]).
  { rewrite reverse_snoc. destruct np; reflexivity. }
  unfold nonproto_kept. rewrite Hnp, Hbuf, reverse_snoc. clear Hnp Hbuf.
  unfold GetBuffer. rewrite Hnode in *. rewrite K3.
  destruct np as [|r0 np].
  - (* the first record that is no message *)
    cbn [fst snd]. rewrite K1. cbn [default app length].
    pose proof (lookup_lt_Some _ _ _ K1) as Hlt.
    split; [|split; [|split]].
    + cbn -[buffer_type_index]. rewrite list_lookup_alter_eq, list_lookup_insert_eq by exact Hlt.
      reflexivity.
    + cbn -[buffer_type_index]. rewrite K2. reflexivity.
    + unfold node_of. cbn -[buffer_type_index]. rewrite lookup_insert_eq. reflexivity.
    + intros id n j Hn Hj. cbn -[buffer_type_index] in Hn.
      destruct (decide (id = (kNonProto, 0))) as [->|Hne]; [reflexivity|].
      rewrite lookup_insert_ne in Hn by congruence.
      exact (K4 id n j Hn Hj).
  - cbn [fst snd].
    split; [|split; [|split]].
    + cbn -[buffer_type_index]. rewrite list_lookup_alter_eq. cbn -[buffer_type_index] in K1. rewrite K1.
      reflexivity.
    + cbn -[buffer_type_index]. rewrite K2. reflexivity.
    + unfold node_of. cbn -[buffer_type_index]. rewrite Hn0. exact K3.
    + exact K4.
Qed.

Lemma nonproto_kept_AddRecordInternal (kMaxNumRecords : Z)
    (np : list (list byte)) (record : list byte) (e e' : Encoder)
    (ok : bool) :
  AddRecordInternal kMaxNumRecords record e = Some (ok, e') ->
  nonproto_kept np e ->
  nonproto_kept
    (if ok && negb (IsProtoMessage record) then np ++ [record] else np) e'.
Proof.
  intros H K. unfold AddRecordInternal in H.
  destruct (negb (healthy e)); [injection H as <- <-; exact K|].
  destruct (num_records_ e =? kMaxNumRecords);
    [injection H as <- <-;
     exact (nonproto_kept_members np e _ eq_refl eq_refl eq_refl K)|].
  destruct (_ >? _);
    [injection H as <- <-;
     exact (nonproto_kept_members np e _ eq_refl eq_refl eq_refl K)|].
  cbv beta iota zeta in H.
  match type of H with
  | context [GetNode ?id (set_counters ?a ?b e)] =>
      pose proof (nonproto_kept_members np e (set_counters a b e)
                    eq_refl eq_refl eq_refl K) as K0
  end.
  destruct (IsProtoMessage record) eqn:P.
  - match type of H with
    | context [GetPosInTagsList ?id ?s ?e1] =>
        pose proof (nonproto_kept_GetPosInTagsList np id s e1
                      (nonproto_kept_GetNode np id _ K0)) as K1;
        destruct (GetPosInTagsList id s e1) as [t e2]; cbn [fst snd] in K1;
        cbv beta iota zeta in H
    end.
    match type of H with
    | context [AddMessage ?f ?r ?p ?d ?e0] =>
        destruct (AddMessage f r p d e0) as [e3|] eqn:A; [|discriminate]
    end.
    injection H as <- <-. cbn [andb negb].
    unfold IsProtoMessage in P.
    destruct (IsProtoMessage_loop (length record) record [])
      as [[|]|] eqn:L; try discriminate.
    refine (AddMessage_message_keeps (nonproto_kept np)
              (nonproto_kept_GetNode np) (nonproto_kept_GetPosInTagsList np)
              _ (nonproto_kept_buffer_write np) _
              (length record) record [] (length record) kRoot 0 _ e3
              L (le_n _) _ A _).
    + intros t0 e0 K'.
      exact (nonproto_kept_members np e0 _ eq_refl eq_refl eq_refl K').
    + intros g e0 K'.
      exact (nonproto_kept_members np e0 _ eq_refl eq_refl eq_refl K').
    + cbn. lia.
    + exact (nonproto_kept_members np e2 _ eq_refl eq_refl eq_refl K1).
  - match type of H with
    | context [GetPosInTagsList ?id ?s ?e1] =>
        pose proof (nonproto_kept_GetPosInTagsList np id s e1
                      (nonproto_kept_GetNode np id _ K0)) as K1;
        pose proof (GetPosInTagsList_present id id s e1
                      (GetNode_present id _)) as N1;
        destruct (GetPosInTagsList id s e1) as [t e2];
        cbn [fst snd] in K1, N1; cbv beta iota zeta in H
    end.
    pose proof (nonproto_kept_record np record (push_encoded_tag t e2)
                  (nonproto_kept_members np e2 _ eq_refl eq_refl eq_refl K1)
                  N1) as K2.
    cbv zeta in K2.
    destruct (GetBuffer (kNonProto, 0) kNonProtoBuf (push_encoded_tag t e2))
      as [w e3]. cbn [fst snd] in K2. cbv beta iota zeta in H.
    injection H as <- <-. exact K2.
Qed.

Lemma nonproto_kept_AddRecord_each (kMaxNumRecords : Z)
    (records : list (list byte)) :
  forall (np : list (list byte)) (e e' : Encoder) (oks : list bool),
    AddRecord_each kMaxNumRecords records e = Some (oks, e') ->
    nonproto_kept np e ->
    nonproto_kept (np ++ no_messages (accepted records oks)) e'.
Proof.
  induction records as [|r records IH]; intros np e e' oks H K.
  - injection H as <- <-. cbn. rewrite app_nil_r. exact K.
  - cbn [AddRecord_each] in H.
    destruct (AddRecordInternal kMaxNumRecords r e) as [[ok e1]|] eqn:A;
      [|discriminate].
    destruct (AddRecord_each kMaxNumRecords records e1) as [[oks1 e2]|]
      eqn:B; [|discriminate].
    injection H as <- <-.
    apply (nonproto_kept_AddRecordInternal kMaxNumRecords np) in A;
      [|exact K].
    apply (IH _ _ _ _ B) in A. cbn [accepted]. unfold no_messages in *.
    destruct ok; cbn [andb List.filter] in *; [|exact A].
    destruct (IsProtoMessage r); cbn [negb] in *; [exact A|].
    rewrite <- app_assoc in A. exact A.
Qed.

(** ** The records that are no messages *)

(** X23: The records that are no messages are kept as they are: whatever
    records were added to a new encoder, the one buffer of the node
    [(kNonProto, 0)] holds the bytes of the accepted records that
    [IsProtoMessage] refuses, the last of them first, and
    [nonproto_lengths_writer_] holds their lengths as varints in the same
    order. No byte of a message is in that buffer, and there is no such
    buffer when every accepted record is a message. *)
Theorem AddRecord_keeps_the_records_that_are_no_messages
    (kMaxNumRecords : Z) (records : list (list byte)) (oks : list bool)
    (e : Encoder) :
  AddRecord_each kMaxNumRecords records Encoder_new = Some (oks, e) ->
  data_ e !! buffer_type_index kNonProtoBuf
  = Some (match no_messages (accepted records oks) with
          | [] => []
          | _ :: _ =>
              [mkBuffer
                 (concat (reverse (no_messages (accepted records oks))))
                 (kNonProto, 0)]
          end) /\
  nonproto_lengths_writer_ e
  = concat (map (fun r => canonical_varint (Z.of_nat (length r)))
              (reverse (no_messages (accepted records oks)))).
Proof.
  intros H.
  assert (K : nonproto_kept [] Encoder_new).
  { split; [reflexivity|]. split; [reflexivity|]. split; [reflexivity|].
    intros id n j Hn. cbn in Hn. rewrite lookup_empty in Hn. discriminate. }
  destruct (nonproto_kept_AddRecord_each kMaxNumRecords records [] _ _ _ H K)
    as (K1 & K2 & _).
  cbn [app] in K1, K2. split; [exact K1|exact K2].
Qed.

(** * Worked examples *)

(** A record that is not a protobuf message: the field after its first
    one is an end-group tag that closes no group. *)
Definition hello : list byte := [x68; x65; x6c; x6c; x6f].

(** The encoder after [records] were added to a new one, with room for
    1000 records. *)
Definition encoder_of (records : list (list byte)) : Encoder :=
  match AddRecord_each 1000 records Encoder_new with
  | Some (_, e) => e
  | None => Encoder_new
  end.

(** The state machine of [EncodeAndClose] for [records], and the encoder
    it leaves, with the destinations of a tag taken in the order of their
    keys. *)
Definition machine_of (records : list (list byte))
  : list StateInfo * Encoder :=
  match CreateStateMachine key_order kMaxTransition kMinCountForState
          (encoder_of records) with
  | Some r => r
  | None => ([], Encoder_new)
  end.

(** With room for one record and one record added, the next record is
    refused and nothing moves. *)
Lemma AddRecordInternal_limit_keeps_state_witness :
  let e := encoder_of [hello] in
  healthy e = true /\ limit_exceeded 1 hello e /\
  exists e',
    AddRecordInternal 1 hello e = Some (false, e') /\
    num_records_ e' = num_records_ e /\
    decoded_data_size_ e' = decoded_data_size_ e /\
    encoded_tags_ e' = encoded_tags_ e /\
    tags_list_ e' = tags_list_ e /\
    message_nodes_ e' = message_nodes_ e /\
    next_message_id_ e' = next_message_id_ e /\
    group_stack_ e' = group_stack_ e /\
    data_ e' = data_ e /\
    nonproto_lengths_writer_ e' = nonproto_lengths_writer_ e.
Proof.
  cbv zeta.
  assert (H1 : healthy (encoder_of [hello]) = true) by (vm_compute; reflexivity).
  assert (H2 : limit_exceeded 1 hello (encoder_of [hello]))
    by (left; vm_compute; reflexivity).
  split; [exact H1|]. split; [exact H2|].
  exact (AddRecordInternal_limit_keeps_state 1 hello (encoder_of [hello])
           H1 H2).
Defined.


(** Two records of the same kind: the only destination of the first
    encoded tag, the tag itself, gets the key 1 beside it. *)
Lemma guard_last_state_not_single_witness :
  let e := (machine_of [hello; hello]).2 in
  let d := dest_info (tag_at (tags_list_ e) 0) in
  let d' :=
    dest_info (tag_at (tags_list_ (guard_last_state key_order e)) 0) in
  encoded_tags_ e = 0 :: [0] /\
  0 <= 0 < Z.of_nat (length (tags_list_ e)) /\
  size d = 1%nat /\
  num_transitions <$> d !! 0 = Some 1 /\ d' !! 0 = d !! 0 /\
  d' !! 1 = Some DestInfo_default /\
  exists k v,
    d = {[k := v]} /\ wrap32 (k + 1) <> k /\
    d' = <[wrap32 (k + 1) := DestInfo_default]> {[k := v]} /\
    d' !! k = Some v /\ size d' = 2%nat /\
    guard_last_state key_order e
    = set_tags_list (update_tag 0 (set_dest_info d') (tags_list_ e)) e.
Proof.
  cbv zeta.
  assert (H1 : encoded_tags_ (machine_of [hello; hello]).2 = 0 :: [0])
    by (vm_compute; reflexivity).
  assert (H2 : 0 <= 0 <
               Z.of_nat (length (tags_list_ (machine_of [hello; hello]).2)))
    by (vm_compute; split; congruence).
  assert (H3 : size (dest_info
                       (tag_at (tags_list_ (machine_of [hello; hello]).2) 0))
               = 1%nat) by (vm_compute; reflexivity).
  do 3 (split; [assumption|]).
  do 3 (split; [vm_compute; reflexivity|]).
  pose proof (guard_last_state_not_single key_order key_order_perm
                (machine_of [hello; hello]).2 0 [0] H1 H2) as G.
  cbv zeta in G. destruct G as (_ & G & _). exact (G H3).
Defined.

(** C3 does not hold as stated: one record is a non-empty record
    sequence, and no transition leaves its only encoded tag. The guard
    finds zero destinations, not one, and adds nothing: at emission time
    the [dest_info] of the first encoded tag is empty. *)
Lemma guard_last_state_single_record :
  let e := (machine_of [hello]).2 in
  AddRecord_each 1000 [hello] Encoder_new
    = Some ([true], encoder_of [hello]) /\
  CreateStateMachine key_order kMaxTransition kMinCountForState
    (encoder_of [hello]) = Some (machine_of [hello]) /\
  encoded_tags_ e = [0] /\
  size (dest_info (tag_at (tags_list_ (guard_last_state key_order e)) 0))
    = 0%nat /\
  ~ (2 <= size (dest_info
                  (tag_at (tags_list_ (guard_last_state key_order e)) 0)))%nat.
Proof.
  cbv zeta.
  assert (H : size (dest_info
                      (tag_at (tags_list_
                                 (guard_last_state key_order
                                    (machine_of [hello]).2)) 0)) = 0%nat)
    by (vm_compute; reflexivity).
  do 3 (split; [vm_compute; reflexivity|]).
  split; [exact H|]. rewrite H. lia.
Qed.

(** A record with the varint field [f] of value 0. *)
Definition field0 (f : Z) : list byte := canonical_varint (8 * f) ++ [x00].

(** [n] records, each with a field of its own before field 1: the tag
    of field 1 gets [n] destinations, each reached from it alone. *)
Definition fan (n : nat) : list (list byte) :=
  map (fun f => field0 f ++ field0 1) (seqZ 2 (Z.of_nat n)).

(** The transition bytes of [EncodeAndClose] for [records]: the guard on
    the first encoded tag, then [WriteTransitions]. *)
Definition transitions_of (records : list (list byte))
  : list EncodedTagInfo * list byte :=
  let m := machine_of records in
  let e := guard_last_state key_order m.2 in
  match WriteTransitions kMaxTransition m.1 (encoded_tags_ e) (tags_list_ e)
          [] with
  | Some r => r
  | None => ([], [])
  end.

(** Three records in which field 1 follows the fields 2, 3 and 4: the
    offsets of the transitions are 2, 0, 1, 0 and 0, and the two bytes
    written are 9, for the offset 2 and one zero offset, and 6, for the
    offset 1 and two zero offsets. *)
Lemma WriteTransitions_zero_runs_witness :
  let m := machine_of (fan 3) in
  let e := guard_last_state key_order m.2 in
  let r := transitions_of (fan 3) in
  kMaxTransition <= 63 /\
  WriteTransitions kMaxTransition m.1 (encoded_tags_ e) (tags_list_ e) []
    = Some (r.1, r.2) /\
  stream_offsets kMaxTransition m.1 (encoded_tags_ e) (tags_list_ e)
    = Some [2; 0; 1; 0; 0] /\
  runs_of [2; 0; 1; 0; 0] = [(2, 1); (1, 2)] /\ r.2 = [x09; x06] /\
  exists offsets : list Z,
    stream_offsets kMaxTransition m.1 (encoded_tags_ e) (tags_list_ e)
      = Some offsets /\
    Forall (fun x => 0 <= x <= kMaxTransition) offsets /\
    r.2 = [] ++ map (fun run => Z_to_byte (wire_byte run)) (runs_of offsets) /\
    map byte_val r.2 = map byte_val [] ++ map wire_byte (runs_of offsets) /\
    Forall run_ok (runs_of offsets) /\
    concat (map run_offsets (runs_of offsets)) = offsets /\
    zero_runs_maximal (runs_of offsets).
Proof.
  cbv zeta.
  assert (H1 : kMaxTransition <= 63) by (vm_compute; congruence).
  assert (H2 : WriteTransitions kMaxTransition (machine_of (fan 3)).1
                 (encoded_tags_
                    (guard_last_state key_order (machine_of (fan 3)).2))
                 (tags_list_
                    (guard_last_state key_order (machine_of (fan 3)).2)) []
               = Some ((transitions_of (fan 3)).1, (transitions_of (fan 3)).2))
    by (vm_compute; reflexivity).
  split; [exact H1|]. split; [exact H2|].
  do 3 (split; [vm_compute; reflexivity|]).
  exact (WriteTransitions_zero_runs kMaxTransition _ _ _ _ [] _ H1 H2).
Defined.

(** C4 does not hold as stated: a pending byte whose offset is zero
    absorbs a following zero offset too. Three records of the same kind
    give two transitions of offset 0; [WriteTransitions] writes the one
    byte 1, which has offset 0 and run length 1, where the rule of the
    specification flushes the pending byte and writes the bytes 0, 0. *)
Lemma WriteTransitions_absorbs_after_zero_offset :
  let m := machine_of [hello; hello; hello] in
  let e := guard_last_state key_order m.2 in
  AddRecord_each 1000 [hello; hello; hello] Encoder_new
    = Some ([true; true; true], encoder_of [hello; hello; hello]) /\
  CreateStateMachine key_order kMaxTransition kMinCountForState
    (encoder_of [hello; hello; hello]) = Some m /\
  (exists tags',
     WriteTransitions kMaxTransition m.1 (encoded_tags_ e) (tags_list_ e) []
       = Some (tags', [x01])) /\
  Z.shiftr (byte_val x01) 2 = 0 /\ Z.land (byte_val x01) 3 = 1 /\
  flush_last (emit_offsets [0; 0] (None, [])) = [x01] /\
  flush_last (foldl emit_offset_as_specified (None, []) [0; 0]) = [x00; x00].
Proof.
  cbv zeta.
  split; [vm_compute; reflexivity|].
  split; [vm_compute; reflexivity|].
  split; [eexists; vm_compute; reflexivity|].
  split; [vm_compute; reflexivity|].
  split; [vm_compute; reflexivity|].
  split; vm_compute; reflexivity.
Qed.

(** A queue of [n] destinations, the tags 0 to [n - 1], each with one
    transition, and the tag list they index. *)
Definition queue_of (n : nat) : list PriorityQueueEntry :=
  foldl (fun q i => pq_push (mkPriorityQueueEntry i 1) q) []
    (seqZ 0 (Z.of_nat n)).

Definition tags_of (n : nat) : list EncodedTagInfo :=
  replicate n (EncodedTagInfo_new (0, 0) 0).

(** The tags and the bases of the states that [layout_states] leaves for
    a queue of [n] tags. *)
Definition laid_out (max_transition : Z) (n : nat) : list (Z * Z) :=
  match layout_states max_transition None (Z.of_nat n) [] (tags_of n) []
          (queue_of n) with
  | Some l => state_kind <$> l_state_machine l
  | None => []
  end.

(** Five states with transitions of at most 2: two blocks of three
    states, and one NoOp state, at the base of the list, which leads to
    the block that starts at state 3. *)
Lemma layout_states_blocks_witness :
  1 <= 2 <= 63 /\ 1 <= 5 /\ 5 = Z.of_nat (length (queue_of 5)) /\
  Forall (entry_ok None (Z.of_nat (length (tags_of 5))) 0) (queue_of 5) /\
  Z.of_nat (length (@nil StateInfo)) + 2 * 5 + Z.of_nat (length (tags_of 5))
    < kInvalidPos /\
  noop_count 2 5 = 1 /\
  laid_out 2 5
  = [(kInvalidPos, 3); (0, kInvalidPos); (1, kInvalidPos); (2, kInvalidPos);
     (3, kInvalidPos); (4, kInvalidPos)] /\
  let k := noop_count 2 5 in
  let first := (5 + k - 1) mod (2 + 1) + 1 in
  let starts :=
    block_starts (Z.of_nat (length (@nil StateInfo))) 2 (Z.to_nat k) in
  exists (l : Layout) (placed : list (Z * Z)),
    layout_states 2 None 5 [] (tags_of 5) [] (queue_of 5) = Some l /\
    Z.of_nat (length (l_state_machine l))
      = Z.of_nat (length (@nil StateInfo)) + 5 + k /\
    l_noop_base l = starts /\ Z.of_nat (length starts) = k /\
    state_kind <$> l_state_machine l = (state_kind <$> []) ++ placed /\
    placed ≡ₚ
      ((fun x => (dest_index x, kInvalidPos)) <$> queue_of 5)
      ++ ((fun b => (kInvalidPos, b)) <$> starts) /\
    5 + k = k * (2 + 1) + first /\
    (5 <= 2 + 1 -> k = 0 /\ first = 5) /\
    l_tag_priority l = [] /\
    l_prev_state l = Z.of_nat (length (@nil StateInfo)).
Proof.
  assert (H1 : 1 <= 2 <= 63) by lia.
  assert (H2 : 1 <= 5) by lia.
  assert (H3 : 5 = Z.of_nat (length (queue_of 5))) by reflexivity.
  assert (H4 : Forall (entry_ok None (Z.of_nat (length (tags_of 5))) 0)
                 (queue_of 5)).
  { vm_compute. repeat constructor; congruence. }
  assert (H5 : Z.of_nat (length (@nil StateInfo)) + 2 * 5
               + Z.of_nat (length (tags_of 5)) < kInvalidPos)
    by reflexivity.
  do 5 (split; [assumption|]).
  do 2 (split; [vm_compute; reflexivity|]).
  exact (layout_states_blocks 2 None 5 [] (tags_of 5) [] (queue_of 5)
           H1 H2 H3 H4 H5).
Defined.

(** C7 does not hold as stated: with 65 queued states and
    [kMaxTransition], one NoOp state is added and the 66 states are laid
    out in a block of 2 states at the end of the list and a block of 64
    states at its base, since the size of the last block is taken from
    the number of states with the NoOp states counted in. No block has
    the [((65 - 1) mod 64) + 1 = 1] states of the specification. The
    private list of the tag of field 1 in [fan 65] is such a list: it
    starts at state 1, which is its NoOp state and leads to the block of
    the states 65 and 66. *)
Lemma layout_states_last_block_65 :
  (exists l,
     layout_states kMaxTransition None 65 [] (tags_of 65) [] (queue_of 65)
       = Some l /\
     length (l_state_machine l) = 66%nat /\
     l_noop_base l = [64] /\ l_prev_state l = 0) /\
  noop_count kMaxTransition 65 = 1 /\
  (65 - 1) mod (kMaxTransition + 1) + 1 = 1 /\
  66 - 64 <> (65 - 1) mod (kMaxTransition + 1) + 1 /\
  64 - 0 <> (65 - 1) mod (kMaxTransition + 1) + 1 /\
  let m := machine_of (fan 65) in
  AddRecord_each 1000 (fan 65) Encoder_new
    = Some (replicate 65 true, encoder_of (fan 65)) /\
  CreateStateMachine key_order kMaxTransition kMinCountForState
    (encoder_of (fan 65)) = Some m /\
  size (dest_info (tag_at (tags_list_ m.2) 2)) = 65%nat /\
  base (tag_at (tags_list_ m.2) 2) = 1 /\
  map (fun s => (etag_index s, state_base s)) (take 1 (drop 1 m.1))
    = [(kInvalidPos, 65)] /\
  map canonical_source (take 66 (drop 1 m.1))
    = replicate 64 kInvalidPos ++ [1; 1].
Proof.
  split.
  { eexists. split; [vm_compute; reflexivity|].
    split; [vm_compute; reflexivity|].
    split; vm_compute; reflexivity. }
  split; [vm_compute; reflexivity|].
  split; [vm_compute; reflexivity|].
  split; [vm_compute; congruence|].
  split; [vm_compute; congruence|].
  cbv zeta.
  split; [vm_compute; reflexivity|].
  split; [vm_compute; reflexivity|].
  split; [vm_compute; reflexivity|].
  split; [vm_compute; reflexivity|].
  split; vm_compute; reflexivity.
Qed.





(** Two records that are not protobuf messages: the tag of the second
    transitions into the tag of the first. *)
Lemma CollectTransitionStatistics_front_incoming_witness :
  let e := encoder_of [hello; hello] in
  AddRecord_each 1000 [hello; hello] Encoder_new = Some ([true; true], e) /\
  encoded_tags_ e = 0 :: [0] /\
  Z.of_nat (length (encoded_tags_ e)) < 2 ^ 64 /\
  1 <= num_incoming_transitions
         (tag_at (tags_list_ (CollectTransitionStatistics e)) 0).
Proof.
  cbv zeta.
  assert (H1 : AddRecord_each 1000 [hello; hello] Encoder_new
               = Some ([true; true], encoder_of [hello; hello]))
    by (vm_compute; reflexivity).
  assert (H2 : encoded_tags_ (encoder_of [hello; hello]) = 0 :: [0])
    by (vm_compute; reflexivity).
  assert (H3 : Z.of_nat (length (encoded_tags_ (encoder_of [hello; hello])))
               < 2 ^ 64) by (vm_compute; reflexivity).
  do 3 (split; [assumption|]).
  exact (CollectTransitionStatistics_front_incoming 1000 [hello; hello]
           [true; true] (encoder_of [hello; hello]) 0 [0] H1 H2 H3).
Defined.

(** A record with the varint field [f] of value [v]. *)
Definition fieldv (f v : Z) : list byte :=
  canonical_varint (8 * f) ++ canonical_varint v.

Definition four_varints : list byte :=
  fieldv 1 300 ++ fieldv 2 70000 ++ fieldv 3 200 ++ fieldv 4 5.

(** What [WriteBuffers] leaves for [records], with buckets of at most
    [bucket_size] bytes and a compressor that copies its input. *)
Definition buffers_of (bucket_size : Z) (records : list (list byte))
  : list byte * BucketWriter * gmap NodeId Z :=
  match WriteBuffers 1 bucket_size (fun b => b) (encoder_of records)
          [] [] [] with
  | Some r => r
  | None => ([], mkBucketWriter [] [] [] [], ∅)
  end.

(** Two messages of four varint fields around a record that is no
    message, with a compression type other than [kNone] and buckets of 6
    bytes: the varint buffers of 6, 4, 4 and 2 bytes go to three buckets,
    the last of which holds two buffers. *)
Lemma WriteBuffers_buckets_witness :
  let records := [four_varints; hello; four_varints] in
  let e := encoder_of records in
  AddRecord_each 1000 records Encoder_new = Some ([true; true; true], e) /\
  bucket_size_of (concat (buffer_kinds e)) < 2 ^ 64 /\
  bw_buffer_lengths (buffers_of 6 records).1.2 = [6; 4; 4; 2; 5; 1] /\
  bw_bucket_lengths (buffers_of 6 records).1.2 = [6; 4; 6; 5; 1] /\
  exists (h : list byte) (w : BucketWriter) (bp : gmap NodeId Z)
         (bucketss : list (list (list (list byte)))),
    WriteBuffers 1 6 (fun b => b) e [] [] [] = Some (h, w, bp) /\
    Forall2 (fun kind buckets =>
               concat buckets = kind /\ Forall (bucket_ok 1 6) buckets /\
               buckets_greedy 1 6 buckets) (buffer_kinds e) bucketss /\
    (1 <> kNone ->
     Forall (fun buckets =>
               Forall (bucket_within 6) buckets /\
               cut_at_crossing 6 buckets) bucketss) /\
    (1 = kNone -> bucketss = map one_bucket (buffer_kinds e)) /\
    bw_data_writer w =
      concat (map (fun b => (fun b => b) (concat b)) (concat bucketss)) /\
    bw_bucket_lengths w =
      map (fun b => Z.of_nat (length ((fun b => b) (concat b))))
        (concat bucketss) /\
    bw_buffer_lengths w =
      map (fun b => Z.of_nat (length b)) (concat (buffer_kinds e)).
Proof.
  cbv zeta.
  assert (H0 : AddRecord_each 1000 [four_varints; hello; four_varints]
                 Encoder_new
               = Some ([true; true; true],
                       encoder_of [four_varints; hello; four_varints]))
    by (vm_compute; reflexivity).
  assert (H3 : bucket_size_of
                 (concat (buffer_kinds
                            (encoder_of [four_varints; hello; four_varints])))
               < 2 ^ 64) by (vm_compute; reflexivity).
  do 2 (split; [assumption|]).
  do 2 (split; [vm_compute; reflexivity|]).
  exact (WriteBuffers_buckets 1000 1 6 (fun b => b) _ _ _ [] H0 H3).
Defined.

(** C5 does not hold as stated: with the compression type [kNone] the
    bucket size given to the constructor is not the limit of a bucket.
    For the same three records and a bucket size of 6, the four varint
    buffers, of 6, 4, 4 and 2 bytes, are written as one bucket of 16
    bytes, which is above the bucket size and holds more than one buffer;
    with another compression type they go to buckets of 6, 4 and 6
    bytes. *)
Lemma WriteBuffers_one_bucket_without_compression :
  let records := [four_varints; hello; four_varints] in
  let e := encoder_of records in
  AddRecord_each 1000 records Encoder_new = Some ([true; true; true], e) /\
  map (map (fun b => Z.of_nat (length b))) (buffer_kinds e)
    = [[6; 4; 4; 2]; []; []; []; [5]; [1]] /\
  (exists h w bp,
     WriteBuffers kNone 6 (fun b => b) e [] [] [] = Some (h, w, bp) /\
     bw_buffer_lengths w = [6; 4; 4; 2; 5; 1] /\
     bw_bucket_lengths w = [16; 5; 1]) /\
  (exists h w bp,
     WriteBuffers 1 6 (fun b => b) e [] [] [] = Some (h, w, bp) /\
     bw_buffer_lengths w = [6; 4; 4; 2; 5; 1] /\
     bw_bucket_lengths w = [6; 4; 6; 5; 1]) /\
  ~ bucket_within 6 (default [] (buffer_kinds e !! 0%nat)).
Proof.
  cbv zeta.
  split; [vm_compute; reflexivity|].
  split; [vm_compute; reflexivity|].
  split; [do 3 eexists; split; [vm_compute; reflexivity|];
          split; vm_compute; reflexivity|].
  split; [do 3 eexists; split; [vm_compute; reflexivity|];
          split; vm_compute; reflexivity|].
  intros [_ [H|(b & Hb & _)]].
  - vm_compute in H. apply H. reflexivity.
  - vm_compute in Hb. discriminate.
Qed.

(** A run that meets the destinations of a tag in the opposite order. *)
Definition backwards (tag_id : Z) (d : gmap Z DestInfo)
  : list (Z * DestInfo) :=
  reverse (map_to_list d).

Lemma backwards_perm (i : Z) (d : gmap Z DestInfo) :
  backwards i d ≡ₚ map_to_list d.
Proof. apply reverse_Permutation. Qed.

(** Three records in which field 1 follows the fields 2, 3 and 4: the
    tag of field 1 has three destinations, which the two runs meet in
    different orders, and the chunks are the same. *)
Lemma EncodeAndClose_deterministic_witness :
  let e := encoder_of (fan 3) in
  let d := dest_info (tag_at (tags_list_ (CollectTransitionStatistics e)) 2) in
  AddRecord_each 1000 (fan 3) Encoder_new = Some ([true; true; true], e) /\
  2 * Z.of_nat (length (encoded_tags_ e))
    + 3 * Z.of_nat (length (tags_list_ e)) + 65 <= 2 ^ 32 /\
  map fst (backwards 2 d) <> map fst (key_order 2 d) /\
  EncodeAndClose key_order 0 16 (fun b => b) [] e
  = EncodeAndClose backwards 0 16 (fun b => b) [] e.
Proof.
  cbv zeta.
  assert (H1 : AddRecord_each 1000 (fan 3) Encoder_new
               = Some ([true; true; true], encoder_of (fan 3)))
    by (vm_compute; reflexivity).
  assert (H2 : 2 * Z.of_nat (length (encoded_tags_ (encoder_of (fan 3))))
               + 3 * Z.of_nat (length (tags_list_ (encoder_of (fan 3))))
               + 65 <= 2 ^ 32)
    by (vm_compute; congruence).
  split; [exact H1|]. split; [exact H2|].
  split; [vm_compute; congruence|].
  exact (EncodeAndClose_deterministic key_order backwards 1000 0 16
           (fun b => b) (fan 3) [true; true; true] (encoder_of (fan 3)) []
           key_order_perm backwards_perm H1 H2).
Defined.

(** ** Examples of the further properties *)

(** Two messages of four varint fields around a record that is no
    message. *)
Definition three_records : list (list byte) :=
  [four_varints; hello; four_varints].

(** A message of four varint fields is read by [AddMessage]. *)
Lemma AddMessage_reads_what_IsProtoMessage_accepts_witness :
  IsProtoMessage four_varints = true /\
  exists e',
    AddMessage (length four_varints) four_varints kRoot 0 Encoder_new
      = Some e' /\
    state_ e' = state_ Encoder_new /\
    num_records_ e' = num_records_ Encoder_new /\
    decoded_data_size_ e' = decoded_data_size_ Encoder_new /\
    group_stack_ e' = group_stack_ Encoder_new.
Proof.
  assert (H : IsProtoMessage four_varints = true) by (vm_compute; reflexivity).
  split; [exact H|].
  exact (AddMessage_reads_what_IsProtoMessage_accepts four_varints kRoot 0
           Encoder_new H).
Defined.

(** The three records leave six entries in [tags_list_] and eleven
    encoded tags, all of them indices of [tags_list_]. *)
Lemma AddRecord_keeps_tags_in_range_witness :
  let e := encoder_of three_records in
  AddRecord_each 1000 three_records Encoder_new
    = Some ([true; true; true], e) /\
  Forall (fun t => 0 <= t < Z.of_nat (length (tags_list_ e)))
    (encoded_tags_ e) /\
  Forall (fun t => t = EncodedTagInfo_new (node_id t) (subtype t))
    (tags_list_ e) /\
  (forall id node, message_nodes_ e !! id = Some node ->
     Forall (tag_pos_ok (tags_list_ e)) (encoded_tag_pos node)) /\
  Forall (Forall (fun b => buffer b <> [])) (data_ e).
Proof.
  cbv zeta.
  assert (H : AddRecord_each 1000 three_records Encoder_new
              = Some ([true; true; true], encoder_of three_records))
    by (vm_compute; reflexivity).
  split; [exact H|].
  exact (AddRecord_keeps_tags_in_range 1000 three_records _ _ H).
Defined.

(** The three records leave four buffers of varints and one of records
    that are no messages, each of a node of its own. *)
Lemma GetBuffer_one_buffer_for_a_node_witness :
  let e := encoder_of three_records in
  AddRecord_each 1000 three_records Encoder_new
    = Some ([true; true; true], e) /\
  (forall i j bs b,
      data_ e !! i = Some bs -> bs !! j = Some b ->
      exists node,
        message_nodes_ e !! buffer_node_id b = Some node /\
        writer node = Some (i, j)) /\
  NoDup (map buffer_node_id (concat (data_ e))).
Proof.
  cbv zeta.
  assert (H : AddRecord_each 1000 three_records Encoder_new
              = Some ([true; true; true], encoder_of three_records))
    by (vm_compute; reflexivity).
  split; [exact H|].
  exact (GetBuffer_one_buffer_for_a_node 1000 three_records _ _ H).
Defined.

(** The buffers of varints of the three records, of 4, 6, 4 and 2
    bytes: sorted, the buffer of 6 bytes comes first and the one of 2
    bytes last. *)
Lemma sort_buffers_is_the_sorted_order_witness :
  let e := encoder_of three_records in
  let buffers := default [] (data_ e !! 0%nat) in
  let sorted := sort_buffers buffers in
  AddRecord_each 1000 three_records Encoder_new
    = Some ([true; true; true], e) /\
  buffers ∈ data_ e /\ sorted ≡ₚ buffers /\ in_order sorted /\
  map (fun b => length (buffer b)) buffers = [4; 6; 4; 2]%nat /\
  map (fun b => length (buffer b)) sorted = [6; 4; 4; 2]%nat /\
  sorted = sort_buffers buffers /\
  sort_buffers buffers ≡ₚ buffers /\ in_order (sort_buffers buffers).
Proof.
  cbv zeta.
  assert (H : AddRecord_each 1000 three_records Encoder_new
              = Some ([true; true; true], encoder_of three_records))
    by (vm_compute; reflexivity).
  assert (H1 : default [] (data_ (encoder_of three_records) !! 0%nat)
               ∈ data_ (encoder_of three_records)).
  { apply list_elem_of_lookup. exists 0%nat. vm_compute. reflexivity. }
  pose proof (sort_buffers_perm
                (default [] (data_ (encoder_of three_records) !! 0%nat)))
    as H2.
  pose proof (sort_buffers_in_order
                (default [] (data_ (encoder_of three_records) !! 0%nat)))
    as H3.
  split; [exact H|]. split; [exact H1|]. split; [exact H2|].
  split; [exact H3|].
  split; [vm_compute; reflexivity|]. split; [vm_compute; reflexivity|].
  exact (sort_buffers_is_the_sorted_order 1000 three_records _ _ _ _ H H1
           H2 H3).
Defined.

(** Two destinations pushed in the two orders: the one with more
    transitions is at the top. *)
Lemma pq_push_any_order_witness :
  let a := mkPriorityQueueEntry 7 1 in
  let b := mkPriorityQueueEntry 3 2 in
  [a; b] ≡ₚ [b; a] /\
  foldr pq_push [] [a; b] = foldr pq_push [] [b; a] /\
  foldr pq_push [] [a; b] ≡ₚ [a; b] /\
  queue_ordered (foldr pq_push [] [a; b]).
Proof.
  cbv zeta.
  assert (H : [mkPriorityQueueEntry 7 1; mkPriorityQueueEntry 3 2]
              ≡ₚ [mkPriorityQueueEntry 3 2; mkPriorityQueueEntry 7 1])
    by apply perm_swap.
  split; [exact H|].
  exact (pq_push_any_order _ _ H).
Defined.

(** Ten times the two records in which field 1 follows field 2 and
    field 3. *)
Definition busy_records : list (list byte) := concat (replicate 10 (fan 2)).

(** In the busy records the tag of field 1 has two destinations with
    ten transitions each, which the two runs meet in different orders.
    Both are marked for the private list, as is the only destination of
    every other tag, and the incoming counts, which were 20, 10, 19 and
    10, are 0 afterwards. *)
Lemma mark_in_list_any_order_witness :
  let tags :=
    tags_list_ (CollectTransitionStatistics (encoder_of busy_records)) in
  let marked :=
    foldl (mark_in_list key_order kMinCountForState) tags
      (indices (length tags)) in
  (forall i d, backwards i d ≡ₚ map_to_list d) /\
  map (fun x => (x.1, num_transitions x.2))
    (backwards 2 (dest_info (tag_at tags 2))) = [(1, 10); (3, 10)] /\
  map (fun x => (x.1, num_transitions x.2))
    (key_order 2 (dest_info (tag_at tags 2))) = [(3, 10); (1, 10)] /\
  pos <$> dest_info (tag_at tags 2) !! 1 = Some kInvalidPos /\
  pos <$> dest_info (tag_at tags 2) !! 3 = Some kInvalidPos /\
  pos <$> dest_info (tag_at marked 2) !! 1 = Some kInListPos /\
  pos <$> dest_info (tag_at marked 2) !! 3 = Some kInListPos /\
  map num_incoming_transitions tags = [20; 10; 19; 10] /\
  map num_incoming_transitions marked = [0; 0; 0; 0] /\
  foldl (mark_in_list backwards kMinCountForState) tags
    (indices (length tags))
  = marked.
Proof.
  cbv zeta. split; [exact backwards_perm|].
  do 8 (split; [vm_compute; reflexivity|]).
  exact (mark_in_list_any_order backwards kMinCountForState _ backwards_perm).
Defined.

(** The public list of [n] tags, each with one transition into it, for
    transitions of at most [max_transition]. *)
Definition public_of (max_transition : Z) (n : nat)
  : list StateInfo * list EncodedTagInfo :=
  match create_public_list max_transition []
          (replicate n (incr_num_incoming (EncodedTagInfo_new (0, 0) 0)))
  with
  | Some r => r
  | None => ([], [])
  end.

(** Five tags and transitions of at most 2: the public list has six
    states in two blocks. State 0 is a NoOp state whose base is 3, the
    start of the second block, and it is the canonical source of the
    states 3, 4 and 5. *)
Lemma create_public_list_is_a_tree_witness :
  let tags := replicate 5 (incr_num_incoming (EncodedTagInfo_new (0, 0) 0)) in
  1 <= 2 /\
  (forall i, state_machine_pos (tag_at tags i) = kInvalidPos) /\
  Z.of_nat (length (@nil StateInfo)) + 3 * Z.of_nat (length tags) + 2 + 2
    <= 2 ^ 32 /\
  map (fun s => (etag_index s, state_base s, canonical_source s))
    (public_of 2 5).1
  = [(kInvalidPos, 3, kInvalidPos); (0, kInvalidPos, kInvalidPos);
     (1, kInvalidPos, kInvalidPos); (2, kInvalidPos, 0);
     (3, kInvalidPos, 0); (4, kInvalidPos, 0)] /\
  exists state_machine' tags',
    create_public_list 2 [] tags = Some (state_machine', tags') /\
    public_tree 2 (Z.of_nat (length (@nil StateInfo))) state_machine' /\
    (forall p,
        Z.of_nat (length (@nil StateInfo)) <= p
          < Z.of_nat (length state_machine') ->
        block_of 2 (Z.of_nat (length (@nil StateInfo))) p
          <> Z.of_nat (length (@nil StateInfo)) ->
        Z.of_nat (length (@nil StateInfo)) <= source_at state_machine' p
          < block_of 2 (Z.of_nat (length (@nil StateInfo))) p /\
        exists s,
          state_machine' !! Z.to_nat (source_at state_machine' p) = Some s /\
          etag_index s = kInvalidPos /\
          state_base s = block_of 2 (Z.of_nat (length (@nil StateInfo))) p) /\
    Z.of_nat (length (@nil StateInfo)) <= Z.of_nat (length state_machine')
      <= Z.of_nat (length (@nil StateInfo)) + 2 * Z.of_nat (length tags) /\
    length tags' = length tags /\
    (forall i,
        state_machine_pos (tag_at tags' i) = kInvalidPos \/
        Z.of_nat (length (@nil StateInfo))
          <= state_machine_pos (tag_at tags' i)
          < Z.of_nat (length state_machine')).
Proof.
  cbv zeta.
  assert (H1 : 1 <= 2) by lia.
  assert (H2 : forall i,
             state_machine_pos
               (tag_at (replicate 5
                          (incr_num_incoming (EncodedTagInfo_new (0, 0) 0)))
                  i) = kInvalidPos).
  { intros i. apply tag_at_pos_invalid. vm_compute.
    repeat constructor. }
  assert (H3 : Z.of_nat (length (@nil StateInfo))
               + 3 * Z.of_nat
                       (length (replicate 5
                                  (incr_num_incoming
                                     (EncodedTagInfo_new (0, 0) 0))))
               + 2 + 2 <= 2 ^ 32) by (vm_compute; discriminate).
  split; [exact H1|]. split; [exact H2|]. split; [exact H3|].
  split; [vm_compute; reflexivity|].
  exact (create_public_list_is_a_tree 2 [] _ H1 H2 H3).
Defined.

(** The three records are accepted: three records of 29 bytes. *)
Lemma AddRecord_counts_accepted_records_witness :
  let e := encoder_of three_records in
  AddRecord_each 1000 three_records Encoder_new
    = Some ([true; true; true], e) /\
  0 <= 1000 < 2 ^ 64 /\
  num_records_ e = 3 /\ decoded_data_size_ e = 29 /\
  length [true; true; true] = length three_records /\
  num_records_ e
  = Z.of_nat (length (accepted three_records [true; true; true])) /\
  decoded_data_size_ e
  = Z.of_nat (length (concat (accepted three_records [true; true; true]))) /\
  num_records_ e <= 1000 /\
  decoded_data_size_ e <= uint64_max.
Proof.
  cbv zeta.
  assert (H : AddRecord_each 1000 three_records Encoder_new
              = Some ([true; true; true], encoder_of three_records))
    by (vm_compute; reflexivity).
  assert (H1 : 0 <= 1000 < 2 ^ 64) by (split; [lia|reflexivity]).
  split; [exact H|]. split; [exact H1|].
  split; [vm_compute; reflexivity|]. split; [vm_compute; reflexivity|].
  exact (AddRecord_counts_accepted_records 1000 three_records _ _ H H1).
Defined.

(** In the encoded tags of the three records the tag 0, of the start of
    a message, is followed twice by the tag 1: the tag 1 has two
    transitions to the tag 0. *)
Lemma CollectTransitionStatistics_counts_transitions_witness :
  let e := encoder_of three_records in
  let tags := tags_list_ (CollectTransitionStatistics e) in
  AddRecord_each 1000 three_records Encoder_new
    = Some ([true; true; true], e) /\
  Z.of_nat (length (encoded_tags_ e)) < 2 ^ 64 /\ 0 <= 1 /\ 0 <= 0 /\
  transitions_between 1 0 (encoded_tags_ e) = 2 /\
  num_transitions (dest_at (dest_info (tag_at tags 1)) 0)
  = transitions_between 1 0 (encoded_tags_ e) /\
  (is_Some (dest_info (tag_at tags 1) !! 0) <->
   0 < transitions_between 1 0 (encoded_tags_ e)) /\
  num_incoming_transitions (tag_at tags 0)
  = (let n := occurrences 0 (removelast (encoded_tags_ e)) in
     if (n =? 0) && bool_decide (last (encoded_tags_ e) = Some 0)
     then 1 else n).
Proof.
  cbv zeta.
  assert (H : AddRecord_each 1000 three_records Encoder_new
              = Some ([true; true; true], encoder_of three_records))
    by (vm_compute; reflexivity).
  assert (H1 : Z.of_nat (length (encoded_tags_ (encoder_of three_records)))
               < 2 ^ 64) by (vm_compute; reflexivity).
  assert (H2 : 0 <= 1) by lia.
  assert (H3 : 0 <= 0) by lia.
  split; [exact H|]. split; [exact H1|]. split; [exact H2|].
  split; [exact H3|]. split; [vm_compute; reflexivity|].
  exact (CollectTransitionStatistics_counts_transitions 1000 three_records
           _ _ 1 0 H H1 H2 H3).
Defined.

(** In the state machine of [fan 65], the state 66 is reached from the
    base 1 through the NoOp state 1, whose base is 65. *)
Lemma encode_hops_leads_to_the_position_witness :
  let state_machine := (machine_of (fan 65)).1 in
  encode_hops kWriteBufSize kMaxTransition state_machine 1 66 []
    = Some [0; 1] /\
  follow_hops state_machine 1 [0; 1] = Some 66 /\
  Forall (fun offset => 0 <= offset <= kMaxTransition) [0; 1] /\
  (1 <= length [0; 1] <= kWriteBufSize)%nat.
Proof.
  cbv zeta.
  assert (H : encode_hops kWriteBufSize kMaxTransition
                (machine_of (fan 65)).1 1 66 [] = Some [0; 1])
    by (vm_compute; reflexivity).
  split; [exact H|].
  exact (encode_hops_leads_to_the_position kMaxTransition _ 1 66 [0; 1] H).
Defined.

(** In the state machine of [fan 65] the first state of the tag 1 is the
    state 2. *)
Lemma find_first_tag_pos_is_the_first_witness :
  let state_machine := (machine_of (fan 65)).1 in
  Z.of_nat (length state_machine) <= 2 ^ 32 /\
  find_first_tag_pos state_machine 1 0 = Some 2 /\
  match find_first_tag_pos state_machine 1 0 with
  | Some p =>
      0 <= p < Z.of_nat (length state_machine) /\
      (exists s, state_machine !! Z.to_nat p = Some s /\
                 etag_index s = 1) /\
      (forall i s, (i < Z.to_nat p)%nat ->
                   state_machine !! i = Some s -> etag_index s <> 1)
  | None => Forall (fun s => etag_index s <> 1) state_machine
  end.
Proof.
  cbv zeta.
  assert (H : Z.of_nat (length (machine_of (fan 65)).1) <= 2 ^ 32)
    by (vm_compute; discriminate).
  split; [exact H|]. split; [vm_compute; reflexivity|].
  exact (find_first_tag_pos_is_the_first 1 _ H).
Defined.

(** The buffers of the three records: [buffer_pos] has five entries. *)
Lemma WriteBuffers_buffer_pos_is_the_place_witness :
  let e := encoder_of three_records in
  let written := concat (map sort_buffers (data_ e)) in
  AddRecord_each 1000 three_records Encoder_new
    = Some ([true; true; true], e) /\
  Z.of_nat (length (concat (data_ e))) <= 2 ^ 32 /\
  length written = 5%nat /\
  exists header w buffer_pos,
    WriteBuffers 1 6 (fun b => b) e [] [] [] = Some (header, w, buffer_pos) /\
    size buffer_pos = length written /\
    (forall id i,
        buffer_pos !! id = Some i <->
        exists (n : nat) b,
          written !! n = Some b /\ buffer_node_id b = id /\
          i = Z.of_nat n) /\
    (forall (n : nat) b,
        written !! n = Some b ->
        buffer_pos !! buffer_node_id b = Some (Z.of_nat n) /\
        bw_buffer_lengths w !! n = Some (Z.of_nat (length (buffer b)))).
Proof.
  cbv zeta.
  assert (H : AddRecord_each 1000 three_records Encoder_new
              = Some ([true; true; true], encoder_of three_records))
    by (vm_compute; reflexivity).
  assert (H1 : Z.of_nat (length (concat (data_ (encoder_of three_records))))
               <= 2 ^ 32) by (vm_compute; discriminate).
  split; [exact H|]. split; [exact H1|]. split; [vm_compute; reflexivity|].
  exact (WriteBuffers_buffer_pos_is_the_place 1000 three_records
           [true; true; true] (encoder_of three_records) [] [] []
           1 6 (fun b => b) H H1).
Defined.

(** What the loop over the states of [WriteStatesAndData] collects for
    [records], with buckets of 6 bytes. *)
Definition states_of (records : list (list byte)) : StateWriter :=
  let e := guard_last_state key_order (machine_of records).2 in
  match foldl (write_state (tags_list_ e) (buffers_of 6 records).2
                 (wrap32 (Z.of_nat (length (machine_of records).1))))
          (Some (mkStateWriter [] [] [] [])) (machine_of records).1 with
  | Some sw => sw
  | None => mkStateWriter [] [] [] []
  end.

(** The state machine of the three records has six states, all of them
    of a tag, and five of them with a buffer. *)
Lemma write_state_tables_witness :
  let e := guard_last_state key_order (machine_of three_records).2 in
  let state_machine := (machine_of three_records).1 in
  let buffer_pos := (buffers_of 6 three_records).2 in
  let num_states := wrap32 (Z.of_nat (length state_machine)) in
  let sw := states_of three_records in
  foldl (write_state (tags_list_ e) buffer_pos num_states)
    (Some (mkStateWriter [] [] [] [])) state_machine = Some sw /\
  length state_machine = 6%nat /\
  length (sw_buffer_index_to_write sw) = 5%nat /\
  sw_base_to_write sw
  = map (base_written (tags_list_ e) num_states) state_machine /\
  (length (sw_buffer_index_to_write sw) <= length state_machine)%nat /\
  Forall (fun i =>
            exists s, s ∈ state_machine /\
                      etag_index s <> kInvalidPos /\
                      buffer_pos
                        !! node_id (tag_at (tags_list_ e) (etag_index s))
                      = Some i)
    (sw_buffer_index_to_write sw).
Proof.
  cbv zeta.
  assert (H : foldl
                (write_state
                   (tags_list_
                      (guard_last_state key_order
                         (machine_of three_records).2))
                   (buffers_of 6 three_records).2
                   (wrap32 (Z.of_nat (length (machine_of three_records).1))))
                (Some (mkStateWriter [] [] [] []))
                (machine_of three_records).1
              = Some (states_of three_records))
    by (vm_compute; reflexivity).
  split; [exact H|]. split; [vm_compute; reflexivity|].
  split; [vm_compute; reflexivity|].
  exact (write_state_tables _ _ _ _ _ _ H).
Defined.

(** After a message of four varint fields, [hello] is refused as it is
    on its own, and the message is accepted again. *)
Lemma IsProtoMessage_after_a_message_witness :
  IsProtoMessage four_varints = true /\
  IsProtoMessage (four_varints ++ hello) = IsProtoMessage hello /\
  IsProtoMessage hello = false /\
  IsProtoMessage (four_varints ++ four_varints) = IsProtoMessage four_varints.
Proof.
  assert (H : IsProtoMessage four_varints = true) by (vm_compute; reflexivity).
  split; [exact H|].
  split; [exact (IsProtoMessage_after_a_message four_varints hello H)|].
  split; [vm_compute; reflexivity|].
  exact (IsProtoMessage_after_a_message four_varints four_varints H).
Defined.

(** The encoder after [records] were added to [e], with room for
    [kMaxNumRecords] records. *)
Definition added_to (kMaxNumRecords : Z) (records : list (list byte))
    (e : Encoder) : Encoder :=
  match AddRecord_each kMaxNumRecords records e with
  | Some (_, e') => e'
  | None => e
  end.

(** A message added after [hello], and then a record that is refused as
    there is room for two records only. *)
Lemma AddRecord_only_adds_witness :
  let e := encoder_of [hello] in
  let e' := added_to 2 [four_varints; hello] e in
  AddRecord_each 2 [four_varints; hello] e = Some ([true; false], e') /\
  grows e e'.
Proof.
  cbv zeta.
  assert (H : AddRecord_each 2 [four_varints; hello] (encoder_of [hello])
              = Some ([true; false],
                      added_to 2 [four_varints; hello] (encoder_of [hello])))
    by (vm_compute; reflexivity).
  split; [exact H|].
  exact (AddRecord_only_adds 2 [four_varints; hello] [true; false]
           (encoder_of [hello])
           (added_to 2 [four_varints; hello] (encoder_of [hello])) H).
Defined.

(** The six encoded tags of the three records. *)
Lemma GetPosInTagsList_interns_witness :
  let e := encoder_of three_records in
  AddRecord_each 1000 three_records Encoder_new
    = Some ([true; true; true], e) /\
  Z.of_nat (length (tags_list_ e)) < kInvalidPos /\
  length (tags_list_ e) = 6%nat /\
  interned e /\
  NoDup (map (fun x => (node_id x, subtype x)) (tags_list_ e)).
Proof.
  cbv zeta.
  assert (H : AddRecord_each 1000 three_records Encoder_new
              = Some ([true; true; true], encoder_of three_records))
    by (vm_compute; reflexivity).
  assert (H1 : Z.of_nat (length (tags_list_ (encoder_of three_records)))
               < kInvalidPos) by (vm_compute; reflexivity).
  split; [exact H|]. split; [exact H1|]. split; [vm_compute; reflexivity|].
  exact (GetPosInTagsList_interns 1000 three_records _ _ H H1).
Defined.

(** The six nodes of the three records have the message ids 5 to 10. *)
Lemma GetNode_gives_ids_in_turn_witness :
  let e := encoder_of three_records in
  AddRecord_each 1000 three_records Encoder_new
    = Some ([true; true; true], e) /\
  Z.of_nat (size (message_nodes_ e)) + kRoot + 1 < 2 ^ 32 /\
  next_message_id_ e = 11 /\
  ids_in_turn e.
Proof.
  cbv zeta.
  assert (H : AddRecord_each 1000 three_records Encoder_new
              = Some ([true; true; true], encoder_of three_records))
    by (vm_compute; reflexivity).
  assert (H1 : Z.of_nat (size (message_nodes_ (encoder_of three_records)))
               + kRoot + 1 < 2 ^ 32) by (vm_compute; reflexivity).
  split; [exact H|]. split; [exact H1|]. split; [vm_compute; reflexivity|].
  exact (GetNode_gives_ids_in_turn 1000 three_records _ _ H H1).
Defined.

(** The five tags of [public_of 2 5], the first with the tags 1 and 4 as
    destinations that are served from the public list. *)
Definition tags_to_1_and_4 : list EncodedTagInfo :=
  update_tag 0
    (set_dest_info
       (<[1 := DestInfo_default]> (<[4 := DestInfo_default]> ∅)))
    (public_of 2 5).2.

(** In the public list of [public_of 2 5] the state of the tag 1 is in
    the block at the base and the state of the tag 4 in the block of the
    NoOp state 0: both are reached through the block at the base, the
    second by the state 0. *)
Lemma scan_destinations_finds_the_base_witness :
  let state_machine := (public_of 2 5).1 in
  let tags := tags_to_1_and_4 in
  let dests := public_dests tags (key_order 0 (dest_info (tag_at tags 0))) in
  let found := scan_destinations key_order 2 0 state_machine tags 0 in
  0 <= 2 /\ 0 <= 0 /\
  Z.of_nat (length state_machine) < kInvalidPos /\
  public_tree 2 0 state_machine /\
  (forall i, state_machine_pos (tag_at tags i) = kInvalidPos \/
             0 <= state_machine_pos (tag_at tags i)
               < Z.of_nat (length state_machine)) /\
  dests = [5; 2] /\ found = Some (0, 0) /\
  ((kInvalidPos ∈ dests /\ found = None) \/
   ((kInvalidPos ∉ dests) /\
    ((dests = [] /\ found = Some (kInvalidPos, kInvalidPos)) \/
     (exists base min_pos,
         found = Some (base, min_pos) /\
         covers 2 0 state_machine dests base min_pos)))).
Proof.
  cbv zeta.
  assert (H1 : 0 <= 2) by lia.
  assert (H2 : 0 <= 0) by lia.
  assert (H3 : Z.of_nat (length (public_of 2 5).1) < kInvalidPos)
    by (vm_compute; reflexivity).
  assert (H4 : public_tree 2 0 (public_of 2 5).1).
  { refine (proj1 (create_public_list_tree 2 [] (public_of 2 5).1
                     (replicate 5
                        (incr_num_incoming (EncodedTagInfo_new (0, 0) 0)))
                     (public_of 2 5).2 ltac:(lia) _ _ _)).
    - intros i. apply tag_at_pos_invalid. vm_compute. repeat constructor.
    - vm_compute. discriminate.
    - vm_compute. reflexivity. }
  assert (H5 : forall i,
             state_machine_pos (tag_at tags_to_1_and_4 i) = kInvalidPos \/
             0 <= state_machine_pos (tag_at tags_to_1_and_4 i)
               < Z.of_nat (length (public_of 2 5).1)).
  { intros i. unfold tag_at.
    destruct (tags_to_1_and_4 !! Z.to_nat i) as [t|] eqn:L; cbn [default];
      [right|left; reflexivity].
    assert (F : forallb (fun t => (0 <=? state_machine_pos t)
                                  && (state_machine_pos t <? 6))
                  tags_to_1_and_4 = true) by (vm_compute; reflexivity).
    apply list_elem_of_lookup_2, list_elem_of_In in L.
    apply (proj1 (forallb_forall _ _) F) in L.
    apply andb_prop in L as [La Lb].
    apply Z.leb_le in La. apply Z.ltb_lt in Lb.
    change (Z.of_nat (length (public_of 2 5).1)) with 6.
    change (id t) with t. lia. }
  split; [exact H1|]. split; [exact H2|]. split; [exact H3|].
  split; [exact H4|]. split; [exact H5|].
  split; [vm_compute; reflexivity|]. split; [vm_compute; reflexivity|].
  exact (scan_destinations_finds_the_base key_order 2 0 (public_of 2 5).1
           tags_to_1_and_4 0 H1 H2 H3 H4 H5).
Defined.

(** The three records: the buffers hold 21 of their 29 bytes. *)
Lemma AddRecord_stores_no_more_than_it_read_witness :
  let e := encoder_of three_records in
  AddRecord_each 1000 three_records Encoder_new
    = Some ([true; true; true], e) /\
  0 <= 1000 < 2 ^ 64 /\
  stored e = 21 /\
  0 <= stored e <= decoded_data_size_ e /\ decoded_data_size_ e < 2 ^ 64.
Proof.
  cbv zeta.
  assert (H : AddRecord_each 1000 three_records Encoder_new
              = Some ([true; true; true], encoder_of three_records))
    by (vm_compute; reflexivity).
  assert (H1 : 0 <= 1000 < 2 ^ 64) by (split; [lia|reflexivity]).
  split; [exact H|]. split; [exact H1|]. split; [vm_compute; reflexivity|].
  exact (AddRecord_stores_no_more_than_it_read 1000 three_records _ _ H H1).
Defined.

(** A message between two records that are no messages. *)
Definition two_no_messages : list (list byte) :=
  [hello; four_varints; [xff]].

(** The buffer holds the byte of the third record before the five of the
    first, and the lengths are 1 and 5. *)
Lemma AddRecord_keeps_the_records_that_are_no_messages_witness :
  let e := encoder_of two_no_messages in
  AddRecord_each 1000 two_no_messages Encoder_new
    = Some ([true; true; true], e) /\
  no_messages (accepted two_no_messages [true; true; true])
    = [hello; [xff]] /\
  data_ e !! buffer_type_index kNonProtoBuf
    = Some [mkBuffer ([xff] ++ hello) (kNonProto, 0)] /\
  nonproto_lengths_writer_ e = [x01; x05].
Proof.
  cbv zeta.
  assert (H : AddRecord_each 1000 two_no_messages Encoder_new
              = Some ([true; true; true], encoder_of two_no_messages))
    by (vm_compute; reflexivity).
  split; [exact H|]. split; [vm_compute; reflexivity|].
  exact (AddRecord_keeps_the_records_that_are_no_messages 1000
           two_no_messages _ _ H).
Defined.
